(** * Dynamic incomplete Cholesky tools on the linked-CSR factor

    A shallow embedding of [sparse-iter/control/magma_zmdynamicilu_tools.cpp]:
    the insertion of candidates into the linked list of each row, the
    threshold removal, the threshold selection, the fixed-point sweep, the
    residuals of the candidates and the candidate discovery.

    Conventions of the embedding.
    - [magma_int_t] and [magma_index_t] are modelled as [Z]; the counters of
      the source only ever count array positions, so no wrap-around occurs
      on arrays that fit in memory.
    - An array is a [list]; a read or a write outside of the array is
      undefined behaviour in the source and is the error [None] here.
    - The scalar type ([magmaDoubleComplex] and the other precisions the
      file is generated for) is a type class [Scalar].
    - The loop of the sweep, a [#pragma omp parallel for] whose turns read
      the values that other turns write, is run under a schedule of its
      reads and writes. The other [#pragma omp parallel for] loops are run
      in increasing index order: their turns work on rows or entries of
      their own and share at most a counter under a lock; the row locks
      and the counter lock protect nothing in such a run and are left out,
      as are the timers and the commented-out [printf]s. *)

From stdpp Require Import base option list sorting sets.
From Stdlib Require Import ZArith Lia.

Local Open Scope Z_scope.

(** ** Scalars *)

(** The operations of the scalar type that the source uses:
    [MAGMA_Z_ZERO], [+], [-], [*], [/], [magma_zsqrt], and [MAGMA_Z_ABS]
    together with the comparison [<] of two magnitudes. [vabs] gives the
    magnitude as a scalar again. *)
Class Scalar (V : Type) := {
  zero : V;
  add : V → V → V;
  sub : V → V → V;
  mul : V → V → V;
  div : V → V → V;
  vsqrt : V → V;
  vabs : V → V;
  vlt : V → V → bool
}.

(** [MAGMA_Z_ABS( a ) < MAGMA_Z_ABS( b )]. *)
Definition abs_lt `{Scalar V} (a b : V) : bool := vlt (vabs a) (vabs b).

(** Exact integers as scalars, to evaluate the code on concrete inputs. *)
#[export] Instance Z_Scalar : Scalar Z := {|
  zero := 0;
  add := Z.add;
  sub := Z.sub;
  mul := Z.mul;
  div := Z.quot;
  vsqrt := Z.sqrt;
  vabs := Z.abs;
  vlt := Z.ltb
|}.

(** ** Arrays *)

(** [a[i]] as an rvalue. *)
Definition rd {X} (a : list X) (i : Z) : option X :=
  if 0 <=? i then a !! Z.to_nat i else None.

(** [a[i] = x]. *)
Definition wr {X} (a : list X) (i : Z) (x : X) : option (list X) :=
  if (0 <=? i) && (i <? Z.of_nat (length a))
  then Some (<[Z.to_nat i := x]> a) else None.

(** The value of [a[i]] where the read is known to be in range. *)
Definition get (a : list Z) (i : Z) : Z := default 0 (rd a i).

(** ** The matrix structure *)

(** The fields of [magma_z_matrix] that the file uses. The field [list] of
    the source is named [llist] here. *)
Record magma_z_matrix (V : Type) := Matrix {
  num_rows : Z;
  num_cols : Z;
  nnz : Z;
  row : list Z;
  rowidx : list Z;
  col : list Z;
  llist : list Z;
  val : list V
}.
Arguments Matrix {V}.
Arguments num_rows {V}.
Arguments num_cols {V}.
Arguments nnz {V}.
Arguments row {V}.
Arguments rowidx {V}.
Arguments col {V}.
Arguments llist {V}.
Arguments val {V}.

Definition set_row {V} (M : magma_z_matrix V) (a : list Z) :=
  Matrix (num_rows M) (num_cols M) (nnz M) a (rowidx M) (col M) (llist M) (val M).
Definition set_rowidx {V} (M : magma_z_matrix V) (a : list Z) :=
  Matrix (num_rows M) (num_cols M) (nnz M) (row M) a (col M) (llist M) (val M).
Definition set_col {V} (M : magma_z_matrix V) (a : list Z) :=
  Matrix (num_rows M) (num_cols M) (nnz M) (row M) (rowidx M) a (llist M) (val M).
Definition set_llist {V} (M : magma_z_matrix V) (a : list Z) :=
  Matrix (num_rows M) (num_cols M) (nnz M) (row M) (rowidx M) (col M) a (val M).
Definition set_val {V} (M : magma_z_matrix V) (a : list V) :=
  Matrix (num_rows M) (num_cols M) (nnz M) (row M) (rowidx M) (col M) (llist M) a.

(** ** Insertion: [magma_zmdynamicic_insert] *)

Section Insert.
Context {V : Type} `{Scalar V}.

(** [magma_zmorderstatistics( val, length, k, r, &element, queue )] is
    defined in another file of the library. It is taken as a parameter:
    from the array it returns the status, the array after the partial
    ordering in place, and the selected element. *)
Variable magma_zmorderstatistics : list V → Z → Z → Z → Z * list V * V.

(** The writes [list[loc] = nxt; rowidx[loc] = new_row; col[loc] = new_col;
    val[loc] = MAGMA_Z_ZERO] that fill the slot [loc]. *)
Definition write_entry (LU : magma_z_matrix V) (loc nxt new_row new_col : Z)
  : option (magma_z_matrix V) :=
  l ← wr (llist LU) loc nxt;
  ri ← wr (rowidx LU) loc new_row;
  c ← wr (col LU) loc new_col;
  v ← wr (val LU) loc zero;
  Some (Matrix (num_rows LU) (num_cols LU) (nnz LU) (row LU) ri c l v).

(** Insertion at the start of the row: [row[new_row] = loc] and the slot
    is filled with [old_rowstart] as its successor. *)
Definition prepend (LU : magma_z_matrix V) (loc old_rowstart new_row new_col : Z)
  : option (magma_z_matrix V) :=
  r ← wr (row LU) new_row loc;
  write_entry (set_row LU r) loc old_rowstart new_row new_col.

(** Insertion in the list: [list[j] = loc] and the slot is filled with
    [jn] as its successor. *)
Definition splice (LU : magma_z_matrix V) (loc j jn new_row new_col : Z)
  : option (magma_z_matrix V) :=
  l ← wr (llist LU) j loc;
  write_entry (set_llist LU l) loc jn new_row new_col.

(** The inner [while( j!=0 )] of the source, entered with [j] the first
    slot of the row and [jn = list[j]]. The result is the matrix and the
    new value of [num_insert]. *)
Fixpoint insert_walk (fuel : nat) (LU : magma_z_matrix V)
    (loc new_row new_col j jn num_insert : Z)
  : option (magma_z_matrix V * Z) :=
  match fuel with
  | O => None
  | S fuel' =>
    if j =? 0 then Some (LU, num_insert) else
    cjn ← rd (col LU) jn;
    if cjn =? new_col then Some (LU, num_insert)
    else if new_col <? cjn then
      LU' ← splice LU loc j jn new_row new_col;
      Some (LU', num_insert + 1)
    else
      jn' ← rd (llist LU) jn;
      insert_walk fuel' LU loc new_row new_col jn jn' num_insert
  end.

(** The body of the outer [while( num_insert < num_rm )], after the test
    [i>=LU_new->nnz]. *)
Definition insert_step (rm_loc : list Z) (LU_new LU : magma_z_matrix V)
    (i num_insert : Z) : option (magma_z_matrix V * Z) :=
  loc ← rd rm_loc num_insert;
  new_row ← rd (rowidx LU_new) i;
  new_col ← rd (col LU_new) i;
  old_rowstart ← rd (row LU) new_row;
  c0 ← rd (col LU) old_rowstart;
  if new_col <? c0 then
    LU' ← prepend LU loc old_rowstart new_row new_col;
    Some (LU', num_insert + 1)
  else if new_col =? c0 then Some (LU, num_insert)
  else
    jn ← rd (llist LU) old_rowstart;
    insert_walk (S (length (llist LU))) LU loc new_row new_col
      old_rowstart jn num_insert.

(** The outer loop; the result is the matrix and the final [i] and
    [num_insert]. *)
Fixpoint insert_loop (fuel : nat) (num_rm : Z) (rm_loc : list Z)
    (LU_new LU : magma_z_matrix V) (i num_insert : Z)
  : option (magma_z_matrix V * Z * Z) :=
  match fuel with
  | O => None
  | S fuel' =>
    if num_insert <? num_rm then
      if nnz LU_new <=? i then Some (LU, i, num_insert)
      else
        '(LU', num_insert') ← insert_step rm_loc LU_new LU i num_insert;
        insert_loop fuel' num_rm rm_loc LU_new LU' (i + 1) num_insert'
    else Some (LU, i, num_insert)
  end.

(** The part of the routine after the first test: the ranking of the
    candidates and the insertion loop. The result is [info], the candidate
    list and the factor. *)
Definition rank_and_insert (num_rm : Z) (rm_loc : list Z)
    (LU_new LU : magma_z_matrix V)
  : option (Z * magma_z_matrix V * magma_z_matrix V) :=
  let '(info, v, element) :=
    magma_zmorderstatistics (val LU_new) num_rm (nnz LU_new - 1) 1 in
  let LU_new' := set_val LU_new v in
  if negb (info =? 0) then Some (info, LU_new', LU)
  else
    '(LU', _, _) ← insert_loop (S (Z.to_nat (nnz LU_new))) num_rm rm_loc
                     LU_new' LU 0 0;
    Some (info, LU_new', LU').

Definition magma_zmdynamicic_insert (tri num_rm : Z) (rm_loc : list Z)
    (LU_new LU : magma_z_matrix V)
  : option (Z * magma_z_matrix V * magma_z_matrix V) :=
  if nnz LU_new <=? num_rm then Some (0, LU_new, LU)
  else rank_and_insert num_rm rm_loc LU_new LU.

End Insert.

(** ** The linked rows and the invariants of the factor *)

(** [chain nx s l]: following the next-slot array [nx] from slot [s]
    reaches the terminator [0], and [l] lists the slots visited, [s] first. *)
Inductive chain (nx : list Z) : Z → list Z → Prop :=
| chain_end : chain nx 0 []
| chain_step s s' l :
    s ≠ 0 → rd nx s = Some s' → chain nx s' l → chain nx s (s :: l).

(** The same traversal as a function. *)
Fixpoint walk (nx : list Z) (fuel : nat) (s : Z) : option (list Z) :=
  match fuel with
  | O => None
  | S fuel' =>
    if s =? 0 then Some []
    else s' ← rd nx s; l ← walk nx fuel' s'; Some (s :: l)
  end.

Section Invariants.
Context {V : Type}.
Implicit Types LU : magma_z_matrix V.

(** The sizes of the arrays: [row] has one entry per row and one more,
    the other arrays have [nnz] slots, and slot [0] exists. *)
Record dims LU : Prop := Dims {
  d_rows : 0 ≤ num_rows LU;
  d_nnz : 0 < nnz LU;
  d_row : Z.of_nat (length (row LU)) = num_rows LU + 1;
  d_rowidx : Z.of_nat (length (rowidx LU)) = nnz LU;
  d_col : Z.of_nat (length (col LU)) = nnz LU;
  d_llist : Z.of_nat (length (llist LU)) = nnz LU;
  d_val : Z.of_nat (length (val LU)) = nnz LU
}.

(** The slots of row [r], in link order. *)
Definition row_chain LU (r : Z) (l : list Z) : Prop :=
  ∃ s, rd (row LU) r = Some s ∧ chain (llist LU) s l.

Definition row_chain_of LU (r : Z) : option (list Z) :=
  s ← rd (row LU) r; walk (llist LU) (S (length (llist LU))) s.

(** The columns of a list of slots. *)
Definition colsof LU (l : list Z) : list Z := get (col LU) <$> l.

Definition is_row LU (r : Z) : Prop := 0 ≤ r < num_rows LU.

(** (I1) every row has a chain that ends at [0]. *)
Definition I1 LU : Prop := ∀ r, is_row LU r → ∃ l, row_chain LU r l.
(** (I2) the columns strictly increase along the chain. *)
Definition I2 LU : Prop :=
  ∀ r l, is_row LU r → row_chain LU r l → StronglySorted Z.lt (colsof LU l).
(** (I3) no column occurs twice in a row. *)
Definition I3 LU : Prop :=
  ∀ r l, is_row LU r → row_chain LU r l → NoDup (colsof LU l).
(** (I4) [rowidx] of a slot is the row whose chain holds it, and its
    [list] entry is not [-1]. *)
Definition I4 LU : Prop :=
  ∀ r l, is_row LU r → row_chain LU r l →
    Forall (λ s, get (rowidx LU) s = r ∧ get (llist LU) s ≠ -1) l.
(** (I5) the diagonal is present and is the last entry of its row. *)
Definition I5 LU : Prop :=
  ∀ r l, is_row LU r → row_chain LU r l →
    ∃ l' d, l = l' ++ [d] ∧ get (col LU) d = r.
(** Column indices are not negative. *)
Definition Icol LU : Prop :=
  ∀ r l, is_row LU r → row_chain LU r l → Forall (λ s, 0 ≤ get (col LU) s) l.

(** A slot is live when it belongs to the chain of a row. *)
Definition live LU (s : Z) : Prop :=
  ∃ r l, is_row LU r ∧ row_chain LU r l ∧ s ∈ l.

(** (I6) slot [0] is reserved and the slots outside of the chains are
    marked with [list[s] = -1]. *)
Definition I6 LU : Prop :=
  ∀ s, 0 ≤ s < nnz LU → get (llist LU) s ≠ -1 → live LU s.

End Invariants.

(** Membership in a list written with [++] and [::]. *)
Ltac in_list :=
  rewrite ?elem_of_app, ?elem_of_cons, ?elem_of_nil in *; intuition auto.

(** ** Basic facts on arrays *)

Section ArrayFacts.
Context {X : Type}.
Implicit Types a : list X.

Lemma rd_Some_range a i x : rd a i = Some x → 0 ≤ i < Z.of_nat (length a).
Proof.
  unfold rd. destruct (Z.leb_spec 0 i); [|done].
  intros Hl%lookup_lt_Some. lia.
Qed.

Lemma rd_is_Some a i : 0 ≤ i < Z.of_nat (length a) → ∃ x, rd a i = Some x.
Proof.
  intros Hi. unfold rd. destruct (Z.leb_spec 0 i); [|lia].
  destruct (lookup_lt_is_Some_2 a (Z.to_nat i)) as [x Hx]; [lia|eauto].
Qed.

Lemma wr_Some a i x :
  0 ≤ i < Z.of_nat (length a) → wr a i x = Some (<[Z.to_nat i := x]> a).
Proof.
  intros Hi. unfold wr.
  destruct (Z.leb_spec 0 i); [|lia]. destruct (Z.ltb_spec i (Z.of_nat (length a))); [done|lia].
Qed.

Lemma wr_inv a i x a' :
  wr a i x = Some a' →
  0 ≤ i < Z.of_nat (length a) ∧ a' = <[Z.to_nat i := x]> a.
Proof.
  unfold wr. destruct (Z.leb_spec 0 i); simpl; [|done].
  destruct (Z.ltb_spec i (Z.of_nat (length a))); [|done].
  intros [= <-]. split; [lia|done].
Qed.

Lemma wr_length a i x a' : wr a i x = Some a' → length a' = length a.
Proof. intros [_ ->]%wr_inv. apply length_insert. Qed.

Lemma rd_wr_eq a i x a' : wr a i x = Some a' → rd a' i = Some x.
Proof.
  intros [Hi ->]%wr_inv. unfold rd. destruct (Z.leb_spec 0 i); [|lia].
  apply list_lookup_insert_eq. lia.
Qed.

Lemma rd_wr_ne a i x a' j : wr a i x = Some a' → j ≠ i → rd a' j = rd a j.
Proof.
  intros [Hi ->]%wr_inv Hne. unfold rd. destruct (Z.leb_spec 0 j); [|done].
  apply list_lookup_insert_ne. lia.
Qed.

End ArrayFacts.

Lemma rd_get (a : list Z) i x : rd a i = Some x → get a i = x.
Proof. unfold get. by intros ->. Qed.

Lemma get_rd (a : list Z) i :
  0 ≤ i < Z.of_nat (length a) → rd a i = Some (get a i).
Proof. intros [x Hx]%rd_is_Some. by rewrite (rd_get _ _ _ Hx). Qed.

Lemma get_wr_eq (a : list Z) i x a' : wr a i x = Some a' → get a' i = x.
Proof. intros Hw. apply rd_get. by eapply rd_wr_eq. Qed.

Lemma get_wr_ne (a : list Z) i x a' j :
  wr a i x = Some a' → j ≠ i → get a' j = get a j.
Proof. intros Hw Hne. unfold get. by rewrite (rd_wr_ne _ _ _ _ _ Hw Hne). Qed.

(** ** Basic facts on chains *)

Lemma chain_det nx s l1 l2 : chain nx s l1 → chain nx s l2 → l1 = l2.
Proof.
  intros H1. revert l2. induction H1 as [|s s' l Hs Hr Hc IH]; intros l2 H2.
  - by inversion H2.
  - inversion H2 as [|? s2 l2' _ Hr2 Hc2]; subst; [done|].
    rewrite Hr in Hr2. injection Hr2 as <-. f_equal. by apply IH.
Qed.

Lemma chain_range nx s l :
  chain nx s l → Forall (λ x, 0 < x < Z.of_nat (length nx)) l.
Proof.
  induction 1 as [|s s' l Hs Hr Hc IH]; constructor; [|done].
  apply rd_Some_range in Hr. lia.
Qed.

Lemma chain_suffix nx s l1 x l2 :
  chain nx s (l1 ++ x :: l2) → chain nx x (x :: l2).
Proof.
  revert s. induction l1 as [|y l1 IH]; intros s Hc; simpl in Hc.
  - inversion Hc; subst. by econstructor.
  - inversion Hc; subst. eauto.
Qed.

Lemma chain_head nx s x l : chain nx s (x :: l) → s = x.
Proof. by inversion 1. Qed.

Lemma chain_nil_inv nx s : chain nx s [] → s = 0.
Proof. by inversion 1. Qed.

Lemma chain_NoDup nx s l : chain nx s l → NoDup l.
Proof.
  induction 1 as [|s s' l Hs Hr Hc IH]; constructor; [|done].
  intros Hin. apply list_elem_of_split in Hin as (l1 & l2 & ->).
  pose proof (chain_suffix _ _ _ _ _ Hc) as Hc'.
  assert (Hc'' : chain nx s (s :: l1 ++ s :: l2)) by (by econstructor).
  pose proof (chain_det _ _ _ _ Hc' Hc'') as Heq.
  apply (f_equal length) in Heq. simpl in Heq. rewrite length_app in Heq.
  simpl in Heq. lia.
Qed.

(** Writing a slot that is not in the chain leaves the chain as it is. *)
Lemma chain_frame nx s l k v nx' :
  chain nx s l → k ∉ l → wr nx k v = Some nx' → chain nx' s l.
Proof.
  intros Hc Hk Hw. induction Hc as [|s s' l Hs Hr Hc IH]; [constructor|].
  apply not_elem_of_cons in Hk as [Hne Hk].
  econstructor; [done| |by apply IH].
  by rewrite (rd_wr_ne _ _ _ _ _ Hw).
Qed.

Lemma walk_chain nx fuel s l : walk nx fuel s = Some l → chain nx s l.
Proof.
  revert s l. induction fuel as [|fuel IH]; intros s l; simpl; [done|].
  destruct (Z.eqb_spec s 0) as [->|Hs].
  - intros [= <-]. constructor.
  - destruct (rd nx s) as [s'|] eqn:Hr; simpl; [|done].
    destruct (walk nx fuel s') as [l'|] eqn:Hw; simpl; [|done].
    intros [= <-]. econstructor; eauto.
Qed.

Lemma chain_walk nx fuel s l :
  chain nx s l → (length l < fuel)%nat → walk nx fuel s = Some l.
Proof.
  intros Hc. revert fuel.
  induction Hc as [|s s' l Hs Hr Hc IH]; intros fuel Hf.
  - destruct fuel; [lia|done].
  - destruct fuel as [|fuel]; [lia|]. simpl in *.
    destruct (Z.eqb_spec s 0); [done|]. rewrite Hr. simpl.
    rewrite IH by lia. done.
Qed.

(** A chain visits each slot at most once, so it is shorter than the
    array. *)
Lemma chain_length nx s l : chain nx s l → (length l < S (length nx))%nat.
Proof.
  intros Hc. pose proof (chain_NoDup _ _ _ Hc) as Hnd.
  pose proof (chain_range _ _ _ Hc) as Hr.
  assert (Hsub : Z.to_nat <$> l ⊆+ seq 0 (length nx)).
  { apply NoDup_submseteq.
    - apply NoDup_fmap_2_strong; [|done].
      intros x y Hx Hy Heq. rewrite Forall_forall in Hr.
      apply Hr in Hx, Hy. lia.
    - intros n (x & -> & Hx)%list_elem_of_fmap. rewrite Forall_forall in Hr.
      apply Hr in Hx. apply elem_of_seq. lia. }
  apply submseteq_length in Hsub. rewrite length_fmap, length_seq in Hsub. lia.
Qed.

Lemma row_chain_of_sound {V} (LU : magma_z_matrix V) r l :
  row_chain_of LU r = Some l → row_chain LU r l.
Proof.
  unfold row_chain_of, row_chain.
  destruct (rd (row LU) r) as [s|]; cbn [mbind option_bind]; [|done].
  intros Hw%walk_chain. eauto.
Qed.

Lemma row_chain_of_complete {V} (LU : magma_z_matrix V) r l :
  row_chain LU r l → row_chain_of LU r = Some l.
Proof.
  intros (s & Hs & Hc). unfold row_chain_of. rewrite Hs.
  cbn [mbind option_bind]. apply chain_walk; [done|]. by eapply chain_length.
Qed.

Lemma row_chain_det {V} (LU : magma_z_matrix V) r l1 l2 :
  row_chain LU r l1 → row_chain LU r l2 → l1 = l2.
Proof.
  intros (s1 & Hs1 & Hc1) (s2 & Hs2 & Hc2). rewrite Hs1 in Hs2.
  injection Hs2 as <-. by eapply chain_det.
Qed.

(** ** Free slots and entries *)

Section Entries.
Context {V : Type}.
Implicit Types LU : magma_z_matrix V.

(** A free slot: a slot other than [0] marked with [list[s] = -1]. *)
Definition free_slot LU (s : Z) : Prop :=
  0 < s < nnz LU ∧ get (llist LU) s = -1.

(** The factor has an entry at position [(r,c)]. *)
Definition has_entry LU (r c : Z) : Prop :=
  ∃ l s, row_chain LU r l ∧ s ∈ l ∧ get (col LU) s = c.

Lemma chain_next_ge nx s l x : chain nx s l → x ∈ l → 0 ≤ get nx x.
Proof.
  intros Hc Hx. apply list_elem_of_split in Hx as (l1 & l2 & ->).
  apply chain_suffix in Hc. inversion Hc as [|? s' ? _ Hr Hc']; subst.
  rewrite (rd_get _ _ _ Hr). inversion Hc' as [|? ? ? Hne Hr' _]; subst; [done|].
  apply rd_Some_range in Hr'. lia.
Qed.

Lemma free_not_in_chain nx s l loc : chain nx s l → get nx loc = -1 → loc ∉ l.
Proof.
  intros Hc Hf Hin. pose proof (chain_next_ge _ _ _ _ Hc Hin). lia.
Qed.

(** The second part of (I4) holds of every chain. *)
Lemma chain_not_free nx s l : chain nx s l → Forall (λ x, get nx x ≠ -1) l.
Proof.
  intros Hc. apply Forall_forall. intros x Hx.
  pose proof (chain_next_ge _ _ _ _ Hc Hx). lia.
Qed.

(** (I3) follows from (I2). *)
Lemma sorted_NoDup (cs : list Z) : StronglySorted Z.lt cs → NoDup cs.
Proof.
  induction 1 as [|c cs Hs IH Hall]; constructor; [|done].
  intros Hin. rewrite Forall_forall in Hall. apply Hall in Hin. lia.
Qed.

Lemma I2_I3 LU : I2 LU → I3 LU.
Proof. intros H2 r l Hr Hc. apply sorted_NoDup. by eapply H2. Qed.

End Entries.

(** ** The effect of an insertion on the chains *)

(** [ins_after j loc l]: the list [l] with [loc] put after [j]. *)
Fixpoint ins_after (j loc : Z) (l : list Z) : list Z :=
  match l with
  | [] => []
  | x :: l' => if x =? j then x :: loc :: l' else x :: ins_after j loc l'
  end.

Lemma ins_after_notin j loc l : j ∉ l → ins_after j loc l = l.
Proof.
  induction l as [|x l IH]; [done|]. intros [Hne Hl]%not_elem_of_cons. simpl.
  destruct (Z.eqb_spec x j); [congruence|]. by rewrite IH.
Qed.

Lemma ins_after_elem j loc l x : x ∈ l → x ∈ ins_after j loc l.
Proof.
  induction l as [|y l IH]; [done|]. simpl.
  intros [->|Hx]%elem_of_cons; destruct (Z.eqb_spec y j);
    rewrite ?elem_of_cons; auto.
Qed.

Lemma ins_after_elem_inv j loc l x : x ∈ ins_after j loc l → x = loc ∨ x ∈ l.
Proof.
  induction l as [|y l IH]; [by right|]. simpl.
  destruct (Z.eqb_spec y j); rewrite !elem_of_cons; [tauto|].
  intros [->|Hx]; [auto|]. apply IH in Hx. tauto.
Qed.

Lemma ins_after_in j loc l : j ∈ l → loc ∈ ins_after j loc l.
Proof.
  induction l as [|y l IH]; [by intros ?%elem_of_nil|]. simpl.
  destruct (Z.eqb_spec y j) as [->|Hne]; rewrite !elem_of_cons; [auto|].
  intros [->|Hj]; [done|]. auto.
Qed.

Lemma chain_ins_after nx s l j jn loc nx1 nx2 :
  chain nx s l → loc ∉ l → loc ≠ 0 →
  rd nx j = Some jn →
  wr nx j loc = Some nx1 → wr nx1 loc jn = Some nx2 →
  chain nx2 s (ins_after j loc l).
Proof.
  intros Hc Hloc Hloc0 Hj Hw1 Hw2.
  assert (Hfr : ∀ s' l', chain nx s' l' → j ∉ l' → loc ∉ l' → chain nx2 s' l').
  { intros s' l' Hc' Hj' Hl'.
    apply (chain_frame nx1 s' l' loc jn nx2); [|done|done].
    by apply (chain_frame nx s' l' j loc nx1). }
  pose proof (chain_NoDup _ _ _ Hc) as Hnd.
  induction Hc as [|s s' l Hs Hr Hc IH]; [constructor|].
  apply not_elem_of_cons in Hloc as [Hne Hloc].
  apply NoDup_cons in Hnd as [Hsl Hnd]. simpl.
  destruct (Z.eqb_spec s j) as [->|Hsj].
  - rewrite Hj in Hr. injection Hr as <-.
    econstructor; [done| |].
    + rewrite (rd_wr_ne _ _ _ _ _ Hw2) by done. by eapply rd_wr_eq.
    + econstructor; [done|by eapply rd_wr_eq|]. by apply Hfr.
  - econstructor; [done| |by apply IH].
    rewrite (rd_wr_ne _ _ _ _ _ Hw2) by done.
    by rewrite (rd_wr_ne _ _ _ _ _ Hw1).
Qed.

Lemma ins_after_head j loc l x l' :
  ins_after j loc l = x :: l' → ∃ l0, l = x :: l0.
Proof.
  destruct l as [|y l]; [done|]. simpl.
  destruct (y =? j); intros [= <- _]; eauto.
Qed.

(** Sortedness of the columns after the insertion of [loc] with column [c]
    between [j] and its successor [jn]. *)
Lemma sorted_ins_after nx (cl cl' : list Z) s l j jn loc c :
  chain nx s l → loc ∉ l →
  rd nx j = Some jn →
  (∀ x, x ≠ loc → get cl' x = get cl x) → get cl' loc = c →
  get cl j < c → c < get cl jn →
  Sorted Z.lt (get cl <$> l) →
  Sorted Z.lt (get cl' <$> ins_after j loc l).
Proof.
  intros Hc Hloc Hj Hoth Hc' Hlo Hhi Hs.
  assert (Hsame : ∀ l' : list Z, loc ∉ l' → get cl' <$> l' = get cl <$> l').
  { intros l' Hl'. apply list_fmap_ext. intros i x Hx. apply Hoth.
    intros ->. apply Hl'. by eapply list_elem_of_lookup_2. }
  induction Hc as [|s s' l Hs0 Hr Hc IH]; [constructor|].
  apply not_elem_of_cons in Hloc as [Hne Hloc].
  rewrite fmap_cons in Hs. apply Sorted_inv in Hs as [Hs Hhd]. simpl.
  destruct (Z.eqb_spec s j) as [->|Hsj].
  - rewrite Hj in Hr. injection Hr as <-.
    rewrite !fmap_cons, Hc', (Hoth j) by done. rewrite Hsame by done.
    constructor; [constructor; [done|]|by constructor].
    destruct Hc as [|s' s'' l Hs' _ _]; constructor. done.
  - rewrite fmap_cons, (Hoth s) by done. constructor; [by apply IH|].
    destruct (ins_after j loc l) as [|x l'] eqn:Hi; [constructor|].
    apply ins_after_head in Hi as [l0 ->]. rewrite fmap_cons. constructor.
    apply not_elem_of_cons in Hloc as [Hx _].
    rewrite fmap_cons in Hhd. apply HdRel_inv in Hhd. by rewrite Hoth.
Qed.

(** ** The insertion step keeps the rows linked and sorted *)

Section InsertFacts.
Context {V : Type} `{Scalar V}.
Implicit Types LU : magma_z_matrix V.

(** What one successful insertion of the slot [loc] at position [(r,c)]
    does to the factor. *)
Record graft_ok LU LU' (loc r c : Z) : Prop := GraftOk {
  go_dims : dims LU';
  go_rows : num_rows LU' = num_rows LU;
  go_nnz : nnz LU' = nnz LU;
  go_col : ∀ s, s ≠ loc → get (col LU') s = get (col LU) s;
  go_col_loc : get (col LU') loc = c;
  go_rowidx : wr (rowidx LU) loc r = Some (rowidx LU');
  go_val : wr (val LU) loc zero = Some (val LU');
  go_free : ∀ s, s ≠ loc → free_slot LU s → free_slot LU' s;
  go_chain : ∀ r0 l, row_chain LU r0 l →
    ∃ l', row_chain LU' r0 l' ∧ (∀ x, x ∈ l → x ∈ l') ∧
          (∀ x, x ∈ l' → x = loc ∨ x ∈ l) ∧
          (Sorted Z.lt (colsof LU l) → Sorted Z.lt (colsof LU' l'));
  go_here : ∃ l', row_chain LU' r l' ∧ loc ∈ l'
}.

Lemma write_entry_inv LU loc nxt r c LU' :
  write_entry LU loc nxt r c = Some LU' →
  num_rows LU' = num_rows LU ∧ num_cols LU' = num_cols LU ∧
  nnz LU' = nnz LU ∧ row LU' = row LU ∧
  wr (llist LU) loc nxt = Some (llist LU') ∧
  wr (rowidx LU) loc r = Some (rowidx LU') ∧
  wr (col LU) loc c = Some (col LU') ∧
  wr (val LU) loc zero = Some (val LU').
Proof.
  unfold write_entry.
  destruct (wr (llist LU) loc nxt) as [l|]; [|done].
  destruct (wr (rowidx LU) loc r) as [ri|]; [|done].
  destruct (wr (col LU) loc c) as [cl|]; [|done].
  destruct (wr (val LU) loc zero) as [v|]; [|done].
  simpl. intros [= <-]. simpl. done.
Qed.

Lemma write_entry_Some LU loc nxt r c :
  dims LU → 0 ≤ loc < nnz LU → is_Some (write_entry LU loc nxt r c).
Proof.
  intros [] Hloc. unfold write_entry.
  rewrite !wr_Some by lia. simpl. eauto.
Qed.

Lemma write_entry_dims LU loc nxt r c LU' :
  dims LU → write_entry LU loc nxt r c = Some LU' → dims LU'.
Proof.
  intros [] (Hn & _ & Hz & Hr & Hl & Hri & Hc & Hv)%write_entry_inv.
  apply wr_length in Hl, Hri, Hc, Hv.
  constructor; rewrite ?Hn, ?Hz, ?Hr, ?Hl, ?Hri, ?Hc, ?Hv; done.
Qed.

Lemma colsof_ext LU LU' (l : list Z) :
  (∀ x, x ∈ l → get (col LU') x = get (col LU) x) → colsof LU' l = colsof LU l.
Proof.
  intros Hx. apply list_fmap_ext. intros i x Hi. apply Hx.
  by eapply list_elem_of_lookup_2.
Qed.

Lemma free_slot_not_in LU loc r l : free_slot LU loc → row_chain LU r l → loc ∉ l.
Proof. intros [_ Hf] (s & _ & Hc). by eapply free_not_in_chain. Qed.

Lemma prepend_ok LU loc old r c LU' l0 :
  dims LU → free_slot LU loc →
  rd (row LU) r = Some old → chain (llist LU) old l0 →
  (l0 ≠ [] → c < get (col LU) old) →
  prepend LU loc old r c = Some LU' →
  graft_ok LU LU' loc r c.
Proof.
  intros Hd Hfree Hold Hc0 Hlt. unfold prepend.
  destruct (wr (row LU) r loc) as [rw|] eqn:Hrw; [|done].
  cbn [mbind option_bind]. intros Hwe.
  assert (Hd' : dims LU').
  { eapply write_entry_dims; [|exact Hwe].
    destruct Hd. constructor; simpl; try done.
    by rewrite (wr_length _ _ _ _ Hrw). }
  apply write_entry_inv in Hwe as (Hn & _ & Hz & Hr & Hl & Hri & Hc & Hv).
  simpl in *.
  assert (Hfr : ∀ s l, chain (llist LU) s l → chain (llist LU') s l).
  { intros s l Hl0. eapply chain_frame; [done| |done].
    eapply free_not_in_chain; [done|]. apply Hfree. }
  assert (Hloc0 : loc ≠ 0) by (destruct Hfree; lia).
  assert (Hcol : ∀ s, s ≠ loc → get (col LU') s = get (col LU) s).
  { intros s Hs. by eapply get_wr_ne. }
  assert (Hnew : row_chain LU' r (loc :: l0)).
  { exists loc. rewrite Hr. split; [by eapply rd_wr_eq|].
    econstructor; [done|by eapply rd_wr_eq|by apply Hfr]. }
  constructor; try done.
  - by eapply get_wr_eq.
  - intros s Hs [Hrange Hf]. split; [by rewrite Hz|].
    by rewrite (get_wr_ne _ _ _ _ _ Hl).
  - intros r0 l (s & Hs & Hl0). destruct (Z.eq_dec r0 r) as [->|Hne].
    + rewrite Hold in Hs. injection Hs as <-.
      pose proof (chain_det _ _ _ _ Hc0 Hl0) as ->.
      exists (loc :: l). split; [done|]. split; [set_solver|].
      split; [set_solver|]. intros Hs.
      assert (Hni : loc ∉ l) by (eapply free_not_in_chain; [done|apply Hfree]).
      unfold colsof. rewrite fmap_cons, (get_wr_eq _ _ _ _ Hc).
      fold (colsof LU' l).
      rewrite (colsof_ext LU LU' l); [|intros x Hx; apply Hcol; set_solver].
      constructor; [done|].
      destruct Hc0 as [|s s' l Hs0 _ _]; unfold colsof; simpl; constructor.
      by apply Hlt.
    + exists l. split; [|split; [done|split; [auto|]]].
      * exists s. rewrite Hr, (rd_wr_ne _ _ _ _ _ Hrw) by done. auto.
      * rewrite (colsof_ext LU LU' l); [done|]. intros x Hx. apply Hcol.
        intros ->. revert Hx. eapply free_not_in_chain; [done|apply Hfree].
  - exists (loc :: l0). split; [done|set_solver].
Qed.

Lemma splice_ok LU loc j jn r c LU' l0 :
  dims LU → free_slot LU loc →
  row_chain LU r l0 → j ∈ l0 →
  rd (llist LU) j = Some jn →
  get (col LU) j < c → c < get (col LU) jn →
  splice LU loc j jn r c = Some LU' →
  graft_ok LU LU' loc r c.
Proof.
  intros Hd Hfree Hrow Hj Hjn Hlo Hhi. unfold splice.
  destruct (wr (llist LU) j loc) as [l1|] eqn:Hl1; [|done].
  cbn [mbind option_bind]. intros Hwe.
  assert (Hd' : dims LU').
  { eapply write_entry_dims; [|exact Hwe].
    destruct Hd. constructor; simpl; try done.
    by rewrite (wr_length _ _ _ _ Hl1). }
  apply write_entry_inv in Hwe as (Hn & _ & Hz & Hr & Hl & Hri & Hc & Hv).
  simpl in *.
  assert (Hloc0 : loc ≠ 0) by (destruct Hfree; lia).
  assert (Hcol : ∀ s, s ≠ loc → get (col LU') s = get (col LU) s).
  { intros s Hs. by eapply get_wr_ne. }
  assert (Hch : ∀ r0 l, row_chain LU r0 l → row_chain LU' r0 (ins_after j loc l)).
  { intros r0 l (s & Hs & Hl0). exists s. rewrite Hr. split; [done|].
    eapply chain_ins_after; try done.
    eapply free_not_in_chain; [done|apply Hfree]. }
  constructor; try done.
  - by eapply get_wr_eq.
  - intros s Hs [Hrange Hf]. split; [by rewrite Hz|].
    rewrite (get_wr_ne _ _ _ _ _ Hl) by done.
    rewrite (get_wr_ne _ _ _ _ _ Hl1); [done|].
    intros ->. rewrite (rd_get _ _ _ Hjn) in Hf. subst jn.
    destruct Hrow as (s0 & _ & Hc0).
    pose proof (chain_next_ge _ _ _ _ Hc0 Hj) as Hge.
    rewrite (rd_get _ _ _ Hjn) in Hge. lia.
  - intros r0 l Hl0. exists (ins_after j loc l). split; [by apply Hch|].
    split; [intros x; apply ins_after_elem|].
    split; [intros x; apply ins_after_elem_inv|].
    destruct Hl0 as (s & Hs & Hl0). intros Hsort.
    apply (sorted_ins_after (llist LU) (col LU) (col LU') s l j jn loc c);
      try done.
    + eapply free_not_in_chain; [done|apply Hfree].
    + by eapply get_wr_eq.
  - exists (ins_after j loc l0). split; [by apply Hch|by apply ins_after_in].
Qed.

End InsertFacts.

Section InsertStep.
Context {V : Type} `{Scalar V}.
Implicit Types LU : magma_z_matrix V.

(** The two outcomes of the treatment of one candidate [(r,c)]: the factor
    is left as it is and no freed slot is used, or the candidate is put in
    the slot [loc] and [num_insert] advances by one. *)
Definition skipped LU LU' (ni ni' c : Z) (l0 : list Z) : Prop :=
  LU' = LU ∧ ni' = ni ∧
  ((∃ s, s ∈ l0 ∧ get (col LU) s = c) ∨ Forall (λ s, get (col LU) s < c) l0).

Definition grafted LU LU' (ni ni' loc r c : Z) (l0 : list Z) : Prop :=
  ni' = ni + 1 ∧ graft_ok LU LU' loc r c ∧
  (Sorted Z.lt (colsof LU l0) → ∀ s, s ∈ l0 → get (col LU) s ≠ c).

Lemma sorted_above (cs : list Z) c x :
  Sorted Z.lt cs → HdRel Z.lt c cs → x ∈ cs → c < x.
Proof.
  intros Hs%Sorted_StronglySorted Hhd Hx; [|intros ???; lia].
  destruct Hs as [|a cs Hs Hall]; [by apply elem_of_nil in Hx|].
  apply HdRel_inv in Hhd. apply elem_of_cons in Hx as [->|Hx]; [done|].
  rewrite Forall_forall in Hall. apply Hall in Hx. lia.
Qed.

Lemma insert_walk_spec LU loc r c ni l0 :
  dims LU → free_slot LU loc → row_chain LU r l0 →
  ∀ rest fuel j jn pre,
    l0 = pre ++ j :: rest →
    rd (llist LU) j = Some jn →
    Forall (λ s, get (col LU) s < c) (pre ++ [j]) →
    (length rest + 1 < fuel)%nat →
    ∃ LU' ni', insert_walk fuel LU loc r c j jn ni = Some (LU', ni') ∧
      (skipped LU LU' ni ni' c l0 ∨ grafted LU LU' ni ni' loc r c l0).
Proof.
  intros Hd Hfree Hrow rest.
  induction rest as [|x rest IH]; intros fuel j jn pre -> Hjn Hpre Hfuel.
  - destruct fuel as [|fuel]; [lia|]. simpl.
    destruct Hrow as (s0 & Hs0 & Hc0).
    pose proof (chain_suffix _ _ _ _ _ Hc0) as Hcj.
    inversion Hcj as [|? jn0 ? Hj0 Hjn0 Hcn]; subst.
    rewrite Hjn in Hjn0. injection Hjn0 as <-.
    apply chain_nil_inv in Hcn as ->.
    destruct (Z.eqb_spec j 0); [done|].
    destruct (rd_is_Some (col LU) 0) as [c0 Hc0']; [destruct Hd; lia|].
    rewrite Hc0'. cbn [mbind option_bind].
    destruct (Z.eqb_spec c0 c) as [->|Hne].
    { eexists _, _. split; [done|]. left. do 2 (split; [done|]). by right. }
    destruct (Z.ltb_spec c c0) as [Hlt|Hge].
    + destruct (wr (llist LU) j loc) as [l1|] eqn:Hl1.
      2:{ apply rd_Some_range in Hjn. rewrite wr_Some in Hl1 by done. done. }
      assert (Hsp : is_Some (splice LU loc j 0 r c)).
      { unfold splice. rewrite Hl1. cbn [mbind option_bind].
        apply write_entry_Some.
        - destruct Hd. constructor; simpl; try done.
          by rewrite (wr_length _ _ _ _ Hl1).
        - destruct Hfree. simpl. lia. }
      destruct Hsp as [LU' Hsp]. rewrite Hsp. cbn [mbind option_bind].
      eexists _, _. split; [done|]. right. split; [done|]. split.
      * apply (splice_ok LU loc j 0 r c LU' (pre ++ [j])); try done.
        -- by exists s0.
        -- set_solver.
        -- rewrite Forall_app, Forall_singleton in Hpre. apply Hpre.
        -- by rewrite (rd_get _ _ _ Hc0').
      * intros _ s Hs. rewrite Forall_forall in Hpre.
        assert (get (col LU) s < c); [|lia]. apply Hpre. set_solver.
    + destruct (rd_is_Some (llist LU) 0) as [jn' Hjn']; [destruct Hd; lia|].
      rewrite Hjn'. cbn [mbind option_bind].
      destruct fuel as [|fuel]; [lia|]. simpl.
      eexists _, _. split; [done|]. left. do 2 (split; [done|]). right.
      apply Forall_forall. intros s Hs. rewrite Forall_forall in Hpre.
      apply Hpre. set_solver.
  - destruct fuel as [|fuel]; [simpl in Hfuel; lia|]. simpl.
    pose proof Hrow as (s0 & Hs0 & Hc0).
    pose proof (chain_suffix _ _ _ _ _ Hc0) as Hcj.
    inversion Hcj as [|? jn0 ? Hj0 Hjn0 Hcn]; subst.
    rewrite Hjn in Hjn0. injection Hjn0 as <-.
    pose proof (chain_head _ _ _ _ Hcn) as ->.
    inversion Hcn as [|? x' ? Hx0 Hx' Hcx]; subst.
    destruct (Z.eqb_spec j 0); [done|].
    assert (Hxr : 0 ≤ x < Z.of_nat (length (col LU))).
    { apply rd_Some_range in Hx'. destruct Hd. lia. }
    rewrite (get_rd (col LU) x Hxr).
    cbn [mbind option_bind].
    destruct (Z.eqb_spec (get (col LU) x) c) as [Heq|Hne].
    { eexists _, _. split; [done|]. left. do 2 (split; [done|]). left.
      exists x. split; [in_list|done]. }
    destruct (Z.ltb_spec c (get (col LU) x)) as [Hlt|Hge].
    + destruct (wr (llist LU) j loc) as [l1|] eqn:Hl1.
      2:{ apply rd_Some_range in Hjn. rewrite wr_Some in Hl1 by done. done. }
      assert (Hsp : is_Some (splice LU loc j x r c)).
      { unfold splice. rewrite Hl1. cbn [mbind option_bind].
        apply write_entry_Some.
        - destruct Hd. constructor; simpl; try done.
          by rewrite (wr_length _ _ _ _ Hl1).
        - destruct Hfree. simpl. lia. }
      destruct Hsp as [LU' Hsp]. rewrite Hsp. cbn [mbind option_bind].
      eexists _, _. split; [done|]. right. split; [done|]. split.
      * apply (splice_ok LU loc j x r c LU' (pre ++ j :: x :: rest));
          try done.
        -- in_list.
        -- rewrite Forall_app, Forall_singleton in Hpre. apply Hpre.
      * intros Hsort s Hs. rewrite Forall_forall in Hpre.
        replace (pre ++ j :: x :: rest) with ((pre ++ [j]) ++ x :: rest) in Hs, Hsort
          by (by rewrite <- app_assoc).
        apply elem_of_app in Hs as [Hs|Hs].
        { apply Hpre in Hs. lia. }
        unfold colsof in Hsort. rewrite fmap_app in Hsort.
        apply Sorted_StronglySorted in Hsort; [|intros ???; lia].
        apply StronglySorted_app_1_r in Hsort.
        rewrite fmap_cons in Hsort.
        apply StronglySorted_inv in Hsort as [Hsort Hall].
        apply elem_of_cons in Hs as [->|Hs]; [lia|].
        rewrite Forall_forall in Hall.
        assert (get (col LU) x < get (col LU) s); [|lia].
        apply Hall. by apply list_elem_of_fmap_2.
    + rewrite Hx'. cbn [mbind option_bind].
      apply (IH fuel x x' (pre ++ [j])).
      * by rewrite <- app_assoc.
      * done.
      * apply Forall_app. split; [done|]. apply Forall_singleton. lia.
      * simpl in Hfuel. lia.
Qed.

Lemma insert_step_spec rm_loc (LU_new : magma_z_matrix V) LU i ni loc r c l0 :
  dims LU → free_slot LU loc → row_chain LU r l0 →
  rd rm_loc ni = Some loc →
  rd (rowidx LU_new) i = Some r → rd (col LU_new) i = Some c →
  ∃ LU' ni', insert_step rm_loc LU_new LU i ni = Some (LU', ni') ∧
    (skipped LU LU' ni ni' c l0 ∨ grafted LU LU' ni ni' loc r c l0).
Proof.
  intros Hd Hfree Hrow Hloc Hr Hc. unfold insert_step.
  rewrite Hloc, Hr, Hc. cbn [mbind option_bind].
  pose proof Hrow as (old & Hold & Hch). rewrite Hold. cbn [mbind option_bind].
  assert (Hrange : 0 ≤ old < nnz LU).
  { destruct Hch as [|s s' l Hs Hs' _]; [destruct Hd; lia|].
    apply rd_Some_range in Hs'. destruct Hd. lia. }
  assert (Hrc : 0 ≤ old < Z.of_nat (length (col LU))) by (destruct Hd; lia).
  assert (Hrl : 0 ≤ old < Z.of_nat (length (llist LU))) by (destruct Hd; lia).
  rewrite (get_rd (col LU) old Hrc).
  cbn [mbind option_bind].
  destruct (Z.ltb_spec c (get (col LU) old)) as [Hlt|Hge].
  - destruct (wr (row LU) r loc) as [rw|] eqn:Hrw.
    2:{ apply rd_Some_range in Hold. rewrite wr_Some in Hrw by done. done. }
    assert (Hsp : is_Some (prepend LU loc old r c)).
    { unfold prepend. rewrite Hrw. cbn [mbind option_bind].
      apply write_entry_Some.
      - destruct Hd. constructor; simpl; try done.
        by rewrite (wr_length _ _ _ _ Hrw).
      - destruct Hfree. simpl. lia. }
    destruct Hsp as [LU' Hsp]. rewrite Hsp. cbn [mbind option_bind].
    eexists _, _. split; [done|]. right. split; [done|]. split.
    + by apply (prepend_ok LU loc old r c LU' l0).
    + intros Hsort s Hs.
      destruct Hch as [|s1 s' l Hs1 _ _]; [by apply elem_of_nil in Hs|].
      unfold colsof in Hsort. rewrite fmap_cons in Hsort.
      apply Sorted_StronglySorted in Hsort; [|intros ???; lia].
      apply StronglySorted_inv in Hsort as [_ Hall].
      apply elem_of_cons in Hs as [->|Hs]; [lia|].
      rewrite Forall_forall in Hall.
      assert (get (col LU) s1 < get (col LU) s); [|lia].
      apply Hall. by apply list_elem_of_fmap_2.
  - destruct (Z.eqb_spec c (get (col LU) old)) as [Heq|Hne].
    { eexists _, _. split; [done|]. left. do 2 (split; [done|]).
      destruct Hch as [|s1 s' l Hs1 _ _]; [by right|].
      left. exists s1. split; [in_list|done]. }
    destruct (rd_is_Some (llist LU) old Hrl) as [jn Hjn].
    rewrite Hjn. cbn [mbind option_bind].
    destruct l0 as [|s1 rest].
    + apply chain_nil_inv in Hch as ->. simpl.
      eexists _, _. split; [done|]. left. do 2 (split; [done|]). by right.
    + pose proof (chain_head _ _ _ _ Hch) as ->.
      apply (insert_walk_spec LU loc r c ni (s1 :: rest) Hd Hfree Hrow
               rest _ s1 jn []); [done|done| |].
      * apply Forall_singleton. lia.
      * pose proof (chain_length _ _ _ Hch) as Hlen. simpl in Hlen. lia.
Qed.

End InsertStep.

(** ** The insertion loop *)

Section InsertLoop.
Context {V : Type} `{Scalar V}.
Implicit Types LU : magma_z_matrix V.

Lemma graft_I1 LU LU' loc r c : graft_ok LU LU' loc r c → I1 LU → I1 LU'.
Proof.
  intros Hg H1 r0 Hr0. unfold is_row in Hr0. rewrite (go_rows _ _ _ _ _ Hg) in Hr0.
  destruct (H1 r0 Hr0) as [l Hl].
  destruct (go_chain _ _ _ _ _ Hg r0 l Hl) as (l' & Hl' & _). eauto.
Qed.

Lemma graft_I2 LU LU' loc r c : graft_ok LU LU' loc r c → I1 LU → I2 LU → I2 LU'.
Proof.
  intros Hg H1 H2 r0 l' Hr0 Hl'. unfold is_row in Hr0.
  rewrite (go_rows _ _ _ _ _ Hg) in Hr0.
  destruct (H1 r0 Hr0) as [l Hl].
  destruct (go_chain _ _ _ _ _ Hg r0 l Hl) as (l'' & Hl'' & _ & _ & Hs).
  rewrite (row_chain_det _ _ _ _ Hl' Hl'').
  apply Sorted_StronglySorted; [intros ???; lia|].
  apply Hs. apply StronglySorted_Sorted. by apply (H2 r0).
Qed.

Lemma graft_has_entry LU LU' loc r c r0 c0 :
  graft_ok LU LU' loc r c → free_slot LU loc →
  has_entry LU r0 c0 → has_entry LU' r0 c0.
Proof.
  intros Hg Hfree (l & s & Hl & Hs & Hc).
  destruct (go_chain _ _ _ _ _ Hg r0 l Hl) as (l' & Hl' & Hsub & _).
  exists l', s. split; [done|]. split; [by apply Hsub|].
  rewrite (go_col _ _ _ _ _ Hg); [done|].
  intros ->. by apply (free_slot_not_in LU loc r0 l).
Qed.

Lemma graft_here LU LU' loc r c : graft_ok LU LU' loc r c → has_entry LU' r c.
Proof.
  intros Hg. destruct (go_here _ _ _ _ _ Hg) as (l' & Hl' & Hin).
  exists l', loc. split; [done|]. split; [done|]. apply (go_col_loc _ _ _ _ _ Hg).
Qed.

(** What the caller hands to the insertion: candidates whose rows exist,
    and [num_rm] distinct free slots. *)
Record insert_inputs (num_rm : Z) (rm_loc : list Z)
    (LU_new : magma_z_matrix V) LU : Prop := InsertInputs {
  ii_cand : ∀ i, 0 ≤ i < nnz LU_new →
    ∃ r c, rd (rowidx LU_new) i = Some r ∧ rd (col LU_new) i = Some c ∧
           is_row LU r;
  ii_free : ∀ k, 0 ≤ k < num_rm → ∃ s, rd rm_loc k = Some s ∧ free_slot LU s;
  ii_distinct : ∀ k1 k2 s, 0 ≤ k1 < num_rm → 0 ≤ k2 < num_rm →
    rd rm_loc k1 = Some s → rd rm_loc k2 = Some s → k1 = k2
}.

(** The invariant of the loop; [LU0] is the factor at the start. *)
Record loop_inv (num_rm : Z) (rm_loc : list Z) LU0 LU (ni : Z) : Prop := LoopInv {
  li_dims : dims LU;
  li_I1 : I1 LU;
  li_I2 : I2 LU;
  li_rows : num_rows LU = num_rows LU0;
  li_ni : 0 ≤ ni;
  li_free : ∀ k, ni ≤ k < num_rm → ∃ s, rd rm_loc k = Some s ∧ free_slot LU s;
  li_mono : ∀ r c, has_entry LU0 r c → has_entry LU r c
}.

Lemma loop_inv_init num_rm rm_loc (LU_new : magma_z_matrix V) LU :
  dims LU → I1 LU → I2 LU → insert_inputs num_rm rm_loc LU_new LU →
  loop_inv num_rm rm_loc LU LU 0.
Proof.
  intros Hd H1 H2 Hin. constructor; try done.
  intros k Hk. by apply (ii_free _ _ _ _ Hin).
Qed.

(** One turn of the loop from a state that satisfies the invariant. *)
Lemma insert_step_inv num_rm rm_loc (LU_new : magma_z_matrix V) LU0 LU i ni :
  insert_inputs num_rm rm_loc LU_new LU0 →
  loop_inv num_rm rm_loc LU0 LU ni →
  0 ≤ i < nnz LU_new → ni < num_rm →
  ∃ LU' ni' loc r c l0,
    insert_step rm_loc LU_new LU i ni = Some (LU', ni') ∧
    rd rm_loc ni = Some loc ∧ free_slot LU loc ∧
    rd (rowidx LU_new) i = Some r ∧ rd (col LU_new) i = Some c ∧
    is_row LU r ∧ row_chain LU r l0 ∧
    (skipped LU LU' ni ni' c l0 ∨ grafted LU LU' ni ni' loc r c l0) ∧
    loop_inv num_rm rm_loc LU0 LU' ni'.
Proof.
  intros Hin Hinv Hi Hni.
  destruct (ii_cand _ _ _ _ Hin i Hi) as (r & c & Hr & Hc & Hrow).
  pose proof (li_ni _ _ _ _ _ Hinv) as Hni0.
  destruct (li_free _ _ _ _ _ Hinv ni) as (loc & Hloc & Hfree); [lia|].
  assert (Hrow' : is_row LU r).
  { unfold is_row. by rewrite (li_rows _ _ _ _ _ Hinv). }
  destruct (li_I1 _ _ _ _ _ Hinv r Hrow') as [l0 Hl0].
  destruct (insert_step_spec rm_loc LU_new LU i ni loc r c l0)
    as (LU' & ni' & Hstep & Hcase); try done.
  { apply Hinv. }
  exists LU', ni', loc, r, c, l0. do 7 (split; [done|]). split; [done|].
  destruct Hcase as [(-> & -> & _)|(-> & Hg & _)]; [done|].
  destruct Hinv as [Hd H1 H2 Hrows _ Hfr Hmono]. constructor.
  - apply Hg.
  - by eapply graft_I1.
  - by eapply graft_I2.
  - by rewrite (go_rows _ _ _ _ _ Hg).
  - lia.
  - intros k Hk. destruct (Hfr k) as (s & Hs & Hsf); [lia|].
    exists s. split; [done|]. apply (go_free _ _ _ _ _ Hg); [|done].
    intros ->. assert (k = ni); [|lia].
    apply (ii_distinct _ _ _ _ Hin k ni loc); [lia|lia|done|done].
  - intros r0 c0 He. eapply graft_has_entry; [done|done|]. by apply Hmono.
Qed.

Lemma insert_loop_spec num_rm rm_loc (LU_new : magma_z_matrix V) LU0 :
  insert_inputs num_rm rm_loc LU_new LU0 →
  ∀ fuel LU i ni,
    loop_inv num_rm rm_loc LU0 LU ni → 0 ≤ i →
    (Z.to_nat (nnz LU_new - i) < fuel)%nat →
    ∃ LU' i' ni',
      insert_loop fuel num_rm rm_loc LU_new LU i ni = Some (LU', i', ni') ∧
      loop_inv num_rm rm_loc LU0 LU' ni' ∧
      (num_rm ≤ ni' ∨ nnz LU_new ≤ i').
Proof.
  intros Hin fuel. induction fuel as [|fuel IH]; intros LU i ni Hinv Hi Hf; [lia|].
  simpl. destruct (Z.ltb_spec ni num_rm) as [Hlt|Hge].
  2:{ eexists _, _, _. split; [done|]. split; [done|]. by left. }
  destruct (Z.leb_spec (nnz LU_new) i) as [Hle|Hgt].
  { eexists _, _, _. split; [done|]. split; [done|]. by right. }
  destruct (insert_step_inv num_rm rm_loc LU_new LU0 LU i ni)
    as (LU' & ni' & loc & r & c & l0 & Hstep & _ & _ & _ & _ & _ & _ & _ & Hinv');
    try done.
  rewrite Hstep. cbn [mbind option_bind]. apply IH; [done|lia|lia].
Qed.

End InsertLoop.

(** ** Checking the invariants of a given factor *)

Section Checker.
Context {V : Type}.
Implicit Types LU : magma_z_matrix V.

Fixpoint sortedb (cs : list Z) : bool :=
  match cs with
  | a :: (b :: _) as t => (a <? b) && sortedb t
  | _ => true
  end.

Lemma sortedb_sound cs : sortedb cs = true → StronglySorted Z.lt cs.
Proof.
  intros Hs. apply Sorted_StronglySorted; [intros ???; lia|].
  induction cs as [|a [|b cs] IH]; [constructor|by repeat constructor|].
  simpl in Hs. apply andb_prop in Hs as [Hab Hs].
  constructor; [by apply IH|]. constructor. by apply Z.ltb_lt.
Qed.

Definition dimsb LU : bool :=
  (0 <=? num_rows LU) && (0 <? nnz LU) &&
  (Z.of_nat (length (row LU)) =? num_rows LU + 1) &&
  (Z.of_nat (length (rowidx LU)) =? nnz LU) &&
  (Z.of_nat (length (col LU)) =? nnz LU) &&
  (Z.of_nat (length (llist LU)) =? nnz LU) &&
  (Z.of_nat (length (val LU)) =? nnz LU).

Lemma dimsb_sound LU : dimsb LU = true → dims LU.
Proof.
  unfold dimsb. rewrite !andb_true_iff.
  intros [[[[[[?%Z.leb_le ?%Z.ltb_lt] ?%Z.eqb_eq] ?%Z.eqb_eq] ?%Z.eqb_eq]
            ?%Z.eqb_eq] ?%Z.eqb_eq].
  by constructor.
Qed.

(** [P r l] holds of every row [r] and its chain [l]. *)
Definition check_rows LU (P : Z → list Z → bool) : bool :=
  forallb (λ r, match row_chain_of LU r with
                | Some l => P r l
                | None => false
                end) (seqZ 0 (num_rows LU)).

Lemma check_rows_sound LU P r :
  check_rows LU P = true → is_row LU r →
  ∃ l, row_chain LU r l ∧ P r l = true.
Proof.
  unfold check_rows. rewrite forallb_forall. intros Hall Hr.
  specialize (Hall r). destruct (row_chain_of LU r) as [l|] eqn:Hl.
  - exists l. split; [by apply row_chain_of_sound|]. apply Hall.
    apply list_elem_of_In, elem_of_seqZ. unfold is_row in Hr. lia.
  - discriminate Hall. apply list_elem_of_In, elem_of_seqZ.
    unfold is_row in Hr. lia.
Qed.

(** The invariants (I1)-(I5) and the sign of the columns, row by row. *)
Definition row_okb LU (r : Z) (l : list Z) : bool :=
  sortedb (colsof LU l) &&
  forallb (λ s, (get (rowidx LU) s =? r) && (0 <=? get (col LU) s)) l &&
  match last l with
  | Some d => get (col LU) d =? r
  | None => false
  end.

Definition wf_check LU : bool := dimsb LU && check_rows LU (row_okb LU).

(** (I6), slot by slot. *)
Definition I6_check LU : bool :=
  forallb (λ s, (get (llist LU) s =? -1) ||
     existsb (λ r, match row_chain_of LU r with
                   | Some l => existsb (Z.eqb s) l
                   | None => false
                   end) (seqZ 0 (num_rows LU)))
    (seqZ 0 (nnz LU)).

Record wf LU : Prop := Wf {
  wf_dims : dims LU;
  wf_I1 : I1 LU;
  wf_I2 : I2 LU;
  wf_I3 : I3 LU;
  wf_I4 : I4 LU;
  wf_I5 : I5 LU;
  wf_Icol : Icol LU
}.

Lemma wf_check_sound LU : wf_check LU = true → wf LU.
Proof.
  unfold wf_check. intros [Hd Hrows]%andb_prop.
  assert (Hrow : ∀ r l, is_row LU r → row_chain LU r l → row_okb LU r l = true).
  { intros r l Hr Hl.
    destruct (check_rows_sound _ _ r Hrows Hr) as (l' & Hl' & Hok).
    by rewrite (row_chain_det _ _ _ _ Hl Hl'). }
  assert (H2 : I2 LU).
  { intros r l Hr Hl. specialize (Hrow r l Hr Hl). unfold row_okb in Hrow.
    rewrite !andb_true_iff in Hrow. destruct Hrow as [[Hs _] _].
    by apply sortedb_sound. }
  constructor.
  - by apply dimsb_sound.
  - intros r Hr. destruct (check_rows_sound _ _ r Hrows Hr) as (l & Hl & _).
    eauto.
  - done.
  - by apply I2_I3.
  - intros r l Hr Hl. specialize (Hrow r l Hr Hl). unfold row_okb in Hrow.
    rewrite !andb_true_iff, forallb_forall in Hrow.
    destruct Hrow as [[_ Hall] _]. destruct Hl as (s0 & _ & Hc).
    pose proof (chain_not_free _ _ _ Hc) as Hnf.
    rewrite Forall_forall in Hnf |- *. intros s Hs. split; [|by apply Hnf].
    apply list_elem_of_In, Hall in Hs. apply andb_prop in Hs as [Hs _].
    by apply Z.eqb_eq.
  - intros r l Hr Hl. specialize (Hrow r l Hr Hl). unfold row_okb in Hrow.
    rewrite !andb_true_iff in Hrow. destruct Hrow as [_ Hlast].
    destruct (last l) as [d|] eqn:Hd'; [|done].
    apply last_Some in Hd' as [l' ->]. exists l', d. split; [done|].
    by apply Z.eqb_eq.
  - intros r l Hr Hl. specialize (Hrow r l Hr Hl). unfold row_okb in Hrow.
    rewrite !andb_true_iff, forallb_forall in Hrow.
    destruct Hrow as [[_ Hall] _]. apply Forall_forall. intros s Hs.
    apply list_elem_of_In, Hall in Hs. apply andb_prop in Hs as [_ Hs].
    by apply Z.leb_le.
Qed.

Lemma I6_check_sound LU : I6_check LU = true → I6 LU.
Proof.
  unfold I6_check. rewrite forallb_forall. intros Hall s Hs Hne.
  specialize (Hall s). rewrite orb_true_iff, existsb_exists in Hall.
  destruct Hall as [Hf|(r & Hr & Hex)].
  - apply list_elem_of_In, elem_of_seqZ. lia.
  - apply Z.eqb_eq in Hf. done.
  - destruct (row_chain_of LU r) as [l|] eqn:Hl; [|done].
    apply existsb_exists in Hex as (s' & Hs' & ->%Z.eqb_eq).
    exists r, l. split; [|split].
    + apply list_elem_of_In, elem_of_seqZ in Hr. unfold is_row. lia.
    + by apply row_chain_of_sound.
    + by apply list_elem_of_In.
Qed.

End Checker.

(** ** The order-statistics selector *)

Section Selector.
Context {V : Type} `{Scalar V}.

Fixpoint insert_by (lt : V → V → bool) (x : V) (l : list V) : list V :=
  match l with
  | [] => [x]
  | y :: l' => if lt x y then x :: l else y :: insert_by lt x l'
  end.

Definition sort_by (lt : V → V → bool) (l : list V) : list V :=
  foldr (insert_by lt) [] l.

(** The [k]-th smallest magnitude of [v], counted from one; [zero] when
    there is no such element. *)
Definition kth_smallest_magnitude (v : list V) (k : Z) : V :=
  match rd (sort_by abs_lt v) (k - 1) with
  | Some x => vabs x
  | None => zero
  end.

Definition kth_largest_magnitude (v : list V) (k : Z) : V :=
  match rd (sort_by (flip abs_lt) v) (k - 1) with
  | Some x => vabs x
  | None => zero
  end.

(** Modelled from the spec: [magma_zmorderstatistics] is not part of this
    file. According to the specification, [select(values, k, mode)]
    returns the [k]-th extremal magnitude and permutes the values so that
    the [k] extremal entries occupy the first [k] slots; the mode is
    [SMALLEST] for [r = 0] and [LARGEST] otherwise. This model orders the
    first [length] values completely and reports success. *)
Definition select_model (v : list V) (length k r : Z) : Z * list V * V :=
  let n := Z.to_nat length in
  if r =? 0
  then (0, sort_by abs_lt (take n v) ++ drop n v,
        kth_smallest_magnitude (take n v) k)
  else (0, sort_by (flip abs_lt) (take n v) ++ drop n v,
        kth_largest_magnitude (take n v) k).

End Selector.

(** ** A small factor to evaluate the routines on *)

(** A 3 by 3 lower triangular factor in seven slots: slot [0] is the
    terminator, row [0] is the slot [1], row [1] is the slot [2], row [2]
    is the chain [3 → 4] with the columns [0] and [2], and the slots [5]
    and [6] are free. *)
Definition ex_LU : magma_z_matrix Z :=
  Matrix 3 3 7 [1; 2; 3; 0] [0; 0; 1; 2; 2; 0; 0] [0; 0; 1; 0; 2; 0; 0]
    [-1; 0; 0; 4; 0; -1; -1] [0; 2; 3; 1; 5; 0; 0].

(** Three candidates: the position [(2,1)] twice and [(1,0)]. *)
Definition ex_cand : magma_z_matrix Z :=
  Matrix 3 3 3 [] [2; 2; 1] [1; 1; 0] [] [7; 7; 4].

(** Two candidates: [(2,1)] and [(1,0)]. *)
Definition ex_cand2 : magma_z_matrix Z :=
  Matrix 3 3 2 [] [2; 1] [1; 0] [] [7; 4].

(** Three candidates, all at [(2,1)]. *)
Definition ex_cand3 : magma_z_matrix Z :=
  Matrix 3 3 3 [] [2; 2; 2] [1; 1; 1] [] [7; 7; 7].

Definition ex_rm_loc : list Z := [5; 6].

Lemma ex_LU_wf : wf ex_LU.
Proof. apply wf_check_sound. reflexivity. Qed.

Lemma ex_inputs (LU_new : magma_z_matrix Z) :
  forallb (λ i, match rd (rowidx LU_new) i, rd (col LU_new) i with
                | Some r, Some _ => (0 <=? r) && (r <? 3)
                | _, _ => false
                end) (seqZ 0 (nnz LU_new)) = true →
  insert_inputs 2 ex_rm_loc LU_new ex_LU.
Proof.
  rewrite forallb_forall. intros Hall. constructor.
  - intros i Hi. specialize (Hall i).
    destruct (rd (rowidx LU_new) i) as [r|], (rd (col LU_new) i) as [c|];
      try (discriminate Hall; apply list_elem_of_In, elem_of_seqZ; lia).
    exists r, c. do 2 (split; [done|]).
    assert (Hr : (0 <=? r) && (r <? 3) = true).
    { apply Hall, list_elem_of_In, elem_of_seqZ. lia. }
    apply andb_prop in Hr as [?%Z.leb_le ?%Z.ltb_lt]. unfold is_row. simpl. lia.
  - intros k Hk. assert (k = 0 ∨ k = 1) as [-> | ->] by lia.
    + exists 5. split; [done|]. split; [simpl; lia|done].
    + exists 6. split; [done|]. split; [simpl; lia|done].
  - intros k1 k2 s Hk1 Hk2.
    assert (k1 = 0 ∨ k1 = 1) as [-> | ->] by lia;
    assert (k2 = 0 ∨ k2 = 1) as [-> | ->] by lia; vm_compute; congruence.
Qed.

(** ** Claims on the insertion *)

Section InsertClaims.
Context {V : Type} `{Scalar V}.
Variable magma_zmorderstatistics : list V → Z → Z → Z → Z * list V * V.
Implicit Types LU LU_new : magma_z_matrix V.

Lemma insert_inputs_set_val num_rm rm_loc LU_new LU v :
  insert_inputs num_rm rm_loc LU_new LU →
  insert_inputs num_rm rm_loc (set_val LU_new v) LU.
Proof. intros [H1 H2 H3]. by constructor. Qed.

(** The routine on inputs that satisfy the invariants: it returns, and the
    factor it returns satisfies the invariant of the loop. *)
Lemma insert_total tri num_rm rm_loc LU_new LU :
  dims LU → I1 LU → I2 LU → insert_inputs num_rm rm_loc LU_new LU →
  ∃ info LU_new' LU' ni',
    magma_zmdynamicic_insert magma_zmorderstatistics tri num_rm rm_loc LU_new LU
      = Some (info, LU_new', LU') ∧
    loop_inv num_rm rm_loc LU LU' ni' ∧
    (info = 0 ∨
     num_rm < nnz LU_new ∧
     info = (magma_zmorderstatistics (val LU_new) num_rm (nnz LU_new - 1) 1).1.1).
Proof.
  intros Hd H1 H2 Hin. unfold magma_zmdynamicic_insert.
  pose proof (loop_inv_init _ _ _ _ Hd H1 H2 Hin) as Hinv.
  destruct (Z.leb_spec (nnz LU_new) num_rm) as [Hle|Hgt].
  { exists 0, LU_new, LU, 0. split; [done|]. split; [done|]. by left. }
  unfold rank_and_insert.
  destruct (magma_zmorderstatistics (val LU_new) num_rm (nnz LU_new - 1) 1)
    as [[info v] element]. cbn [fst snd].
  destruct (Z.eqb_spec info 0) as [->|Hne]; cbn [negb]; cbv beta iota zeta.
  - destruct (insert_loop_spec num_rm rm_loc (set_val LU_new v) LU
                (insert_inputs_set_val _ _ _ _ v Hin)
                (S (Z.to_nat (nnz LU_new))) LU 0 0 Hinv)
      as (LU' & i' & ni' & Hloop & Hinv' & _); [lia|simpl; lia|].
    change (nnz (set_val LU_new v)) with (nnz LU_new) in Hloop.
    rewrite Hloop. cbn [mbind option_bind]. exists 0, (set_val LU_new v), LU', ni'.
    split; [done|]. split; [done|]. by left.
  - exists info, (set_val LU_new v), LU, 0. split; [done|]. split; [done|].
    right. split; [lia|done].
Qed.

(** C5. The insertion keeps (I2) and (I3): when every row of the factor is
    a chain whose columns strictly increase, the routine returns and every
    row of the factor it returns is again a chain with strictly increasing
    columns, hence without a duplicate column. *)
Theorem insert_preserves_order tri num_rm rm_loc LU_new LU :
  dims LU → I1 LU → I2 LU → I3 LU →
  insert_inputs num_rm rm_loc LU_new LU →
  ∃ info LU_new' LU',
    magma_zmdynamicic_insert magma_zmorderstatistics tri num_rm rm_loc LU_new LU
      = Some (info, LU_new', LU') ∧
    I1 LU' ∧ I2 LU' ∧ I3 LU'.
Proof.
  intros Hd H1 H2 _ Hin.
  destruct (insert_total tri num_rm rm_loc LU_new LU Hd H1 H2 Hin)
    as (info & LU_new' & LU' & ni' & Hres & Hinv & _).
  exists info, LU_new', LU'. split; [done|].
  destruct Hinv as [_ H1' H2' _ _ _ _].
  split; [done|]. split; [done|]. by apply I2_I3.
Qed.

(** C2, as the code has it. The round is skipped, with the status [0] and
    nothing changed, when [num_rm >= LU_new->nnz]; the candidates are
    ranked and inserted when [num_rm < LU_new->nnz]. *)
Theorem insert_skip_guard tri num_rm rm_loc LU_new LU :
  (nnz LU_new ≤ num_rm →
   magma_zmdynamicic_insert magma_zmorderstatistics tri num_rm rm_loc LU_new LU
     = Some (0, LU_new, LU)) ∧
  (num_rm < nnz LU_new →
   magma_zmdynamicic_insert magma_zmorderstatistics tri num_rm rm_loc LU_new LU
     = rank_and_insert magma_zmorderstatistics num_rm rm_loc LU_new LU).
Proof.
  unfold magma_zmdynamicic_insert.
  split; intros Hn; destruct (Z.leb_spec (nnz LU_new) num_rm); (done || lia).
Qed.

(** C10. The status of the insertion is [0] on every path but the failure
    of the order statistics, whose status is then returned: it is [0] when
    the round is skipped, and [0] when the loop ends, be it after [num_rm]
    insertions or at the end of the candidate list. *)
Theorem insert_status tri num_rm rm_loc LU_new LU :
  dims LU → I1 LU → I2 LU → insert_inputs num_rm rm_loc LU_new LU →
  ∃ info LU_new' LU',
    magma_zmdynamicic_insert magma_zmorderstatistics tri num_rm rm_loc LU_new LU
      = Some (info, LU_new', LU') ∧
    (nnz LU_new ≤ num_rm → info = 0 ∧ LU' = LU) ∧
    ((magma_zmorderstatistics (val LU_new) num_rm (nnz LU_new - 1) 1).1.1 = 0 →
     info = 0) ∧
    (info ≠ 0 →
     num_rm < nnz LU_new ∧ LU' = LU ∧
     info = (magma_zmorderstatistics (val LU_new) num_rm (nnz LU_new - 1) 1).1.1).
Proof.
  intros Hd H1 H2 Hin.
  destruct (insert_total tri num_rm rm_loc LU_new LU Hd H1 H2 Hin)
    as (info & LU_new' & LU' & ni' & Hres & _ & Hinfo).
  exists info, LU_new', LU'. split; [done|].
  revert Hres. unfold magma_zmdynamicic_insert, rank_and_insert.
  destruct (Z.leb_spec (nnz LU_new) num_rm) as [Hle|Hgt].
  { intros [= <- <- <-]. split; [done|]. split; [done|]. done. }
  destruct (magma_zmorderstatistics (val LU_new) num_rm (nnz LU_new - 1) 1)
    as [[info' v] element]. cbn [fst snd].
  destruct (Z.eqb_spec info' 0) as [->|Hne]; cbn [negb]; cbv beta iota zeta.
  - destruct (insert_loop _ _ _ _ _ _ _) as [[[LU'' i'] ni'']|]; [|done].
    cbn [mbind option_bind]. intros [= <- <- <-]. split; [lia|]. split; [done|]. done.
  - intros [= <- <- <-]. split; [lia|]. split; [done|]. done.
Qed.

End InsertClaims.

(** The inputs of the examples satisfy what the theorems ask for. *)
Lemma insert_preserves_order_witness :
  ∃ info LU_new' LU',
    magma_zmdynamicic_insert select_model 0 2 ex_rm_loc ex_cand ex_LU
      = Some (info, LU_new', LU') ∧
    I1 LU' ∧ I2 LU' ∧ I3 LU'.
Proof.
  apply (insert_preserves_order select_model 0 2 ex_rm_loc ex_cand ex_LU);
    try apply ex_LU_wf.
  apply ex_inputs. reflexivity.
Defined.

(** With three candidates at the same position and two freed slots the
    loop ends at the end of the candidate list after one insertion. *)
Lemma insert_status_witness :
  ∃ info LU_new' LU',
    magma_zmdynamicic_insert select_model 0 2 ex_rm_loc ex_cand3 ex_LU
      = Some (info, LU_new', LU') ∧
    (nnz ex_cand3 ≤ 2 → info = 0 ∧ LU' = ex_LU) ∧
    ((select_model (val ex_cand3) 2 (nnz ex_cand3 - 1) 1).1.1 = 0 → info = 0) ∧
    (info ≠ 0 →
     2 < nnz ex_cand3 ∧ LU' = ex_LU ∧
     info = (select_model (val ex_cand3) 2 (nnz ex_cand3 - 1) 1).1.1).
Proof.
  apply (insert_status select_model 0 2 ex_rm_loc ex_cand3 ex_LU);
    try apply ex_LU_wf.
  apply ex_inputs. reflexivity.
Defined.

(** C2 fails as stated: with as many freed slots as candidates
    ([num_rm = LU_new->nnz = 2]) the round is skipped and the factor is
    returned as it was, although ranking and inserting would have put both
    candidates into the factor. *)
Lemma insert_equal_counts_skipped :
  nnz ex_cand2 = 2 ∧
  magma_zmdynamicic_insert select_model 0 2 ex_rm_loc ex_cand2 ex_LU
    = Some (0, ex_cand2, ex_LU) ∧
  ∃ LU_new' LU',
    rank_and_insert select_model 2 ex_rm_loc ex_cand2 ex_LU
      = Some (0, LU_new', LU') ∧
    row LU' = [1; 6; 3; 0] ∧ llist LU' = [-1; 0; 0; 5; 0; 4; 2] ∧
    LU' ≠ ex_LU.
Proof.
  split; [reflexivity|]. split; [reflexivity|].
  eexists _, _. split; [reflexivity|]. split; [reflexivity|].
  split; [reflexivity|]. discriminate.
Qed.

Lemma NoDup_fmap_eq {A B} (f : A → B) (l : list A) x y :
  NoDup (f <$> l) → x ∈ l → y ∈ l → f x = f y → x = y.
Proof.
  induction l as [|a l IH]; [by intros _ ?%elem_of_nil|].
  rewrite fmap_cons, NoDup_cons, !elem_of_cons.
  intros [Hna Hnd] [->|Hx] [->|Hy] Heq; [done| | |by apply IH].
  - exfalso. apply Hna. rewrite Heq. by apply list_elem_of_fmap_2.
  - exfalso. apply Hna. rewrite <- Heq. by apply list_elem_of_fmap_2.
Qed.

(** ** Threshold selection: [magma_zmdynamicilu_set_thrs] *)

Section SetThreshold.
Context {V : Type} `{Scalar V}.
Variable magma_zmorderstatistics : list V → Z → Z → Z → Z * list V * V.

(** [magma_zmalloc_cpu( &ptr, n )], of the library as well: the status
    of the allocation of [n] scalars. *)
Variable magma_zmalloc_cpu : Z → Z.

(** [blasf77_zcopy( &n, x, &ione, y, &ione )] into a fresh array of [n]
    scalars: the content of the array after the copy. *)
Definition zcopy (n : Z) (x : list V) : option (list V) :=
  if n <=? Z.of_nat (length x) then Some (take (Z.to_nat n) x) else None.

(** [thrs] is the content of [*thrs] before the call. The result is the
    status, the factor and the content of [*thrs] after the call. *)
Definition magma_zmdynamicilu_set_thrs (num_rm : Z)
    (LU : magma_z_matrix V) (thrs : V) : option (Z * magma_z_matrix V * V) :=
  let alloc_info := magma_zmalloc_cpu (nnz LU) in
  if negb (alloc_info =? 0) then Some (alloc_info, LU, thrs)
  else
    v ← zcopy (nnz LU) (val LU);
    let '(info, _, element) := magma_zmorderstatistics v (nnz LU) num_rm 0 in
    if negb (info =? 0) then Some (info, LU, thrs)
    else Some (info, LU, element).

End SetThreshold.

(** ** Threshold removal: [magma_zmdynamicilu_rm_thrs] *)

Section Removal.
Context {V : Type} `{Scalar V}.
Implicit Types LU : magma_z_matrix V.

(** [LU->val[ i ] = MAGMA_Z_ZERO; LU->list[ i ] = -1;] *)
Definition mark_removed LU (i : Z) : option (magma_z_matrix V) :=
  v ← wr (val LU) i zero;
  l ← wr (llist LU) i (-1);
  Some (set_llist (set_val LU v) l).

(** The head pointer or the linked list is changed to skip the slot [i];
    the result is the factor and the new value of [lasti]. *)
Definition bypass LU (r i lasti nexti : Z) : option (magma_z_matrix V * Z) :=
  rowr ← rd (row LU) r;
  if rowr =? i then
    rw ← wr (row LU) r nexti;
    Some (set_row LU rw, i)
  else
    l ← wr (llist LU) lasti nexti;
    Some (set_llist LU l, lasti).

(** The [while( nexti!=0 )] of row [r]. The state is the factor, the
    array [rm_loc] and the counter [count_rm]; [i], [lasti] and [nexti]
    are the locals of the loop. *)
Fixpoint rm_row (fuel : nat) (thrs : V) (r : Z) LU (rm_loc : list Z)
    (count_rm i lasti nexti : Z) : option (magma_z_matrix V * list Z * Z) :=
  match fuel with
  | O => None
  | S fuel' =>
    if nexti =? 0 then Some (LU, rm_loc, count_rm) else
    vi ← rd (val LU) i;
    if abs_lt vi thrs then
      LU1 ← mark_removed LU i;
      rm_loc' ← wr rm_loc count_rm i;
      '(LU2, lasti') ← bypass LU1 r i lasti nexti;
      nexti' ← rd (llist LU2) nexti;
      rm_row fuel' thrs r LU2 rm_loc' (count_rm + 1) nexti lasti' nexti'
    else
      nexti' ← rd (llist LU) nexti;
      rm_row fuel' thrs r LU rm_loc count_rm nexti i nexti'
  end.

(** The loop over the rows [r, r+1, ...], [n] of them. *)
Fixpoint rm_rows (n : nat) (thrs : V) (r : Z) LU (rm_loc : list Z)
    (count_rm : Z) : option (magma_z_matrix V * list Z * Z) :=
  match n with
  | O => Some (LU, rm_loc, count_rm)
  | S n' =>
    i ← rd (row LU) r;
    nexti ← rd (llist LU) i;
    '(LU', rm_loc', count_rm') ←
      rm_row (S (length (llist LU))) thrs r LU rm_loc count_rm i i nexti;
    rm_rows n' thrs (r + 1) LU' rm_loc' count_rm'
  end.

(** The result is the status, [*num_rm], the factor and [rm_loc]. *)
Definition magma_zmdynamicilu_rm_thrs (thrs : V) LU (rm_loc : list Z)
  : option (Z * Z * magma_z_matrix V * list Z) :=
  '(LU', rm_loc', count_rm) ←
    rm_rows (Z.to_nat (num_rows LU)) thrs 0 LU rm_loc 0;
  Some (0, count_rm, LU', rm_loc').

End Removal.

(** ** The effect of the removal on one row *)

Lemma chain_ext nx nx' s l :
  chain nx s l → (∀ x, x ∈ l → rd nx' x = rd nx x) → chain nx' s l.
Proof.
  induction 1 as [|s s' l Hs Hr Hc IH]; intros Hext; [constructor|].
  econstructor; [done| |].
  - rewrite Hext; [done|in_list].
  - apply IH. intros x Hx. apply Hext. in_list.
Qed.

(** Making [a] point to the successor of its successor [b]. *)
Lemma chain_bypass nx nx' s p a b rest n :
  chain nx s (p ++ a :: b :: rest) → rd nx b = Some n →
  (∀ x, x ≠ a → x ≠ b → rd nx' x = rd nx x) → rd nx' a = Some n →
  chain nx' s (p ++ a :: rest).
Proof.
  intros Hc Hb Hext Ha. pose proof (chain_NoDup _ _ _ Hc) as Hnd.
  revert s Hc. induction p as [|x p IH]; intros s Hc; simpl in *.
  - inversion Hc as [|? s1 ? Ha0 Ha1 Hc1]; subst.
    inversion Hc1 as [|? s2 ? Hb0 Hb1 Hc2]; subst.
    rewrite Hb in Hb1. injection Hb1 as <-.
    apply NoDup_cons in Hnd as [Hna Hnd]. apply NoDup_cons in Hnd as [Hnb _].
    econstructor; [done|done|]. apply (chain_ext nx); [done|].
    intros y Hy. apply Hext; intros ->; [apply Hna|apply Hnb]; in_list.
  - inversion Hc as [|? s1 ? Hx0 Hx1 Hc1]; subst.
    apply NoDup_cons in Hnd as [Hnx Hnd].
    econstructor; [done| |by apply IH].
    rewrite Hext; [done| |]; intros ->; apply Hnx; in_list.
Qed.

Section RemovalRow.
Context {V : Type} `{Scalar V}.
Implicit Types LU : magma_z_matrix V.

(** [MAGMA_Z_ABS( val[ s ] ) < MAGMA_Z_ABS( thrs )]. *)
Definition below (vals : list V) (thrs : V) (s : Z) : bool :=
  match rd vals s with
  | Some v => abs_lt v thrs
  | None => false
  end.

(** What the loop leaves of a chain: the slots that are not below the
    threshold, and the last slot in any case. *)
Fixpoint rm_keep (vals : list V) (thrs : V) (l : list Z) : list Z :=
  match l with
  | s :: (_ :: _) as l' =>
    if below vals thrs s then rm_keep vals thrs l'
    else s :: rm_keep vals thrs l'
  | _ => l
  end.

(** The slots that the loop removes from a chain, in the order of their
    removal. *)
Fixpoint rm_drop (vals : list V) (thrs : V) (l : list Z) : list Z :=
  match l with
  | s :: (_ :: _) as l' =>
    if below vals thrs s then s :: rm_drop vals thrs l'
    else rm_drop vals thrs l'
  | _ => []
  end.

Lemma rm_keep_cons vals thrs a b l :
  rm_keep vals thrs (a :: b :: l) =
  if below vals thrs a then rm_keep vals thrs (b :: l)
  else a :: rm_keep vals thrs (b :: l).
Proof. done. Qed.

Lemma rm_drop_cons vals thrs a b l :
  rm_drop vals thrs (a :: b :: l) =
  if below vals thrs a then a :: rm_drop vals thrs (b :: l)
  else rm_drop vals thrs (b :: l).
Proof. done. Qed.

Lemma rm_drop_elem vals thrs l s :
  s ∈ rm_drop vals thrs l → s ∈ l ∧ below vals thrs s = true.
Proof.
  induction l as [|a [|b l] IH]; [by intros ?%elem_of_nil..|].
  rewrite rm_drop_cons. destruct (below vals thrs a) eqn:Ha.
  - intros [->|Hs]%elem_of_cons; [split; [in_list|done]|].
    apply IH in Hs as [Hs Hb]. split; [in_list|done].
  - intros Hs. apply IH in Hs as [Hs Hb]. split; [in_list|done].
Qed.

Lemma rm_keep_elem vals thrs l s : s ∈ rm_keep vals thrs l → s ∈ l.
Proof.
  induction l as [|a [|b l] IH]; [done..|].
  rewrite rm_keep_cons. destruct (below vals thrs a).
  - intros Hs. apply IH in Hs. in_list.
  - intros [->|Hs]%elem_of_cons; [in_list|]. apply IH in Hs. in_list.
Qed.

Lemma rm_keep_ext vals vals' thrs l :
  (∀ s, s ∈ l → rd vals' s = rd vals s) →
  rm_keep vals' thrs l = rm_keep vals thrs l.
Proof.
  induction l as [|a [|b l] IH]; [done..|]. intros Hext.
  rewrite !rm_keep_cons. unfold below at 1 2. rewrite (Hext a) by in_list.
  rewrite IH; [done|]. intros s Hs. apply Hext. in_list.
Qed.

Lemma rm_drop_ext vals vals' thrs l :
  (∀ s, s ∈ l → rd vals' s = rd vals s) →
  rm_drop vals' thrs l = rm_drop vals thrs l.
Proof.
  induction l as [|a [|b l] IH]; [done..|]. intros Hext.
  rewrite !rm_drop_cons. unfold below at 1 2. rewrite (Hext a) by in_list.
  rewrite IH; [done|]. intros s Hs. apply Hext. in_list.
Qed.

(** The kept slots are the slots before the last one that are not below
    the threshold, followed by the last one. *)
Lemma rm_keep_snoc vals thrs l d :
  rm_keep vals thrs (l ++ [d]) =
  filter (λ s, below vals thrs s = false) l ++ [d].
Proof.
  induction l as [|a l IH]; [done|].
  change ((a :: l) ++ [d]) with (a :: (l ++ [d])).
  assert (Hne : ∃ b l', l ++ [d] = b :: l') by (destruct l; simpl; eauto).
  destruct Hne as (b & l' & Heq). rewrite filter_cons.
  rewrite Heq, rm_keep_cons, <- Heq, IH.
  by destruct (below vals thrs a).
Qed.

Lemma rm_drop_snoc vals thrs l d :
  rm_drop vals thrs (l ++ [d]) =
  filter (λ s, below vals thrs s = true) l.
Proof.
  induction l as [|a l IH]; [done|].
  change ((a :: l) ++ [d]) with (a :: (l ++ [d])).
  assert (Hne : ∃ b l', l ++ [d] = b :: l') by (destruct l; simpl; eauto).
  destruct Hne as (b & l' & Heq). rewrite filter_cons.
  rewrite Heq, rm_drop_cons, <- Heq, IH.
  by destruct (below vals thrs a).
Qed.

(** What the treatment of row [r], whose chain is [l0], changes in the
    factor when it removes the slots [dropped]. *)
Record rm_frame LU LU' (r : Z) (l0 dropped : list Z) : Prop := RmFrame {
  rf_dims : dims LU';
  rf_rows : num_rows LU' = num_rows LU;
  rf_nnz : nnz LU' = nnz LU;
  rf_col : col LU' = col LU;
  rf_rowidx : rowidx LU' = rowidx LU;
  rf_row : ∀ r', r' ≠ r → rd (row LU') r' = rd (row LU) r';
  rf_llist : ∀ s, s ∉ l0 → rd (llist LU') s = rd (llist LU) s;
  rf_val : ∀ s, s ∉ dropped → rd (val LU') s = rd (val LU) s;
  rf_dropped : ∀ s, s ∈ dropped →
    rd (val LU') s = Some zero ∧ rd (llist LU') s = Some (-1)
}.

Lemma rm_frame_refl LU r l0 : dims LU → rm_frame LU LU r l0 [].
Proof. intros Hd. constructor; try done. by intros s ?%elem_of_nil. Qed.

End RemovalRow.

Section RemovalStep.
Context {V : Type} `{Scalar V}.
Implicit Types LU : magma_z_matrix V.

(** The removal of the slot [i] of row [r], whose successor is [x]. *)
Lemma remove_step LU r pre i x rest lasti :
  dims LU → row_chain LU r (pre ++ i :: x :: rest) →
  (pre = [] ∨ last pre = Some lasti) →
  ∃ LU1 LU2 lasti',
    mark_removed LU i = Some LU1 ∧
    bypass LU1 r i lasti x = Some (LU2, lasti') ∧
    row_chain LU2 r (pre ++ x :: rest) ∧
    (pre = [] ∨ last pre = Some lasti') ∧
    rm_frame LU LU2 r (pre ++ i :: x :: rest) [i].
Proof.
  intros Hd (s0 & Hs0 & Hc) Hpre.
  pose proof (chain_NoDup _ _ _ Hc) as Hnd.
  pose proof (chain_range _ _ _ Hc) as Hrange.
  rewrite Forall_forall in Hrange.
  assert (Hi : 0 < i < Z.of_nat (length (llist LU))) by (apply Hrange; in_list).
  pose proof (chain_suffix _ _ _ _ _ Hc) as Hci.
  inversion Hci as [|? x' ? Hi0 Hix Hcx]; subst.
  pose proof (chain_head _ _ _ _ Hcx) as ->.
  assert (Hnix : i ∉ x :: rest).
  { apply NoDup_app in Hnd as (_ & _ & Hnd). by apply NoDup_cons in Hnd as [? _]. }
  destruct Hd as [Hd1 Hd2 Hd3 Hd4 Hd5 Hd6 Hd7].
  destruct (wr (val LU) i zero) as [v|] eqn:Hv.
  2:{ rewrite wr_Some in Hv by lia. done. }
  destruct (wr (llist LU) i (-1)) as [l|] eqn:Hl.
  2:{ rewrite wr_Some in Hl by lia. done. }
  assert (Hm : mark_removed LU i = Some (set_llist (set_val LU v) l)).
  { unfold mark_removed. by rewrite Hv, Hl. }
  pose proof (wr_length _ _ _ _ Hv) as Hlv.
  pose proof (wr_length _ _ _ _ Hl) as Hll.
  exists (set_llist (set_val LU v) l). unfold bypass.
  cbn [row set_llist set_val llist]. rewrite Hs0. cbn [mbind option_bind].
  destruct Hpre as [->|Hlast].
  - simpl in Hc. pose proof (chain_head _ _ _ _ Hc) as ->.
    rewrite Z.eqb_refl.
    destruct (wr (row LU) r x) as [rw|] eqn:Hrw.
    2:{ apply rd_Some_range in Hs0. rewrite wr_Some in Hrw by done. done. }
    pose proof (wr_length _ _ _ _ Hrw) as Hlr.
    eexists _, _. split; [exact Hm|]. split; [done|].
    split; [|split; [by left|]].
    + exists x. simpl. split; [by eapply rd_wr_eq|].
      by apply (chain_frame (llist LU) x (x :: rest) i (-1) l).
    + constructor; simpl; try done.
      * constructor; simpl; lia.
      * intros r' Hr'. by eapply rd_wr_ne.
      * intros s Hs. eapply rd_wr_ne; [done|]. intros ->. apply Hs. in_list.
      * intros s Hs. eapply rd_wr_ne; [done|]. intros ->. apply Hs. in_list.
      * intros s ->%list_elem_of_singleton.
        split; by eapply rd_wr_eq.
  - apply last_Some in Hlast as [pre' ->].
    assert (Hs0i : s0 ≠ i).
    { intros ->. destruct pre' as [|p pre']; simpl in Hc;
        pose proof (chain_head _ _ _ _ Hc) as <-;
        apply NoDup_cons in Hnd as [Hn _]; apply Hn; in_list. }
    destruct (Z.eqb_spec s0 i); [done|].
    assert (Hla : 0 < lasti < Z.of_nat (length (llist LU))) by (apply Hrange; in_list).
    assert (Hlai : lasti ≠ i).
    { intros ->. rewrite <- app_assoc in Hnd.
      apply NoDup_app in Hnd as (_ & _ & Hnd).
      apply NoDup_cons in Hnd as [Hn _]. apply Hn. in_list. }
    destruct (wr l lasti x) as [l'|] eqn:Hl'.
    2:{ rewrite wr_Some in Hl' by lia. done. }
    pose proof (wr_length _ _ _ _ Hl') as Hll'.
    eexists _, _. split; [exact Hm|]. split; [done|].
    split; [|split; [right; apply last_snoc|]].
    + exists s0. simpl. split; [done|]. rewrite <- app_assoc in Hc |- *.
      apply (chain_bypass (llist LU) l' s0 pre' lasti i (x :: rest) x);
        try done.
      * intros y Hya Hyb. rewrite (rd_wr_ne _ _ _ _ _ Hl') by done.
        by rewrite (rd_wr_ne _ _ _ _ _ Hl).
      * by eapply rd_wr_eq.
    + constructor; simpl; try done.
      * constructor; simpl; lia.
      * intros s Hs. rewrite (rd_wr_ne _ _ _ _ _ Hl'), (rd_wr_ne _ _ _ _ _ Hl);
          [done| |]; intros ->; apply Hs; in_list.
      * intros s Hs. eapply rd_wr_ne; [done|]. intros ->. apply Hs. in_list.
      * intros s ->%list_elem_of_singleton. split; [by eapply rd_wr_eq|].
        rewrite (rd_wr_ne _ _ _ _ _ Hl') by done. by eapply rd_wr_eq.
Qed.

End RemovalStep.

Section RemovalLoop.
Context {V : Type} `{Scalar V}.
Implicit Types LU : magma_z_matrix V.

Lemma rm_frame_trans LU LU2 LU' r l0 l2 i d' :
  rm_frame LU LU2 r l0 [i] → rm_frame LU2 LU' r l2 d' →
  (∀ s, s ∈ l2 → s ∈ l0) → i ∉ l2 → (∀ s, s ∈ d' → s ∈ l2) →
  rm_frame LU LU' r l0 (i :: d').
Proof.
  intros [A1 A2 A3 A4 A5 A6 A7 A8 A9] [B1 B2 B3 B4 B5 B6 B7 B8 B9] Hsub Hi Hd'.
  constructor; try congruence.
  - intros r' Hr'. by rewrite B6, A6.
  - intros s Hs. rewrite B7, A7; [done|done|]. intros Hs2. by apply Hs, Hsub.
  - intros s Hs. rewrite B8, A8; [done| |]; intros Hs2; apply Hs; in_list.
  - intros s [->|Hs]%elem_of_cons; [|by apply B9].
    destruct (A9 i) as [Hv Hl]; [in_list|].
    rewrite B8, B7; [done|done|]. intros Hid. by apply Hi, Hd'.
Qed.

Lemma take_write (rm_loc rm1 : list Z) count i :
  0 ≤ count → wr rm_loc count i = Some rm1 →
  take (Z.to_nat (count + 1)) rm1 = take (Z.to_nat count) rm_loc ++ [i].
Proof.
  intros Hc Hw. pose proof (rd_wr_eq _ _ _ _ Hw) as Hr.
  apply wr_inv in Hw as [Hrange ->].
  replace (Z.to_nat (count + 1)) with (S (Z.to_nat count)) by lia.
  unfold rd in Hr. destruct (Z.leb_spec 0 count); [|lia].
  rewrite (take_S_r _ _ _ Hr). f_equal. by rewrite take_insert_ge.
Qed.

(** The loop of row [r], entered at the slot [i] of the chain
    [pre ++ i :: rest] with the slots of [pre] kept. *)
Lemma rm_row_spec thrs r rest :
  ∀ LU pre i lasti nexti rm_loc count fuel,
    dims LU → row_chain LU r (pre ++ i :: rest) →
    rd (llist LU) i = Some nexti →
    (pre = [] ∨ last pre = Some lasti) →
    0 ≤ count →
    count + Z.of_nat (length rest) ≤ Z.of_nat (length rm_loc) →
    (length rest < fuel)%nat →
    ∃ LU' rm',
      rm_row fuel thrs r LU rm_loc count i lasti nexti
        = Some (LU', rm',
                count + Z.of_nat (length (rm_drop (val LU) thrs (i :: rest)))) ∧
      row_chain LU' r (pre ++ rm_keep (val LU) thrs (i :: rest)) ∧
      rm_frame LU LU' r (pre ++ i :: rest) (rm_drop (val LU) thrs (i :: rest)) ∧
      length rm' = length rm_loc ∧
      take (Z.to_nat (count + Z.of_nat (length (rm_drop (val LU) thrs (i :: rest)))))
        rm'
      = take (Z.to_nat count) rm_loc ++ rm_drop (val LU) thrs (i :: rest).
Proof.
  induction rest as [|x rest IH];
    intros LU pre i lasti nexti rm_loc count fuel Hd Hrow Hnext Hpre Hc Hcap Hf.
  - destruct fuel as [|fuel]; [lia|].
    pose proof Hrow as (s0 & Hs0 & Hch).
    apply chain_suffix in Hch. inversion Hch as [|? n ? Hi0 Hin Hcn]; subst.
    rewrite Hnext in Hin. injection Hin as <-. apply chain_nil_inv in Hcn as ->.
    exists LU, rm_loc. cbn [rm_row rm_drop rm_keep length]. rewrite Z.add_0_r.
    split; [done|]. split; [done|]. split; [by apply rm_frame_refl|].
    split; [done|]. by rewrite app_nil_r.
  - destruct fuel as [|fuel]; [lia|].
    pose proof Hrow as (s0 & Hs0 & Hch).
    pose proof (chain_NoDup _ _ _ Hch) as Hnd.
    pose proof (chain_range _ _ _ Hch) as Hrange.
    rewrite Forall_forall in Hrange.
    assert (Hi : 0 < i < Z.of_nat (length (llist LU))) by (apply Hrange; in_list).
    apply chain_suffix in Hch. inversion Hch as [|? n ? Hi0 Hin Hcn]; subst.
    rewrite Hnext in Hin. injection Hin as <-.
    pose proof (chain_head _ _ _ _ Hcn) as ->.
    inversion Hcn as [|? x' ? Hx0 Hxn Hcx]; subst.
    cbn [rm_row]. destruct (Z.eqb_spec x 0); [done|].
    destruct (rd_is_Some (val LU) i) as [vi Hvi]; [destruct Hd; lia|].
    rewrite Hvi. cbn [mbind option_bind].
    rewrite rm_keep_cons, rm_drop_cons. unfold below at 1 2 3 4 5. rewrite Hvi.
    destruct (abs_lt vi thrs) eqn:Hlt.
    + destruct (remove_step LU r pre i x rest lasti Hd Hrow Hpre)
        as (LU1 & LU2 & lasti' & Hm & Hb & Hrow2 & Hpre2 & Hfr).
      rewrite Hm. cbn [mbind option_bind].
      destruct (wr rm_loc count i) as [rm1|] eqn:Hrm1.
      2:{ rewrite wr_Some in Hrm1; [done|]. simpl in Hcap. lia. }
      cbn [mbind option_bind]. rewrite Hb. cbn [mbind option_bind].
      pose proof Hrow2 as (s2 & Hs2 & Hch2).
      apply chain_suffix in Hch2. inversion Hch2 as [|? x2 ? _ Hxn2 _]; subst.
      rewrite Hxn2. cbn [mbind option_bind].
      assert (Hnix : i ∉ pre ++ x :: rest).
      { rewrite NoDup_app in Hnd. destruct Hnd as (_ & Hn1 & Hn2).
        apply NoDup_cons in Hn2 as [Hn2 _]. intros [Hp|Hx]%elem_of_app.
        - apply (Hn1 i Hp). in_list.
        - done. }
      assert (Hext : ∀ s, s ∈ x :: rest → rd (val LU2) s = rd (val LU) s).
      { intros s Hs. apply (rf_val _ _ _ _ _ Hfr).
        intros ->%list_elem_of_singleton. apply Hnix. in_list. }
      destruct (IH LU2 pre x lasti' x2 rm1 (count + 1) fuel)
        as (LU' & rm' & Hres & Hrow' & Hfr' & Hlen' & Htake'); try done.
      * apply Hfr.
      * lia.
      * rewrite (wr_length _ _ _ _ Hrm1). simpl in Hcap. lia.
      * simpl in Hf. lia.
      * rewrite (rm_drop_ext _ _ _ _ Hext), (rm_keep_ext _ _ _ _ Hext) in *.
        exists LU', rm'. cbn [length].
        replace (count + Z.of_nat (S (length (rm_drop (val LU) thrs (x :: rest)))))
          with (count + 1 + Z.of_nat (length (rm_drop (val LU) thrs (x :: rest))))
          by lia.
        split; [done|]. split; [done|]. split; [|split].
        -- apply (rm_frame_trans LU LU2 LU' r _ (pre ++ x :: rest)); try done.
           ++ intros s Hs. in_list.
           ++ intros s Hs. apply rm_drop_elem in Hs as [Hs _]. in_list.
        -- by rewrite Hlen', (wr_length _ _ _ _ Hrm1).
        -- rewrite Htake', (take_write _ _ _ _ Hc Hrm1), <- app_assoc. done.
    + rewrite Hxn. cbn [mbind option_bind].
      destruct (IH LU (pre ++ [i]) x i x' rm_loc count fuel)
        as (LU' & rm' & Hres & Hrow' & Hfr' & Hlen' & Htake'); try done.
      * by rewrite <- app_assoc.
      * right. apply last_snoc.
      * simpl in Hcap. lia.
      * simpl in Hf. lia.
      * exists LU', rm'. rewrite <- !app_assoc in *. done.
Qed.

End RemovalLoop.

(** Distinct slots in the range of the array are fewer than its size. *)
Lemma NoDup_range_length (l : list Z) (n : Z) :
  0 < n → NoDup l → (∀ x, x ∈ l → 0 < x < n) → Z.of_nat (length l) < n.
Proof.
  intros Hn Hnd Hr. destruct (decide (l = [])) as [->|Hne].
  { simpl. lia. }
  assert (Hsub : Z.to_nat <$> l ⊆+ seq 1 (Z.to_nat n - 1)).
  { apply NoDup_submseteq.
    - apply NoDup_fmap_2_strong; [|done].
      intros x y Hx%Hr Hy%Hr Heq. lia.
    - intros k (x & -> & Hx%Hr)%list_elem_of_fmap. apply elem_of_seq. lia. }
  apply submseteq_length in Hsub. rewrite length_fmap, length_seq in Hsub.
  destruct l as [|x l]; [done|]. specialize (Hr x). simpl in *.
  assert (0 < x < n) by (apply Hr; in_list). lia.
Qed.

Section RemovalRows.
Context {V : Type} `{Scalar V}.
Implicit Types LU : magma_z_matrix V.

(** The invariants that the loop over the rows relies on. *)
Record rinv LU : Prop := RInv {
  ri_dims : dims LU;
  ri_I1 : I1 LU;
  ri_I4 : I4 LU;
  ri_I5 : I5 LU
}.

Lemma rm_drop_NoDup vals thrs l : NoDup l → NoDup (rm_drop vals thrs l).
Proof.
  induction l as [|a [|b l] IH]; [constructor..|].
  intros [Ha Hnd]%NoDup_cons. rewrite rm_drop_cons.
  destruct (below vals thrs a); [|by apply IH].
  constructor; [|by apply IH]. by intros [? _]%rm_drop_elem.
Qed.

(** Rows other than [r] are untouched by the treatment of row [r], and
    the invariants hold again after it. *)
Lemma rm_frame_rinv LU LU' thrs r l D :
  rinv LU → is_row LU r → row_chain LU r l →
  row_chain LU' r (rm_keep (val LU) thrs l) →
  rm_frame LU LU' r l D →
  rinv LU' ∧
  ∀ r' l', r' ≠ r → is_row LU r' → row_chain LU r' l' → row_chain LU' r' l'.
Proof.
  intros [Hd H1 H4 H5] Hr Hl Hl' Hfr.
  assert (Hother : ∀ r' l', r' ≠ r → is_row LU r' → row_chain LU r' l' →
                            row_chain LU' r' l').
  { intros r' l' Hne Hr' (s & Hs & Hc). exists s.
    rewrite (rf_row _ _ _ _ _ Hfr) by done. split; [done|].
    apply (chain_ext (llist LU)); [done|]. intros x Hx.
    apply (rf_llist _ _ _ _ _ Hfr). intros Hxl.
    pose proof (H4 r l Hr Hl) as Hrl. pose proof (H4 r' l' Hr') as Hrl'.
    rewrite Forall_forall in Hrl, Hrl'.
    destruct (Hrl x Hxl) as [<- _]. destruct (Hrl' (ex_intro _ s (conj Hs Hc)) x Hx).
    done. }
  split; [|done].
  assert (Hchains : ∀ r' l', is_row LU r' → row_chain LU' r' l' →
            ∃ l0, row_chain LU r' l0 ∧ (∀ s, s ∈ l' → s ∈ l0) ∧
                  (∀ l1 d, l0 = l1 ++ [d] → ∃ l2, l' = l2 ++ [d])).
  { intros r' l' Hr' Hrl'. destruct (Z.eq_dec r' r) as [->|Hne].
    - exists l. split; [done|]. rewrite (row_chain_det _ _ _ _ Hrl' Hl'). split.
      + apply rm_keep_elem.
      + intros l1 d ->. rewrite rm_keep_snoc. eauto.
    - destruct (H1 r' Hr') as [l0 Hl0]. exists l0. split; [done|].
      rewrite (row_chain_det _ _ _ _ Hrl' (Hother r' l0 Hne Hr' Hl0)).
      split; [done|]. eauto. }
  constructor.
  - apply Hfr.
  - intros r' Hr'. unfold is_row in Hr'. rewrite (rf_rows _ _ _ _ _ Hfr) in Hr'.
    destruct (Z.eq_dec r' r) as [->|Hne]; [eauto|].
    destruct (H1 r' Hr') as [l0 Hl0]. eauto.
  - intros r' l' Hr' Hrl'. unfold is_row in Hr'.
    rewrite (rf_rows _ _ _ _ _ Hfr) in Hr'.
    destruct (Hchains r' l' Hr' Hrl') as (l0 & Hl0 & Hsub & _).
    pose proof (H4 r' l0 Hr' Hl0) as Hall. rewrite Forall_forall in Hall |- *.
    intros s Hs. rewrite (rf_rowidx _ _ _ _ _ Hfr). split; [by apply Hall, Hsub|].
    destruct Hrl' as (s' & _ & Hc').
    pose proof (chain_next_ge _ _ _ _ Hc' Hs). lia.
  - intros r' l' Hr' Hrl'. unfold is_row in Hr'.
    rewrite (rf_rows _ _ _ _ _ Hfr) in Hr'.
    destruct (Hchains r' l' Hr' Hrl') as (l0 & Hl0 & _ & Hlast).
    destruct (H5 r' l0 Hr' Hl0) as (l1 & d & -> & Hcol).
    destruct (Hlast l1 d eq_refl) as [l2 ->]. exists l2, d.
    by rewrite (rf_col _ _ _ _ _ Hfr).
Qed.

(** The treatment of one row, from the start of its loop. *)
Lemma rm_row_whole thrs r LU rm_loc count :
  rinv LU → is_row LU r → 0 ≤ count →
  count ≤ Z.of_nat (length rm_loc) → nnz LU ≤ Z.of_nat (length rm_loc) →
  NoDup (take (Z.to_nat count) rm_loc) →
  (∀ s, s ∈ take (Z.to_nat count) rm_loc → free_slot LU s) →
  ∃ l i nexti LU' rm',
    row_chain LU r l ∧ rd (row LU) r = Some i ∧ rd (llist LU) i = Some nexti ∧
    rm_row (S (length (llist LU))) thrs r LU rm_loc count i i nexti
      = Some (LU', rm',
              count + Z.of_nat (length (rm_drop (val LU) thrs l))) ∧
    row_chain LU' r (rm_keep (val LU) thrs l) ∧
    rm_frame LU LU' r l (rm_drop (val LU) thrs l) ∧
    length rm' = length rm_loc ∧
    take (Z.to_nat (count + Z.of_nat (length (rm_drop (val LU) thrs l)))) rm'
    = take (Z.to_nat count) rm_loc ++ rm_drop (val LU) thrs l.
Proof.
  intros [Hd H1 H4 H5] Hr Hc Hcl Hcap Hnd Hfree.
  destruct (H1 r Hr) as [l Hl]. pose proof Hl as (i & Hi & Hch).
  destruct (H5 r l Hr Hl) as (l1 & d & -> & _).
  assert (Hne : ∃ rest, l1 ++ [d] = i :: rest).
  { destruct l1; simpl in *; pose proof (chain_head _ _ _ _ Hch) as ->; eauto. }
  destruct Hne as [rest Hrest]. rewrite Hrest in *.
  inversion Hch as [|? nexti ? Hi0 Hin Hcn]; subst.
  assert (Hlen : count + Z.of_nat (length (i :: rest)) < nnz LU).
  { assert (Hall : NoDup (take (Z.to_nat count) rm_loc ++ i :: rest)).
    { apply NoDup_app. split; [done|]. split; [|by eapply chain_NoDup].
      intros s Hs Hs'. destruct (Hfree s Hs) as [_ Hf].
      by apply (free_not_in_chain _ _ _ s Hch). }
    apply (NoDup_range_length _ (nnz LU)) in Hall.
    - rewrite length_app, length_take in Hall. lia.
    - apply Hd.
    - intros s [Hs|Hs]%elem_of_app; [by apply Hfree|].
      pose proof (chain_range _ _ _ Hch) as Hrg. rewrite Forall_forall in Hrg.
      apply Hrg in Hs. destruct Hd. lia. }
  destruct (rm_row_spec thrs r rest LU [] i i nexti rm_loc count
              (S (length (llist LU))))
    as (LU' & rm' & Hres & Hrow' & Hfr & Hlen' & Htake); try done.
  - by left.
  - simpl in Hlen. lia.
  - pose proof (chain_length _ _ _ Hch) as Hl'. simpl in Hl'. lia.
  - exists (i :: rest), i, nexti, LU', rm'. done.
Qed.

End RemovalRows.

Section RemovalAll.
Context {V : Type} `{Scalar V}.
Implicit Types LU : magma_z_matrix V.

Lemma rows_disjoint LU r r' l l' s :
  I4 LU → is_row LU r → is_row LU r' → r ≠ r' →
  row_chain LU r l → row_chain LU r' l' → s ∈ l → s ∉ l'.
Proof.
  intros H4 Hr Hr' Hne Hl Hl' Hs Hs'.
  pose proof (H4 r l Hr Hl) as Ha. pose proof (H4 r' l' Hr' Hl') as Ha'.
  rewrite Forall_forall in Ha, Ha'.
  destruct (Ha s Hs) as [<- _]. destruct (Ha' s Hs') as [<- _]. done.
Qed.

(** What the loop over the rows [r, ..., r+n-1] does to the factor; [D]
    lists the slots that it removes. *)
Record rm_result (thrs : V) LU LU' (r : Z) (n : nat) (D : list Z) : Prop :=
  RmResult {
  rr_inv : rinv LU';
  rr_rows : num_rows LU' = num_rows LU;
  rr_nnz : nnz LU' = nnz LU;
  rr_col : col LU' = col LU;
  rr_in : ∀ r' l, r ≤ r' < r + Z.of_nat n → is_row LU r' → row_chain LU r' l →
    row_chain LU' r' (rm_keep (val LU) thrs l);
  rr_out : ∀ r' l, ¬ (r ≤ r' < r + Z.of_nat n) → is_row LU r' →
    row_chain LU r' l → row_chain LU' r' l;
  rr_D : ∀ s, s ∈ D ↔
    ∃ r' l, r ≤ r' < r + Z.of_nat n ∧ is_row LU r' ∧ row_chain LU r' l ∧
            s ∈ rm_drop (val LU) thrs l;
  rr_val : ∀ s, s ∉ D → rd (val LU') s = rd (val LU) s;
  rr_dropped : ∀ s, s ∈ D →
    rd (val LU') s = Some zero ∧ rd (llist LU') s = Some (-1);
  rr_free : ∀ s, free_slot LU s → free_slot LU' s;
  rr_NoDup : NoDup D
}.

Lemma rm_result_nil thrs LU r : rinv LU → rm_result thrs LU LU r 0 [].
Proof.
  intros Hinv. constructor; try done.
  - intros r' l Hr'. lia.
  - intros s. split; [by intros ?%elem_of_nil|]. intros (r' & l & Hr' & _). lia.
  - by intros s ?%elem_of_nil.
  - constructor.
Qed.

Lemma free_slot_rd LU s : dims LU → free_slot LU s → rd (llist LU) s = Some (-1).
Proof.
  intros Hd [Hr Hf]. rewrite (get_rd (llist LU) s) by (destruct Hd; lia).
  by rewrite Hf.
Qed.

Lemma rm_rows_spec thrs n :
  ∀ r LU rm_loc count,
    rinv LU → 0 ≤ r → r + Z.of_nat n ≤ num_rows LU →
    0 ≤ count → count ≤ Z.of_nat (length rm_loc) →
    nnz LU ≤ Z.of_nat (length rm_loc) →
    NoDup (take (Z.to_nat count) rm_loc) →
    (∀ s, s ∈ take (Z.to_nat count) rm_loc → free_slot LU s) →
    ∃ LU' rm' D,
      rm_rows n thrs r LU rm_loc count
        = Some (LU', rm', count + Z.of_nat (length D)) ∧
      rm_result thrs LU LU' r n D ∧
      length rm' = length rm_loc ∧
      take (Z.to_nat (count + Z.of_nat (length D))) rm'
      = take (Z.to_nat count) rm_loc ++ D.
Proof.
  induction n as [|n IH];
    intros r LU rm_loc count Hinv Hr Hrn Hc Hcl Hcap Hnd Hfree.
  { exists LU, rm_loc, []. cbn [rm_rows length]. rewrite Z.add_0_r, app_nil_r.
    split; [done|]. split; [by apply rm_result_nil|done]. }
  assert (Hrow : is_row LU r) by (unfold is_row; lia).
  destruct (rm_row_whole thrs r LU rm_loc count Hinv Hrow Hc Hcl Hcap Hnd Hfree)
    as (l & i & nexti & LU1 & rm1 & Hl & Hi & Hnext & Hrm & Hl1 & Hfr & Hlen1
        & Htake1).
  set (D1 := rm_drop (val LU) thrs l) in *.
  destruct (rm_frame_rinv LU LU1 thrs r l D1 Hinv Hrow Hl Hl1 Hfr)
    as [Hinv1 Hother].
  pose proof Hl as (s0 & _ & Hch).
  assert (HD1l : ∀ s, s ∈ D1 → s ∈ l).
  { intros s Hs. by apply rm_drop_elem in Hs as [? _]. }
  assert (Hnd1 : NoDup (take (Z.to_nat count) rm_loc ++ D1)).
  { apply NoDup_app. split; [done|]. split.
    - intros s Hs Hs'. destruct (Hfree s Hs) as [_ Hf].
      by apply (free_not_in_chain _ _ _ s Hch), HD1l.
    - apply rm_drop_NoDup. by eapply chain_NoDup. }
  assert (Hfree1 : ∀ s, free_slot LU s → free_slot LU1 s).
  { intros s [Hs Hf]. split; [by rewrite (rf_nnz _ _ _ _ _ Hfr)|].
    unfold get. rewrite (rf_llist _ _ _ _ _ Hfr); [done|].
    by apply (free_not_in_chain _ _ _ s Hch). }
  assert (HfreeD1 : ∀ s, s ∈ D1 → free_slot LU1 s).
  { intros s Hs. split.
    - pose proof (chain_range _ _ _ Hch) as Hrg. rewrite Forall_forall in Hrg.
      apply HD1l, Hrg in Hs. rewrite (rf_nnz _ _ _ _ _ Hfr).
      destruct Hinv as [[] _ _ _]. lia.
    - destruct (rf_dropped _ _ _ _ _ Hfr s Hs) as [_ Hll]. by apply rd_get. }
  assert (Hbound : count + Z.of_nat (length D1) < nnz LU).
  { apply (NoDup_range_length _ (nnz LU)) in Hnd1.
    - rewrite length_app, length_take in Hnd1. lia.
    - apply Hinv.
    - intros s [Hs|Hs]%elem_of_app; [by apply Hfree|].
      rewrite <- (rf_nnz _ _ _ _ _ Hfr). by apply HfreeD1. }
  destruct (IH (r + 1) LU1 rm1 (count + Z.of_nat (length D1)))
    as (LU' & rm' & D2 & Hrows & Hres & Hlen' & Htake'); try done.
  { lia. }
  { rewrite (rf_rows _ _ _ _ _ Hfr). lia. }
  { lia. }
  { rewrite Hlen1. lia. }
  { rewrite Hlen1, (rf_nnz _ _ _ _ _ Hfr). lia. }
  { by rewrite Htake1. }
  { rewrite Htake1. intros s [Hs|Hs]%elem_of_app; [by apply Hfree1, Hfree|].
    by apply HfreeD1. }
  assert (Hrows1 : ∀ r', is_row LU1 r' ↔ is_row LU r').
  { intros r'. unfold is_row. by rewrite (rf_rows _ _ _ _ _ Hfr). }
  assert (Hvalext : ∀ r' l', r' ≠ r → is_row LU r' → row_chain LU r' l' →
            ∀ s, s ∈ l' → rd (val LU1) s = rd (val LU) s).
  { intros r' l' Hne Hr' Hl' s Hs. apply (rf_val _ _ _ _ _ Hfr).
    intros Hs'%HD1l. revert Hs. apply (rows_disjoint LU r r' l l'); try done.
    apply Hinv. }
  assert (Hback : ∀ r' l', r' ≠ r → is_row LU r' → row_chain LU1 r' l' →
            row_chain LU r' l').
  { intros r' l' Hne Hr' Hl'. destruct (ri_I1 _ Hinv r' Hr') as [l0 Hl0].
    by rewrite (row_chain_det _ _ _ _ Hl' (Hother r' l0 Hne Hr' Hl0)). }
  assert (HD2 : ∀ s, s ∈ D2 → ¬ free_slot LU1 s).
  { intros s (r' & l' & _ & Hr' & Hl' & Hs)%(rr_D _ _ _ _ _ _ Hres) [_ Hf].
    apply rm_drop_elem in Hs as [Hs _]. destruct Hl' as (s' & _ & Hc').
    by apply (free_not_in_chain _ _ _ s Hc'). }
  exists LU', rm', (D1 ++ D2). rewrite length_app, Nat2Z.inj_add, Z.add_assoc.
  cbn [rm_rows]. rewrite Hi. cbn [mbind option_bind]. rewrite Hnext.
  cbn [mbind option_bind]. rewrite Hrm. cbn [mbind option_bind].
  split; [done|]. split; [|split; [congruence|]].
  2:{ by rewrite Htake', Htake1, <- app_assoc. }
  destruct Hres as [R1 R2 R3 R4 R5 R6 R7 R8 R9 R10 R11]. constructor.
  - done.
  - by rewrite R2, (rf_rows _ _ _ _ _ Hfr).
  - by rewrite R3, (rf_nnz _ _ _ _ _ Hfr).
  - by rewrite R4, (rf_col _ _ _ _ _ Hfr).
  - intros r' l' Hr' Hrow' Hl'. destruct (Z.eq_dec r' r) as [->|Hne].
    + rewrite (row_chain_det _ _ _ _ Hl' Hl). apply R6; [lia| |done].
      by apply Hrows1.
    + rewrite <- (rm_keep_ext (val LU) (val LU1) thrs l')
        by (by apply (Hvalext r')).
      apply R5; [lia|by apply Hrows1|by apply Hother].
  - intros r' l' Hr' Hrow' Hl'.
    apply R6; [lia|by apply Hrows1|apply Hother; [lia|done|done]].
  - intros s. rewrite elem_of_app, R7. split.
    + intros [Hs|(r' & l' & Hr' & Hrow' & Hl' & Hs)].
      * exists r, l. split; [lia|]. done.
      * exists r', l'. split; [lia|]. split; [by apply Hrows1|].
        assert (Hne : r' ≠ r) by lia.
        assert (Hl0 : row_chain LU r' l')
          by (apply Hback; [done|by apply Hrows1|done]).
        split; [done|].
        by rewrite <- (rm_drop_ext (val LU) (val LU1) thrs l')
          by (by apply (Hvalext r'); [|apply Hrows1|]).
    + intros (r' & l' & Hr' & Hrow' & Hl' & Hs).
      destruct (Z.eq_dec r' r) as [->|Hne].
      * left. unfold D1. by rewrite (row_chain_det _ _ _ _ Hl Hl').
      * right. exists r', l'. split; [lia|]. split; [by apply Hrows1|].
        split; [by apply Hother|].
        by rewrite (rm_drop_ext (val LU) (val LU1) thrs l')
          by (by apply (Hvalext r')).
  - intros s Hs. rewrite R8, (rf_val _ _ _ _ _ Hfr); [done| |];
      intros Hs'; apply Hs; in_list.
  - intros s [Hs|Hs]%elem_of_app; [|by apply R9].
    destruct (rf_dropped _ _ _ _ _ Hfr s Hs) as [Hv Hll].
    rewrite R8 by (intros Hs2; by apply (HD2 s Hs2), HfreeD1).
    split; [done|]. apply free_slot_rd; [apply R1|]. by apply R10, HfreeD1.
  - intros s Hs. by apply R10, Hfree1.
  - apply NoDup_app. split; [by apply rm_drop_NoDup; eapply chain_NoDup|].
    split; [|done]. intros s Hs Hs2. by apply (HD2 s Hs2), HfreeD1.
Qed.

End RemovalAll.

(** ** Claims on the threshold removal *)

Section RemovalClaims.
Context {V : Type} `{Scalar V}.
Implicit Types LU : magma_z_matrix V.

(** The routine on a factor that satisfies the invariants: it returns, and
    what it returns is described by [rm_result]. *)
Lemma rm_thrs_total thrs LU rm_loc :
  dims LU → I1 LU → I4 LU → I5 LU →
  nnz LU ≤ Z.of_nat (length rm_loc) →
  ∃ LU' rm_loc' D,
    magma_zmdynamicilu_rm_thrs thrs LU rm_loc
      = Some (0, Z.of_nat (length D), LU', rm_loc') ∧
    rm_result thrs LU LU' 0 (Z.to_nat (num_rows LU)) D ∧
    take (length D) rm_loc' = D.
Proof.
  intros Hd H1 H4 H5 Hcap.
  pose proof (d_rows _ Hd) as Hrows0.
  destruct (rm_rows_spec thrs (Z.to_nat (num_rows LU)) 0 LU rm_loc 0)
    as (LU' & rm' & D & Hrows & Hres & _ & Htake);
    [by constructor|lia|lia|lia|lia|done|constructor
    |by intros s ?%elem_of_nil|].
  exists LU', rm', D. unfold magma_zmdynamicilu_rm_thrs. rewrite Hrows.
  cbn [mbind option_bind]. split; [done|]. split; [done|].
  rewrite Z.add_0_l, Nat2Z.id in Htake. by rewrite Htake.
Qed.

(** C3. After the removal with the threshold [thrs] on a factor that
    satisfies (I1)-(I5): every slot of a row whose magnitude is below the
    magnitude of [thrs] and whose column is not the row has its value set
    to zero, its [list] entry set to [-1] and is recorded in [rm_loc]; no
    entry off the diagonal that is still linked is below the threshold;
    and [num_rm] is the number of the freed slots, which are recorded
    once each. *)
Theorem rm_thrs_removes_below thrs LU rm_loc :
  dims LU → I1 LU → I2 LU → I3 LU → I4 LU → I5 LU →
  nnz LU ≤ Z.of_nat (length rm_loc) →
  ∃ num_rm LU' rm_loc',
    magma_zmdynamicilu_rm_thrs thrs LU rm_loc = Some (0, num_rm, LU', rm_loc') ∧
    (∀ r l s, is_row LU r → row_chain LU r l → s ∈ l →
       below (val LU) thrs s = true → get (col LU) s ≠ r →
       rd (val LU') s = Some zero ∧ rd (llist LU') s = Some (-1) ∧
       s ∈ take (Z.to_nat num_rm) rm_loc') ∧
    (∀ r l' s, is_row LU' r → row_chain LU' r l' → s ∈ l' →
       get (col LU') s ≠ r → below (val LU') thrs s = false) ∧
    NoDup (take (Z.to_nat num_rm) rm_loc') ∧
    Z.of_nat (length (take (Z.to_nat num_rm) rm_loc')) = num_rm ∧
    (∀ s, s ∈ take (Z.to_nat num_rm) rm_loc' →
       ∃ r l, is_row LU r ∧ row_chain LU r l ∧ s ∈ l ∧
              below (val LU) thrs s = true ∧ get (col LU) s ≠ r).
Proof.
  intros Hd H1 H2 _ H4 H5 Hcap.
  destruct (rm_thrs_total thrs LU rm_loc Hd H1 H4 H5 Hcap)
    as (LU' & rm' & D & Hres & HR & Htake).
  exists (Z.of_nat (length D)), LU', rm'. rewrite Nat2Z.id, Htake.
  split; [done|].
  assert (Hn : ∀ r, is_row LU r → 0 ≤ r < 0 + Z.of_nat (Z.to_nat (num_rows LU))).
  { unfold is_row. lia. }
  split; [|split; [|split; [apply HR|split; [done|]]]].
  - intros r l s Hr Hl Hs Hb Hc.
    assert (HsD : s ∈ D).
    { apply (rr_D _ _ _ _ _ _ HR). exists r, l. split; [by apply Hn|].
      do 2 (split; [done|]). destruct (H5 r l Hr Hl) as (l1 & d & -> & Hcd).
      rewrite rm_drop_snoc. apply list_elem_of_filter. split; [done|].
      apply elem_of_app in Hs as [Hs|Hs]; [done|].
      apply list_elem_of_singleton in Hs. congruence. }
    destruct (rr_dropped _ _ _ _ _ _ HR s HsD). done.
  - intros r l' s Hr Hl' Hs Hc.
    assert (Hr0 : is_row LU r).
    { unfold is_row in *. by rewrite <- (rr_rows _ _ _ _ _ _ HR). }
    destruct (H1 r Hr0) as [l Hl].
    pose proof (rr_in _ _ _ _ _ _ HR r l (Hn r Hr0) Hr0 Hl) as Hl2.
    rewrite (row_chain_det _ _ _ _ Hl' Hl2) in Hs.
    destruct (H5 r l Hr0 Hl) as (l1 & d & -> & Hcd).
    rewrite rm_keep_snoc in Hs. rewrite (rr_col _ _ _ _ _ _ HR) in Hc.
    apply elem_of_app in Hs as [Hs|Hs].
    2:{ apply list_elem_of_singleton in Hs. congruence. }
    apply list_elem_of_filter in Hs as [Hb Hs].
    unfold below in *. rewrite (rr_val _ _ _ _ _ _ HR); [done|].
    intros (r2 & l2 & _ & _ & _ & Hs2)%(rr_D _ _ _ _ _ _ HR).
    apply rm_drop_elem in Hs2 as [_ Hb2]. unfold below in Hb2. congruence.
  - intros s (r & l & _ & Hr & Hl & Hs)%(rr_D _ _ _ _ _ _ HR).
    exists r, l. do 2 (split; [done|]).
    pose proof (rm_drop_elem _ _ _ _ Hs) as [Hsl Hb]. do 2 (split; [done|]).
    destruct (H5 r l Hr Hl) as (l1 & d & -> & Hcd).
    rewrite rm_drop_snoc in Hs. apply list_elem_of_filter in Hs as [_ Hs].
    pose proof (H2 r _ Hr Hl) as Hsort. unfold colsof in Hsort.
    rewrite fmap_app in Hsort.
    assert (get (col LU) s < get (col LU) d); [|lia].
    eapply (StronglySorted_app_1_elem_of Z.lt); [exact Hsort| |].
    + by apply list_elem_of_fmap_2.
    + simpl. in_list.
Qed.

(** C4. The removal never removes a diagonal entry: after the removal
    with any threshold on a factor that satisfies (I1)-(I5), the chain of
    every row still ends with the slot that held its diagonal, whose
    column is the row and whose value is the one it had. *)
Theorem rm_thrs_keeps_diagonal thrs LU rm_loc :
  dims LU → I1 LU → I2 LU → I3 LU → I4 LU → I5 LU →
  nnz LU ≤ Z.of_nat (length rm_loc) →
  ∃ num_rm LU' rm_loc',
    magma_zmdynamicilu_rm_thrs thrs LU rm_loc = Some (0, num_rm, LU', rm_loc') ∧
    ∀ r l d, is_row LU r → row_chain LU r (l ++ [d]) →
      ∃ l', row_chain LU' r (l' ++ [d]) ∧ get (col LU') d = r ∧
            rd (val LU') d = rd (val LU) d.
Proof.
  intros Hd H1 H2 _ H4 H5 Hcap.
  destruct (rm_thrs_total thrs LU rm_loc Hd H1 H4 H5 Hcap)
    as (LU' & rm' & D & Hres & HR & Htake).
  exists (Z.of_nat (length D)), LU', rm'. split; [done|].
  intros r l d Hr Hl.
  assert (Hn : 0 ≤ r < 0 + Z.of_nat (Z.to_nat (num_rows LU))).
  { unfold is_row in Hr. lia. }
  pose proof (rr_in _ _ _ _ _ _ HR r _ Hn Hr Hl) as Hl'.
  rewrite rm_keep_snoc in Hl'. eexists. split; [done|].
  destruct (H5 r _ Hr Hl) as (l1 & d1 & Heq & Hcd).
  apply app_inj_tail in Heq as [_ <-].
  split; [by rewrite (rr_col _ _ _ _ _ _ HR)|].
  apply (rr_val _ _ _ _ _ _ HR).
  intros (r2 & l2 & _ & Hr2 & Hl2 & Hs2)%(rr_D _ _ _ _ _ _ HR).
  pose proof (rm_drop_elem _ _ _ _ Hs2) as [Hsl _].
  destruct (Z.eq_dec r2 r) as [->|Hne].
  - rewrite (row_chain_det _ _ _ _ Hl2 Hl), rm_drop_snoc in Hs2.
    apply list_elem_of_filter in Hs2 as [_ Hs2].
    destruct Hl as (s0 & _ & Hc). apply chain_NoDup in Hc.
    apply NoDup_app in Hc as (_ & Hc & _). apply (Hc d Hs2). in_list.
  - revert Hsl. apply (rows_disjoint LU r r2 (l ++ [d]) l2); try done. in_list.
Qed.

End RemovalClaims.

(** A 4 by 4 factor whose last row is full: the slots [4], [5], [6], [7]
    hold the columns [0], [1], [2], [3] with the values [1], [9], [1],
    [1]. With the threshold [3] the slots [4] and [6] are removed and the
    diagonal, whose value is below the threshold too, stays. *)
Definition ex_LU4 : magma_z_matrix Z :=
  Matrix 4 4 9 [1; 2; 3; 4; 0] [0; 0; 1; 2; 3; 3; 3; 3; 0]
    [0; 0; 1; 2; 0; 1; 2; 3; 0] [-1; 0; 0; 0; 5; 6; 7; 0; -1]
    [0; 5; 5; 5; 1; 9; 1; 1; 0].

Lemma ex_LU4_wf : wf ex_LU4.
Proof. apply wf_check_sound. reflexivity. Qed.

Lemma rm_thrs_removes_below_witness :
  ∃ num_rm LU' rm_loc',
    magma_zmdynamicilu_rm_thrs 3 ex_LU4 (replicate 9 0)
      = Some (0, num_rm, LU', rm_loc') ∧
    (∀ r l s, is_row ex_LU4 r → row_chain ex_LU4 r l → s ∈ l →
       below (val ex_LU4) 3 s = true → get (col ex_LU4) s ≠ r →
       rd (val LU') s = Some zero ∧ rd (llist LU') s = Some (-1) ∧
       s ∈ take (Z.to_nat num_rm) rm_loc') ∧
    (∀ r l' s, is_row LU' r → row_chain LU' r l' → s ∈ l' →
       get (col LU') s ≠ r → below (val LU') 3 s = false) ∧
    NoDup (take (Z.to_nat num_rm) rm_loc') ∧
    Z.of_nat (length (take (Z.to_nat num_rm) rm_loc')) = num_rm ∧
    (∀ s, s ∈ take (Z.to_nat num_rm) rm_loc' →
       ∃ r l, is_row ex_LU4 r ∧ row_chain ex_LU4 r l ∧ s ∈ l ∧
              below (val ex_LU4) 3 s = true ∧ get (col ex_LU4) s ≠ r).
Proof.
  apply (rm_thrs_removes_below 3 ex_LU4 (replicate 9 0));
    try apply ex_LU4_wf. simpl. lia.
Defined.

Lemma rm_thrs_keeps_diagonal_witness :
  ∃ num_rm LU' rm_loc',
    magma_zmdynamicilu_rm_thrs 3 ex_LU4 (replicate 9 0)
      = Some (0, num_rm, LU', rm_loc') ∧
    ∀ r l d, is_row ex_LU4 r → row_chain ex_LU4 r (l ++ [d]) →
      ∃ l', row_chain LU' r (l' ++ [d]) ∧ get (col LU') d = r ∧
            rd (val LU') d = rd (val ex_LU4) d.
Proof.
  apply (rm_thrs_keeps_diagonal 3 ex_LU4 (replicate 9 0));
    try apply ex_LU4_wf. simpl. lia.
Defined.

(** ** Claim on the threshold selection *)

Section SetThresholdClaims.
Context {V : Type} `{Scalar V}.
Implicit Types LU : magma_z_matrix V.

(** An allocation that succeeds. *)
Definition alloc_ok (n : Z) : Z := 0.

(** C9. [magma_zmdynamicilu_set_thrs] selects on a copy of [LU->val]:
    whatever the selector does to the array it is given, and whatever the
    status of the allocation and of the selection, the factor that the
    routine leaves is the factor it was given; and with the selector of
    the specification and a successful allocation, [*thrs] is the
    magnitude of the [num_rm]-th smallest element of [LU->val]. *)
Theorem set_thrs_frame num_rm LU thrs :
  dims LU →
  magma_zmdynamicilu_set_thrs select_model alloc_ok num_rm LU thrs
    = Some (0, LU, kth_smallest_magnitude (val LU) num_rm) ∧
  ∀ sel alloc info LU' thrs',
    magma_zmdynamicilu_set_thrs sel alloc num_rm LU thrs
      = Some (info, LU', thrs') →
    LU' = LU.
Proof.
  intros Hd. split.
  - unfold magma_zmdynamicilu_set_thrs, zcopy, alloc_ok. cbn [Z.eqb negb].
    pose proof (d_val _ Hd) as Hv.
    destruct (Z.leb_spec (nnz LU) (Z.of_nat (length (val LU)))); [|lia].
    cbn [mbind option_bind]. unfold select_model. cbn [Z.eqb negb].
    by rewrite !(take_ge (val LU)) by lia.
  - intros sel alloc info LU' thrs'. unfold magma_zmdynamicilu_set_thrs.
    destruct (negb (alloc (nnz LU) =? 0)); [by intros [= _ <- _]|].
    destruct (zcopy (nnz LU) (val LU)) as [v|]; [|done].
    cbn [mbind option_bind].
    destruct (sel v (nnz LU) num_rm 0) as [[info' v'] element].
    by destruct (negb (info' =? 0)); intros [= _ <- _].
Qed.

End SetThresholdClaims.

Lemma set_thrs_frame_witness :
  magma_zmdynamicilu_set_thrs select_model alloc_ok 6 ex_LU4 0
    = Some (0, ex_LU4, kth_smallest_magnitude (val ex_LU4) 6) ∧
  ∀ sel alloc info LU' thrs',
    magma_zmdynamicilu_set_thrs sel alloc 6 ex_LU4 0
      = Some (info, LU', thrs') →
    LU' = ex_LU4.
Proof. apply (set_thrs_frame 6 ex_LU4 0), ex_LU4_wf. Defined.

(** The threshold of the example: the sixth smallest magnitude of the nine
    values [0, 5, 5, 5, 1, 9, 1, 1, 0] is [5]. *)
Example set_thrs_example :
  magma_zmdynamicilu_set_thrs select_model alloc_ok 6 ex_LU4 0
    = Some (0, ex_LU4, 5).
Proof. reflexivity. Qed.

(** ** Residuals and sweep: [magma_zmdynamicic_residuals],
       [magma_zmdynamicic_sweep] *)

Section Sweep.
Context {V : Type} `{Scalar V}.
Implicit Types A LU LU_new : magma_z_matrix V.

(** The scan [for( i = A.row[row]; i<A.row[row+1]; i++ )] of the row of
    the system matrix, which is stored in CSR: [n] turns from [i] on. *)
Fixpoint A_scan A (c : Z) (n : nat) (i : Z) (A_e : V) : option V :=
  match n with
  | O => Some A_e
  | S n' =>
    ci ← rd (col A) i;
    if ci =? c then v ← rd (val A) i; A_scan A c n' (i + 1) v
    else A_scan A c n' (i + 1) A_e
  end.

(** [A_e]: the entry of [A] at [(r,c)], or [MAGMA_Z_ZERO]. *)
Definition A_entry A (r c : Z) : option V :=
  lo ← rd (row A) r;
  hi ← rd (row A) (r + 1);
  A_scan A c (Z.to_nat (hi - lo)) lo zero.

(** The body of the [do ... while( i!=0 && j!=0 )]: from [i], [j] and
    [sum] it gives [lsum], [sum], and the next [i] and [j]. *)
Definition merge_body LU (i j : Z) (sum : V) : option (V * V * Z * Z) :=
  icol ← rd (col LU) i;
  jcol ← rd (col LU) j;
  if icol =? jcol then
    vi ← rd (val LU) i;
    vj ← rd (val LU) j;
    i' ← rd (llist LU) i;
    j' ← rd (llist LU) j;
    Some (mul vi vj, add sum (mul vi vj), i', j')
  else if icol <? jcol then
    i' ← rd (llist LU) i;
    Some (zero, sum, i', j)
  else
    j' ← rd (llist LU) j;
    Some (zero, sum, i, j').

(** The loop; the result is [sum], [lsum], [iold] and [jold] at its
    end. *)
Fixpoint merge_walk (fuel : nat) LU (i j : Z) (sum : V)
  : option (V * V * Z * Z) :=
  match fuel with
  | O => None
  | S fuel' =>
    '(lsum, sum', i', j') ← merge_body LU i j sum;
    if negb (i' =? 0) && negb (j' =? 0)
    then merge_walk fuel' LU i' j' sum'
    else Some (sum', lsum, i, j)
  end.

Definition merge_fuel LU : nat := S (length (llist LU) + length (llist LU)).

(** The body of the loop over the candidates: the new content of
    [LU_new->val]. *)
Definition residual_entry A LU LU_new (e : Z) : option (list V) :=
  r ← rd (rowidx LU_new) e;
  c ← rd (col LU_new) e;
  A_e ← A_entry A r c;
  i ← rd (row LU) r;
  j ← rd (row LU) c;
  '(sum, _, _, _) ← merge_walk (merge_fuel LU) LU i j zero;
  wr (val LU_new) e (sub A_e sum).

Fixpoint residuals_loop (n : nat) (e : Z) A LU LU_new
  : option (magma_z_matrix V) :=
  match n with
  | O => Some LU_new
  | S n' =>
    v ← residual_entry A LU LU_new e;
    residuals_loop n' (e + 1) A LU (set_val LU_new v)
  end.

Definition magma_zmdynamicic_residuals A LU LU_new
  : option (Z * magma_z_matrix V) :=
  LU_new' ← residuals_loop (Z.to_nat (nnz LU_new)) 0 A LU LU_new;
  Some (0, LU_new').

(** The loop of the sweep is a [#pragma omp parallel for] whose turns
    read values of the factor that other turns write: what a turn reads
    depends on how the turns are interleaved. A turn reads a value of the
    factor at three places: the two factors of
    [LU->val[i] * LU->val[j]] and the divisor [LU->val[jold]]. *)
Inductive operand : Set := Op_i | Op_j | Op_jold.

(** A schedule of the loop: the slots in the order in which their turns
    end, and for the read of [LU->val[k]] as operand [o] in the turn of
    slot [e] the number [seen e o k] of turns that have ended before the
    read. The read and the write of one value are taken as one event
    each. *)
Record schedule : Type := Schedule {
  order : list Z;
  seen : Z → operand → Z → nat
}.

(** The run with one thread: the turns in index order, each one after
    the end of the turns before it. *)
Definition in_order (n : Z) : schedule :=
  Schedule (seqZ 0 n) (λ _ _ _, Z.to_nat n).

(** The history of the array [val]: its content at the start and after
    each turn. [at_time hist t] is the content after [t] turns. *)
Definition at_time (hist : list (list V)) (t : nat) : list V :=
  default [] (hist !! t).

Definition latest (hist : list (list V)) : list V :=
  at_time hist (pred (length hist)).

(** [LU->val[k]] as the turn of slot [e] reads it as operand [o]; a turn
    sees no more turns than have ended. *)
Definition look (sch : schedule) (hist : list (list V)) (e : Z)
    (o : operand) (k : Z) : option V :=
  rd (at_time hist (Nat.min (seen sch e o k) (pred (length hist)))) k.

(** The body of the [do ... while( i!=0 && j!=0 )] of the sweep, with
    the reads [rdv] of the values. *)
Definition sweep_body LU (rdv : operand → Z → option V) (i j : Z) (sum : V)
  : option (V * V * Z * Z) :=
  icol ← rd (col LU) i;
  jcol ← rd (col LU) j;
  if icol =? jcol then
    vi ← rdv Op_i i;
    vj ← rdv Op_j j;
    i' ← rd (llist LU) i;
    j' ← rd (llist LU) j;
    Some (mul vi vj, add sum (mul vi vj), i', j')
  else if icol <? jcol then
    i' ← rd (llist LU) i;
    Some (zero, sum, i', j)
  else
    j' ← rd (llist LU) j;
    Some (zero, sum, i, j').

Fixpoint sweep_walk (fuel : nat) LU (rdv : operand → Z → option V)
    (i j : Z) (sum : V) : option (V * V * Z * Z) :=
  match fuel with
  | O => None
  | S fuel' =>
    '(lsum, sum', i', j') ← sweep_body LU rdv i j sum;
    if negb (i' =? 0) && negb (j' =? 0)
    then sweep_walk fuel' LU rdv i' j' sum'
    else Some (sum', lsum, i, j)
  end.

(** The turn of slot [e], the body of the loop over the slots of the
    factor: it adds the content of [val] after the turn to the
    history. *)
Definition sweep_turn A LU (sch : schedule) (hist : list (list V)) (e : Z)
  : option (list (list V)) :=
  le ← rd (llist LU) e;
  if le =? -1 then Some (hist ++ [latest hist])
  else
    r ← rd (rowidx LU) e;
    c ← rd (col LU) e;
    A_e ← A_entry A r c;
    i ← rd (row LU) r;
    j ← rd (row LU) c;
    '(sum, lsum, _, jold) ←
      sweep_walk (merge_fuel LU) LU (look sch hist e) i j zero;
    let sum := sub sum lsum in
    if r =? c then
      v ← wr (latest hist) e (vsqrt (sub A_e sum));
      Some (hist ++ [v])
    else
      vj ← look sch hist e Op_jold jold;
      v ← wr (latest hist) e (div (sub A_e sum) vj);
      Some (hist ++ [v]).

(** The turns in the order in which they end. *)
Fixpoint sweep_run A LU (sch : schedule) (ord : list Z)
    (hist : list (list V)) : option (list (list V)) :=
  match ord with
  | [] => Some hist
  | e :: ord' =>
    hist' ← sweep_turn A LU sch hist e;
    sweep_run A LU sch ord' hist'
  end.

Definition magma_zmdynamicic_sweep A (sch : schedule) LU
  : option (Z * magma_z_matrix V) :=
  hist ← sweep_run A LU sch (order sch) [val LU];
  Some (0, set_val LU (latest hist)).

End Sweep.

(** ** The sum over the common columns of two rows *)

Section Dot.
Context {V : Type} `{Scalar V}.
Implicit Types A LU : magma_z_matrix V.

(** The value of a slot. *)
Definition valof LU (s : Z) : V := default zero (rd (val LU) s).

(** The slot of the chain [lj] whose column is the column of [a]. *)
Definition match_in LU (lj : list Z) (a : Z) : option Z :=
  List.find (λ b, get (col LU) b =? get (col LU) a) lj.

Definition dot_step LU (lj : list Z) (acc : V) (a : Z) : V :=
  match match_in LU lj a with
  | Some b => add acc (mul (valof LU a) (valof LU b))
  | None => acc
  end.

(** The sum of [L[r,k] * L[c,k]] over the columns [k] present in both
    chains [li] (of row [r]) and [lj] (of row [c]), added up in the order
    of the chain [li]. *)
Definition dot_rows LU (li lj : list Z) : V := foldl (dot_step LU lj) zero li.

Lemma valof_rd LU s :
  0 ≤ s < Z.of_nat (length (val LU)) → rd (val LU) s = Some (valof LU s).
Proof. intros [v Hv]%rd_is_Some. unfold valof. by rewrite Hv. Qed.

Lemma match_in_cons_eq LU b l a :
  get (col LU) b = get (col LU) a → match_in LU (b :: l) a = Some b.
Proof. intros Heq. unfold match_in. simpl. by rewrite Heq, Z.eqb_refl. Qed.

Lemma match_in_cons_ne LU b l a :
  get (col LU) b ≠ get (col LU) a → match_in LU (b :: l) a = match_in LU l a.
Proof.
  intros Hne. unfold match_in. simpl.
  by destruct (Z.eqb_spec (get (col LU) b) (get (col LU) a)).
Qed.

Lemma match_in_none LU l a :
  (∀ b, b ∈ l → get (col LU) b ≠ get (col LU) a) → match_in LU l a = None.
Proof.
  induction l as [|b l IH]; [done|]. intros Hall.
  rewrite match_in_cons_ne by (apply Hall; in_list).
  apply IH. intros b' Hb'. apply Hall. in_list.
Qed.

Lemma dot_fold_ext LU lj lj' acc l :
  (∀ a, a ∈ l → match_in LU lj a = match_in LU lj' a) →
  foldl (dot_step LU lj) acc l = foldl (dot_step LU lj') acc l.
Proof.
  revert acc. induction l as [|a l IH]; intros acc Hext; [done|]. simpl.
  unfold dot_step at 2 4. rewrite (Hext a) by in_list.
  apply IH. intros a' Ha'. apply Hext. in_list.
Qed.

Lemma dot_fold_none LU lj acc l :
  (∀ a, a ∈ l → match_in LU lj a = None) →
  foldl (dot_step LU lj) acc l = acc.
Proof.
  revert acc. induction l as [|a l IH]; intros acc Hn; [done|]. simpl.
  unfold dot_step at 2. rewrite (Hn a) by in_list.
  apply IH. intros a' Ha'. apply Hn. in_list.
Qed.

(** The columns after the head of a sorted chain are beyond its column. *)
Lemma sorted_head_lt LU s l a :
  StronglySorted Z.lt (colsof LU (s :: l)) → a ∈ l →
  get (col LU) s < get (col LU) a.
Proof.
  unfold colsof. rewrite fmap_cons. intros [_ Hall]%StronglySorted_inv Ha.
  rewrite Forall_forall in Hall. apply Hall. by apply list_elem_of_fmap_2.
Qed.

Lemma sorted_tail LU s l :
  StronglySorted Z.lt (colsof LU (s :: l)) → StronglySorted Z.lt (colsof LU l).
Proof.
  unfold colsof. rewrite fmap_cons. by intros [? _]%StronglySorted_inv.
Qed.

(** The reads of the loop body at two slots that are within the arrays. *)
Lemma merge_body_eq LU i j i' j' sum :
  dims LU → 0 ≤ i < nnz LU → 0 ≤ j < nnz LU →
  rd (llist LU) i = Some i' → rd (llist LU) j = Some j' →
  merge_body LU i j sum =
  Some (if get (col LU) i =? get (col LU) j
        then (mul (valof LU i) (valof LU j),
              add sum (mul (valof LU i) (valof LU j)), i', j')
        else if get (col LU) i <? get (col LU) j then (zero, sum, i', j)
        else (zero, sum, i, j')).
Proof.
  intros Hd Hi Hj Hi' Hj'. unfold merge_body.
  pose proof (d_col _ Hd). pose proof (d_val _ Hd).
  rewrite (get_rd (col LU) i), (get_rd (col LU) j) by lia.
  cbn [mbind option_bind].
  rewrite (valof_rd LU i), (valof_rd LU j), Hi', Hj' by lia.
  cbn [mbind option_bind].
  by destruct (get (col LU) i =? get (col LU) j),
             (get (col LU) i <? get (col LU) j).
Qed.

Lemma chain_cons_inv nx s r l :
  chain nx s (r :: l) → s = r ∧ r ≠ 0 ∧ ∃ s', rd nx r = Some s' ∧ chain nx s' l.
Proof. inversion 1; subst. eauto. Qed.

Lemma chain_zero nx l : chain nx 0 l → l = [].
Proof. by inversion 1. Qed.

(** The walk over two sorted chains adds the products of the entries at
    the common columns. *)
Lemma merge_walk_full LU fuel :
  dims LU →
  ∀ i j ri rj acc,
    chain (llist LU) i (i :: ri) → chain (llist LU) j (j :: rj) →
    StronglySorted Z.lt (colsof LU (i :: ri)) →
    StronglySorted Z.lt (colsof LU (j :: rj)) →
    (length ri + length rj < fuel)%nat →
    ∃ lsum iold jold,
      merge_walk fuel LU i j acc
      = Some (foldl (dot_step LU (j :: rj)) acc (i :: ri), lsum, iold, jold).
Proof.
  intros Hd. induction fuel as [|fuel IH];
    intros i j ri rj acc Hci Hcj Hsi Hsj Hf; [lia|].
  pose proof (chain_range _ _ _ Hci) as Hri. pose proof (chain_range _ _ _ Hcj) as Hrj.
  rewrite Forall_forall in Hri, Hrj. pose proof (d_llist _ Hd) as Hll.
  assert (Hi : 0 ≤ i < nnz LU).
  { assert (0 < i < Z.of_nat (length (llist LU))) by (apply Hri; in_list). lia. }
  assert (Hj : 0 ≤ j < nnz LU).
  { assert (0 < j < Z.of_nat (length (llist LU))) by (apply Hrj; in_list). lia. }
  apply chain_cons_inv in Hci as (_ & Hi0 & i' & Hi' & Hci').
  apply chain_cons_inv in Hcj as (_ & Hj0 & j' & Hj' & Hcj').
  cbn [merge_walk]. rewrite (merge_body_eq LU i j i' j') by done.
  cbn [mbind option_bind foldl].
  destruct (Z.eqb_spec (get (col LU) i) (get (col LU) j)) as [Heq|Hne].
  - (* a common column *)
    unfold dot_step at 2. rewrite match_in_cons_eq by done.
    set (acc' := add acc (mul (valof LU i) (valof LU j))).
    assert (Hext : foldl (dot_step LU (j :: rj)) acc' ri
                   = foldl (dot_step LU rj) acc' ri).
    { apply dot_fold_ext. intros a Ha. apply match_in_cons_ne.
      pose proof (sorted_head_lt _ _ _ _ Hsi Ha). lia. }
    destruct (Z.eqb_spec i' 0) as [->|Hi'0]; cbn [negb andb].
    { apply chain_zero in Hci' as ->. eauto. }
    destruct (Z.eqb_spec j' 0) as [->|Hj'0]; cbn [negb andb].
    { apply chain_zero in Hcj' as ->. rewrite Hext.
      rewrite dot_fold_none by done. eauto. }
    destruct ri as [|i2 ri]; [by apply chain_nil_inv in Hci'|].
    destruct rj as [|j2 rj]; [by apply chain_nil_inv in Hcj'|].
    pose proof (chain_head _ _ _ _ Hci') as ->.
    pose proof (chain_head _ _ _ _ Hcj') as ->.
    rewrite Hext. apply IH; try done.
    + by eapply sorted_tail.
    + by eapply sorted_tail.
    + simpl in Hf. lia.
  - destruct (Z.ltb_spec (get (col LU) i) (get (col LU) j)) as [Hlt|Hge].
    + (* the column of [i] is not in the other chain *)
      unfold dot_step at 2. rewrite match_in_none.
      2:{ intros b [->|Hb]%elem_of_cons; [lia|].
          pose proof (sorted_head_lt _ _ _ _ Hsj Hb). lia. }
      destruct (Z.eqb_spec i' 0) as [->|Hi'0]; cbn [negb andb].
      { apply chain_zero in Hci' as ->. eauto. }
      destruct (Z.eqb_spec j 0); [done|]. cbn [negb andb].
      destruct ri as [|i2 ri]; [by apply chain_nil_inv in Hci'|].
      pose proof (chain_head _ _ _ _ Hci') as ->.
      apply IH; try done.
      * by econstructor.
      * by eapply sorted_tail.
      * simpl in Hf. lia.
    + (* the column of [j] is not in the chain of [i] *)
      assert (Hext : ∀ l, (∀ a, a ∈ l → a ∈ i :: ri) →
                foldl (dot_step LU (j :: rj)) acc l
                = foldl (dot_step LU rj) acc l).
      { intros l Hl. apply dot_fold_ext. intros a Ha. apply match_in_cons_ne.
        apply Hl, elem_of_cons in Ha as [->|Ha]; [lia|].
        pose proof (sorted_head_lt _ _ _ _ Hsi Ha). lia. }
      change (foldl (dot_step LU (j :: rj)) (dot_step LU (j :: rj) acc i) ri)
        with (foldl (dot_step LU (j :: rj)) acc (i :: ri)).
      rewrite Hext by done.
      destruct (Z.eqb_spec i 0); [done|]. cbn [negb andb].
      destruct (Z.eqb_spec j' 0) as [->|Hj'0]; cbn [negb andb].
      { apply chain_zero in Hcj' as ->. rewrite dot_fold_none by done. eauto. }
      destruct rj as [|j2 rj]; [by apply chain_nil_inv in Hcj'|].
      pose proof (chain_head _ _ _ _ Hcj') as ->.
      apply IH; try done.
      * by econstructor.
      * by eapply sorted_tail.
      * simpl in Hf. lia.
Qed.

End Dot.

Section DotDiag.
Context {V : Type} `{Scalar V}.
Implicit Types A LU : magma_z_matrix V.

Lemma filter_none {X} (P : X → Prop) `{∀ x, Decision (P x)} (l : list X) :
  (∀ x, x ∈ l → ¬ P x) → filter P l = [].
Proof.
  induction l as [|x l IH]; [done|]. intros Hall.
  rewrite filter_cons_False by (apply Hall; in_list).
  apply IH. intros y Hy. apply Hall. in_list.
Qed.

Lemma sorted_col_inj LU l a b :
  StronglySorted Z.lt (colsof LU l) → a ∈ l → b ∈ l →
  get (col LU) a = get (col LU) b → a = b.
Proof.
  intros Hs. apply NoDup_fmap_eq. by apply sorted_NoDup.
Qed.

End DotDiag.

(** ** The walk of the sweep *)

Section SweepWalk.
Context {V : Type} `{Scalar V}.
Implicit Types A LU : magma_z_matrix V.

(** The products that a turn of the sweep adds up, from the values [lk]
    that it reads: [lk Op_i a] for a slot [a] of the row of the entry,
    [lk Op_j b] for the slot [b] with the same column in the other
    row. *)
Definition dot_step_at LU (lk : operand → Z → V) (lj : list Z)
    (acc : V) (a : Z) : V :=
  match match_in LU lj a with
  | Some b => add acc (mul (lk Op_i a) (lk Op_j b))
  | None => acc
  end.

Lemma dot_at_ext LU lk lj lj' acc l :
  (∀ a, a ∈ l → match_in LU lj a = match_in LU lj' a) →
  foldl (dot_step_at LU lk lj) acc l = foldl (dot_step_at LU lk lj') acc l.
Proof.
  revert acc. induction l as [|a l IH]; intros acc Hext; [done|]. simpl.
  unfold dot_step_at at 2 4. rewrite (Hext a) by in_list.
  apply IH. intros a' Ha'. apply Hext. in_list.
Qed.

(** The sum depends on the values read only. *)
Lemma dot_at_reads LU lk lk' lj acc l :
  (∀ o k, lk o k = lk' o k) →
  foldl (dot_step_at LU lk lj) acc l = foldl (dot_step_at LU lk' lj) acc l.
Proof.
  intros Heq. revert acc. induction l as [|a l IH]; intros acc; [done|]. simpl.
  rewrite IH. f_equal. unfold dot_step_at.
  destruct (match_in LU lj a); [|done]. by rewrite !Heq.
Qed.

Lemma sweep_body_eq LU rdv lk i j i' j' sum :
  dims LU →
  (∀ o k, 0 ≤ k < nnz LU → rdv o k = Some (lk o k)) →
  0 ≤ i < nnz LU → 0 ≤ j < nnz LU →
  rd (llist LU) i = Some i' → rd (llist LU) j = Some j' →
  sweep_body LU rdv i j sum =
  Some (if get (col LU) i =? get (col LU) j
        then (mul (lk Op_i i) (lk Op_j j),
              add sum (mul (lk Op_i i) (lk Op_j j)), i', j')
        else if get (col LU) i <? get (col LU) j then (zero, sum, i', j)
        else (zero, sum, i, j')).
Proof.
  intros Hd Hlk Hi Hj Hi' Hj'. unfold sweep_body.
  pose proof (d_col _ Hd).
  rewrite (get_rd (col LU) i), (get_rd (col LU) j) by lia.
  cbn [mbind option_bind].
  rewrite (Hlk Op_i i Hi), (Hlk Op_j j Hj), Hi', Hj'.
  cbn [mbind option_bind].
  by destruct (get (col LU) i =? get (col LU) j),
             (get (col LU) i <? get (col LU) j).
Qed.

(** The walk for the slot [e] of row [r] with column [c]: the chain of
    row [r] holds [e], the chain of row [c] ends with its diagonal [d].
    The walk adds the products at the common columns below [c] and then
    the product at column [c], which is [lsum]; [iold] is [e] and [jold]
    is [d]. *)
Lemma sweep_walk_diag LU rdv lk e d c fuel :
  dims LU →
  (∀ o k, 0 ≤ k < nnz LU → rdv o k = Some (lk o k)) →
  ∀ i j ri rj acc,
    chain (llist LU) i (i :: ri) → chain (llist LU) j (j :: rj) →
    StronglySorted Z.lt (colsof LU (i :: ri)) →
    StronglySorted Z.lt (colsof LU (j :: rj)) →
    e ∈ i :: ri → get (col LU) e = c →
    last (j :: rj) = Some d → get (col LU) d = c →
    (length ri + length rj < fuel)%nat →
    sweep_walk fuel LU rdv i j acc
    = Some (add (foldl (dot_step_at LU lk (j :: rj)) acc
                   (filter (λ a, get (col LU) a < c) (i :: ri)))
                (mul (lk Op_i e) (lk Op_j d)),
            mul (lk Op_i e) (lk Op_j d), e, d).
Proof.
  intros Hd Hlk. induction fuel as [|fuel IH];
    intros i j ri rj acc Hci Hcj Hsi Hsj He Hce Hlast Hcd Hf; [lia|].
  pose proof (chain_range _ _ _ Hci) as Hri. pose proof (chain_range _ _ _ Hcj) as Hrj.
  rewrite Forall_forall in Hri, Hrj. pose proof (d_llist _ Hd) as Hll.
  assert (Hi : 0 ≤ i < nnz LU).
  { assert (0 < i < Z.of_nat (length (llist LU))) by (apply Hri; in_list). lia. }
  assert (Hj : 0 ≤ j < nnz LU).
  { assert (0 < j < Z.of_nat (length (llist LU))) by (apply Hrj; in_list). lia. }
  pose proof (last_Some_elem_of _ _ Hlast) as Hdin.
  assert (Hic : get (col LU) i ≤ c).
  { apply elem_of_cons in He as [->|He]; [lia|].
    pose proof (sorted_head_lt _ _ _ _ Hsi He). lia. }
  assert (Hjc : get (col LU) j ≤ c).
  { apply elem_of_cons in Hdin as [->|Hdin]; [lia|].
    pose proof (sorted_head_lt _ _ _ _ Hsj Hdin). lia. }
  assert (Hie : get (col LU) i < c → e ∈ ri).
  { intros Hlt. apply elem_of_cons in He as [->|He]; [lia|done]. }
  assert (Hjd : get (col LU) j < c → d ∈ rj ∧ last rj = Some d).
  { intros Hlt. destruct rj as [|j2 rj].
    - injection Hlast as <-. lia.
    - split; [|done]. apply elem_of_cons in Hdin as [->|Hdin]; [lia|done]. }
  apply chain_cons_inv in Hci as (_ & Hi0 & i' & Hi' & Hci').
  apply chain_cons_inv in Hcj as (_ & Hj0 & j' & Hj' & Hcj').
  cbn [sweep_walk]. rewrite (sweep_body_eq LU rdv lk i j i' j') by done.
  cbn [mbind option_bind].
  destruct (Z.eqb_spec (get (col LU) i) (get (col LU) j)) as [Heq|Hne].
  - destruct (Z.eq_dec (get (col LU) i) c) as [Hc|Hc].
    + (* the last product *)
      assert (i = e) as ->.
      { apply (sorted_col_inj LU (i :: ri)); try done; [in_list|lia]. }
      assert (j = d) as ->.
      { apply (sorted_col_inj LU (j :: rj)); try done; [in_list|lia]. }
      assert (rj = []) as ->.
      { destruct rj as [|j2 rj]; [done|].
        assert (Hd2 : d ∈ j2 :: rj) by (by apply last_Some_elem_of).
        pose proof (sorted_head_lt _ _ _ _ Hsj Hd2). lia. }
      apply chain_nil_inv in Hcj' as ->.
      rewrite andb_false_r. rewrite filter_none; [done|].
      intros a [->|Ha]%elem_of_cons; [lia|].
      pose proof (sorted_head_lt _ _ _ _ Hsi Ha). lia.
    + assert (Hlt : get (col LU) i < c) by lia.
      destruct (Hjd ltac:(lia)) as [Hdr Hlr]. specialize (Hie Hlt).
      destruct ri as [|i2 ri]; [by apply elem_of_nil in Hie|].
      destruct rj as [|j2 rj]; [by apply elem_of_nil in Hdr|].
      pose proof (chain_head _ _ _ _ Hci') as ->.
      pose proof (chain_head _ _ _ _ Hcj') as ->.
      pose proof (chain_cons_inv _ _ _ _ Hci') as (_ & Hi20 & _).
      pose proof (chain_cons_inv _ _ _ _ Hcj') as (_ & Hj20 & _).
      destruct (Z.eqb_spec i2 0); [done|].
      destruct (Z.eqb_spec j2 0); [done|]. cbn [negb andb].
      rewrite (IH i2 j2 ri rj _ Hci' Hcj' (sorted_tail _ _ _ Hsi)
                 (sorted_tail _ _ _ Hsj) Hie Hce Hlr Hcd)
        by (simpl in Hf |- *; lia).
      rewrite (filter_cons_True _ i) by done. cbn [foldl].
      unfold dot_step_at at 3. rewrite match_in_cons_eq by done.
      rewrite (dot_at_ext LU lk (j :: j2 :: rj) (j2 :: rj)); [done|].
      intros a Ha.
      apply match_in_cons_ne. apply list_elem_of_filter in Ha as [_ Ha].
      pose proof (sorted_head_lt _ _ _ _ Hsi Ha). lia.
  - destruct (Z.ltb_spec (get (col LU) i) (get (col LU) j)) as [Hlt|Hge].
    + specialize (Hie ltac:(lia)).
      destruct ri as [|i2 ri]; [by apply elem_of_nil in Hie|].
      pose proof (chain_head _ _ _ _ Hci') as ->.
      pose proof (chain_cons_inv _ _ _ _ Hci') as (_ & Hi20 & _).
      destruct (Z.eqb_spec i2 0); [done|].
      destruct (Z.eqb_spec j 0); [done|]. cbn [negb andb].
      rewrite (IH i2 j ri rj _ Hci' (chain_step _ _ _ _ Hj0 Hj' Hcj')
                 (sorted_tail _ _ _ Hsi) Hsj Hie Hce Hlast Hcd)
        by (simpl in Hf |- *; lia).
      rewrite (filter_cons_True _ i) by lia. cbn [foldl].
      unfold dot_step_at at 3. rewrite match_in_none; [done|].
      intros b [->|Hb]%elem_of_cons; [lia|].
      pose proof (sorted_head_lt _ _ _ _ Hsj Hb). lia.
    + destruct (Hjd ltac:(lia)) as [Hdr Hlr].
      destruct rj as [|j2 rj]; [by apply elem_of_nil in Hdr|].
      pose proof (chain_head _ _ _ _ Hcj') as ->.
      pose proof (chain_cons_inv _ _ _ _ Hcj') as (_ & Hj20 & _).
      destruct (Z.eqb_spec i 0); [done|].
      destruct (Z.eqb_spec j2 0); [done|]. cbn [negb andb].
      rewrite (IH i j2 ri rj _ (chain_step _ _ _ _ Hi0 Hi' Hci') Hcj' Hsi
                 (sorted_tail _ _ _ Hsj) He Hce Hlr Hcd)
        by (simpl in Hf |- *; lia).
      rewrite (dot_at_ext LU lk (j :: j2 :: rj) (j2 :: rj)); [done|].
      intros a Ha.
      apply match_in_cons_ne. apply list_elem_of_filter in Ha as [_ Ha].
      apply elem_of_cons in Ha as [->|Ha]; [lia|].
      pose proof (sorted_head_lt _ _ _ _ Hsi Ha). lia.
Qed.

End SweepWalk.

(** ** The residuals of the candidates *)

Section Residuals.
Context {V : Type} `{Scalar V}.
Implicit Types A LU LU_new : magma_z_matrix V.

(** The system matrix in CSR: its row pointers delimit ranges of the
    arrays [col] and [val]. *)
Record csr_ok A : Prop := CsrOk {
  csr_val : length (val A) = length (col A);
  csr_row : ∀ r, 0 ≤ r < num_rows A →
    ∃ lo hi, rd (row A) r = Some lo ∧ rd (row A) (r + 1) = Some hi ∧
             0 ≤ lo ≤ hi ∧ hi ≤ Z.of_nat (length (col A))
}.

Lemma A_scan_total A c n i acc :
  length (val A) = length (col A) → 0 ≤ i →
  i + Z.of_nat n ≤ Z.of_nat (length (col A)) →
  is_Some (A_scan A c n i acc).
Proof.
  intros Hlen. revert i acc. induction n as [|n IH]; intros i acc Hi Hn; [by eexists|].
  cbn [A_scan]. destruct (rd_is_Some (col A) i) as [ci Hci]; [lia|].
  rewrite Hci. cbn [mbind option_bind]. destruct (ci =? c).
  - destruct (rd_is_Some (val A) i) as [v Hv]; [lia|]. rewrite Hv.
    cbn [mbind option_bind]. apply IH; lia.
  - apply IH; lia.
Qed.

Lemma A_entry_total A r c :
  csr_ok A → 0 ≤ r < num_rows A → is_Some (A_entry A r c).
Proof.
  intros [Hlen Hrow] Hr. destruct (Hrow r Hr) as (lo & hi & Hlo & Hhi & Hl & Hh).
  unfold A_entry. rewrite Hlo, Hhi. cbn [mbind option_bind].
  apply A_scan_total; [done|lia|lia].
Qed.

(** [A[r,c]] as the code finds it. *)
Definition entry_of A (r c : Z) : V := default zero (A_entry A r c).

(** The slots of row [r], and the slot of its diagonal. *)
Definition row_slots LU (r : Z) : list Z := default [] (row_chain_of LU r).
Definition diag_slot LU (r : Z) : Z := default 0 (last (row_slots LU r)).

Lemma row_slots_chain LU r l : row_chain LU r l → row_slots LU r = l.
Proof. intros Hl%row_chain_of_complete. unfold row_slots. by rewrite Hl. Qed.

(** The residual at [(r,c)]: [A[r,c]] minus the sum over the columns that
    rows [r] and [c] of the factor have in common. *)
Definition residual_of A LU (r c : Z) : V :=
  sub (entry_of A r c) (dot_rows LU (row_slots LU r) (row_slots LU c)).

(** The candidates: positions [(r,c)] with rows [r] and [c] of the
    factor, in arrays of at least [nnz] entries. *)
Record cand_ok LU_new LU : Prop := CandOk {
  co_val : nnz LU_new ≤ Z.of_nat (length (val LU_new));
  co_pos : ∀ e, 0 ≤ e < nnz LU_new →
    ∃ r c, rd (rowidx LU_new) e = Some r ∧ rd (col LU_new) e = Some c ∧
           is_row LU r ∧ is_row LU c
}.

(** A row of a factor with (I5) starts with a slot. *)
Lemma row_start LU r l :
  I5 LU → is_row LU r → row_chain LU r l →
  ∃ i rest, l = i :: rest ∧ rd (row LU) r = Some i ∧
            chain (llist LU) i (i :: rest).
Proof.
  intros H5 Hr Hl. destruct (H5 r l Hr Hl) as (l1 & d & -> & _).
  destruct Hl as (i & Hi & Hc).
  assert (Hne : ∃ rest, l1 ++ [d] = i :: rest).
  { destruct l1; simpl in *; pose proof (chain_head _ _ _ _ Hc) as ->; eauto. }
  destruct Hne as [rest Hrest]. rewrite Hrest in *. eauto.
Qed.

Lemma residual_entry_spec A LU LU_new e r c :
  dims LU → I1 LU → I2 LU → I5 LU →
  csr_ok A → num_rows A = num_rows LU →
  rd (rowidx LU_new) e = Some r → rd (col LU_new) e = Some c →
  is_row LU r → is_row LU c →
  residual_entry A LU LU_new e = wr (val LU_new) e (residual_of A LU r c).
Proof.
  intros Hd H1 H2 H5 HA Hn Hr Hc Hrow Hcol. unfold residual_entry.
  rewrite Hr, Hc. cbn [mbind option_bind].
  destruct (A_entry_total A r c HA) as [A_e HAe]; [unfold is_row in Hrow; lia|].
  unfold residual_of, entry_of. rewrite HAe. cbn [mbind option_bind default].
  destruct (H1 r Hrow) as [lr Hlr]. destruct (H1 c Hcol) as [lc Hlc].
  rewrite (row_slots_chain _ _ _ Hlr), (row_slots_chain _ _ _ Hlc).
  destruct (row_start LU r lr H5 Hrow Hlr) as (i & ri & -> & Hi & Hci).
  destruct (row_start LU c lc H5 Hcol Hlc) as (j & rj & -> & Hj & Hcj).
  rewrite Hi, Hj. cbn [mbind option_bind].
  destruct (merge_walk_full LU (merge_fuel LU) Hd i j ri rj zero Hci Hcj)
    as (lsum & iold & jold & Hw).
  - by apply (H2 r).
  - by apply (H2 c).
  - pose proof (chain_length _ _ _ Hci). pose proof (chain_length _ _ _ Hcj).
    unfold merge_fuel. simpl in *. lia.
  - rewrite Hw. done.
Qed.

Lemma residuals_loop_spec A LU :
  dims LU → I1 LU → I2 LU → I5 LU →
  csr_ok A → num_rows A = num_rows LU →
  ∀ n e0 LU_new,
    0 ≤ e0 → e0 + Z.of_nat n ≤ nnz LU_new → cand_ok LU_new LU →
    ∃ LU_new',
      residuals_loop n e0 A LU LU_new = Some LU_new' ∧
      nnz LU_new' = nnz LU_new ∧ rowidx LU_new' = rowidx LU_new ∧
      col LU_new' = col LU_new ∧
      (∀ e, e0 ≤ e < e0 + Z.of_nat n →
         rd (val LU_new') e
         = Some (residual_of A LU (get (rowidx LU_new) e) (get (col LU_new) e))) ∧
      (∀ e, ¬ (e0 ≤ e < e0 + Z.of_nat n) → rd (val LU_new') e = rd (val LU_new) e).
Proof.
  intros Hd H1 H2 H5 HA Hn n.
  induction n as [|n IH]; intros e0 LU_new He0 Hle Hok.
  { exists LU_new. do 4 (split; [done|]). split; [intros e; lia|done]. }
  destruct (co_pos _ _ Hok e0) as (r & c & Hr & Hc & Hrow & Hcol); [lia|].
  cbn [residuals_loop].
  rewrite (residual_entry_spec A LU LU_new e0 r c) by done.
  pose proof (co_val _ _ Hok) as Hlen.
  destruct (wr (val LU_new) e0 (residual_of A LU r c)) as [v|] eqn:Hv.
  2:{ rewrite wr_Some in Hv by lia. done. }
  cbn [mbind option_bind].
  destruct (IH (e0 + 1) (set_val LU_new v)) as (LU_new' & Hloop & E1 & E2 & E3 & E4 & E5).
  - lia.
  - simpl. lia.
  - constructor; simpl; [by rewrite (wr_length _ _ _ _ Hv)|apply Hok].
  - exists LU_new'. split; [done|]. do 3 (split; [done|]). simpl in *. split.
    + intros e He. destruct (Z.eq_dec e e0) as [->|Hne].
      * rewrite E5 by lia. rewrite (rd_get _ _ _ Hr), (rd_get _ _ _ Hc).
        by eapply rd_wr_eq.
      * apply E4. lia.
    + intros e He. rewrite E5 by lia. eapply rd_wr_ne; [done|lia].
Qed.

(** C7, as the code has it. After the residual evaluation the value of
    every candidate [e] at [(row, col)] is the residual itself,
    [A[row,col]] minus the sum of [L[row,k] * L[col,k]] over the columns
    [k] present in both row chains; the magnitude is not taken. *)
Theorem residuals_value A LU LU_new :
  dims LU → I1 LU → I2 LU → I5 LU →
  csr_ok A → num_rows A = num_rows LU → cand_ok LU_new LU →
  ∃ LU_new',
    magma_zmdynamicic_residuals A LU LU_new = Some (0, LU_new') ∧
    rowidx LU_new' = rowidx LU_new ∧ col LU_new' = col LU_new ∧
    ∀ e, 0 ≤ e < nnz LU_new →
      rd (val LU_new') e
      = Some (residual_of A LU (get (rowidx LU_new) e) (get (col LU_new) e)).
Proof.
  intros Hd H1 H2 H5 HA Hn Hok.
  pose proof (co_val _ _ Hok) as Hlen.
  destruct (Z.le_gt_cases 0 (nnz LU_new)) as [Hnn|Hneg].
  2:{ exists LU_new. unfold magma_zmdynamicic_residuals.
      replace (Z.to_nat (nnz LU_new)) with 0%nat by lia.
      do 3 (split; [done|]). intros e He. lia. }
  destruct (residuals_loop_spec A LU Hd H1 H2 H5 HA Hn
              (Z.to_nat (nnz LU_new)) 0 LU_new)
    as (LU_new' & Hloop & _ & E2 & E3 & E4 & _); [lia|lia|done|].
  exists LU_new'. unfold magma_zmdynamicic_residuals. rewrite Hloop.
  cbn [mbind option_bind]. do 3 (split; [done|]).
  intros e He. apply E4. lia.
Qed.

End Residuals.

(** A symmetric system matrix for the factor [ex_LU], in CSR; its entry
    at [(2,1)] is [-4]. *)
Definition ex_A : magma_z_matrix Z :=
  Matrix 3 3 6 [0; 1; 3; 6] [] [0; 1; 2; 0; 1; 2] [] [4; 9; -4; 1; -4; 26].

Lemma ex_A_ok : csr_ok ex_A.
Proof.
  constructor; [done|]. intros r Hr. simpl in Hr.
  assert (r = 0 ∨ r = 1 ∨ r = 2) as [-> | [-> | ->]] by lia;
    eexists _, _; (split; [reflexivity|]); (split; [reflexivity|]); simpl; lia.
Qed.

Lemma ex_cand_ok : cand_ok ex_cand ex_LU.
Proof.
  constructor; [simpl; lia|]. intros e He. simpl in He.
  assert (e = 0 ∨ e = 1 ∨ e = 2) as [-> | [-> | ->]] by lia;
    eexists _, _; (split; [reflexivity|]); (split; [reflexivity|]);
    unfold is_row; simpl; lia.
Qed.

Lemma residuals_value_witness :
  ∃ LU_new',
    magma_zmdynamicic_residuals ex_A ex_LU ex_cand = Some (0, LU_new') ∧
    rowidx LU_new' = rowidx ex_cand ∧ col LU_new' = col ex_cand ∧
    ∀ e, 0 ≤ e < nnz ex_cand →
      rd (val LU_new') e
      = Some (residual_of ex_A ex_LU (get (rowidx ex_cand) e)
                (get (col ex_cand) e)).
Proof.
  apply (residuals_value ex_A ex_LU ex_cand); try apply ex_LU_wf.
  - apply ex_A_ok.
  - reflexivity.
  - apply ex_cand_ok.
Defined.

(** C7 fails as stated: the residual of the candidate [(2,1)] is [-4],
    and [-4] is what the routine stores, not its magnitude [4]. *)
Lemma residuals_store_signed_value :
  ∃ LU_new',
    magma_zmdynamicic_residuals ex_A ex_LU ex_cand = Some (0, LU_new') ∧
    rd (rowidx ex_cand) 0 = Some 2 ∧ rd (col ex_cand) 0 = Some 1 ∧
    residual_of ex_A ex_LU 2 1 = -4 ∧
    rd (val LU_new') 0 = Some (-4) ∧
    rd (val LU_new') 0 ≠ Some (vabs (residual_of ex_A ex_LU 2 1)).
Proof.
  eexists. split; [reflexivity|]. do 4 (split; [reflexivity|]). discriminate.
Qed.

(** ** The sweep *)

Section SweepFacts.
Context {V : Type} `{Scalar V}.
Implicit Types A LU : magma_z_matrix V.

(** The invariants of the factor that the sweep relies on. *)
Record sinv LU : Prop := SInv {
  si_dims : dims LU;
  si_I1 : I1 LU;
  si_I2 : I2 LU;
  si_I4 : I4 LU;
  si_I5 : I5 LU;
  si_Icol : Icol LU;
  si_I6 : I6 LU
}.

(** The invariants do not depend on the values. *)
Lemma sinv_set_val LU v :
  length v = length (val LU) → sinv LU → sinv (set_val LU v).
Proof.
  intros Hv [[] H1 H2 H4 H5 Hc H6]. constructor; try done.
  constructor; simpl; try done. by rewrite Hv.
Qed.

(** The column of a slot of row [r] is a row not beyond [r]. *)
Lemma slot_col_range LU r l e :
  sinv LU → is_row LU r → row_chain LU r l → e ∈ l →
  0 ≤ get (col LU) e ≤ r.
Proof.
  intros [Hd H1 H2 H4 H5 Hc H6] Hr Hl He. split.
  - pose proof (Hc r l Hr Hl) as Hall. rewrite Forall_forall in Hall. by apply Hall.
  - destruct (H5 r l Hr Hl) as (l1 & d & -> & Hcd).
    apply elem_of_app in He as [He|He].
    + pose proof (H2 r _ Hr Hl) as Hs. unfold colsof in Hs. rewrite fmap_app in Hs.
      assert (get (col LU) e < get (col LU) d); [|lia].
      eapply (StronglySorted_app_1_elem_of Z.lt); [exact Hs| |].
      * by apply list_elem_of_fmap_2.
      * simpl. in_list.
    + apply list_elem_of_singleton in He as ->. lia.
Qed.

(** The value of the slot [k] in the array [v]. *)
Definition val_at (v : list V) (k : Z) : V := default zero (rd v k).

(** The sum of the products over the common columns [k < c] of two rows,
    from the values [lk] that a turn reads, added up in the order of the
    chain [li]. *)
Definition dot_below_at LU (lk : operand → Z → V) (c : Z) (li lj : list Z)
  : V :=
  foldl (dot_step_at LU lk lj) zero (filter (λ a, get (col LU) a < c) li).

(** The value that the turn of the slot [e] writes, from the values [lk]
    that it reads. With [r] the row and [c] the column of the slot and
    [d] the diagonal slot of row [c], the products [L[r,k] * L[c,k]] over
    the common columns [k < min r c] are added up, the terminal product
    [lsum] at column [c] is added and subtracted again, and the value is
    [sqrt (A[r,c] - sum)] on the diagonal and [(A[r,c] - sum) / L[c,c]]
    off the diagonal. *)
Definition sweep_value A LU (lk : operand → Z → V) (e : Z) : V :=
  let r := get (rowidx LU) e in
  let c := get (col LU) e in
  let d := diag_slot LU c in
  let lsum := mul (lk Op_i e) (lk Op_j d) in
  let below :=
    dot_below_at LU lk (Z.min r c) (row_slots LU r) (row_slots LU c) in
  let sum := sub (add below lsum) lsum in
  if r =? c then vsqrt (sub (entry_of A r c) sum)
  else div (sub (entry_of A r c) sum) (lk Op_jold d).

Lemma sweep_value_reads A LU lk lk' e :
  (∀ o k, lk o k = lk' o k) → sweep_value A LU lk e = sweep_value A LU lk' e.
Proof.
  intros Heq. unfold sweep_value, dot_below_at.
  by rewrite (dot_at_reads LU lk lk') , !Heq.
Qed.

(** Every slot of the factor has one turn. *)
Record sched_ok (sch : schedule) LU : Prop := SchedOk {
  so_once : NoDup (order sch);
  so_all : ∀ e, e ∈ order sch ↔ 0 ≤ e < nnz LU
}.

(** The values that the turn of the slot [e] reads, when it is the turn
    number [p] and the sweep leaves the values [v]: the read of the slot
    [k] gives the value that the sweep writes to [k] when the turn of
    [k] has ended before the read, and the value of [k] at the start of
    the sweep otherwise. *)
Definition reads (sch : schedule) LU (v : list V) (p : nat) (e : Z)
  : operand → Z → V :=
  λ o k,
    if bool_decide (k ∈ take (Nat.min (seen sch e o k) p) (order sch))
    then val_at v k else valof LU k.

(** The values that the turn of the slot [e] reads from the history. *)
Definition turn_reads (sch : schedule) (hist : list (list V)) (e : Z)
  : operand → Z → V :=
  λ o k,
    val_at (at_time hist (Nat.min (seen sch e o k) (pred (length hist)))) k.

Lemma at_time_app_l (hist : list (list V)) v t :
  (t < length hist)%nat → at_time (hist ++ [v]) t = at_time hist t.
Proof. intros Ht. unfold at_time. by rewrite lookup_app_l. Qed.

Lemma at_time_app_r (hist : list (list V)) v :
  at_time (hist ++ [v]) (length hist) = v.
Proof. unfold at_time. by rewrite list_lookup_middle. Qed.

Lemma latest_snoc (hist : list (list V)) v : latest (hist ++ [v]) = v.
Proof.
  unfold latest. rewrite length_app. simpl.
  replace (pred (length hist + 1)) with (length hist) by lia.
  apply at_time_app_r.
Qed.

Lemma at_time_size LU (hist : list (list V)) t :
  Forall (λ v, length v = length (val LU)) hist → (t < length hist)%nat →
  length (at_time hist t) = length (val LU).
Proof.
  intros Hall Ht. unfold at_time.
  destruct (lookup_lt_is_Some_2 hist t Ht) as [v Hv]. rewrite Hv. simpl.
  rewrite Forall_forall in Hall. apply Hall. by eapply list_elem_of_lookup_2.
Qed.

Lemma sweep_turn_free A LU sch hist e :
  rd (llist LU) e = Some (-1) →
  sweep_turn A LU sch hist e = Some (hist ++ [latest hist]).
Proof. intros He. unfold sweep_turn. by rewrite He. Qed.

(** The turn of a slot of a row: it writes the value of [sweep_value] on
    the values that it reads. *)
Lemma sweep_turn_live A LU sch hist e r l :
  sinv LU → csr_ok A → num_rows A = num_rows LU →
  hist ≠ [] → Forall (λ v, length v = length (val LU)) hist →
  is_row LU r → row_chain LU r l → e ∈ l →
  ∃ v,
    wr (latest hist) e (sweep_value A LU (turn_reads sch hist e) e) = Some v ∧
    sweep_turn A LU sch hist e = Some (hist ++ [v]).
Proof.
  intros Hinv HA Hn Hne Hsz Hr Hl He.
  pose proof (slot_col_range LU r l e Hinv Hr Hl He) as Hcr.
  destruct Hinv as [Hd H1 H2 H4 H5 Hc H6].
  pose proof Hl as (s0 & Hs0 & Hch).
  pose proof (chain_range _ _ _ Hch) as Hrg. rewrite Forall_forall in Hrg.
  specialize (Hrg e He).
  pose proof (d_llist _ Hd) as Dl. pose proof (d_rowidx _ Hd) as Dr.
  pose proof (d_col _ Hd) as Dc. pose proof (d_val _ Hd) as Dv.
  pose proof (H4 r l Hr Hl) as Hown. rewrite Forall_forall in Hown.
  destruct (Hown e He) as [Hre Hle].
  set (c := get (col LU) e) in *.
  assert (Hcol : is_row LU c) by (unfold is_row in *; lia).
  assert (Hpos : (0 < length hist)%nat) by (destruct hist; [done|simpl; lia]).
  assert (Hlat : length (latest hist) = length (val LU)).
  { apply at_time_size; [done|lia]. }
  assert (Hlk : ∀ o k, 0 ≤ k < nnz LU →
            look sch hist e o k = Some (turn_reads sch hist e o k)).
  { intros o k Hk. unfold look, turn_reads, val_at.
    destruct (rd_is_Some
                (at_time hist (Nat.min (seen sch e o k) (pred (length hist))))
                k) as [x Hx]; [|by rewrite Hx].
    rewrite (at_time_size LU) by (done || lia). lia. }
  destruct (wr (latest hist) e
              (sweep_value A LU (turn_reads sch hist e) e)) as [v|] eqn:Hv.
  2:{ rewrite wr_Some in Hv by lia. done. }
  exists v. split; [done|]. unfold sweep_turn.
  rewrite (get_rd (llist LU) e) by lia. cbn [mbind option_bind].
  destruct (Z.eqb_spec (get (llist LU) e) (-1)); [done|].
  rewrite (get_rd (rowidx LU) e), (get_rd (col LU) e) by lia.
  cbn [mbind option_bind]. rewrite Hre. fold c.
  destruct (A_entry_total A r c HA) as [A_e HAe]; [unfold is_row in Hr; lia|].
  rewrite HAe. cbn [mbind option_bind].
  destruct (H1 c Hcol) as [lc Hlc].
  destruct (row_start LU r l H5 Hr Hl) as (i & ri & -> & Hi & Hci).
  destruct (row_start LU c lc H5 Hcol Hlc) as (j & rj & -> & Hj & Hcj).
  rewrite Hi, Hj. cbn [mbind option_bind].
  destruct (H5 c _ Hcol Hlc) as (l1 & d & Hd1 & Hcd).
  assert (Hlast : last (j :: rj) = Some d) by (rewrite Hd1; apply last_snoc).
  rewrite (sweep_walk_diag LU (look sch hist e) (turn_reads sch hist e) e d c
             (merge_fuel LU) Hd Hlk i j ri rj zero Hci Hcj
             (H2 r _ Hr Hl) (H2 c _ Hcol Hlc) He eq_refl Hlast Hcd).
  2:{ pose proof (chain_length _ _ _ Hci). pose proof (chain_length _ _ _ Hcj).
      unfold merge_fuel. simpl in *. lia. }
  cbn [mbind option_bind].
  set (lk := turn_reads sch hist e) in *.
  set (below := foldl (dot_step_at LU lk (j :: rj)) zero
                  (filter (λ a, get (col LU) a < c) (i :: ri))).
  set (lsum := mul (lk Op_i e) (lk Op_j d)).
  assert (Hval : sweep_value A LU lk e
                 = if r =? c
                   then vsqrt (sub A_e (sub (add below lsum) lsum))
                   else div (sub A_e (sub (add below lsum) lsum))
                          (lk Op_jold d)).
  { unfold sweep_value, dot_below_at, entry_of, diag_slot.
    rewrite Hre. fold c. rewrite HAe. cbn [default].
    rewrite (row_slots_chain _ _ _ Hl), (row_slots_chain _ _ _ Hlc), Hlast.
    cbn [default]. by rewrite Z.min_r by lia. }
  rewrite Hval in Hv.
  destruct (r =? c).
  - rewrite Hv. done.
  - pose proof (last_Some_elem_of _ _ Hlast) as Hdin.
    pose proof (chain_range _ _ _ Hcj) as Hrgj. rewrite Forall_forall in Hrgj.
    specialize (Hrgj d Hdin).
    rewrite (Hlk Op_jold d) by lia. cbn [mbind option_bind]. rewrite Hv. done.
Qed.

(** What holds of the history after [p] turns. *)
Record run_inv A LU (sch : schedule) (p : nat) (hist : list (list V))
  : Prop := RunInv {
  ri_len : length hist = S p;
  ri_size : Forall (λ v, length v = length (val LU)) hist;
  ri_time : ∀ t k, (t ≤ p)%nat →
    rd (at_time hist t) k
    = if bool_decide (k ∈ take t (order sch)) then rd (latest hist) k
      else rd (val LU) k;
  ri_free : ∀ k, rd (llist LU) k = Some (-1) →
    rd (latest hist) k = rd (val LU) k;
  ri_live : ∀ q e, (q < p)%nat → order sch !! q = Some e →
    get (llist LU) e ≠ -1 →
    rd (latest hist) e
    = Some (sweep_value A LU (reads sch LU (latest hist) q e) e)
}.

Lemma run_inv_init A LU sch : run_inv A LU sch 0 [val LU].
Proof.
  constructor; try done.
  - by constructor.
  - intros t k Ht. replace t with 0%nat by lia. done.
  - intros q e Hq. lia.
Qed.

Lemma sweep_turn_inv A LU sch done e rest hist :
  sinv LU → csr_ok A → num_rows A = num_rows LU → sched_ok sch LU →
  order sch = done ++ e :: rest →
  run_inv A LU sch (length done) hist →
  ∃ hist',
    sweep_turn A LU sch hist e = Some hist' ∧
    run_inv A LU sch (S (length done)) hist'.
Proof.
  intros Hs HA Hn [Hnd Hall] Hord [Hlen Hsz Htime Hfree Hlive].
  set (p := length done) in *.
  assert (Hep : order sch !! p = Some e).
  { rewrite Hord. by apply list_lookup_middle. }
  assert (Hbefore : ∀ t k, (t ≤ p)%nat → k ∈ take t (order sch) → k ≠ e).
  { intros t k Ht (i & Hi & Hit)%elem_of_take ->.
    pose proof (NoDup_lookup _ _ _ _ Hnd Hi Hep). lia. }
  assert (Hrange : 0 ≤ e < nnz LU).
  { apply Hall. rewrite Hord. in_list. }
  assert (Hne : hist ≠ []) by (by destruct hist).
  assert (Hlat : latest hist = at_time hist p).
  { unfold latest. by rewrite Hlen. }
  pose proof (si_dims _ Hs) as Hd. pose proof (d_llist _ Hd) as Dl.
  assert (Hstep : ∃ v',
            sweep_turn A LU sch hist e = Some (hist ++ [v']) ∧
            length v' = length (val LU) ∧
            (∀ k, k ≠ e → rd v' k = rd (latest hist) k) ∧
            (rd (llist LU) e = Some (-1) → v' = latest hist) ∧
            (get (llist LU) e ≠ -1 →
             rd v' e = Some (sweep_value A LU (turn_reads sch hist e) e))).
  { destruct (Z.eq_dec (get (llist LU) e) (-1)) as [Hf|Hl].
    - exists (latest hist).
      assert (Hfe : rd (llist LU) e = Some (-1)).
      { rewrite (get_rd (llist LU) e) by lia. by rewrite Hf. }
      split; [by apply sweep_turn_free|].
      split; [apply at_time_size; [done|lia]|]. by do 2 (split; [done|]).
    - destruct (si_I6 _ Hs e Hrange Hl) as (r & l & Hr & Hrl & Hel).
      destruct (sweep_turn_live A LU sch hist e r l Hs HA Hn Hne Hsz Hr Hrl Hel)
        as (v & Hv & Hturn).
      exists v. split; [done|].
      split; [rewrite (wr_length _ _ _ _ Hv); apply at_time_size; [done|lia]|].
      split; [intros k Hk; by eapply rd_wr_ne|].
      split; [intros Hfe; rewrite (get_rd (llist LU) e) in Hfe by lia; congruence|].
      intros _. by eapply rd_wr_eq. }
  destruct Hstep as (v' & Hturn & Hlen' & Hoth & Hfr & Hnew).
  exists (hist ++ [v']). split; [done|]. constructor.
  - rewrite length_app. simpl. lia.
  - apply Forall_app. split; [done|]. by constructor.
  - intros t k Ht. rewrite latest_snoc.
    destruct (decide (t = S p)) as [->|Hne'].
    + rewrite <- Hlen, at_time_app_r. rewrite Hlen.
      case_bool_decide as Hin; [done|].
      assert (Hke : k ≠ e).
      { intros ->. apply Hin. apply elem_of_take. exists p. split; [done|lia]. }
      assert (Hkp : k ∉ take p (order sch)).
      { intros (i & Hi & Hip)%elem_of_take. apply Hin, elem_of_take.
        exists i. split; [done|lia]. }
      rewrite (Hoth k Hke), Hlat, (Htime p k) by lia.
      by rewrite bool_decide_false.
    + rewrite at_time_app_l by lia. rewrite (Htime t k) by lia.
      case_bool_decide as Hin; [|done].
      symmetry. apply Hoth. apply (Hbefore t k); [lia|done].
  - intros k Hk. rewrite latest_snoc.
    destruct (Z.eq_dec k e) as [->|Hke]; [rewrite (Hfr Hk); by apply Hfree|].
    rewrite (Hoth k Hke). by apply Hfree.
  - intros q e' Hq Hq' Hl'. rewrite latest_snoc.
    destruct (decide (q = p)) as [->|Hqp].
    + rewrite Hep in Hq'. injection Hq' as <-.
      rewrite (Hnew Hl'). f_equal. apply sweep_value_reads.
      intros o k. unfold turn_reads, reads. rewrite Hlen. cbn [pred].
      set (t := Nat.min (seen sch e o k) p).
      unfold val_at at 1. rewrite (Htime t k) by lia.
      case_bool_decide as Hin; [|done].
      unfold val_at. rewrite (Hoth k); [done|]. apply (Hbefore t k); [lia|done].
    + assert (Hee : e' ≠ e).
      { intros ->. pose proof (NoDup_lookup _ _ _ _ Hnd Hq' Hep). lia. }
      rewrite (Hoth e' Hee), (Hlive q e') by (done || lia).
      f_equal. apply sweep_value_reads. intros o k. unfold reads.
      case_bool_decide as Hin; [|done].
      unfold val_at. rewrite (Hoth k); [done|].
      apply (Hbefore (Nat.min (seen sch e' o k) q) k); [lia|done].
Qed.

Lemma sweep_run_inv A LU sch :
  sinv LU → csr_ok A → num_rows A = num_rows LU → sched_ok sch LU →
  ∀ rest done hist,
    order sch = done ++ rest →
    run_inv A LU sch (length done) hist →
    ∃ hist',
      sweep_run A LU sch rest hist = Some hist' ∧
      run_inv A LU sch (length (order sch)) hist'.
Proof.
  intros Hs HA Hn Hok rest.
  induction rest as [|e rest IH]; intros done hist Hord Hinv.
  { exists hist. split; [done|]. by rewrite Hord, app_nil_r. }
  destruct (sweep_turn_inv A LU sch done e rest hist Hs HA Hn Hok Hord Hinv)
    as (hist1 & Hturn & Hinv1).
  cbn [sweep_run]. rewrite Hturn. cbn [mbind option_bind].
  apply (IH (done ++ [e])).
  - by rewrite <- app_assoc.
  - rewrite length_app. simpl.
    by replace (length done + 1)%nat with (S (length done)) by lia.
Qed.

(** The sweep under a schedule: it returns a factor that differs from
    [LU] in its values only, the free slots keep their value, and every
    other slot has the value of [sweep_value] on the values that its turn
    has read. *)
Lemma sweep_spec A sch LU :
  sinv LU → csr_ok A → num_rows A = num_rows LU → sched_ok sch LU →
  ∃ v,
    magma_zmdynamicic_sweep A sch LU = Some (0, set_val LU v) ∧
    length v = length (val LU) ∧
    (∀ s, rd (llist LU) s = Some (-1) → rd v s = rd (val LU) s) ∧
    (∀ p e, order sch !! p = Some e → get (llist LU) e ≠ -1 →
       rd v e = Some (sweep_value A LU (reads sch LU v p e) e)).
Proof.
  intros Hs HA Hn Hok.
  destruct (sweep_run_inv A LU sch Hs HA Hn Hok (order sch) [] [val LU] eq_refl
              (run_inv_init A LU sch))
    as (hist & Hrun & [Hlen Hsz Htime Hfree Hlive]).
  exists (latest hist). unfold magma_zmdynamicic_sweep. rewrite Hrun.
  cbn [mbind option_bind]. split; [done|].
  split; [apply at_time_size; [done|lia]|]. split; [done|].
  intros p e Hp Hl. apply (Hlive p e); [by eapply lookup_lt_Some|done|done].
Qed.

End SweepFacts.

Section SweepClaims.
Context {V : Type} `{Scalar V}.
Implicit Types A LU : magma_z_matrix V.


End SweepClaims.

(** The matrix [[4, 2], [2, 10]] and the lower triangular factor with the
    diagonal [2], [3] and a zero at [(1,0)]: one sweep gives the exact
    factor [[2, 0], [1, 3]]. *)
Definition ex_A2 : magma_z_matrix Z :=
  Matrix 2 2 4 [0; 2; 4] [] [0; 1; 0; 1] [] [4; 2; 2; 10].

Definition ex_L2 : magma_z_matrix Z :=
  Matrix 2 2 4 [1; 2; 0] [0; 0; 1; 1] [0; 0; 0; 1] [-1; 0; 3; 0] [0; 2; 0; 3].

Lemma ex_L2_wf : wf ex_L2.
Proof. apply wf_check_sound. reflexivity. Qed.

Lemma ex_L2_I6 : I6 ex_L2.
Proof. apply I6_check_sound. reflexivity. Qed.

Lemma ex_A2_ok : csr_ok ex_A2.
Proof.
  constructor; [done|]. intros r Hr. simpl in Hr.
  assert (r = 0 ∨ r = 1) as [-> | ->] by lia;
    eexists _, _; (split; [reflexivity|]); (split; [reflexivity|]); simpl; lia.
Qed.

(** With one thread the sweep gives the exact factor. *)
Example sweep_example :
  magma_zmdynamicic_sweep ex_A2 (in_order (nnz ex_L2)) ex_L2
  = Some (0, set_val ex_L2 [0; 2; 1; 3]).
Proof. reflexivity. Qed.

(** A schedule of the four turns on [ex_L2]: the turn of the slot [3]
    ends first, then those of the slots [1], [2] and [0]; the turn of
    the slot [2] reads after the first turn has ended, the other turns
    read the values from before the sweep. *)
Definition ex_sched : schedule :=
  Schedule [3; 1; 2; 0] (λ e _ _, if e =? 2 then 1%nat else 0%nat).

Lemma ex_sched_ok (LU : magma_z_matrix Z) : nnz LU = 4 → sched_ok ex_sched LU.
Proof.
  intros Hn. constructor.
  - simpl. repeat (constructor; [rewrite ?elem_of_cons, elem_of_nil; lia|]).
    constructor.
  - intros e. rewrite Hn. simpl. rewrite !elem_of_cons, elem_of_nil. lia.
Qed.

(** The values that the sweep leaves depend on the schedule: from the
    diagonal [1], [3] the run with one thread gives [[2, 0], [1, 3]],
    and the schedule [ex_sched], under which the slot [2] is divided by
    the diagonal from before the sweep, gives [[2, 0], [2, 3]]. *)
Example sweep_schedule_example :
  magma_zmdynamicic_sweep ex_A2 (in_order 4) (set_val ex_L2 [0; 1; 0; 3])
  = Some (0, set_val ex_L2 [0; 2; 1; 3]) ∧
  magma_zmdynamicic_sweep ex_A2 ex_sched (set_val ex_L2 [0; 1; 0; 3])
  = Some (0, set_val ex_L2 [0; 2; 2; 3]).
Proof. split; reflexivity. Qed.


(** ** Candidate discovery: [magma_zmdynamicic_candidates_n] *)

(** [while( s != 0 ) { body; s = LU.list[ s ]; }]: the loops of the
    routine over the slots of a row, whose turns all end with the step to
    the next slot, also where the source leaves the turn by [continue]. *)
Fixpoint chain_iter {S : Type} (fuel : nat) (nx : list Z)
    (body : Z → S → option S) (s : Z) (st : S) : option S :=
  match fuel with
  | O => None
  | S fuel' =>
    if s =? 0 then Some st
    else st' ← body s st; s' ← rd nx s; chain_iter fuel' nx body s' st'
  end.

Section Candidates.
Context {V : Type} `{Scalar V}.
Implicit Types LU LU_new : magma_z_matrix V.

(** [magma_index_malloc_cpu] and [magma_zmalloc_cpu] are defined in the
    library: the status of the allocation of [n] indices or scalars. A
    fresh array is modelled with zeros in it; the routine writes every
    entry of the arrays that it allocates. *)
Variable magma_index_malloc_cpu : Z → Z.
Variable magma_zmalloc_cpu : Z → Z.

Definition chain_fuel LU : nat := S (length (llist LU)).

(** The search of [checkelement] in the row that starts at [check], in
    the first pass: the whole row is scanned. *)
Definition exists_all LU (checkelement check : Z) : option Z :=
  chain_iter (chain_fuel LU) (llist LU)
    (λ check exist,
       c ← rd (col LU) check;
       Some (if c =? checkelement then 1 else exist))
    check 0.

(** The same search in the second pass, which stops at the element. *)
Fixpoint exists_break (fuel : nat) LU (checkelement check : Z) : option Z :=
  match fuel with
  | O => None
  | S fuel' =>
    if check =? 0 then Some 0
    else
      c ← rd (col LU) check;
      if c =? checkelement then Some 1
      else check' ← rd (llist LU) check;
           exists_break fuel' LU checkelement check'
  end.

(** The first pass reads [checkend = LU.row[ checkrow+1 ]] before the
    search. *)
Definition scan_count LU (checkrow checkelement check : Z) : option Z :=
  _ ← rd (row LU) (checkrow + 1);
  exists_all LU checkelement check.

Definition scan_insert LU (checkrow checkelement check : Z) : option Z :=
  exists_break (chain_fuel LU) LU checkelement check.

(** The two nested loops over the row, which both passes share; [scan]
    is the search and [emit] is what the pass does with a candidate. *)
Definition visit_inner {S} LU (scan : Z → Z → Z → option Z)
    (emit : Z → Z → S → option S) (lcol1 lcol2 : Z) (st : S) : option S :=
  col1 ← rd (col LU) lcol1;
  col2 ← rd (col LU) lcol2;
  if col1 <=? col2 then Some st
  else
    let checkrow := Z.max col1 col2 in
    let checkelement := Z.min col1 col2 in
    check ← rd (row LU) checkrow;
    exist ← scan checkrow checkelement check;
    if exist =? 0 then emit checkrow checkelement st else Some st.

Definition visit_outer {S} LU (scan : Z → Z → Z → option Z)
    (emit : Z → Z → S → option S) (r start lcol1 : Z) (st : S) : option S :=
  c ← rd (col LU) lcol1;
  if c =? r then Some st
  else chain_iter (chain_fuel LU) (llist LU)
         (visit_inner LU scan emit lcol1) start st.

Definition visit_row {S} LU (scan : Z → Z → Z → option Z)
    (emit : Z → Z → S → option S) (r : Z) (st : S) : option S :=
  start ← rd (row LU) r;
  _ ← rd (row LU) (r + 1);
  chain_iter (chain_fuel LU) (llist LU)
    (visit_outer LU scan emit r start) start st.

(** First pass: [numadd[ row+1 ]++]. *)
Definition count_emit (r : Z) (checkrow checkelement : Z) (numadd : list Z)
  : option (list Z) :=
  n ← rd numadd (r + 1);
  wr numadd (r + 1) (n + 1).

Fixpoint count_rows (n : nat) (r : Z) LU (numadd : list Z)
  : option (list Z) :=
  match n with
  | O => Some numadd
  | S n' =>
    numadd' ← visit_row LU (scan_count LU) (count_emit r) r numadd;
    count_rows n' (r + 1) LU numadd'
  end.

(** [LU_new->nnz += numadd[i]; numadd[i] = LU_new->nnz;] for [n] entries
    from [i] on; the result is [numadd] and [LU_new->nnz]. *)
Fixpoint prefix_sum (n : nat) (i : Z) (numadd : list Z) (total : Z)
  : option (list Z * Z) :=
  match n with
  | O => Some (numadd, total)
  | S n' =>
    a ← rd numadd i;
    numadd' ← wr numadd i (total + a);
    prefix_sum n' (i + 1) numadd' (total + a)
  end.

(** Second pass: the candidate is written at [numadd[row] + ladd]. The
    state is the arrays [val], [rowidx] and [col] of [LU_new] and
    [ladd]. *)
Definition insert_emit (numadd : list Z) (r : Z) (checkrow checkelement : Z)
    (st : list V * list Z * list Z * Z) : option (list V * list Z * list Z * Z) :=
  let '(v, ri, cl, ladd) := st in
  off ← rd numadd r;
  v' ← wr v (off + ladd) zero;
  ri' ← wr ri (off + ladd) checkrow;
  cl' ← wr cl (off + ladd) checkelement;
  Some (v', ri', cl', ladd + 1).

Fixpoint insert_rows (n : nat) (r : Z) LU (numadd : list Z)
    (st : list V * list Z * list Z) : option (list V * list Z * list Z) :=
  match n with
  | O => Some st
  | S n' =>
    let '(v, ri, cl) := st in
    '(v', ri', cl', _) ←
      visit_row LU (scan_insert LU) (insert_emit numadd r) r (v, ri, cl, 0);
    insert_rows n' (r + 1) LU numadd (v', ri', cl')
  end.

(** The result is the status and [LU_new]. *)
Definition magma_zmdynamicic_candidates_n LU LU_new
  : option (Z * magma_z_matrix V) :=
  let n := Z.to_nat (num_rows LU) in
  let LU_new0 :=
    Matrix (num_rows LU_new) (num_cols LU_new) 0 (row LU_new)
      (rowidx LU_new) (col LU_new) (llist LU_new) (val LU_new) in
  let info := magma_index_malloc_cpu (num_rows LU + 1) in
  if negb (info =? 0) then Some (info, LU_new0)
  else
    let numadd := replicate (S n) 0 in
    numadd ← count_rows n 0 LU numadd;
    '(numadd, total) ← prefix_sum (S n) 0 numadd 0;
    let LU_new1 :=
      Matrix (num_rows LU_new) (num_cols LU_new) total (row LU_new)
        (rowidx LU_new) (col LU_new) (llist LU_new) (val LU_new) in
    let info := magma_zmalloc_cpu total in
    if negb (info =? 0) then Some (info, LU_new1)
    else
      let v := replicate (Z.to_nat total) zero in
      let info := magma_index_malloc_cpu total in
      if negb (info =? 0) then Some (info, set_val LU_new1 v)
      else
        let ri := replicate (Z.to_nat total) 0 in
        let info := magma_index_malloc_cpu total in
        if negb (info =? 0)
        then Some (info, set_rowidx (set_val LU_new1 v) ri)
        else
          let cl := replicate (Z.to_nat total) 0 in
          '(v', ri', cl') ← insert_rows n 0 LU numadd (v, ri, cl);
          Some (0, Matrix (num_rows LU) (num_cols LU) total (row LU_new)
                     ri' cl' (llist LU_new) v').

End Candidates.

(** ** The loops over a row as folds over its chain *)

Fixpoint fold_opt {S X : Type} (f : X → S → option S) (l : list X) (st : S)
  : option S :=
  match l with
  | [] => Some st
  | x :: l' => st' ← f x st; fold_opt f l' st'
  end.

Lemma fold_opt_app {S X} (f : X → S → option S) l1 l2 st :
  fold_opt f (l1 ++ l2) st = fold_opt f l1 st ≫= fold_opt f l2.
Proof.
  revert st. induction l1 as [|x l1 IH]; intros st; [done|]. simpl.
  destruct (f x st) as [st'|]; [|done]. apply IH.
Qed.

Lemma fold_opt_ext {S X} (f g : X → S → option S) l st :
  (∀ x st', x ∈ l → f x st' = g x st') → fold_opt f l st = fold_opt g l st.
Proof.
  revert st. induction l as [|x l IH]; intros st Hext; [done|]. simpl.
  rewrite (Hext x st) by in_list. destruct (g x st) as [st'|]; [|done].
  apply IH. intros y st'' Hy. apply Hext. in_list.
Qed.

Lemma chain_iter_fold {S} nx (body : Z → S → option S) s l :
  chain nx s l →
  ∀ fuel st, (length l < fuel)%nat →
    chain_iter fuel nx body s st = fold_opt body l st.
Proof.
  induction 1 as [|s s' l Hs Hr Hc IH]; intros fuel st Hf.
  - destruct fuel; [lia|done].
  - destruct fuel as [|fuel]; [lia|]. simpl in *.
    destruct (Z.eqb_spec s 0); [done|].
    destruct (body s st) as [st'|]; [|done]. cbn [mbind option_bind].
    rewrite Hr. cbn [mbind option_bind]. apply IH. lia.
Qed.

Section CandidateFacts.
Context {V : Type} `{Scalar V}.
Implicit Types LU : magma_z_matrix V.

(** Row [r] of the factor has an entry in column [c]. *)
Definition present LU (r c : Z) : bool :=
  existsb (λ s, get (col LU) s =? c) (row_slots LU r).

Lemma present_has_entry LU r c l :
  row_chain LU r l → present LU r c = true ↔ has_entry LU r c.
Proof.
  intros Hl. unfold present. rewrite (row_slots_chain _ _ _ Hl), existsb_exists.
  split.
  - intros (s & Hs & Hc). exists l, s. split; [done|].
    split; [by apply list_elem_of_In|by apply Z.eqb_eq].
  - intros (l' & s & Hl' & Hs & Hc). rewrite (row_chain_det _ _ _ _ Hl' Hl) in Hs.
    exists s. split; [by apply list_elem_of_In|by apply Z.eqb_eq].
Qed.

(** The searches of both passes find whether the element is in the row. *)
Lemma exists_all_spec LU ce check l :
  dims LU → chain (llist LU) check l →
  exists_all LU ce check
  = Some (if existsb (λ s, get (col LU) s =? ce) l then 1 else 0).
Proof.
  intros Hd Hc. unfold exists_all.
  rewrite (chain_iter_fold _ _ _ _ Hc) by (by eapply chain_length).
  pose proof (chain_range _ _ _ Hc) as Hrg. clear Hc.
  assert (Hgen : ∀ ex0, fold_opt (λ check exist,
                   c ← rd (col LU) check; Some (if c =? ce then 1 else exist))
                   l ex0
                 = Some (if existsb (λ s, get (col LU) s =? ce) l then 1 else ex0)).
  { induction l as [|s l IH]; intros ex0; [done|].
    apply Forall_cons in Hrg as [Hs Hrg]. simpl.
    rewrite (get_rd (col LU) s) by (destruct Hd; lia). cbn [mbind option_bind].
    rewrite IH by done. by destruct (get (col LU) s =? ce), (existsb _ l). }
  apply Hgen.
Qed.

Lemma exists_break_spec LU ce check l :
  dims LU → chain (llist LU) check l →
  ∀ fuel, (length l < fuel)%nat →
    exists_break fuel LU ce check
    = Some (if existsb (λ s, get (col LU) s =? ce) l then 1 else 0).
Proof.
  intros Hd. induction 1 as [|s s' l Hs Hr Hc IH]; intros fuel Hf.
  - destruct fuel; [lia|done].
  - destruct fuel as [|fuel]; [lia|]. simpl in *.
    destruct (Z.eqb_spec s 0); [done|].
    pose proof (rd_Some_range _ _ _ Hr).
    rewrite (get_rd (col LU) s) by (destruct Hd; lia). cbn [mbind option_bind].
    destruct (get (col LU) s =? ce); [done|]. simpl. rewrite Hr.
    cbn [mbind option_bind]. apply IH. lia.
Qed.

(** What a search has to deliver. *)
Definition scan_ok LU (scan : Z → Z → Z → option Z) : Prop :=
  ∀ cr ce check, is_row LU cr → rd (row LU) cr = Some check →
    scan cr ce check = Some (if present LU cr ce then 1 else 0).

Lemma scan_count_ok LU : dims LU → I1 LU → scan_ok LU (scan_count LU).
Proof.
  intros Hd H1 cr ce check Hcr Hcheck. unfold scan_count.
  destruct (rd_is_Some (row LU) (cr + 1)) as [x Hx].
  { unfold is_row in Hcr. destruct Hd. lia. }
  rewrite Hx. cbn [mbind option_bind].
  destruct (H1 cr Hcr) as [l Hl]. pose proof Hl as (s & Hs & Hc).
  rewrite Hcheck in Hs. injection Hs as <-.
  rewrite (exists_all_spec LU ce check l Hd Hc).
  unfold present. by rewrite (row_slots_chain _ _ _ Hl).
Qed.

Lemma scan_insert_ok LU : dims LU → I1 LU → scan_ok LU (scan_insert LU).
Proof.
  intros Hd H1 cr ce check Hcr Hcheck. unfold scan_insert.
  destruct (H1 cr Hcr) as [l Hl]. pose proof Hl as (s & Hs & Hc).
  rewrite Hcheck in Hs. injection Hs as <-.
  rewrite (exists_break_spec LU ce check l Hd Hc)
    by (by eapply chain_length).
  unfold present. by rewrite (row_slots_chain _ _ _ Hl).
Qed.

(** The slots [a], [b] of a row give a candidate at
    [(col a, col b)] when [col b < col a] and row [col a] has no entry in
    column [col b]. *)
Definition is_cand LU (a b : Z) : bool :=
  (get (col LU) b <? get (col LU) a) &&
  negb (present LU (get (col LU) a) (get (col LU) b)).

Fixpoint inner_cands LU (a : Z) (l : list Z) : list (Z * Z) :=
  match l with
  | [] => []
  | b :: l' =>
    if is_cand LU a b
    then (get (col LU) a, get (col LU) b) :: inner_cands LU a l'
    else inner_cands LU a l'
  end.

Fixpoint outer_cands LU (r : Z) (whole l : list Z) : list (Z * Z) :=
  match l with
  | [] => []
  | a :: l' =>
    (if get (col LU) a =? r then [] else inner_cands LU a whole)
    ++ outer_cands LU r whole l'
  end.

(** The candidates that row [r] gives, in the order of the loops. *)
Definition row_cands LU (r : Z) : list (Z * Z) :=
  outer_cands LU r (row_slots LU r) (row_slots LU r).

Lemma inner_cands_elem LU a l p :
  p ∈ inner_cands LU a l →
  ∃ b, b ∈ l ∧ p = (get (col LU) a, get (col LU) b) ∧ is_cand LU a b = true.
Proof.
  induction l as [|b l IH]; [by intros ?%elem_of_nil|]. simpl.
  destruct (is_cand LU a b) eqn:Hab.
  - intros [->|Hp]%elem_of_cons.
    + exists b. split; [in_list|done].
    + destruct (IH Hp) as (b' & Hb' & Heq). exists b'. split; [in_list|done].
  - intros Hp. destruct (IH Hp) as (b' & Hb' & Heq). exists b'.
    split; [in_list|done].
Qed.

Lemma outer_cands_elem LU r whole l p :
  p ∈ outer_cands LU r whole l →
  ∃ a b, a ∈ l ∧ b ∈ whole ∧ get (col LU) a ≠ r ∧
         p = (get (col LU) a, get (col LU) b) ∧ is_cand LU a b = true.
Proof.
  induction l as [|a l IH]; [by intros ?%elem_of_nil|]. simpl.
  intros [Hp|Hp]%elem_of_app.
  - destruct (Z.eqb_spec (get (col LU) a) r); [by apply elem_of_nil in Hp|].
    apply inner_cands_elem in Hp as (b & Hb & Heq & Hc).
    exists a, b. split; [in_list|done].
  - destruct (IH Hp) as (a' & b & Ha' & Hrest). exists a', b.
    split; [in_list|done].
Qed.

End CandidateFacts.

Section VisitFacts.
Context {V : Type} `{Scalar V}.
Implicit Types LU : magma_z_matrix V.

Lemma slot_col_bounds LU r l e :
  I2 LU → I5 LU → Icol LU → is_row LU r → row_chain LU r l → e ∈ l →
  0 ≤ get (col LU) e ≤ r ∧ (get (col LU) e ≠ r → is_row LU (get (col LU) e)).
Proof.
  intros H2 H5 Hc Hr Hl He.
  assert (Hb : 0 ≤ get (col LU) e ≤ r).
  { split.
    - pose proof (Hc r l Hr Hl) as Hall. rewrite Forall_forall in Hall.
      by apply Hall.
    - destruct (H5 r l Hr Hl) as (l1 & d & -> & Hcd).
      apply elem_of_app in He as [He|He].
      + pose proof (H2 r _ Hr Hl) as Hs. unfold colsof in Hs.
        rewrite fmap_app in Hs.
        assert (get (col LU) e < get (col LU) d); [|lia].
        eapply (StronglySorted_app_1_elem_of Z.lt); [exact Hs| |].
        * by apply list_elem_of_fmap_2.
        * simpl. in_list.
      + apply list_elem_of_singleton in He as ->. lia. }
  split; [done|]. unfold is_row in *. lia.
Qed.

Section Visit.
Context {S : Type}.
Variable LU : magma_z_matrix V.
Variable scan : Z → Z → Z → option Z.
Variable emit : Z → Z → S → option S.
Hypothesis Hd : dims LU.
Hypothesis Hscan : scan_ok LU scan.

Definition emit_pair (p : Z * Z) (st : S) : option S := emit p.1 p.2 st.

Lemma visit_inner_spec a b st :
  0 ≤ a < nnz LU → 0 ≤ b < nnz LU → is_row LU (get (col LU) a) →
  visit_inner LU scan emit a b st
  = if is_cand LU a b then emit (get (col LU) a) (get (col LU) b) st
    else Some st.
Proof.
  intros Ha Hb Hrow. unfold visit_inner, is_cand.
  pose proof (d_col _ Hd) as Dc.
  rewrite (get_rd (col LU) a), (get_rd (col LU) b) by lia.
  cbn [mbind option_bind].
  destruct (Z.leb_spec (get (col LU) a) (get (col LU) b)) as [Hle|Hlt].
  { by rewrite (proj2 (Z.ltb_ge _ _)) by lia. }
  rewrite (proj2 (Z.ltb_lt _ _)) by lia.
  rewrite Z.max_l, Z.min_r by lia.
  destruct (rd_is_Some (row LU) (get (col LU) a)) as [check Hcheck].
  { unfold is_row in Hrow. destruct Hd. lia. }
  rewrite Hcheck. cbn [mbind option_bind].
  rewrite (Hscan _ (get (col LU) b) check Hrow Hcheck). cbn [mbind option_bind].
  by destruct (present LU (get (col LU) a) (get (col LU) b)).
Qed.

Lemma visit_inner_fold a l st :
  0 ≤ a < nnz LU → Forall (λ b, 0 ≤ b < nnz LU) l →
  is_row LU (get (col LU) a) →
  fold_opt (visit_inner LU scan emit a) l st
  = fold_opt emit_pair (inner_cands LU a l) st.
Proof.
  intros Ha Hl Hrow. revert st. induction l as [|b l IH]; intros st; [done|].
  apply Forall_cons in Hl as [Hb Hl]. cbn [fold_opt inner_cands].
  rewrite visit_inner_spec by done.
  destruct (is_cand LU a b).
  - cbn [fold_opt].
    change (emit_pair (get (col LU) a, get (col LU) b) st)
      with (emit (get (col LU) a) (get (col LU) b) st).
    destruct (emit _ _ st) as [st'|]; [|done]. by apply IH.
  - cbn [mbind option_bind]. by apply IH.
Qed.

Lemma visit_outer_spec r start l a st :
  chain (llist LU) start l → Forall (λ b, 0 ≤ b < nnz LU) l →
  0 ≤ a < nnz LU →
  (get (col LU) a ≠ r → is_row LU (get (col LU) a)) →
  visit_outer LU scan emit r start a st
  = fold_opt emit_pair
      (if get (col LU) a =? r then [] else inner_cands LU a l) st.
Proof.
  intros Hch Hrange Ha Hrow. unfold visit_outer.
  rewrite (get_rd (col LU) a) by (destruct Hd; lia). cbn [mbind option_bind].
  destruct (Z.eqb_spec (get (col LU) a) r) as [Heq|Hne]; [done|].
  rewrite (chain_iter_fold _ _ _ _ Hch) by (by eapply chain_length).
  by rewrite visit_inner_fold by auto.
Qed.

(** The loops of row [r] perform [emit] on the candidates of the row. *)
Lemma visit_row_spec r st :
  I1 LU → I2 LU → I5 LU → Icol LU → is_row LU r →
  visit_row LU scan emit r st = fold_opt emit_pair (row_cands LU r) st.
Proof.
  intros H1 H2 H5 Hc Hr. destruct (H1 r Hr) as [l Hl].
  pose proof Hl as (start & Hstart & Hch).
  unfold visit_row, row_cands. rewrite Hstart, (row_slots_chain _ _ _ Hl).
  cbn [mbind option_bind].
  destruct (rd_is_Some (row LU) (r + 1)) as [x Hx].
  { unfold is_row in Hr. destruct Hd. lia. }
  rewrite Hx. cbn [mbind option_bind].
  rewrite (chain_iter_fold _ _ _ _ Hch) by (by eapply chain_length).
  assert (Hrange : Forall (λ b, 0 ≤ b < nnz LU) l).
  { pose proof (chain_range _ _ _ Hch) as Hrg. pose proof (d_llist _ Hd).
    eapply Forall_impl; [exact Hrg|]. simpl. intros. lia. }
  assert (Hgen : ∀ l', (∀ a, a ∈ l' → a ∈ l) → ∀ st',
            fold_opt (visit_outer LU scan emit r start) l' st'
            = fold_opt emit_pair (outer_cands LU r l l') st').
  { induction l' as [|a l' IH]; intros Hsub st'; [done|].
    cbn [fold_opt outer_cands]. rewrite fold_opt_app.
    assert (Ha : a ∈ l) by (apply Hsub; in_list).
    pose proof (proj1 (Forall_forall _ _) Hrange a Ha) as Har.
    destruct (slot_col_bounds LU r l a H2 H5 Hc Hr Hl Ha) as [_ Hrow].
    rewrite (visit_outer_spec r start l a st' Hch Hrange Har Hrow).
    destruct (fold_opt emit_pair _ st') as [st''|]; [|done].
    cbn [mbind option_bind]. apply IH. intros a' Ha'. apply Hsub. in_list. }
  by apply Hgen.
Qed.

End Visit.
End VisitFacts.

(** ** The two passes and the offsets between them *)

Section CandidatePasses.
Context {V : Type} `{Scalar V}.
Implicit Types LU : magma_z_matrix V.

(** The number of candidates of row [r], the number of candidates of the
    rows below [k], and these candidates in the order of the rows. *)
Definition cnt LU (r : Z) : Z := Z.of_nat (length (row_cands LU r)).

Fixpoint offset LU (k : nat) : Z :=
  match k with
  | O => 0
  | S k' => offset LU k' + cnt LU (Z.of_nat k')
  end.

Fixpoint all_cands LU (k : nat) : list (Z * Z) :=
  match k with
  | O => []
  | S k' => all_cands LU k' ++ row_cands LU (Z.of_nat k')
  end.

Definition offs LU (i : Z) : Z := offset LU (Z.to_nat i).

Lemma cnt_nonneg LU r : 0 ≤ cnt LU r.
Proof. unfold cnt. lia. Qed.

Lemma all_cands_length LU k : Z.of_nat (length (all_cands LU k)) = offset LU k.
Proof.
  induction k as [|k IH]; [done|]. simpl. rewrite length_app. unfold cnt. lia.
Qed.

Lemma offs_succ LU i : 0 ≤ i → offs LU (i + 1) = offs LU i + cnt LU i.
Proof.
  intros Hi. unfold offs. replace (Z.to_nat (i + 1)) with (S (Z.to_nat i)) by lia.
  simpl. by rewrite Z2Nat.id by lia.
Qed.

Lemma offset_mono LU k1 k2 : (k1 ≤ k2)%nat → offset LU k1 ≤ offset LU k2.
Proof.
  induction 1 as [|k2 Hle IH]; [lia|]. simpl. pose proof (cnt_nonneg LU (Z.of_nat k2)). lia.
Qed.

Lemma offs_mono LU i j : i ≤ j → offs LU i ≤ offs LU j.
Proof. intros Hij. apply offset_mono. lia. Qed.

Lemma offs_nonneg LU i : 0 ≤ offs LU i.
Proof. apply (offset_mono LU 0). lia. Qed.

(** The first pass on the candidates of one row. *)
Lemma count_emit_fold r cands : ∀ numadd n0,
  rd numadd (r + 1) = Some n0 →
  ∃ numadd',
    fold_opt (emit_pair (count_emit r)) cands numadd = Some numadd' ∧
    length numadd' = length numadd ∧
    rd numadd' (r + 1) = Some (n0 + Z.of_nat (length cands)) ∧
    ∀ j, j ≠ r + 1 → rd numadd' j = rd numadd j.
Proof.
  induction cands as [|p cands IH]; intros numadd n0 Hn.
  - exists numadd. simpl. rewrite Z.add_0_r. done.
  - cbn [fold_opt]. pose proof (rd_Some_range _ _ _ Hn) as Hrg.
    assert (He : emit_pair (count_emit r) p numadd
                 = Some (<[Z.to_nat (r + 1) := n0 + 1]> numadd)).
    { unfold emit_pair, count_emit. rewrite Hn. cbn [mbind option_bind].
      by apply wr_Some. }
    rewrite He. cbn [mbind option_bind].
    assert (Hw : wr numadd (r + 1) (n0 + 1)
                 = Some (<[Z.to_nat (r + 1) := n0 + 1]> numadd))
      by (by apply wr_Some).
    destruct (IH _ (n0 + 1) (rd_wr_eq _ _ _ _ Hw)) as (numadd' & Hf & Hlen & Hr & Hfr).
    exists numadd'. split; [exact Hf|]. split.
    { by rewrite Hlen, length_insert. }
    split.
    { rewrite Hr. f_equal. simpl length. lia. }
    intros j Hj. rewrite (Hfr j Hj). by apply (rd_wr_ne _ _ _ _ _ Hw).
Qed.

Section Passes.
Variable LU : magma_z_matrix V.
Hypothesis Hd : dims LU.
Hypothesis H1 : I1 LU.
Hypothesis H2 : I2 LU.
Hypothesis H5 : I5 LU.
Hypothesis Hc : Icol LU.

(** The first pass over the rows [r, r + n). *)
Lemma count_rows_spec n : ∀ r numadd,
  0 ≤ r → r + Z.of_nat n ≤ num_rows LU →
  Z.of_nat (length numadd) = num_rows LU + 1 →
  ∃ numadd',
    count_rows n r LU numadd = Some numadd' ∧
    length numadd' = length numadd ∧
    ∀ j, rd numadd' j
         = if decide (r < j ≤ r + Z.of_nat n)
           then (λ x, x + cnt LU (j - 1)) <$> rd numadd j
           else rd numadd j.
Proof.
  induction n as [|n IH]; intros r numadd Hr Hn Hlen.
  - exists numadd. split; [done|]. split; [done|]. intros j.
    by rewrite decide_False by lia.
  - cbn [count_rows].
    assert (Hrow : is_row LU r) by (unfold is_row; lia).
    rewrite (visit_row_spec LU (scan_count LU) (count_emit r) Hd
               (scan_count_ok LU Hd H1) r numadd H1 H2 H5 Hc Hrow).
    destruct (rd_is_Some numadd (r + 1)) as [n0 Hn0]; [lia|].
    destruct (count_emit_fold r (row_cands LU r) numadd n0 Hn0)
      as (numadd1 & Hf & Hlen1 & Hr1 & Hfr1).
    rewrite Hf. cbn [mbind option_bind].
    destruct (IH (r + 1) numadd1) as (numadd' & Hcr & Hlen' & Hrd);
      [lia|lia|lia|].
    exists numadd'. split; [exact Hcr|]. split; [congruence|].
    intros j. rewrite Hrd.
    destruct (decide (j = r + 1)) as [->|Hne].
    + rewrite decide_False by lia. rewrite decide_True by lia.
      rewrite Hr1, Hn0. simpl. f_equal. unfold cnt.
      replace (r + 1 - 1) with r by lia. done.
    + rewrite (Hfr1 j Hne).
      destruct (decide (r + 1 < j ≤ r + 1 + Z.of_nat n)).
      * by rewrite decide_True by lia.
      * by rewrite decide_False by lia.
Qed.

(** The running sum over [n] entries from [i] on. *)
Lemma prefix_sum_spec n : ∀ i numadd total,
  0 ≤ i → i + Z.of_nat n ≤ Z.of_nat (length numadd) →
  (∀ j, i ≤ j < i + Z.of_nat n →
        rd numadd j = Some (offs LU j - offs LU (j - 1))) →
  total = offs LU (i - 1) →
  ∃ numadd',
    prefix_sum n i numadd total
      = Some (numadd', offs LU (i + Z.of_nat n - 1)) ∧
    length numadd' = length numadd ∧
    (∀ j, i ≤ j < i + Z.of_nat n → rd numadd' j = Some (offs LU j)) ∧
    (∀ j, ¬ (i ≤ j < i + Z.of_nat n) → rd numadd' j = rd numadd j).
Proof.
  induction n as [|n IH]; intros i numadd total Hi Hn Hrd ->.
  - exists numadd. replace (i + Z.of_nat 0 - 1) with (i - 1) by lia.
    split; [done|]. split; [done|]. split; [intros; lia|done].
  - cbn [prefix_sum]. rewrite (Hrd i) by lia. cbn [mbind option_bind].
    replace (offs LU (i - 1) + (offs LU i - offs LU (i - 1))) with (offs LU i)
      by lia.
    assert (Hw : wr numadd i (offs LU i)
                 = Some (<[Z.to_nat i := offs LU i]> numadd))
      by (apply wr_Some; lia).
    rewrite Hw. cbn [mbind option_bind].
    destruct (IH (i + 1) (<[Z.to_nat i := offs LU i]> numadd) (offs LU i))
      as (numadd' & Hp & Hlen & Hin & Hout).
    + lia.
    + rewrite length_insert. lia.
    + intros j Hj. rewrite (rd_wr_ne _ _ _ _ _ Hw) by lia. apply Hrd. lia.
    + f_equal. lia.
    + exists numadd'. split.
      { rewrite Hp. do 3 f_equal. lia. }
      split. { by rewrite Hlen, length_insert. }
      split.
      * intros j Hj. destruct (decide (j = i)) as [->|Hne].
        -- rewrite Hout by lia. by apply (rd_wr_eq _ _ _ _ Hw).
        -- apply Hin. lia.
      * intros j Hj. rewrite Hout by lia. apply (rd_wr_ne _ _ _ _ _ Hw). lia.
Qed.

(** The second pass on the candidates of one row: they are written one
    after the other from [numadd[r]] on. *)
Lemma insert_emit_fold numadd r off cands : ∀ (v : list V) ri cl ladd,
  rd numadd r = Some off → 0 ≤ off + ladd →
  off + ladd + Z.of_nat (length cands) ≤ Z.of_nat (length v) →
  off + ladd + Z.of_nat (length cands) ≤ Z.of_nat (length ri) →
  off + ladd + Z.of_nat (length cands) ≤ Z.of_nat (length cl) →
  ∃ v' ri' cl',
    fold_opt (emit_pair (insert_emit numadd r)) cands (v, ri, cl, ladd)
      = Some (v', ri', cl', ladd + Z.of_nat (length cands)) ∧
    length v' = length v ∧ length ri' = length ri ∧ length cl' = length cl ∧
    take (Z.to_nat (off + ladd + Z.of_nat (length cands))) ri'
      = take (Z.to_nat (off + ladd)) ri ++ cands.*1 ∧
    take (Z.to_nat (off + ladd + Z.of_nat (length cands))) cl'
      = take (Z.to_nat (off + ladd)) cl ++ cands.*2.
Proof.
  induction cands as [|p cands IH]; intros v ri cl ladd Hoff Hlo Hv Hri Hcl.
  - exists v, ri, cl. simpl. rewrite !Z.add_0_r, !app_nil_r. done.
  - cbn [fold_opt]. simpl length in Hv, Hri, Hcl.
    destruct (wr v (off + ladd) zero) as [v1|] eqn:Hw1;
      [|rewrite wr_Some in Hw1 by lia; done].
    destruct (wr ri (off + ladd) p.1) as [ri1|] eqn:Hw2;
      [|rewrite wr_Some in Hw2 by lia; done].
    destruct (wr cl (off + ladd) p.2) as [cl1|] eqn:Hw3;
      [|rewrite wr_Some in Hw3 by lia; done].
    assert (He : emit_pair (insert_emit numadd r) p (v, ri, cl, ladd)
                 = Some (v1, ri1, cl1, ladd + 1)).
    { unfold emit_pair, insert_emit. rewrite Hoff. cbn [mbind option_bind].
      rewrite Hw1. cbn [mbind option_bind]. rewrite Hw2.
      cbn [mbind option_bind]. by rewrite Hw3. }
    rewrite He. cbn [mbind option_bind].
    pose proof (wr_length _ _ _ _ Hw1) as L1.
    pose proof (wr_length _ _ _ _ Hw2) as L2.
    pose proof (wr_length _ _ _ _ Hw3) as L3.
    destruct (IH v1 ri1 cl1 (ladd + 1)) as (v' & ri' & cl' & Hf & E1 & E2 & E3 & T1 & T2);
      [done|lia|lia|lia|lia|].
    exists v', ri', cl'. split.
    { rewrite Hf. do 2 f_equal. simpl length. lia. }
    split; [congruence|]. split; [congruence|]. split; [congruence|].
    pose proof (take_write ri ri1 (off + ladd) p.1 Hlo Hw2) as W2.
    pose proof (take_write cl cl1 (off + ladd) p.2 Hlo Hw3) as W3.
    replace (off + ladd + Z.of_nat (length (p :: cands)))
      with (off + (ladd + 1) + Z.of_nat (length cands)) by (simpl length; lia).
    replace (off + (ladd + 1)) with (off + ladd + 1) in T1, T2 |- * by lia.
    rewrite T1, T2, W2, W3, !fmap_cons, <- !app_assoc. done.
Qed.

(** The second pass over the rows [r, r + n), with the offsets in
    [numadd] and arrays of the size of all the candidates. *)
Lemma insert_rows_spec numadd n : ∀ r (v : list V) ri cl,
  0 ≤ r → r + Z.of_nat n ≤ num_rows LU →
  (∀ j, 0 ≤ j ≤ num_rows LU → rd numadd j = Some (offs LU j)) →
  offs LU (num_rows LU) ≤ Z.of_nat (length v) →
  offs LU (num_rows LU) ≤ Z.of_nat (length ri) →
  offs LU (num_rows LU) ≤ Z.of_nat (length cl) →
  take (Z.to_nat (offs LU r)) ri = (all_cands LU (Z.to_nat r)).*1 →
  take (Z.to_nat (offs LU r)) cl = (all_cands LU (Z.to_nat r)).*2 →
  ∃ v' ri' cl',
    insert_rows n r LU numadd (v, ri, cl) = Some (v', ri', cl') ∧
    length v' = length v ∧ length ri' = length ri ∧ length cl' = length cl ∧
    take (Z.to_nat (offs LU (r + Z.of_nat n))) ri'
      = (all_cands LU (Z.to_nat (r + Z.of_nat n))).*1 ∧
    take (Z.to_nat (offs LU (r + Z.of_nat n))) cl'
      = (all_cands LU (Z.to_nat (r + Z.of_nat n))).*2.
Proof.
  induction n as [|n IH]; intros r v ri cl Hr Hn Hnum Lv Lri Lcl Tri Tcl.
  - exists v, ri, cl. replace (r + Z.of_nat 0) with r by lia. done.
  - cbn [insert_rows].
    assert (Hrow : is_row LU r) by (unfold is_row; lia).
    rewrite (visit_row_spec LU (scan_insert LU) (insert_emit numadd r) Hd
               (scan_insert_ok LU Hd H1) r (v, ri, cl, 0) H1 H2 H5 Hc Hrow).
    pose proof (offs_succ LU r Hr) as Hsucc. fold (cnt LU r) in *.
    pose proof (offs_mono LU (r + 1) (num_rows LU) ltac:(lia)) as Hmono.
    pose proof (offs_nonneg LU r) as Hnn.
    destruct (insert_emit_fold numadd r (offs LU r) (row_cands LU r) v ri cl 0)
      as (v1 & ri1 & cl1 & Hf & E1 & E2 & E3 & T1 & T2);
      [apply Hnum; lia|lia|unfold cnt in *; lia|unfold cnt in *; lia
      |unfold cnt in *; lia|].
    rewrite Hf. cbn [mbind option_bind].
    assert (Hall : all_cands LU (Z.to_nat (r + 1))
                   = all_cands LU (Z.to_nat r) ++ row_cands LU r).
    { replace (Z.to_nat (r + 1)) with (S (Z.to_nat r)) by lia. simpl.
      by rewrite Z2Nat.id by lia. }
    replace (offs LU r + 0 + Z.of_nat (length (row_cands LU r)))
      with (offs LU (r + 1)) in T1, T2 by (unfold cnt in *; lia).
    rewrite Z.add_0_r in T1, T2.
    destruct (IH (r + 1) v1 ri1 cl1) as (v' & ri' & cl' & Hi & F1 & F2 & F3 & U1 & U2);
      [lia|lia|done|lia|lia|lia| | |].
    + by rewrite T1, Tri, Hall, fmap_app.
    + by rewrite T2, Tcl, Hall, fmap_app.
    + exists v', ri', cl'.
      replace (r + Z.of_nat (S n)) with (r + 1 + Z.of_nat n) by lia.
      split; [exact Hi|]. split; [congruence|]. split; [congruence|].
      split; [congruence|]. done.
Qed.

End Passes.
End CandidatePasses.

(** ** Claim on the candidate discovery *)

Lemma rd_replicate {X} (m : nat) (x : X) j :
  0 ≤ j < Z.of_nat m → rd (replicate m x) j = Some x.
Proof.
  intros Hj. unfold rd. destruct (Z.leb_spec 0 j); [|lia].
  apply lookup_replicate_2. lia.
Qed.

Lemma all_cands_elem {V} (LU : magma_z_matrix V) k p :
  p ∈ all_cands LU k → ∃ r, 0 ≤ r < Z.of_nat k ∧ p ∈ row_cands LU r.
Proof.
  induction k as [|k IH]; [by intros ?%elem_of_nil|]. simpl.
  intros [Hp|Hp]%elem_of_app.
  - destruct (IH Hp) as (r & Hr & Hin). exists r. split; [lia|done].
  - exists (Z.of_nat k). split; [lia|done].
Qed.

Section CandidateClaims.
Context {V : Type} `{Scalar V}.
Implicit Types LU LU_new : magma_z_matrix V.

Variable magma_index_malloc_cpu : Z → Z.
Variable magma_zmalloc_cpu : Z → Z.

(** A candidate of a row is a position below the diagonal, in a row of the
    factor that has no entry in the column of the candidate. *)
Lemma row_cands_sound LU r p :
  dims LU → I1 LU → I2 LU → I5 LU → Icol LU → is_row LU r →
  p ∈ row_cands LU r →
  p.2 < p.1 ∧ is_row LU p.1 ∧ ¬ has_entry LU p.1 p.2.
Proof.
  intros Hd H1 H2 H5 Hc Hr Hp. destruct (H1 r Hr) as [l Hl].
  unfold row_cands in Hp. rewrite (row_slots_chain _ _ _ Hl) in Hp.
  apply outer_cands_elem in Hp as (a & b & Ha & Hb & Hne & -> & Hcand).
  unfold is_cand in Hcand. apply andb_prop in Hcand as [Hlt Habs].
  apply Z.ltb_lt in Hlt. apply negb_true_iff in Habs.
  destruct (slot_col_bounds LU r l a H2 H5 Hc Hr Hl Ha) as [_ Hrow].
  specialize (Hrow Hne). simpl. split; [done|]. split; [done|].
  destruct (H1 _ Hrow) as [l' Hl']. intros Hhas.
  apply (present_has_entry LU _ _ l' Hl') in Hhas. congruence.
Qed.

(** The routine returns; when the allocations succeed the candidates that
    it stores are those of the rows, in the order of the rows. *)
Lemma candidates_n_spec LU LU_new :
  dims LU → I1 LU → I2 LU → I5 LU → Icol LU →
  ∃ info LU_new',
    magma_zmdynamicic_candidates_n magma_index_malloc_cpu magma_zmalloc_cpu
      LU LU_new = Some (info, LU_new') ∧
    (info = 0 →
       nnz LU_new' = offs LU (num_rows LU) ∧
       rowidx LU_new' = (all_cands LU (Z.to_nat (num_rows LU))).*1 ∧
       col LU_new' = (all_cands LU (Z.to_nat (num_rows LU))).*2).
Proof.
  intros Hd H1 H2 H5 Hc. pose proof (d_rows _ Hd) as Hrows.
  unfold magma_zmdynamicic_candidates_n. cbv zeta.
  destruct (magma_index_malloc_cpu (num_rows LU + 1) =? 0) eqn:M1;
    cbn [negb]; [|eexists _, _; split; [done|]; intros E; rewrite E in M1; done].
  set (n := Z.to_nat (num_rows LU)).
  destruct (count_rows_spec LU Hd H1 H2 H5 Hc n 0 (replicate (S n) 0))
    as (numadd1 & Hcount & Hlen1 & Hrd1);
    [lia|lia|rewrite length_replicate; lia|].
  rewrite Hcount. cbn [mbind option_bind].
  rewrite length_replicate in Hlen1.
  destruct (prefix_sum_spec LU (S n) 0 numadd1 0)
    as (numadd2 & Hps & Hlen2 & Hin2 & _).
  { lia. }
  { lia. }
  { intros j Hj. rewrite Hrd1. destruct (decide (0 < j ≤ 0 + Z.of_nat n)).
    - rewrite rd_replicate by lia. simpl. f_equal.
      pose proof (offs_succ LU (j - 1) ltac:(lia)) as Hs.
      replace (j - 1 + 1) with j in Hs by lia. unfold cnt in *. lia.
    - rewrite rd_replicate by lia. assert (j = 0) as -> by lia. done. }
  { done. }
  rewrite Hps. cbn [mbind option_bind].
  replace (0 + Z.of_nat (S n) - 1) with (num_rows LU) by lia.
  set (total := offs LU (num_rows LU)).
  destruct (magma_zmalloc_cpu total =? 0) eqn:M2; cbn [negb];
    [|eexists _, _; split; [done|]; intros E; rewrite E in M2; done].
  destruct (magma_index_malloc_cpu total =? 0) eqn:M3; cbn [negb];
    [|eexists _, _; split; [done|]; intros E; rewrite E in M3; done].
  pose proof (offs_nonneg LU (num_rows LU)) as Htot. fold total in Htot.
  destruct (insert_rows_spec LU Hd H1 H2 H5 Hc numadd2 n 0
              (replicate (Z.to_nat total) zero) (replicate (Z.to_nat total) 0)
              (replicate (Z.to_nat total) 0))
    as (v' & ri' & cl' & Hins & Lv & Lri & Lcl & Tri & Tcl);
    [lia|lia| |rewrite length_replicate; fold total; lia
    |rewrite length_replicate; fold total; lia
    |rewrite length_replicate; fold total; lia|done|done|].
  { intros j Hj. apply Hin2. lia. }
  rewrite Hins. cbn [mbind option_bind].
  eexists _, _. split; [done|]. intros _. cbn [nnz rowidx col].
  replace (0 + Z.of_nat n) with (num_rows LU) in Tri, Tcl by lia.
  fold total in Tri, Tcl. fold n.
  rewrite length_replicate in Lri, Lcl.
  rewrite take_ge in Tri by lia. rewrite take_ge in Tcl by lia. done.
Qed.

(** C8. [magma_zmdynamicic_candidates_n] returns on a factor that satisfies
    (I1), (I2) and (I5), and when its allocations succeed every candidate
    [(r, c)] that it stores in [LU_new] has [c < r], and row [r] of the
    factor has no entry in column [c]. *)
Theorem candidates_n_sound LU LU_new :
  dims LU → I1 LU → I2 LU → I5 LU → Icol LU →
  ∃ info LU_new',
    magma_zmdynamicic_candidates_n magma_index_malloc_cpu magma_zmalloc_cpu
      LU LU_new = Some (info, LU_new') ∧
    (info = 0 →
       ∀ k, 0 ≤ k < nnz LU_new' →
         ∃ r c, rd (rowidx LU_new') k = Some r ∧ rd (col LU_new') k = Some c ∧
                c < r ∧ is_row LU r ∧ ¬ has_entry LU r c).
Proof.
  intros Hd H1 H2 H5 Hc.
  destruct (candidates_n_spec LU LU_new Hd H1 H2 H5 Hc)
    as (info & LU_new' & Hrun & Hres).
  exists info, LU_new'. split; [exact Hrun|]. intros Hinfo k Hk.
  destruct (Hres Hinfo) as (Hnnz & Hri & Hcl).
  set (cands := all_cands LU (Z.to_nat (num_rows LU))) in *.
  assert (Hlen : Z.of_nat (length cands) = nnz LU_new').
  { rewrite Hnnz. apply all_cands_length. }
  destruct (lookup_lt_is_Some_2 cands (Z.to_nat k)) as [p Hp]; [lia|].
  exists p.1, p.2. unfold rd. destruct (Z.leb_spec 0 k); [|lia].
  rewrite Hri, Hcl, !list_lookup_fmap, Hp. split; [done|]. split; [done|].
  assert (Hin : p ∈ cands) by (by eapply list_elem_of_lookup_2).
  apply all_cands_elem in Hin as (r & Hr & Hin).
  apply (row_cands_sound LU r p Hd H1 H2 H5 Hc); [|done].
  pose proof (d_rows _ Hd). unfold is_row. lia.
Qed.

End CandidateClaims.

(** On the factor [ex_LU4], whose last row has the columns [0] to [3] and
    whose other rows have the diagonal only, the candidates are [(1,0)],
    [(2,0)] and [(2,1)]. *)
Example candidates_n_example :
  magma_zmdynamicic_candidates_n alloc_ok alloc_ok ex_LU4 ex_LU4
  = Some (0, Matrix 4 4 3 [1; 2; 3; 4; 0] [1; 2; 2] [0; 0; 1]
               [-1; 0; 0; 0; 5; 6; 7; 0; -1] [0; 0; 0]).
Proof. reflexivity. Qed.

Lemma candidates_n_sound_witness :
  ∃ info LU_new',
    magma_zmdynamicic_candidates_n alloc_ok alloc_ok ex_LU4 ex_LU4
      = Some (info, LU_new') ∧
    (info = 0 →
       ∀ k, 0 ≤ k < nnz LU_new' →
         ∃ r c, rd (rowidx LU_new') k = Some r ∧ rd (col LU_new') k = Some c ∧
                c < r ∧ is_row ex_LU4 r ∧ ¬ has_entry ex_LU4 r c).
Proof.
  apply (candidates_n_sound alloc_ok alloc_ok ex_LU4 ex_LU4);
    apply ex_LU4_wf.
Defined.

(** ** The insertion loops of [magma_zmdynamicic_candidates] *)

(** The first variant of the candidate discovery is not valid C++ as it
    stands: its first pass uses [checkcol] without a declaration, and its
    prefix sum uses [row] outside of the loops that declare it. The loops
    of its second pass over one row are well formed on their own. They are
    embedded here, with what they do with a candidate, [emit], as an
    argument. *)

Section CandidatePairs.
Context {V : Type} `{Scalar V}.
Implicit Types LU : magma_z_matrix V.

(** [while( checkcol <= checkelement && check!=0 )]: the search in the
    row, which stops behind the column of the element. *)
Fixpoint exists_upto (fuel : nat) LU (checkelement check checkcol : Z)
  : option Z :=
  match fuel with
  | O => None
  | S fuel' =>
    if (checkcol <=? checkelement) && negb (check =? 0) then
      c ← rd (col LU) check;
      if c =? checkelement then Some 1
      else
        check' ← rd (llist LU) check;
        checkcol' ← rd (col LU) check';
        exists_upto fuel' LU checkelement check' checkcol'
    else Some 0
  end.

(** [while( lcol2 != lcol1 )]. *)
Fixpoint pair_inner {St} (fuel : nat) LU (emit : Z → Z → St → option St)
    (lcol1 lcol2 : Z) (st : St) : option St :=
  match fuel with
  | O => None
  | S fuel' =>
    if lcol2 =? lcol1 then Some st
    else
      col1 ← rd (col LU) lcol1;
      col2 ← rd (col LU) lcol2;
      check ← rd (row LU) col1;
      checkcol ← rd (col LU) check;
      exist ← exists_upto (chain_fuel LU) LU col2 check checkcol;
      st' ← (if exist =? 0 then emit col1 col2 st else Some st);
      lcol2' ← rd (llist LU) lcol2;
      pair_inner fuel' LU emit lcol1 lcol2' st'
  end.

(** [while( LU.list[lcol1] != 0 )]. *)
Fixpoint pair_outer {St} (fuel : nat) LU (emit : Z → Z → St → option St)
    (start lcol1 : Z) (st : St) : option St :=
  match fuel with
  | O => None
  | S fuel' =>
    nx ← rd (llist LU) lcol1;
    if nx =? 0 then Some st
    else
      st' ← pair_inner (chain_fuel LU) LU emit lcol1 start st;
      pair_outer fuel' LU emit start nx st'
  end.

Definition pair_row {St} LU (emit : Z → Z → St → option St) (r : Z) (st : St)
  : option St :=
  start ← rd (row LU) r;
  pair_outer (chain_fuel LU) LU emit start start st.

(** The pairs that the loops emit: a slot [a] of the row with each slot
    [b] before it, when row [col a] has no entry in column [col b]. *)
Fixpoint absent_cands LU (a : Z) (l : list Z) : list (Z * Z) :=
  match l with
  | [] => []
  | b :: l' =>
    if present LU (get (col LU) a) (get (col LU) b)
    then absent_cands LU a l'
    else (get (col LU) a, get (col LU) b) :: absent_cands LU a l'
  end.

Fixpoint pair_cands LU (pre l : list Z) : list (Z * Z) :=
  match l with
  | [] => []
  | a :: l' => absent_cands LU a pre ++ pair_cands LU (pre ++ [a]) l'
  end.

Lemma chain_start_range nx s l :
  (0 < length nx)%nat → chain nx s l → 0 ≤ s < Z.of_nat (length nx).
Proof.
  intros Hn. inversion 1 as [|? s' l' Hs Hr Hc]; subst; [lia|].
  by apply rd_Some_range in Hr.
Qed.

Lemma exists_upto_spec LU ce check l :
  dims LU → chain (llist LU) check l → StronglySorted Z.lt (colsof LU l) →
  ∀ fuel, (length l < fuel)%nat →
    exists_upto fuel LU ce check (get (col LU) check)
    = Some (if existsb (λ s, get (col LU) s =? ce) l then 1 else 0).
Proof.
  intros Hd. induction 1 as [|s s' l Hs Hr Hch IH]; intros Hsort fuel Hf.
  - destruct fuel; [lia|]. simpl. by rewrite andb_false_r.
  - destruct fuel as [|fuel]; [simpl in Hf; lia|].
    cbn [exists_upto existsb].
    destruct (Z.eqb_spec s 0); [done|]. cbn [negb]. rewrite andb_true_r.
    pose proof (rd_Some_range _ _ _ Hr) as Hrg.
    destruct (Z.leb_spec (get (col LU) s) ce) as [Hle|Hgt].
    + rewrite (get_rd (col LU) s) by (destruct Hd; lia).
      cbn [mbind option_bind].
      destruct (get (col LU) s =? ce); [done|]. rewrite Hr.
      cbn [mbind option_bind orb].
      assert (Hs' : 0 ≤ s' < Z.of_nat (length (llist LU))).
      { apply (chain_start_range _ _ l); [lia|done]. }
      rewrite (get_rd (col LU) s') by (destruct Hd; lia).
      cbn [mbind option_bind]. apply IH; [by eapply sorted_tail|].
      simpl in Hf. lia.
    + destruct (Z.eqb_spec (get (col LU) s) ce); [lia|]. cbn [orb].
      destruct (existsb _ l) eqn:E; [|done].
      apply existsb_exists in E as (a & Ha & Heq).
      apply list_elem_of_In in Ha. apply Z.eqb_eq in Heq.
      pose proof (sorted_head_lt LU s l a Hsort Ha). lia.
Qed.

Section Pairs.
Context {St : Type}.
Variable LU : magma_z_matrix V.
Variable emit : Z → Z → St → option St.
Hypothesis Hd : dims LU.
Hypothesis H1 : I1 LU.
Hypothesis H2 : I2 LU.

Lemma pair_inner_spec a rest :
  0 ≤ a < nnz LU → is_row LU (get (col LU) a) →
  ∀ pre lcol2 st fuel,
    chain (llist LU) lcol2 (pre ++ a :: rest) → a ∉ pre →
    (length pre < fuel)%nat →
    pair_inner fuel LU emit a lcol2 st
    = fold_opt (emit_pair emit) (absent_cands LU a pre) st.
Proof.
  intros Ha Hrow.
  induction pre as [|b pre IH]; intros lcol2 st fuel Hch Hnin Hf.
  - destruct fuel; [simpl in Hf; lia|]. simpl in Hch.
    apply chain_head in Hch as ->. simpl. by rewrite Z.eqb_refl.
  - destruct fuel as [|fuel]; [simpl in Hf; lia|]. simpl in Hch.
    apply chain_cons_inv in Hch as (-> & Hb0 & s' & Hr & Hch).
    cbn [pair_inner absent_cands].
    destruct (Z.eqb_spec b a) as [->|Hne]; [exfalso; apply Hnin; in_list|].
    pose proof (rd_Some_range _ _ _ Hr) as Hrg.
    pose proof (d_col _ Hd) as Dc. pose proof (d_llist _ Hd) as Dl.
    pose proof (d_nnz _ Hd) as Dn.
    rewrite (get_rd (col LU) a), (get_rd (col LU) b) by lia.
    cbn [mbind option_bind].
    destruct (H1 _ Hrow) as [lc Hlc]. pose proof Hlc as (check & Hcheck & Hcc).
    rewrite Hcheck. cbn [mbind option_bind].
    assert (Hcr : 0 ≤ check < Z.of_nat (length (llist LU))).
    { apply (chain_start_range _ _ lc); [lia|done]. }
    rewrite (get_rd (col LU) check) by lia. cbn [mbind option_bind].
    rewrite (exists_upto_spec LU (get (col LU) b) check lc Hd Hcc
               (H2 _ _ Hrow Hlc)) by (by eapply chain_length).
    cbn [mbind option_bind].
    assert (Hp : present LU (get (col LU) a) (get (col LU) b)
                 = existsb (λ s, get (col LU) s =? get (col LU) b) lc).
    { unfold present. by rewrite (row_slots_chain _ _ _ Hlc). }
    rewrite <- Hp. rewrite Hr.
    assert (Hnin' : a ∉ pre) by (intros ?; apply Hnin; in_list).
    assert (Hf' : (length pre < fuel)%nat) by (simpl in Hf; lia).
    destruct (present LU (get (col LU) a) (get (col LU) b)).
    + cbn [Z.eqb mbind option_bind]. by apply IH.
    + cbn [Z.eqb fold_opt].
      change (emit_pair emit (get (col LU) a, get (col LU) b) st)
        with (emit (get (col LU) a) (get (col LU) b) st).
      destruct (emit _ _ st) as [st'|]; [|done]. cbn [mbind option_bind].
      by apply IH.
Qed.

Lemma pair_outer_spec start whole d :
  chain (llist LU) start whole →
  ∀ l1 pre lcol1 st fuel,
    whole = pre ++ l1 ++ [d] → chain (llist LU) lcol1 (l1 ++ [d]) →
    (∀ a, a ∈ l1 → is_row LU (get (col LU) a)) →
    (length l1 < fuel)%nat →
    pair_outer fuel LU emit start lcol1 st
    = fold_opt (emit_pair emit) (pair_cands LU pre l1) st.
Proof.
  intros Hwhole.
  induction l1 as [|a l1 IH]; intros pre lcol1 st fuel Heq Hch Hrows Hf.
  - destruct fuel; [simpl in Hf; lia|]. simpl in Hch.
    apply chain_cons_inv in Hch as (-> & Hd0 & s' & Hr & Hch).
    apply chain_nil_inv in Hch as ->. simpl. by rewrite Hr.
  - destruct fuel as [|fuel]; [simpl in Hf; lia|]. simpl in Hch.
    apply chain_cons_inv in Hch as (-> & Ha0 & s' & Hr & Hch).
    cbn [pair_outer pair_cands]. rewrite Hr. cbn [mbind option_bind].
    destruct (Z.eqb_spec s' 0) as [->|Hs'].
    { apply chain_zero in Hch. by destruct l1. }
    pose proof (chain_NoDup _ _ _ Hwhole) as Hnd. rewrite Heq in Hnd.
    apply NoDup_app in Hnd as (_ & Hdis & _).
    pose proof (rd_Some_range _ _ _ Hr) as Hrg. pose proof (d_llist _ Hd) as Dl.
    rewrite (pair_inner_spec a (l1 ++ [d]) ltac:(lia)
               (Hrows a ltac:(in_list)) pre start st (chain_fuel LU)).
    + rewrite fold_opt_app.
      destruct (fold_opt (emit_pair emit) (absent_cands LU a pre) st) as [st'|];
        [|done].
      cbn [mbind option_bind]. apply IH.
      * by rewrite Heq, <- app_assoc.
      * done.
      * intros a' Ha'. apply Hrows. in_list.
      * simpl in Hf. lia.
    + change (pre ++ a :: l1 ++ [d]) with (pre ++ (a :: l1) ++ [d]).
      by rewrite <- Heq.
    + intros Hin. apply (Hdis a Hin). in_list.
    + pose proof (chain_length _ _ _ Hwhole) as Hl. rewrite Heq in Hl.
      rewrite length_app in Hl. unfold chain_fuel. lia.
Qed.

End Pairs.

Lemma absent_cands_elem LU a l p :
  p ∈ absent_cands LU a l →
  ∃ b, b ∈ l ∧ p = (get (col LU) a, get (col LU) b) ∧
       present LU (get (col LU) a) (get (col LU) b) = false.
Proof.
  induction l as [|b l IH]; [by intros ?%elem_of_nil|]. simpl.
  destruct (present LU (get (col LU) a) (get (col LU) b)) eqn:Hab.
  - intros Hp. destruct (IH Hp) as (b' & Hb' & Heq). exists b'.
    split; [in_list|done].
  - intros [->|Hp]%elem_of_cons.
    + exists b. split; [in_list|done].
    + destruct (IH Hp) as (b' & Hb' & Heq). exists b'. split; [in_list|done].
Qed.

Lemma pair_cands_elem LU l1 : ∀ pre p,
  p ∈ pair_cands LU pre l1 →
  ∃ l0 a l2 b, pre ++ l1 = l0 ++ a :: l2 ∧ a ∈ l1 ∧ b ∈ l0 ∧
    p = (get (col LU) a, get (col LU) b) ∧
    present LU (get (col LU) a) (get (col LU) b) = false.
Proof.
  induction l1 as [|a l1 IH]; intros pre p; [by intros ?%elem_of_nil|].
  simpl. intros [Hp|Hp]%elem_of_app.
  - apply absent_cands_elem in Hp as (b & Hb & Heq & Habs).
    exists pre, a, l1, b. split; [done|]. split; [in_list|done].
  - destruct (IH _ _ Hp) as (l0 & a' & l2 & b & Heq & Ha' & Hrest).
    exists l0, a', l2, b. split; [by rewrite <- Heq, <- app_assoc|].
    split; [in_list|done].
Qed.

(** On a row of a factor that satisfies (I1), (I2) and (I5) the loops
    return, and what they emit are pairs [(r', c)] with [c < r'] for which
    row [r'] of the factor has no entry in column [c]. *)
Lemma pair_row_sound LU r :
  dims LU → I1 LU → I2 LU → I5 LU → Icol LU → is_row LU r →
  ∃ cands,
    (∀ St (emit : Z → Z → St → option St) st,
       pair_row LU emit r st = fold_opt (emit_pair emit) cands st) ∧
    ∀ p, p ∈ cands → p.2 < p.1 ∧ is_row LU p.1 ∧ ¬ has_entry LU p.1 p.2.
Proof.
  intros Hd H1 H2 H5 Hc Hr. destruct (H1 r Hr) as [l Hl].
  destruct (H5 r l Hr Hl) as (l' & d & -> & Hcd).
  pose proof Hl as (start & Hstart & Hch).
  pose proof (H2 r _ Hr Hl) as Hsort.
  assert (Hlt : ∀ l0 a l2 b, l' = l0 ++ a :: l2 → b ∈ l0 →
                  get (col LU) b < get (col LU) a).
  { intros l0 a l2 b -> Hb. unfold colsof in Hsort.
    rewrite <- app_assoc, fmap_app in Hsort.
    eapply (StronglySorted_app_1_elem_of Z.lt); [exact Hsort| |].
    - by apply list_elem_of_fmap_2.
    - simpl. in_list. }
  assert (Hrows : ∀ a, a ∈ l' → is_row LU (get (col LU) a)).
  { intros a Ha.
    destruct (slot_col_bounds LU r (l' ++ [d]) a H2 H5 Hc Hr Hl ltac:(in_list))
      as [_ Hrow].
    apply Hrow. unfold colsof in Hsort. rewrite fmap_app in Hsort.
    assert (get (col LU) a < get (col LU) d); [|lia].
    eapply (StronglySorted_app_1_elem_of Z.lt); [exact Hsort| |].
    - by apply list_elem_of_fmap_2.
    - simpl. in_list. }
  exists (pair_cands LU [] l'). split.
  - intros St emit st. unfold pair_row. rewrite Hstart.
    cbn [mbind option_bind].
    apply (pair_outer_spec LU emit Hd H1 H2 start (l' ++ [d]) d Hch l' []);
      [done|done|done|].
    pose proof (chain_length _ _ _ Hch) as Hlen. rewrite length_app in Hlen.
    unfold chain_fuel. simpl in Hlen. lia.
  - intros p Hp.
    apply pair_cands_elem in Hp as (l0 & a & l2 & b & Heq & Ha & Hb & -> & Habs).
    simpl in Heq. simpl. split; [by eapply Hlt|].
    split; [by apply Hrows|].
    destruct (H1 _ (Hrows a Ha)) as [lc Hlc]. intros Hhas.
    apply (present_has_entry LU _ _ lc Hlc) in Hhas. congruence.
Qed.

End CandidatePairs.

(** The loops on the last row of [ex_LU4], with an [emit] that records the
    pairs. *)
Example pair_row_example :
  pair_row ex_LU4 (λ r c st, Some (st ++ [(r, c)])) 3 []
  = Some [(1, 0); (2, 0); (2, 1)].
Proof. reflexivity. Qed.

(** ** More on the removal *)

Lemma StronglySorted_sublist (l1 l2 : list Z) :
  l1 `sublist_of` l2 → StronglySorted Z.lt l2 → StronglySorted Z.lt l1.
Proof.
  induction 1 as [|x l1 l2 Hsub IH|x l1 l2 Hsub IH]; intros Hs; [constructor|..].
  - apply StronglySorted_inv in Hs as [Hs Hall]. constructor; [by apply IH|].
    rewrite Forall_forall in Hall |- *. intros y Hy. apply Hall.
    by eapply elem_of_sublist.
  - apply StronglySorted_inv in Hs as [Hs _]. by apply IH.
Qed.

Section RemovalMore.
Context {V : Type} `{Scalar V}.
Implicit Types LU : magma_z_matrix V.

Lemma rm_keep_sublist vals thrs l : rm_keep vals thrs l `sublist_of` l.
Proof.
  induction l as [|a [|b l] IH]; [done..|].
  rewrite rm_keep_cons. destruct (below vals thrs a).
  - by apply sublist_cons.
  - by apply sublist_skip.
Qed.

(** A slot that belongs to no row. *)
Definition unlinked LU (s : Z) : Prop :=
  ∀ r l, is_row LU r → row_chain LU r l → s ∉ l.

(** The treatment of one row, with what the treatment of the next row
    relies on. *)
Lemma rm_row_next thrs r LU rm_loc count :
  rinv LU → is_row LU r → 0 ≤ count →
  count ≤ Z.of_nat (length rm_loc) → nnz LU ≤ Z.of_nat (length rm_loc) →
  NoDup (take (Z.to_nat count) rm_loc) →
  (∀ s, s ∈ take (Z.to_nat count) rm_loc → free_slot LU s) →
  ∃ l i nexti LU1 rm1 count1,
    row_chain LU r l ∧ rd (row LU) r = Some i ∧ rd (llist LU) i = Some nexti ∧
    rm_row (S (length (llist LU))) thrs r LU rm_loc count i i nexti
      = Some (LU1, rm1, count1) ∧
    row_chain LU1 r (rm_keep (val LU) thrs l) ∧
    rm_frame LU LU1 r l (rm_drop (val LU) thrs l) ∧
    rinv LU1 ∧
    (∀ r' l', r' ≠ r → is_row LU r' → row_chain LU r' l' → row_chain LU1 r' l') ∧
    0 ≤ count1 ∧ count1 ≤ Z.of_nat (length rm1) ∧
    nnz LU1 ≤ Z.of_nat (length rm1) ∧
    NoDup (take (Z.to_nat count1) rm1) ∧
    (∀ s, s ∈ take (Z.to_nat count1) rm1 → free_slot LU1 s).
Proof.
  intros Hinv Hrow Hc Hcl Hcap Hnd Hfree.
  destruct (rm_row_whole thrs r LU rm_loc count Hinv Hrow Hc Hcl Hcap Hnd Hfree)
    as (l & i & nexti & LU1 & rm1 & Hl & Hi & Hnext & Hrm & Hl1 & Hfr & Hlen1
        & Htake1).
  destruct (rm_frame_rinv LU LU1 thrs r l _ Hinv Hrow Hl Hl1 Hfr)
    as [Hinv1 Hother].
  pose proof Hl as (s0 & _ & Hch).
  assert (HDl : ∀ s, s ∈ rm_drop (val LU) thrs l → s ∈ l).
  { intros s Hs. by apply rm_drop_elem in Hs as [? _]. }
  assert (Hnd1 : NoDup (take (Z.to_nat count) rm_loc ++ rm_drop (val LU) thrs l)).
  { apply NoDup_app. split; [done|]. split.
    - intros s Hs Hs'. destruct (Hfree s Hs) as [_ Hf].
      by apply (free_not_in_chain _ _ _ s Hch), HDl.
    - apply rm_drop_NoDup. by eapply chain_NoDup. }
  assert (Hfree1 : ∀ s, free_slot LU s → free_slot LU1 s).
  { intros s [Hs Hf]. split; [by rewrite (rf_nnz _ _ _ _ _ Hfr)|].
    unfold get. rewrite (rf_llist _ _ _ _ _ Hfr); [done|].
    by apply (free_not_in_chain _ _ _ s Hch). }
  assert (HfreeD : ∀ s, s ∈ rm_drop (val LU) thrs l → free_slot LU1 s).
  { intros s Hs. split.
    - pose proof (chain_range _ _ _ Hch) as Hrg. rewrite Forall_forall in Hrg.
      apply HDl, Hrg in Hs. rewrite (rf_nnz _ _ _ _ _ Hfr).
      pose proof (d_llist _ (ri_dims _ Hinv)). lia.
    - destruct (rf_dropped _ _ _ _ _ Hfr s Hs) as [_ Hll]. by apply rd_get. }
  assert (Hbound : count + Z.of_nat (length (rm_drop (val LU) thrs l)) < nnz LU).
  { apply (NoDup_range_length _ (nnz LU)) in Hnd1.
    - rewrite length_app, length_take in Hnd1. lia.
    - apply (d_nnz _ (ri_dims _ Hinv)).
    - intros s [Hs|Hs]%elem_of_app; [by apply Hfree|].
      rewrite <- (rf_nnz _ _ _ _ _ Hfr). by apply HfreeD. }
  exists l, i, nexti, LU1, rm1, (count + Z.of_nat (length (rm_drop (val LU) thrs l))).
  do 8 (split; [done|]). split; [lia|]. split; [rewrite Hlen1; lia|].
  split; [rewrite Hlen1, (rf_nnz _ _ _ _ _ Hfr); lia|].
  rewrite Htake1. split; [done|].
  intros s [Hs|Hs]%elem_of_app; [by apply Hfree1, Hfree|by apply HfreeD].
Qed.

(** The removal writes [rowidx] nowhere and [list] only at the slots of
    the rows. *)
Lemma rm_rows_frame thrs n :
  ∀ r LU rm_loc count,
    rinv LU → 0 ≤ r → r + Z.of_nat n ≤ num_rows LU →
    0 ≤ count → count ≤ Z.of_nat (length rm_loc) →
    nnz LU ≤ Z.of_nat (length rm_loc) →
    NoDup (take (Z.to_nat count) rm_loc) →
    (∀ s, s ∈ take (Z.to_nat count) rm_loc → free_slot LU s) →
    ∀ LU' rm' count',
      rm_rows n thrs r LU rm_loc count = Some (LU', rm', count') →
      rowidx LU' = rowidx LU ∧
      ∀ s, unlinked LU s → rd (llist LU') s = rd (llist LU) s.
Proof.
  induction n as [|n IH];
    intros r LU rm_loc count Hinv Hr Hrn Hc Hcl Hcap Hnd Hfree LU' rm' count'.
  { cbn [rm_rows]. by intros [= <- _ _]. }
  assert (Hrow : is_row LU r) by (unfold is_row; lia).
  destruct (rm_row_next thrs r LU rm_loc count Hinv Hrow Hc Hcl Hcap Hnd Hfree)
    as (l & i & nexti & LU1 & rm1 & count1 & Hl & Hi & Hnext & Hrm & Hl1 & Hfr
        & Hinv1 & Hother & Hc1 & Hcl1 & Hcap1 & Hnd1 & Hfree1).
  cbn [rm_rows]. rewrite Hi. cbn [mbind option_bind]. rewrite Hnext.
  cbn [mbind option_bind]. rewrite Hrm. cbn [mbind option_bind]. intros Hrows.
  destruct (IH (r + 1) LU1 rm1 count1 Hinv1 ltac:(lia)
              ltac:(rewrite (rf_rows _ _ _ _ _ Hfr); lia) Hc1 Hcl1 Hcap1 Hnd1
              Hfree1 LU' rm' count' Hrows) as [Hri Hll].
  split; [by rewrite Hri, (rf_rowidx _ _ _ _ _ Hfr)|].
  intros s Hs. rewrite Hll.
  - apply (rf_llist _ _ _ _ _ Hfr). by apply (Hs r l).
  - intros r' l' Hr' Hl'.
    assert (Hr0 : is_row LU r').
    { unfold is_row in *. by rewrite <- (rf_rows _ _ _ _ _ Hfr). }
    destruct (Z.eq_dec r' r) as [->|Hne].
    + rewrite (row_chain_det _ _ _ _ Hl' Hl1). intros Hin%rm_keep_elem.
      by apply (Hs r l).
    + destruct (ri_I1 _ Hinv r' Hr0) as [l0 Hl0].
      rewrite (row_chain_det _ _ _ _ Hl' (Hother r' l0 Hne Hr0 Hl0)).
      by apply (Hs r' l0).
Qed.

End RemovalMore.

Section RemovalProperties.
Context {V : Type} `{Scalar V}.
Implicit Types LU : magma_z_matrix V.

Lemma rm_keep_or_drop (vals : list V) thrs l s :
  s ∈ l → s ∈ rm_keep vals thrs l ∨ s ∈ rm_drop vals thrs l.
Proof.
  induction l as [|a [|b l] IH]; [by intros ?%elem_of_nil|by left|].
  rewrite rm_keep_cons, rm_drop_cons. intros [->|Hs]%elem_of_cons.
  - destruct (below vals thrs a); [right|left]; in_list.
  - destruct (IH Hs) as [Hk|Hd]; destruct (below vals thrs a);
      [left|left|right|right]; in_list.
Qed.

Lemma rm_keep_in (vals : list V) thrs l s :
  s ∈ l → below vals thrs s = false → s ∈ rm_keep vals thrs l.
Proof.
  intros Hs Hb. destruct (rm_keep_or_drop vals thrs l s Hs) as [|Hd]; [done|].
  apply rm_drop_elem in Hd as [_ Hd]. congruence.
Qed.

(** The run of the routine with everything that the removal lemmas give. *)
Lemma rm_thrs_run thrs LU rm_loc :
  dims LU → I1 LU → I4 LU → I5 LU →
  nnz LU ≤ Z.of_nat (length rm_loc) →
  ∃ LU' rm_loc' D,
    magma_zmdynamicilu_rm_thrs thrs LU rm_loc
      = Some (0, Z.of_nat (length D), LU', rm_loc') ∧
    rm_result thrs LU LU' 0 (Z.to_nat (num_rows LU)) D ∧
    take (length D) rm_loc' = D ∧
    rowidx LU' = rowidx LU ∧
    (∀ s, unlinked LU s → rd (llist LU') s = rd (llist LU) s).
Proof.
  intros Hd H1 H4 H5 Hcap.
  destruct (rm_thrs_total thrs LU rm_loc Hd H1 H4 H5 Hcap)
    as (LU' & rm' & D & Hres & HR & Htake).
  exists LU', rm', D. do 3 (split; [done|]).
  unfold magma_zmdynamicilu_rm_thrs in Hres.
  destruct (rm_rows (Z.to_nat (num_rows LU)) thrs 0 LU rm_loc 0)
    as [[[LU1 rm1] c1]|] eqn:Hrows; [|done].
  cbn [mbind option_bind] in Hres. injection Hres as -> -> ->.
  pose proof (d_rows _ Hd).
  apply (rm_rows_frame thrs (Z.to_nat (num_rows LU)) 0 LU rm_loc 0) in Hrows;
    [done|by constructor|lia|lia|lia|lia|done|constructor
    |by intros s ?%elem_of_nil].
Qed.

(** The rows of the factor after the removal. *)
Lemma rm_result_rows thrs LU LU' D r l' :
  I1 LU → rm_result thrs LU LU' 0 (Z.to_nat (num_rows LU)) D →
  is_row LU' r → row_chain LU' r l' →
  is_row LU r ∧ ∃ l, row_chain LU r l ∧ l' = rm_keep (val LU) thrs l.
Proof.
  intros H1 HR Hr Hl'.
  assert (Hr0 : is_row LU r).
  { unfold is_row in *. by rewrite <- (rr_rows _ _ _ _ _ _ HR). }
  split; [done|]. destruct (H1 r Hr0) as [l Hl]. exists l. split; [done|].
  apply (row_chain_det _ _ _ _ Hl').
  apply (rr_in _ _ _ _ _ _ HR); [|done|done]. unfold is_row in Hr0. lia.
Qed.

Lemma rm_result_I2 thrs LU LU' D :
  I1 LU → I2 LU → rm_result thrs LU LU' 0 (Z.to_nat (num_rows LU)) D → I2 LU'.
Proof.
  intros H1 H2 HR r l' Hr Hl'.
  destruct (rm_result_rows thrs LU LU' D r l' H1 HR Hr Hl')
    as (Hr0 & l & Hl & ->).
  unfold colsof. rewrite (rr_col _ _ _ _ _ _ HR).
  apply (StronglySorted_sublist _ (get (col LU) <$> l)); [|by apply (H2 r)].
  apply fmap_sublist, rm_keep_sublist.
Qed.

Lemma rm_result_Icol thrs LU LU' D :
  I1 LU → Icol LU → rm_result thrs LU LU' 0 (Z.to_nat (num_rows LU)) D →
  Icol LU'.
Proof.
  intros H1 Hc HR r l' Hr Hl'.
  destruct (rm_result_rows thrs LU LU' D r l' H1 HR Hr Hl')
    as (Hr0 & l & Hl & ->).
  rewrite (rr_col _ _ _ _ _ _ HR). pose proof (Hc r l Hr0 Hl) as Hall.
  rewrite Forall_forall in Hall |- *. intros s Hs%rm_keep_elem. by apply Hall.
Qed.

Lemma rm_result_I6 thrs LU LU' D :
  I6 LU → rm_result thrs LU LU' 0 (Z.to_nat (num_rows LU)) D →
  (∀ s, unlinked LU s → rd (llist LU') s = rd (llist LU) s) →
  I6 LU'.
Proof.
  intros H6 HR Hll s Hs Hlive. rewrite (rr_nnz _ _ _ _ _ _ HR) in Hs.
  destruct (Z.eq_dec (get (llist LU) s) (-1)) as [Hfree|Hlinked].
  - exfalso. apply Hlive. unfold get. rewrite Hll; [done|].
    intros r l _ (s0 & _ & Hc). by eapply free_not_in_chain.
  - destruct (H6 s Hs Hlinked) as (r & l & Hr & Hl & Hin).
    assert (Hn : 0 ≤ r < 0 + Z.of_nat (Z.to_nat (num_rows LU)))
      by (unfold is_row in Hr; lia).
    destruct (rm_keep_or_drop (val LU) thrs l s Hin) as [Hk|Hdr].
    + exists r, (rm_keep (val LU) thrs l).
      split; [unfold is_row in *; by rewrite (rr_rows _ _ _ _ _ _ HR)|].
      split; [by apply (rr_in _ _ _ _ _ _ HR)|done].
    + exfalso. apply Hlive.
      assert (HsD : s ∈ D).
      { apply (rr_D _ _ _ _ _ _ HR). by exists r, l. }
      destruct (rr_dropped _ _ _ _ _ _ HR s HsD) as [_ Hm]. by apply rd_get.
Qed.

(** The removal on a well-formed factor. *)
Lemma rm_thrs_sinv thrs LU rm_loc :
  sinv LU → nnz LU ≤ Z.of_nat (length rm_loc) →
  ∃ LU' rm_loc' D,
    magma_zmdynamicilu_rm_thrs thrs LU rm_loc
      = Some (0, Z.of_nat (length D), LU', rm_loc') ∧
    rm_result thrs LU LU' 0 (Z.to_nat (num_rows LU)) D ∧
    take (length D) rm_loc' = D ∧ sinv LU'.
Proof.
  intros [Hd H1 H2 H4 H5 Hc H6] Hcap.
  destruct (rm_thrs_run thrs LU rm_loc Hd H1 H4 H5 Hcap)
    as (LU' & rm' & D & Hres & HR & Htake & Hri & Hll).
  exists LU', rm', D. do 3 (split; [done|]).
  destruct (rr_inv _ _ _ _ _ _ HR) as [Hd' H1' H4' H5'].
  constructor; try done.
  - by apply (rm_result_I2 thrs LU LU' D).
  - by apply (rm_result_Icol thrs LU LU' D).
  - by apply (rm_result_I6 thrs LU LU' D).
Qed.

(** The removal keeps the invariants of the factor. *)
Theorem rm_thrs_keeps_invariants thrs LU rm_loc :
  dims LU → I1 LU → I2 LU → I4 LU → I5 LU →
  nnz LU ≤ Z.of_nat (length rm_loc) →
  ∃ num_rm LU' rm_loc',
    magma_zmdynamicilu_rm_thrs thrs LU rm_loc
      = Some (0, num_rm, LU', rm_loc') ∧
    dims LU' ∧ I1 LU' ∧ I2 LU' ∧ I3 LU' ∧ I4 LU' ∧ I5 LU' ∧
    (Icol LU → Icol LU') ∧ (I6 LU → I6 LU').
Proof.
  intros Hd H1 H2 H4 H5 Hcap.
  destruct (rm_thrs_run thrs LU rm_loc Hd H1 H4 H5 Hcap)
    as (LU' & rm' & D & Hres & HR & Htake & Hri & Hll).
  exists (Z.of_nat (length D)), LU', rm'. split; [done|].
  destruct (rr_inv _ _ _ _ _ _ HR) as [Hd' H1' H4' H5'].
  pose proof (rm_result_I2 thrs LU LU' D H1 H2 HR) as H2'.
  do 3 (split; [done|]). split; [by apply I2_I3|]. do 2 (split; [done|]).
  split.
  - intros Hc. by apply (rm_result_Icol thrs LU LU' D).
  - intros H6. by apply (rm_result_I6 thrs LU LU' D).
Qed.

(** An entry that is not below the threshold stays where it is: in its
    row, with its column and its value; the slots of a row keep their
    order; and a slot that was free stays free. *)
Theorem rm_thrs_keeps_entries thrs LU rm_loc :
  dims LU → I1 LU → I4 LU → I5 LU →
  nnz LU ≤ Z.of_nat (length rm_loc) →
  ∃ num_rm LU' rm_loc',
    magma_zmdynamicilu_rm_thrs thrs LU rm_loc
      = Some (0, num_rm, LU', rm_loc') ∧
    (∀ r l s, is_row LU r → row_chain LU r l → s ∈ l →
       below (val LU) thrs s = false →
       (∃ l', row_chain LU' r l' ∧ s ∈ l') ∧
       rd (val LU') s = rd (val LU) s ∧
       rd (col LU') s = rd (col LU) s ∧
       rd (rowidx LU') s = rd (rowidx LU) s) ∧
    (∀ r l l', is_row LU r → row_chain LU r l → row_chain LU' r l' →
       l' `sublist_of` l) ∧
    (∀ s, free_slot LU s → free_slot LU' s).
Proof.
  intros Hd H1 H4 H5 Hcap.
  destruct (rm_thrs_run thrs LU rm_loc Hd H1 H4 H5 Hcap)
    as (LU' & rm' & D & Hres & HR & Htake & Hri & Hll).
  exists (Z.of_nat (length D)), LU', rm'. split; [done|].
  assert (Hn : ∀ r, is_row LU r → 0 ≤ r < 0 + Z.of_nat (Z.to_nat (num_rows LU))).
  { unfold is_row. lia. }
  split; [|split].
  - intros r l s Hr Hl Hs Hb. split.
    + exists (rm_keep (val LU) thrs l).
      split; [by apply (rr_in _ _ _ _ _ _ HR); [apply Hn|..]|by apply rm_keep_in].
    + rewrite (rr_col _ _ _ _ _ _ HR), Hri. split; [|done].
      apply (rr_val _ _ _ _ _ _ HR).
      intros (r2 & l2 & _ & _ & _ & Hs2)%(rr_D _ _ _ _ _ _ HR).
      apply rm_drop_elem in Hs2 as [_ Hb2]. congruence.
  - intros r l l' Hr Hl Hl'.
    rewrite (row_chain_det _ _ _ _ Hl'
               (rr_in _ _ _ _ _ _ HR r l (Hn r Hr) Hr Hl)).
    apply rm_keep_sublist.
  - apply (rr_free _ _ _ _ _ _ HR).
Qed.

(** The loop of a row in which nothing is below the threshold writes
    nothing. *)
Lemma rm_row_none thrs r LU rm_loc count :
  dims LU →
  ∀ rest i lasti nexti fuel,
    chain (llist LU) i (i :: rest) → rd (llist LU) i = Some nexti →
    rm_drop (val LU) thrs (i :: rest) = [] →
    (length rest < fuel)%nat →
    rm_row fuel thrs r LU rm_loc count i lasti nexti
    = Some (LU, rm_loc, count).
Proof.
  intros Hd rest.
  induction rest as [|x rest IH]; intros i lasti nexti fuel Hch Hnext Hdrop Hf.
  - destruct fuel; [lia|]. apply chain_cons_inv in Hch as (_ & _ & s' & Hr & Hc).
    apply chain_nil_inv in Hc as ->. rewrite Hnext in Hr. injection Hr as ->.
    done.
  - destruct fuel as [|fuel]; [lia|].
    apply chain_cons_inv in Hch as (_ & Hi0 & s' & Hr & Hc).
    rewrite Hnext in Hr. injection Hr as <-.
    pose proof (chain_cons_inv _ _ _ _ Hc) as (-> & Hx0 & x' & Hrx & _).
    cbn [rm_row]. destruct (Z.eqb_spec x 0); [done|].
    pose proof (rd_Some_range _ _ _ Hnext) as Hrg.
    destruct (rd_is_Some (val LU) i) as [vi Hvi].
    { pose proof (d_val _ Hd). pose proof (d_llist _ Hd). lia. }
    rewrite Hvi. cbn [mbind option_bind].
    rewrite rm_drop_cons in Hdrop. unfold below in Hdrop at 1.
    rewrite Hvi in Hdrop. destruct (abs_lt vi thrs); [done|].
    rewrite Hrx. cbn [mbind option_bind]. apply IH; [done|done|done|].
    simpl in Hf. lia.
Qed.

Lemma rm_rows_none thrs LU rm_loc count :
  dims LU → I1 LU → I5 LU →
  (∀ r l, is_row LU r → row_chain LU r l → rm_drop (val LU) thrs l = []) →
  ∀ n r, 0 ≤ r → r + Z.of_nat n ≤ num_rows LU →
    rm_rows n thrs r LU rm_loc count = Some (LU, rm_loc, count).
Proof.
  intros Hd H1 H5 Hnone. induction n as [|n IH]; intros r Hr Hn; [done|].
  assert (Hrow : is_row LU r) by (unfold is_row; lia).
  destruct (H1 r Hrow) as [l Hl].
  destruct (row_start LU r l H5 Hrow Hl) as (i & rest & -> & Hi & Hch).
  pose proof (chain_cons_inv _ _ _ _ Hch) as (_ & _ & nexti & Hnext & _).
  cbn [rm_rows]. rewrite Hi. cbn [mbind option_bind]. rewrite Hnext.
  cbn [mbind option_bind].
  rewrite (rm_row_none thrs r LU rm_loc count Hd rest i i nexti); try done.
  - cbn [mbind option_bind]. apply IH; lia.
  - by apply (Hnone r).
  - pose proof (chain_length _ _ _ Hch) as Hlen. simpl in Hlen. lia.
Qed.

Lemma rm_drop_nil_snoc (vals : list V) thrs l d :
  (∀ s, s ∈ l → below vals thrs s = false) →
  rm_drop vals thrs (l ++ [d]) = [].
Proof.
  intros Hl. rewrite rm_drop_snoc.
  induction l as [|a l IH]; [done|]. rewrite filter_cons.
  rewrite (Hl a) by in_list. rewrite decide_False by done.
  apply IH. intros s Hs. apply Hl. in_list.
Qed.

(** When no slot before the last one of its row is below the threshold,
    the removal returns the factor and [rm_loc] as they are, with
    [*num_rm = 0]. *)
Theorem rm_thrs_nothing_below thrs LU rm_loc :
  dims LU → I1 LU → I5 LU →
  (∀ r l d s, is_row LU r → row_chain LU r (l ++ [d]) → s ∈ l →
     below (val LU) thrs s = false) →
  magma_zmdynamicilu_rm_thrs thrs LU rm_loc = Some (0, 0, LU, rm_loc).
Proof.
  intros Hd H1 H5 Hnone. unfold magma_zmdynamicilu_rm_thrs.
  pose proof (d_rows _ Hd).
  rewrite (rm_rows_none thrs LU rm_loc 0 Hd H1 H5); [done| |lia|lia].
  intros r l Hr Hl. destruct (H5 r l Hr Hl) as (l1 & d & -> & _).
  apply rm_drop_nil_snoc. intros s Hs. by apply (Hnone r l1 d).
Qed.

(** The removal is idempotent: after a removal, a second removal with the
    same threshold finds nothing to remove and leaves the factor and the
    array it is given as they are. *)
Theorem rm_thrs_idempotent thrs LU rm_loc rm_loc2 :
  dims LU → I1 LU → I4 LU → I5 LU →
  nnz LU ≤ Z.of_nat (length rm_loc) →
  ∃ num_rm LU' rm_loc',
    magma_zmdynamicilu_rm_thrs thrs LU rm_loc
      = Some (0, num_rm, LU', rm_loc') ∧
    magma_zmdynamicilu_rm_thrs thrs LU' rm_loc2 = Some (0, 0, LU', rm_loc2).
Proof.
  intros Hd H1 H4 H5 Hcap.
  destruct (rm_thrs_run thrs LU rm_loc Hd H1 H4 H5 Hcap)
    as (LU' & rm' & D & Hres & HR & Htake & Hri & Hll).
  exists (Z.of_nat (length D)), LU', rm'. split; [done|].
  destruct (rr_inv _ _ _ _ _ _ HR) as [Hd' H1' H4' H5'].
  unfold magma_zmdynamicilu_rm_thrs. pose proof (d_rows _ Hd').
  rewrite (rm_rows_none thrs LU' rm_loc2 0 Hd' H1' H5'); [done| |lia|lia].
  intros r l' Hr Hl'.
  destruct (rm_result_rows thrs LU LU' D r l' H1 HR Hr Hl')
    as (Hr0 & l & Hl & ->).
  destruct (H5 r l Hr0 Hl) as (l1 & d & -> & _).
  rewrite rm_keep_snoc. apply rm_drop_nil_snoc.
  intros s [Hb Hs]%list_elem_of_filter. unfold below in *.
  rewrite (rr_val _ _ _ _ _ _ HR); [done|].
  intros (r2 & l2 & _ & _ & _ & Hs2)%(rr_D _ _ _ _ _ _ HR).
  apply rm_drop_elem in Hs2 as [_ Hb2]. unfold below in Hb2. congruence.
Qed.

End RemovalProperties.

(** ** The removal followed by the insertion *)

Section RemovalThenInsert.
Context {V : Type} `{Scalar V}.
Implicit Types LU LU_new : magma_z_matrix V.

Variable magma_zmorderstatistics : list V → Z → Z → Z → Z * list V * V.

(** What the removal returns is what the insertion expects: the first
    [num_rm] entries of [rm_loc] are distinct free slots. *)
Lemma rm_result_inputs thrs LU LU' D rm_loc' LU_new :
  dims LU → rm_result thrs LU LU' 0 (Z.to_nat (num_rows LU)) D →
  take (length D) rm_loc' = D →
  (∀ i, 0 ≤ i < nnz LU_new →
     ∃ r c, rd (rowidx LU_new) i = Some r ∧ rd (col LU_new) i = Some c ∧
            is_row LU r) →
  insert_inputs (Z.of_nat (length D)) rm_loc' LU_new LU'.
Proof.
  intros Hd HR Htake Hcand.
  assert (Hlk : ∀ k, 0 ≤ k < Z.of_nat (length D) →
            rd rm_loc' k = D !! Z.to_nat k).
  { intros k Hk. unfold rd. destruct (Z.leb_spec 0 k); [|lia].
    rewrite <- Htake. rewrite lookup_take_lt by lia. done. }
  constructor.
  - intros i Hi. destruct (Hcand i Hi) as (r & c & Hr & Hc & Hrow).
    exists r, c. do 2 (split; [done|]). unfold is_row in *.
    by rewrite (rr_rows _ _ _ _ _ _ HR).
  - intros k Hk. rewrite (Hlk k Hk).
    destruct (lookup_lt_is_Some_2 D (Z.to_nat k)) as [s Hs]; [lia|].
    exists s. split; [done|]. apply list_elem_of_lookup_2 in Hs.
    destruct (rr_dropped _ _ _ _ _ _ HR s Hs) as [_ Hm].
    apply (rr_D _ _ _ _ _ _ HR) in Hs as (r & l & _ & _ & (s0 & _ & Hch) & Hs).
    apply rm_drop_elem in Hs as [Hs _].
    pose proof (chain_range _ _ _ Hch) as Hrg. rewrite Forall_forall in Hrg.
    specialize (Hrg s Hs). pose proof (d_llist _ Hd).
    split; [rewrite (rr_nnz _ _ _ _ _ _ HR); lia|by apply rd_get].
  - intros k1 k2 s Hk1 Hk2. rewrite (Hlk k1 Hk1), (Hlk k2 Hk2). intros E1 E2.
    pose proof (NoDup_lookup D _ _ s (rr_NoDup _ _ _ _ _ _ HR) E1 E2). lia.
Qed.

(** The insertion can follow the removal: with the count and the slots
    that the removal returns, and candidates in rows of the factor, the
    insertion returns, the rows are again linked and sorted, and no entry
    that the removal left is lost. *)
Theorem rm_thrs_then_insert thrs tri LU rm_loc LU_new :
  dims LU → I1 LU → I2 LU → I4 LU → I5 LU →
  nnz LU ≤ Z.of_nat (length rm_loc) →
  (∀ i, 0 ≤ i < nnz LU_new →
     ∃ r c, rd (rowidx LU_new) i = Some r ∧ rd (col LU_new) i = Some c ∧
            is_row LU r) →
  ∃ num_rm LU1 rm_loc1 info LU_new' LU2,
    magma_zmdynamicilu_rm_thrs thrs LU rm_loc
      = Some (0, num_rm, LU1, rm_loc1) ∧
    magma_zmdynamicic_insert magma_zmorderstatistics tri num_rm rm_loc1
      LU_new LU1 = Some (info, LU_new', LU2) ∧
    dims LU2 ∧ I1 LU2 ∧ I2 LU2 ∧ I3 LU2 ∧
    (∀ r c, has_entry LU1 r c → has_entry LU2 r c).
Proof.
  intros Hd H1 H2 H4 H5 Hcap Hcand.
  destruct (rm_thrs_total thrs LU rm_loc Hd H1 H4 H5 Hcap)
    as (LU1 & rm1 & D & Hres & HR & Htake).
  destruct (rr_inv _ _ _ _ _ _ HR) as [Hd1 H11 H41 H51].
  pose proof (rm_result_I2 thrs LU LU1 D H1 H2 HR) as H21.
  pose proof (rm_result_inputs thrs LU LU1 D rm1 LU_new Hd HR Htake Hcand)
    as Hin.
  destruct (insert_total magma_zmorderstatistics tri (Z.of_nat (length D)) rm1
              LU_new LU1 Hd1 H11 H21 Hin)
    as (info & LU_new' & LU2 & ni & Hins & Hinv & _).
  exists (Z.of_nat (length D)), LU1, rm1, info, LU_new', LU2.
  do 2 (split; [done|]). destruct Hinv as [D2 I12 I22 _ _ _ Hmono].
  do 3 (split; [done|]). split; [by apply I2_I3|done].
Qed.

End RemovalThenInsert.

(** ** More on the insertion *)

Section InsertMore.
Context {V : Type} `{Scalar V}.
Implicit Types LU LU_new : magma_z_matrix V.

(** The loop reads the positions of the candidates only. *)
Lemma insert_loop_positions fuel num_rm rm_loc LU_new1 LU_new2 :
  nnz LU_new1 = nnz LU_new2 → rowidx LU_new1 = rowidx LU_new2 →
  col LU_new1 = col LU_new2 →
  ∀ LU i ni,
    insert_loop fuel num_rm rm_loc LU_new1 LU i ni
    = insert_loop fuel num_rm rm_loc LU_new2 LU i ni.
Proof.
  intros Hn Hr Hc. induction fuel as [|fuel IH]; intros LU i ni; [done|].
  cbn [insert_loop]. unfold insert_step. rewrite Hn, Hr, Hc.
  destruct (ni <? num_rm); [|done]. destruct (nnz LU_new2 <=? i); [done|].
  destruct (rd rm_loc ni) as [loc|]; [|done]. cbn [mbind option_bind].
  destruct (rd (rowidx LU_new2) i) as [r|]; [|done]. cbn [mbind option_bind].
  destruct (rd (col LU_new2) i) as [c|]; [|done]. cbn [mbind option_bind].
  destruct (rd (row LU) r) as [old|]; [|done]. cbn [mbind option_bind].
  destruct (rd (col LU) old) as [c0|]; [|done]. cbn [mbind option_bind].
  destruct (c <? c0).
  { destruct (prepend LU loc old r c) as [LU'|]; [|done].
    cbn [mbind option_bind]. apply IH. }
  destruct (c =? c0); [apply IH|].
  destruct (rd (llist LU) old) as [jn|]; [|done]. cbn [mbind option_bind].
  destruct (insert_walk _ LU loc r c old jn ni) as [[LU' ni']|]; [|done].
  cbn [mbind option_bind]. apply IH.
Qed.

(** A candidate that the factor holds already is left out, and no freed
    slot is used for it. *)
Lemma insert_step_present num_rm rm_loc LU_new LU0 LU i ni r c :
  insert_inputs num_rm rm_loc LU_new LU0 →
  loop_inv num_rm rm_loc LU0 LU ni →
  0 ≤ i < nnz LU_new → ni < num_rm →
  rd (rowidx LU_new) i = Some r → rd (col LU_new) i = Some c →
  has_entry LU r c →
  insert_step rm_loc LU_new LU i ni = Some (LU, ni).
Proof.
  intros Hin Hinv Hi Hni Hr Hc (l & s & Hl & Hs & Hcs).
  destruct (insert_step_inv num_rm rm_loc LU_new LU0 LU i ni Hin Hinv Hi Hni)
    as (LU' & ni' & loc & r' & c' & l0 & Hstep & _ & _ & Hr' & Hc' & Hrow & Hl0
        & Hcase & _).
  rewrite Hr in Hr'. injection Hr' as <-. rewrite Hc in Hc'. injection Hc' as <-.
  rewrite Hstep. destruct Hcase as [(-> & -> & _)|(_ & _ & Habs)]; [done|].
  exfalso. rewrite (row_chain_det _ _ _ _ Hl Hl0) in Hs.
  apply (Habs (StronglySorted_Sorted (li_I2 _ _ _ _ _ Hinv r l0 Hrow Hl0)) s Hs).
  done.
Qed.

Lemma insert_loop_present num_rm rm_loc LU_new LU :
  insert_inputs num_rm rm_loc LU_new LU →
  dims LU → I1 LU → I2 LU →
  (∀ i, 0 ≤ i < nnz LU_new →
     ∃ r c, rd (rowidx LU_new) i = Some r ∧ rd (col LU_new) i = Some c ∧
            has_entry LU r c) →
  ∀ fuel i ni, 0 ≤ i → 0 ≤ ni →
    (Z.to_nat (nnz LU_new - i) < fuel)%nat →
    ∃ i', insert_loop fuel num_rm rm_loc LU_new LU i ni = Some (LU, i', ni).
Proof.
  intros Hin Hd H1 H2 Hall. induction fuel as [|fuel IH]; intros i ni Hi Hni Hf;
    [lia|].
  cbn [insert_loop]. destruct (Z.ltb_spec ni num_rm) as [Hlt|Hge]; [|by eexists].
  destruct (Z.leb_spec (nnz LU_new) i) as [Hle|Hgt]; [by eexists|].
  destruct (Hall i ltac:(lia)) as (r & c & Hr & Hc & Hhas).
  assert (Hinv : loop_inv num_rm rm_loc LU LU ni).
  { constructor; try done. intros k Hk.
    apply (ii_free _ _ _ _ Hin). lia. }
  rewrite (insert_step_present num_rm rm_loc LU_new LU LU i ni r c Hin Hinv
             ltac:(lia) Hlt Hr Hc Hhas).
  cbn [mbind option_bind]. apply IH; lia.
Qed.

(** What the insertion has done to the factor [LU0] when [ni] freed slots
    are used: the slots [rm_loc[0]], ..., [rm_loc[ni-1]] hold candidates,
    with the value zero, and are linked in the rows of their candidates;
    the other slots have their value, row and column as before. *)
Record ins_frame (rm_loc : list Z) LU_new LU0 LU (ni : Z) : Prop := InsFrame {
  if_old : ∀ s, (∀ k, 0 ≤ k < ni → rd rm_loc k ≠ Some s) →
    rd (val LU) s = rd (val LU0) s ∧
    rd (rowidx LU) s = rd (rowidx LU0) s ∧
    get (col LU) s = get (col LU0) s;
  if_new : ∀ k, 0 ≤ k < ni →
    ∃ loc i r c l,
      rd rm_loc k = Some loc ∧ 0 ≤ i < nnz LU_new ∧
      rd (rowidx LU_new) i = Some r ∧ rd (col LU_new) i = Some c ∧
      rd (val LU) loc = Some zero ∧ rd (rowidx LU) loc = Some r ∧
      get (col LU) loc = c ∧ row_chain LU r l ∧ loc ∈ l
}.

Lemma ins_frame_init rm_loc LU_new LU : ins_frame rm_loc LU_new LU LU 0.
Proof. constructor; [done|]. intros k Hk. lia. Qed.

Lemma ins_frame_graft num_rm rm_loc LU_new LU0 LU LU' ni loc i r c :
  insert_inputs num_rm rm_loc LU_new LU0 →
  ins_frame rm_loc LU_new LU0 LU ni →
  0 ≤ ni < num_rm → rd rm_loc ni = Some loc →
  0 ≤ i < nnz LU_new →
  rd (rowidx LU_new) i = Some r → rd (col LU_new) i = Some c →
  graft_ok LU LU' loc r c →
  ins_frame rm_loc LU_new LU0 LU' (ni + 1).
Proof.
  intros Hin [Hold Hnew] Hni Hloc Hi Hr Hc Hg.
  pose proof (go_val _ _ _ _ _ Hg) as Hv.
  pose proof (go_rowidx _ _ _ _ _ Hg) as Hri.
  constructor.
  - intros s Hs.
    assert (Hne : s ≠ loc) by (intros ->; by apply (Hs ni); [lia|]).
    destruct (Hold s) as (E1 & E2 & E3); [intros k Hk; apply Hs; lia|].
    rewrite (rd_wr_ne _ _ _ _ _ Hv), (rd_wr_ne _ _ _ _ _ Hri) by done.
    by rewrite (go_col _ _ _ _ _ Hg) by done.
  - intros k Hk. destruct (Z.eq_dec k ni) as [->|Hkn].
    + destruct (go_here _ _ _ _ _ Hg) as (l' & Hl' & Hin').
      exists loc, i, r, c, l'. do 4 (split; [done|]).
      split; [by eapply rd_wr_eq|]. split; [by eapply rd_wr_eq|].
      split; [apply (go_col_loc _ _ _ _ _ Hg)|done].
    + destruct (Hnew k) as (lk & ik & rk & ck & l & Hlk & Hik & Hrk & Hck & Hvk
                            & Hrik & Hcolk & Hl & Hinl); [lia|].
      assert (Hne : lk ≠ loc).
      { intros ->. apply Hkn.
        apply (ii_distinct _ _ _ _ Hin k ni loc); [lia|lia|done|done]. }
      destruct (go_chain _ _ _ _ _ Hg rk l Hl) as (l' & Hl' & Hsub & _).
      exists lk, ik, rk, ck, l'. do 4 (split; [done|]).
      rewrite (rd_wr_ne _ _ _ _ _ Hv), (rd_wr_ne _ _ _ _ _ Hri) by done.
      do 2 (split; [done|]). split; [by rewrite (go_col _ _ _ _ _ Hg)|].
      split; [done|by apply Hsub].
Qed.

Lemma insert_loop_frame num_rm rm_loc LU_new LU0 :
  insert_inputs num_rm rm_loc LU_new LU0 →
  ∀ fuel LU i ni,
    loop_inv num_rm rm_loc LU0 LU ni → ins_frame rm_loc LU_new LU0 LU ni →
    0 ≤ i → ni ≤ num_rm →
    (Z.to_nat (nnz LU_new - i) < fuel)%nat →
    ∃ LU' i' ni',
      insert_loop fuel num_rm rm_loc LU_new LU i ni = Some (LU', i', ni') ∧
      loop_inv num_rm rm_loc LU0 LU' ni' ∧
      ins_frame rm_loc LU_new LU0 LU' ni' ∧ ni' ≤ num_rm.
Proof.
  intros Hin fuel.
  induction fuel as [|fuel IH]; intros LU i ni Hinv Hfr Hi Hle Hf; [lia|].
  cbn [insert_loop]. destruct (Z.ltb_spec ni num_rm) as [Hlt|Hge].
  2:{ by eexists _, _, _. }
  destruct (Z.leb_spec (nnz LU_new) i) as [Hend|Hgt].
  { by eexists _, _, _. }
  destruct (insert_step_inv num_rm rm_loc LU_new LU0 LU i ni Hin Hinv
              ltac:(lia) Hlt)
    as (LU' & ni' & loc & r & c & l0 & Hstep & Hloc & _ & Hr & Hc & _ & _
        & Hcase & Hinv').
  rewrite Hstep. cbn [mbind option_bind].
  pose proof (li_ni _ _ _ _ _ Hinv) as Hni0.
  destruct Hcase as [(-> & -> & _)|(-> & Hg & _)].
  - apply IH; [done|done|lia|lia|lia].
  - apply IH; [done| |lia|lia|lia].
    apply (ins_frame_graft num_rm rm_loc LU_new LU0 LU LU' ni loc i r c);
      [done|done|lia|done|lia|done|done|done].
Qed.

End InsertMore.

Section InsertProperties.
Context {V : Type} `{Scalar V}.
Implicit Types LU LU_new : magma_z_matrix V.

(** The factor that the insertion returns depends on the positions of the
    candidates only: neither their values nor what the order statistics
    do with the values change it, as long as the order statistics
    succeed. *)
Theorem insert_ignores_values sel1 sel2 tri num_rm rm_loc LU_new1 LU_new2 LU :
  nnz LU_new1 = nnz LU_new2 → rowidx LU_new1 = rowidx LU_new2 →
  col LU_new1 = col LU_new2 →
  (sel1 (val LU_new1) num_rm (nnz LU_new1 - 1) 1).1.1 = 0 →
  (sel2 (val LU_new2) num_rm (nnz LU_new2 - 1) 1).1.1 = 0 →
  snd <$> magma_zmdynamicic_insert sel1 tri num_rm rm_loc LU_new1 LU
  = snd <$> magma_zmdynamicic_insert sel2 tri num_rm rm_loc LU_new2 LU.
Proof.
  intros Hn Hr Hc. unfold magma_zmdynamicic_insert, rank_and_insert.
  rewrite <- Hn. destruct (nnz LU_new1 <=? num_rm); [done|].
  destruct (sel1 (val LU_new1) num_rm (nnz LU_new1 - 1) 1) as [[i1 v1] e1].
  destruct (sel2 (val LU_new2) num_rm (nnz LU_new1 - 1) 1) as [[i2 v2] e2].
  cbn [fst snd]. intros -> ->. cbn [negb Z.eqb]. cbv beta iota zeta.
  rewrite (insert_loop_positions _ num_rm rm_loc (set_val LU_new1 v1)
             (set_val LU_new2 v2)) by done.
  by destruct (insert_loop _ _ _ _ _ _ _) as [[[LU' i'] ni']|].
Qed.

(** When the factor holds every candidate already, the insertion returns
    the factor as it is. *)
Theorem insert_present_unchanged sel tri num_rm rm_loc LU_new LU :
  dims LU → I1 LU → I2 LU → insert_inputs num_rm rm_loc LU_new LU →
  (∀ i, 0 ≤ i < nnz LU_new →
     ∃ r c, rd (rowidx LU_new) i = Some r ∧ rd (col LU_new) i = Some c ∧
            has_entry LU r c) →
  ∃ info LU_new',
    magma_zmdynamicic_insert sel tri num_rm rm_loc LU_new LU
    = Some (info, LU_new', LU).
Proof.
  intros Hd H1 H2 Hin Hall. unfold magma_zmdynamicic_insert, rank_and_insert.
  destruct (nnz LU_new <=? num_rm); [by eexists _, _|].
  destruct (sel (val LU_new) num_rm (nnz LU_new - 1) 1) as [[info v] e].
  destruct (negb (info =? 0)); [by eexists _, _|].
  destruct (insert_loop_present num_rm rm_loc (set_val LU_new v) LU
              (insert_inputs_set_val _ _ _ _ v Hin) Hd H1 H2 Hall
              (S (Z.to_nat (nnz LU_new))) 0 0) as [i' Hloop];
    [lia|lia|simpl; lia|].
  rewrite Hloop. cbn [mbind option_bind]. by eexists _, _.
Qed.

(** The insertion uses the first freed slots and nothing else: [ni] of
    them, with [ni ≤ num_rm]. Each of these slots holds a candidate, with
    the value zero, in the row of the candidate; the other freed slots are
    still free; every other slot has its value, row and column as before;
    and every entry of the factor is still there. *)
Theorem insert_uses_freed_slots sel tri num_rm rm_loc LU_new LU :
  dims LU → I1 LU → I2 LU → insert_inputs num_rm rm_loc LU_new LU →
  0 ≤ num_rm →
  ∃ info LU_new' LU' ni,
    magma_zmdynamicic_insert sel tri num_rm rm_loc LU_new LU
      = Some (info, LU_new', LU') ∧
    0 ≤ ni ≤ num_rm ∧
    (∀ k, 0 ≤ k < ni →
       ∃ loc i r c l,
         rd rm_loc k = Some loc ∧ 0 ≤ i < nnz LU_new ∧
         rd (rowidx LU_new) i = Some r ∧ rd (col LU_new) i = Some c ∧
         rd (val LU') loc = Some zero ∧ rd (rowidx LU') loc = Some r ∧
         get (col LU') loc = c ∧ row_chain LU' r l ∧ loc ∈ l) ∧
    (∀ k, ni ≤ k < num_rm → ∃ s, rd rm_loc k = Some s ∧ free_slot LU' s) ∧
    (∀ s, (∀ k, 0 ≤ k < ni → rd rm_loc k ≠ Some s) →
       rd (val LU') s = rd (val LU) s ∧
       rd (rowidx LU') s = rd (rowidx LU) s ∧
       get (col LU') s = get (col LU) s) ∧
    (∀ r c, has_entry LU r c → has_entry LU' r c).
Proof.
  intros Hd H1 H2 Hin Hnum.
  pose proof (loop_inv_init _ _ _ _ Hd H1 H2 Hin) as Hinv.
  assert (Hstart : ∀ (info : Z) (LU_new' : magma_z_matrix V),
            ∃ info0 LU_new0 LU' ni,
              Some (info, LU_new', LU) = Some (info0, LU_new0, LU') ∧
              0 ≤ ni ≤ num_rm ∧
              (∀ k, 0 ≤ k < ni →
                 ∃ loc i r c l,
                   rd rm_loc k = Some loc ∧ 0 ≤ i < nnz LU_new ∧
                   rd (rowidx LU_new) i = Some r ∧ rd (col LU_new) i = Some c ∧
                   rd (val LU') loc = Some zero ∧ rd (rowidx LU') loc = Some r ∧
                   get (col LU') loc = c ∧ row_chain LU' r l ∧ loc ∈ l) ∧
              (∀ k, ni ≤ k < num_rm →
                 ∃ s, rd rm_loc k = Some s ∧ free_slot LU' s) ∧
              (∀ s, (∀ k, 0 ≤ k < ni → rd rm_loc k ≠ Some s) →
                 rd (val LU') s = rd (val LU) s ∧
                 rd (rowidx LU') s = rd (rowidx LU) s ∧
                 get (col LU') s = get (col LU) s) ∧
              (∀ r c, has_entry LU r c → has_entry LU' r c)).
  { intros info LU_new'. exists info, LU_new', LU, 0. split; [done|].
    split; [lia|]. split; [intros k Hk; lia|].
    split; [apply (li_free _ _ _ _ _ Hinv)|]. done. }
  unfold magma_zmdynamicic_insert, rank_and_insert.
  destruct (nnz LU_new <=? num_rm); [apply Hstart|].
  destruct (sel (val LU_new) num_rm (nnz LU_new - 1) 1) as [[info v] e].
  destruct (negb (info =? 0)); [apply Hstart|].
  destruct (insert_loop_frame num_rm rm_loc (set_val LU_new v) LU
              (insert_inputs_set_val _ _ _ _ v Hin)
              (S (Z.to_nat (nnz LU_new))) LU 0 0 Hinv
              (ins_frame_init rm_loc (set_val LU_new v) LU))
    as (LU' & i' & ni' & Hloop & Hinv' & [Hold Hnew] & Hle);
    [lia|lia|simpl; lia|].
  rewrite Hloop. cbn [mbind option_bind].
  exists info, (set_val LU_new v), LU', ni'. split; [done|].
  pose proof (li_ni _ _ _ _ _ Hinv'). split; [lia|]. split; [exact Hnew|].
  split; [apply (li_free _ _ _ _ _ Hinv')|]. split; [exact Hold|].
  apply (li_mono _ _ _ _ _ Hinv').
Qed.

End InsertProperties.

(** ** The insertion keeps the factor well formed *)

Lemma ins_after_app_l j loc (l1 l2 : list Z) :
  j ∈ l1 → ins_after j loc (l1 ++ l2) = ins_after j loc l1 ++ l2.
Proof.
  induction l1 as [|x l1 IH]; [by intros ?%elem_of_nil|]. simpl.
  destruct (Z.eqb_spec x j); [done|].
  intros [->|Hj]%elem_of_cons; [done|]. by rewrite IH.
Qed.

Section InsertShape.
Context {V : Type} `{Scalar V}.
Implicit Types LU LU_new : magma_z_matrix V.

(** The walk along the row ends without a change, or with the splice of
    the slot behind a slot [j'] of the row whose column is below the
    column of the candidate. *)
Lemma insert_walk_shape LU loc r c ni :
  ∀ fuel j jn LU' ni',
    rd (llist LU) j = Some jn → get (col LU) j < c →
    insert_walk fuel LU loc r c j jn ni = Some (LU', ni') →
    (LU' = LU ∧ ni' = ni) ∨
    (ni' = ni + 1 ∧
     ∃ j' jn', splice LU loc j' jn' r c = Some LU' ∧
       rd (llist LU) j' = Some jn' ∧
       get (col LU) j' < c ∧ c < get (col LU) jn' ∧
       ∀ l, chain (llist LU) j l → j' ∈ l).
Proof.
  induction fuel as [|fuel IH]; intros j jn LU' ni' Hjn Hlt; [done|].
  cbn [insert_walk]. destruct (Z.eqb_spec j 0) as [Hj0|Hj0].
  { intros [= <- <-]. by left. }
  destruct (rd (col LU) jn) as [cjn|] eqn:Hcjn; [|done].
  cbn [mbind option_bind].
  destruct (Z.eqb_spec cjn c) as [Heq|Hne].
  { intros [= <- <-]. by left. }
  destruct (Z.ltb_spec c cjn) as [Hc|Hc].
  - destruct (splice LU loc j jn r c) as [LU''|] eqn:Hsp; [|done].
    cbn [mbind option_bind]. intros [= <- <-]. right. split; [done|].
    exists j, jn. do 3 (split; [done|]).
    split; [by rewrite (rd_get _ _ _ Hcjn)|].
    intros l Hl. inversion Hl; subst; [done|in_list].
  - destruct (rd (llist LU) jn) as [jn'|] eqn:Hjn'; [|done].
    cbn [mbind option_bind]. intros Hw.
    destruct (IH jn jn' LU' ni' Hjn') as [Hsame|(Hni & j' & jn2 & Hsp & Hr & Hlo & Hhi & Hin)];
      [rewrite (rd_get _ _ _ Hcjn); lia|done|by left|].
    right. split; [done|]. exists j', jn2. do 4 (split; [done|]).
    intros l Hl. inversion Hl as [|? s' l' _ Hs' Hl']; subst; [done|].
    rewrite Hjn in Hs'. injection Hs' as <-. apply elem_of_cons. right.
    by apply Hin.
Qed.

Lemma insert_step_shape rm_loc LU_new LU i ni LU' ni' loc r c old :
  rd rm_loc ni = Some loc →
  rd (rowidx LU_new) i = Some r → rd (col LU_new) i = Some c →
  rd (row LU) r = Some old →
  insert_step rm_loc LU_new LU i ni = Some (LU', ni') →
  (LU' = LU ∧ ni' = ni) ∨
  (ni' = ni + 1 ∧
   (prepend LU loc old r c = Some LU' ∨
    ∃ j jn, splice LU loc j jn r c = Some LU' ∧
      rd (llist LU) j = Some jn ∧
      get (col LU) j < c ∧ c < get (col LU) jn ∧
      ∀ l, chain (llist LU) old l → j ∈ l)).
Proof.
  intros Hloc Hr Hc Hold. unfold insert_step. rewrite Hloc, Hr, Hc.
  cbn [mbind option_bind]. rewrite Hold. cbn [mbind option_bind].
  destruct (rd (col LU) old) as [c0|] eqn:Hc0; [|done].
  cbn [mbind option_bind]. destruct (Z.ltb_spec c c0) as [Hlt|Hge].
  { destruct (prepend LU loc old r c) as [LU''|] eqn:Hp; [|done].
    cbn [mbind option_bind]. intros [= <- <-]. right. split; [done|]. by left. }
  destruct (Z.eqb_spec c c0) as [Heq|Hne].
  { intros [= <- <-]. by left. }
  destruct (rd (llist LU) old) as [jn|] eqn:Hjn; [|done].
  cbn [mbind option_bind]. intros Hw.
  destruct (insert_walk_shape LU loc r c ni (S (length (llist LU))) old jn
              LU' ni' Hjn) as [?|[Hni Hsp]];
    [rewrite (rd_get _ _ _ Hc0); lia|done|by left|].
  right. split; [done|]. by right.
Qed.

(** What the two ways of linking the slot do to the rows and to [list]. *)
Lemma prepend_rows LU loc old r c LU' l0 :
  dims LU → free_slot LU loc →
  rd (row LU) r = Some old → chain (llist LU) old l0 →
  prepend LU loc old r c = Some LU' →
  row_chain LU' r (loc :: l0) ∧
  (∀ r0 l, r0 ≠ r → row_chain LU r0 l → row_chain LU' r0 l) ∧
  (∀ s, s ≠ loc → rd (llist LU') s = rd (llist LU) s).
Proof.
  intros Hd Hfree Hold Hc0. unfold prepend.
  destruct (wr (row LU) r loc) as [rw|] eqn:Hrw; [|done].
  cbn [mbind option_bind]. intros Hwe.
  apply write_entry_inv in Hwe as (Hn & _ & Hz & Hr & Hl & Hri & Hc & Hv).
  simpl in *.
  assert (Hfr : ∀ s l, chain (llist LU) s l → chain (llist LU') s l).
  { intros s l Hl0. eapply chain_frame; [done| |done].
    eapply free_not_in_chain; [done|]. apply Hfree. }
  assert (Hloc0 : loc ≠ 0) by (destruct Hfree; lia).
  split; [|split].
  - exists loc. rewrite Hr. split; [by eapply rd_wr_eq|].
    econstructor; [done|by eapply rd_wr_eq|by apply Hfr].
  - intros r0 l Hne (s & Hs & Hl0). exists s.
    rewrite Hr, (rd_wr_ne _ _ _ _ _ Hrw) by done. auto.
  - intros s Hs. by apply (rd_wr_ne _ _ _ _ _ Hl).
Qed.

Lemma splice_rows LU loc j jn r c LU' :
  dims LU → free_slot LU loc → rd (llist LU) j = Some jn →
  splice LU loc j jn r c = Some LU' →
  (∀ r0 l, row_chain LU r0 l → row_chain LU' r0 (ins_after j loc l)) ∧
  (∀ s, s ≠ loc → s ≠ j → rd (llist LU') s = rd (llist LU) s).
Proof.
  intros Hd Hfree Hjn. unfold splice.
  destruct (wr (llist LU) j loc) as [l1|] eqn:Hl1; [|done].
  cbn [mbind option_bind]. intros Hwe.
  apply write_entry_inv in Hwe as (Hn & _ & Hz & Hr & Hl & Hri & Hc & Hv).
  simpl in *.
  assert (Hloc0 : loc ≠ 0) by (destruct Hfree; lia).
  split.
  - intros r0 l (s & Hs & Hl0). exists s. rewrite Hr. split; [done|].
    apply (chain_ins_after (llist LU) s l j jn loc l1 (llist LU'));
      [done| |done|done|done|done].
    eapply free_not_in_chain; [done|apply Hfree].
  - intros s Hs Hsj. rewrite (rd_wr_ne _ _ _ _ _ Hl) by done.
    by apply (rd_wr_ne _ _ _ _ _ Hl1).
Qed.

(** The invariants after the slot [loc] is linked in row [r] for a
    candidate below the diagonal. *)
Lemma graft_sinv LU LU' loc r c l0 l0' :
  sinv LU → free_slot LU loc → is_row LU r → row_chain LU r l0 →
  0 ≤ c < r → graft_ok LU LU' loc r c →
  row_chain LU' r l0' →
  (l0' = loc :: l0 ∨
   ∃ j, j ∈ l0 ∧ get (col LU) j < c ∧ l0' = ins_after j loc l0) →
  (∀ r0 l, r0 ≠ r → is_row LU r0 → row_chain LU r0 l → row_chain LU' r0 l) →
  (∀ s, s ≠ loc → s ∉ l0 → rd (llist LU') s = rd (llist LU) s) →
  sinv LU'.
Proof.
  intros [Hd H1 H2 H4 H5 Hc H6] Hfree Hr Hl0 Hcr Hg Hl0' Hshape Hother Hll.
  assert (Hrows : ∀ r0, is_row LU' r0 ↔ is_row LU r0).
  { intros r0. unfold is_row. by rewrite (go_rows _ _ _ _ _ Hg). }
  assert (Hnotin : ∀ r0 l, row_chain LU r0 l → loc ∉ l).
  { intros r0 l. by apply free_slot_not_in. }
  assert (Hcol : ∀ r0 l s, row_chain LU r0 l → s ∈ l →
            get (col LU') s = get (col LU) s).
  { intros r0 l s Hl Hs. apply (go_col _ _ _ _ _ Hg). intros ->.
    by apply (Hnotin r0 l). }
  assert (Hridx : ∀ r0 l s, row_chain LU r0 l → s ∈ l →
            get (rowidx LU') s = get (rowidx LU) s).
  { intros r0 l s Hl Hs. apply (get_wr_ne _ _ _ _ _ (go_rowidx _ _ _ _ _ Hg)).
    intros ->. by apply (Hnotin r0 l). }
  assert (Helem : ∀ s, s ∈ l0' → s = loc ∨ s ∈ l0).
  { intros s Hs. destruct Hshape as [->|(j & _ & _ & ->)].
    - apply elem_of_cons in Hs. tauto.
    - by apply ins_after_elem_inv in Hs. }
  assert (Hrowof : ∀ r0 l', is_row LU r0 → row_chain LU' r0 l' →
            (r0 = r ∧ l' = l0') ∨ (r0 ≠ r ∧ row_chain LU r0 l')).
  { intros r0 l' Hr0 Hl'. destruct (Z.eq_dec r0 r) as [->|Hne].
    - left. split; [done|]. by eapply row_chain_det.
    - right. split; [done|]. destruct (H1 r0 Hr0) as [l Hl].
      by rewrite (row_chain_det _ _ _ _ Hl' (Hother r0 l Hne Hr0 Hl)). }
  constructor.
  - apply (go_dims _ _ _ _ _ Hg).
  - by apply (graft_I1 LU LU' loc r c).
  - by apply (graft_I2 LU LU' loc r c).
  - intros r0 l' Hr0%Hrows Hl'. apply Forall_forall. intros s Hs.
    split.
    2:{ destruct Hl' as (s0 & _ & Hch).
        pose proof (chain_not_free _ _ _ Hch) as Hnf.
        rewrite Forall_forall in Hnf. by apply Hnf. }
    destruct (Hrowof r0 l' Hr0 Hl') as [[-> ->]|[Hne Hl]].
    + destruct (Helem s Hs) as [->|Hs0].
      * apply (get_wr_eq _ _ _ _ (go_rowidx _ _ _ _ _ Hg)).
      * rewrite (Hridx r l0 s Hl0 Hs0).
        pose proof (H4 r l0 Hr Hl0) as Hall. rewrite Forall_forall in Hall.
        by apply Hall.
    + rewrite (Hridx r0 l' s Hl Hs).
      pose proof (H4 r0 l' Hr0 Hl) as Hall. rewrite Forall_forall in Hall.
      by apply Hall.
  - intros r0 l' Hr0%Hrows Hl'.
    destruct (Hrowof r0 l' Hr0 Hl') as [[-> ->]|[Hne Hl]].
    + destruct (H5 r l0 Hr Hl0) as (l1 & d & -> & Hcd).
      assert (Hd0 : get (col LU') d = r).
      { rewrite (Hcol r (l1 ++ [d]) d Hl0); [done|in_list]. }
      destruct Hshape as [->|(j & Hj & Hjc & ->)].
      * exists (loc :: l1), d. done.
      * assert (Hj1 : j ∈ l1).
        { apply elem_of_app in Hj as [Hj|Hj]; [done|].
          apply list_elem_of_singleton in Hj as ->. lia. }
        exists (ins_after j loc l1), d. by rewrite ins_after_app_l.
    + destruct (H5 r0 l' Hr0 Hl) as (l1 & d & -> & Hcd).
      exists l1, d. split; [done|].
      rewrite (Hcol r0 (l1 ++ [d]) d Hl); [done|in_list].
  - intros r0 l' Hr0%Hrows Hl'. apply Forall_forall. intros s Hs.
    destruct (Hrowof r0 l' Hr0 Hl') as [[-> ->]|[Hne Hl]].
    + destruct (Helem s Hs) as [->|Hs0].
      * rewrite (go_col_loc _ _ _ _ _ Hg). lia.
      * rewrite (Hcol r l0 s Hl0 Hs0).
        pose proof (Hc r l0 Hr Hl0) as Hall. rewrite Forall_forall in Hall.
        by apply Hall.
    + rewrite (Hcol r0 l' s Hl Hs).
      pose proof (Hc r0 l' Hr0 Hl) as Hall. rewrite Forall_forall in Hall.
      by apply Hall.
  - intros s Hs Hlive. rewrite (go_nnz _ _ _ _ _ Hg) in Hs.
    assert (Hup : ∀ r1 l1, is_row LU r1 → row_chain LU r1 l1 → s ∈ l1 →
              live LU' s).
    { intros r1 l1 Hr1 Hl1 Hs1.
      destruct (go_chain _ _ _ _ _ Hg r1 l1 Hl1) as (l' & Hl' & Hsub & _).
      exists r1, l'. split; [by apply Hrows|]. split; [done|by apply Hsub]. }
    destruct (Z.eq_dec s loc) as [->|Hne].
    { destruct (go_here _ _ _ _ _ Hg) as (l' & Hl' & Hin).
      exists r, l'. split; [by apply Hrows|done]. }
    destruct (decide (s ∈ l0)) as [Hin|Hnin]; [by apply (Hup r l0)|].
    assert (Hold : get (llist LU) s ≠ -1).
    { unfold get in *. by rewrite <- (Hll s Hne Hnin). }
    destruct (H6 s Hs Hold) as (r1 & l1 & Hr1 & Hl1 & Hs1). by apply (Hup r1 l1).
Qed.

(** One turn of the loop on a candidate below the diagonal. *)
Lemma insert_step_sinv num_rm rm_loc LU_new LU0 LU i ni :
  insert_inputs num_rm rm_loc LU_new LU0 →
  loop_inv num_rm rm_loc LU0 LU ni → sinv LU →
  0 ≤ i < nnz LU_new → ni < num_rm →
  (∀ r c, rd (rowidx LU_new) i = Some r → rd (col LU_new) i = Some c →
     0 ≤ c < r) →
  ∃ LU' ni',
    insert_step rm_loc LU_new LU i ni = Some (LU', ni') ∧
    loop_inv num_rm rm_loc LU0 LU' ni' ∧ sinv LU'.
Proof.
  intros Hin Hinv Hs Hi Hni Hbelow.
  destruct (insert_step_inv num_rm rm_loc LU_new LU0 LU i ni Hin Hinv Hi Hni)
    as (LU' & ni' & loc & r & c & l0 & Hstep & Hloc & Hfree & Hr & Hc & Hrow
        & Hl0 & Hcase & Hinv').
  exists LU', ni'. do 2 (split; [done|]).
  destruct Hcase as [(-> & _)|(Hni' & Hg & _)]; [done|].
  pose proof Hl0 as (old & Hold & Hch).
  pose proof (si_dims _ Hs) as Hd. pose proof (si_I4 _ Hs) as H4.
  destruct (insert_step_shape rm_loc LU_new LU i ni LU' ni' loc r c old
              Hloc Hr Hc Hold Hstep)
    as [[_ ?]|(_ & [Hp|(j & jn & Hsp & Hjn & Hlo & Hhi & Hj)])]; [lia|..].
  - destruct (prepend_rows LU loc old r c LU' l0 Hd Hfree Hold Hch Hp)
      as (Hnew & Hoth & Hll).
    apply (graft_sinv LU LU' loc r c l0 (loc :: l0)); try done.
    + by apply Hbelow.
    + by left.
    + intros r0 l Hne _. by apply Hoth.
    + intros s Hne _. by apply Hll.
  - destruct (splice_rows LU loc j jn r c LU' Hd Hfree Hjn Hsp) as (Hall & Hll).
    specialize (Hj l0 Hch).
    apply (graft_sinv LU LU' loc r c l0 (ins_after j loc l0)); try done.
    + by apply Hbelow.
    + by apply Hall.
    + right. by exists j.
    + intros r0 l Hne Hr0 Hl. rewrite <- (ins_after_notin j loc l); [by apply Hall|].
      by apply (rows_disjoint LU r r0 l0 l j).
    + intros s Hne Hnin. apply Hll; [done|]. by intros ->.
Qed.

Lemma insert_loop_sinv num_rm rm_loc LU_new LU0 :
  insert_inputs num_rm rm_loc LU_new LU0 →
  (∀ i r c, 0 ≤ i < nnz LU_new →
     rd (rowidx LU_new) i = Some r → rd (col LU_new) i = Some c → 0 ≤ c < r) →
  ∀ fuel LU i ni,
    loop_inv num_rm rm_loc LU0 LU ni → sinv LU → 0 ≤ i →
    (Z.to_nat (nnz LU_new - i) < fuel)%nat →
    ∃ LU' i' ni',
      insert_loop fuel num_rm rm_loc LU_new LU i ni = Some (LU', i', ni') ∧
      loop_inv num_rm rm_loc LU0 LU' ni' ∧ sinv LU'.
Proof.
  intros Hin Hbelow fuel.
  induction fuel as [|fuel IH]; intros LU i ni Hinv Hs Hi Hf; [lia|].
  cbn [insert_loop]. destruct (Z.ltb_spec ni num_rm) as [Hlt|Hge].
  2:{ by eexists _, _, _. }
  destruct (Z.leb_spec (nnz LU_new) i) as [Hend|Hgt].
  { by eexists _, _, _. }
  destruct (insert_step_sinv num_rm rm_loc LU_new LU0 LU i ni Hin Hinv Hs
              ltac:(lia) Hlt) as (LU' & ni' & Hstep & Hinv' & Hs').
  { intros r c. apply Hbelow. lia. }
  rewrite Hstep. cbn [mbind option_bind]. apply IH; [done|done|lia|lia].
Qed.

(** The insertion of candidates below the diagonal keeps the factor well
    formed: with the invariants [sinv] before, the routine returns and the
    invariants hold of the factor that it returns. *)
Lemma insert_sinv sel tri num_rm rm_loc LU_new LU :
  sinv LU → insert_inputs num_rm rm_loc LU_new LU →
  (∀ i r c, 0 ≤ i < nnz LU_new →
     rd (rowidx LU_new) i = Some r → rd (col LU_new) i = Some c → 0 ≤ c < r) →
  ∃ info LU_new' LU',
    magma_zmdynamicic_insert sel tri num_rm rm_loc LU_new LU
      = Some (info, LU_new', LU') ∧
    sinv LU' ∧ num_rows LU' = num_rows LU ∧
    (info = 0 ∨ info = (sel (val LU_new) num_rm (nnz LU_new - 1) 1).1.1).
Proof.
  intros Hs Hin Hbelow.
  pose proof (loop_inv_init _ _ _ _ (si_dims _ Hs) (si_I1 _ Hs) (si_I2 _ Hs) Hin)
    as Hinv.
  unfold magma_zmdynamicic_insert, rank_and_insert.
  destruct (nnz LU_new <=? num_rm).
  { eexists _, _, _. split; [done|]. split; [done|]. split; [done|by left]. }
  destruct (sel (val LU_new) num_rm (nnz LU_new - 1) 1) as [[info v] e].
  cbn [fst snd]. destruct (Z.eqb_spec info 0) as [->|Hne]; cbn [negb].
  2:{ eexists _, _, _. split; [done|]. split; [done|]. split; [done|by right]. }
  destruct (insert_loop_sinv num_rm rm_loc (set_val LU_new v) LU
              (insert_inputs_set_val _ _ _ _ v Hin) Hbelow
              (S (Z.to_nat (nnz LU_new))) LU 0 0 Hinv Hs)
    as (LU' & i' & ni' & Hloop & Hinv' & Hs'); [lia|simpl; lia|].
  rewrite Hloop. cbn [mbind option_bind]. eexists _, _, _.
  split; [done|]. split; [done|]. split; [apply (li_rows _ _ _ _ _ Hinv')|by left].
Qed.

(** With the invariants of the factor before, and candidates below the
    diagonal at free, distinct slots, the insertion returns, and the
    factor that it returns has the invariants again, the sorted rows
    included. *)
Theorem insert_keeps_invariants sel tri num_rm rm_loc LU_new LU :
  dims LU → I1 LU → I2 LU → I4 LU → I5 LU → Icol LU → I6 LU →
  insert_inputs num_rm rm_loc LU_new LU →
  (∀ i r c, 0 ≤ i < nnz LU_new →
     rd (rowidx LU_new) i = Some r → rd (col LU_new) i = Some c → 0 ≤ c < r) →
  ∃ info LU_new' LU',
    magma_zmdynamicic_insert sel tri num_rm rm_loc LU_new LU
      = Some (info, LU_new', LU') ∧
    dims LU' ∧ I1 LU' ∧ I2 LU' ∧ I3 LU' ∧ I4 LU' ∧ I5 LU' ∧ Icol LU' ∧ I6 LU'.
Proof.
  intros Hd H1 H2 H4 H5 Hc H6 Hin Hbelow.
  destruct (insert_sinv sel tri num_rm rm_loc LU_new LU
              (SInv _ Hd H1 H2 H4 H5 Hc H6) Hin Hbelow)
    as (info & LU_new' & LU' & Hres & [Hd' H1' H2' H4' H5' Hc' H6'] & _).
  exists info, LU_new', LU'. split; [done|]. do 3 (split; [done|]).
  split; [by apply I2_I3|done].
Qed.

End InsertShape.

(** ** More on the candidate discovery *)

Lemma fold_opt_inv {S X} (P : S → Prop) (f : X → S → option S) l :
  (∀ x s s', f x s = Some s' → P s → P s') →
  ∀ st st', fold_opt f l st = Some st' → P st → P st'.
Proof.
  intros Hf. induction l as [|x l IH]; intros st st'; simpl.
  - by intros [= <-].
  - destruct (f x st) as [s1|] eqn:Hx; [|done]. cbn [mbind option_bind].
    intros Hl Hst. apply (IH s1 st' Hl). by apply (Hf x st).
Qed.

Section CandidateMore.
Context {V : Type} `{Scalar V}.
Implicit Types LU LU_new : magma_z_matrix V.

(** The converse of [outer_cands_elem]. *)
Lemma inner_cands_in LU a l b :
  b ∈ l → is_cand LU a b = true →
  (get (col LU) a, get (col LU) b) ∈ inner_cands LU a l.
Proof.
  induction l as [|x l IH]; [by intros ?%elem_of_nil|]. simpl.
  intros [->|Hb]%elem_of_cons Hc.
  - rewrite Hc. in_list.
  - destruct (is_cand LU a x); [apply elem_of_cons; right|]; by apply IH.
Qed.

Lemma outer_cands_in LU r whole l a b :
  a ∈ l → b ∈ whole → get (col LU) a ≠ r → is_cand LU a b = true →
  (get (col LU) a, get (col LU) b) ∈ outer_cands LU r whole l.
Proof.
  induction l as [|x l IH]; [by intros ?%elem_of_nil|]. simpl.
  intros [->|Ha]%elem_of_cons Hb Hne Hc; apply elem_of_app.
  - left. destruct (Z.eqb_spec (get (col LU) x) r); [done|].
    by apply inner_cands_in.
  - right. by apply IH.
Qed.

Lemma all_cands_in LU k r p :
  0 ≤ r < Z.of_nat k → p ∈ row_cands LU r → p ∈ all_cands LU k.
Proof.
  induction k as [|k IH]; [lia|]. intros Hr Hp. simpl. apply elem_of_app.
  destruct (Z.eq_dec r (Z.of_nat k)) as [->|Hne]; [by right|].
  left. apply IH; [lia|done].
Qed.

(** The candidates of the rows: the positions [(r', c)] with [c < r'] for
    which a row [r] other than [r'] has entries in the columns [r'] and
    [c], and row [r'] has no entry in column [c]. *)
Lemma all_cands_spec LU r' c :
  dims LU → I1 LU → I2 LU → I5 LU → Icol LU →
  (r', c) ∈ all_cands LU (Z.to_nat (num_rows LU)) ↔
  ∃ r, is_row LU r ∧ r ≠ r' ∧ has_entry LU r r' ∧ has_entry LU r c ∧
       c < r' ∧ ¬ has_entry LU r' c.
Proof.
  intros Hd H1 H2 H5 Hc. split.
  - intros (r & Hr & Hp)%all_cands_elem.
    assert (Hrow : is_row LU r) by (unfold is_row; lia).
    destruct (H1 r Hrow) as [l Hl].
    unfold row_cands in Hp. rewrite (row_slots_chain _ _ _ Hl) in Hp.
    apply outer_cands_elem in Hp as (a & b & Ha & Hb & Hne & [= -> ->] & Hcand).
    unfold is_cand in Hcand. apply andb_prop in Hcand as [Hlt Habs].
    apply Z.ltb_lt in Hlt. apply negb_true_iff in Habs.
    destruct (slot_col_bounds LU r l a H2 H5 Hc Hrow Hl Ha) as [_ Hra].
    specialize (Hra Hne). destruct (H1 _ Hra) as [l' Hl'].
    exists r. split; [done|]. split; [done|]. split; [by exists l, a|].
    split; [by exists l, b|]. split; [done|]. intros Hhas.
    apply (present_has_entry LU _ _ l' Hl') in Hhas. congruence.
  - intros (r & Hrow & Hne & (l & a & Hl & Ha & Hca) & (l2 & b & Hl2 & Hb & Hcb)
            & Hlt & Habs).
    rewrite (row_chain_det _ _ _ _ Hl2 Hl) in Hb.
    apply (all_cands_in LU _ r); [unfold is_row in Hrow; lia|].
    unfold row_cands. rewrite (row_slots_chain _ _ _ Hl). subst r' c.
    assert (Hne' : get (col LU) a ≠ r) by congruence.
    apply outer_cands_in; [done|done|done|]. unfold is_cand.
    apply andb_true_intro. split; [by apply Z.ltb_lt|].
    apply negb_true_iff.
    destruct (slot_col_bounds LU r l a H2 H5 Hc Hrow Hl Ha) as [_ Hra].
    destruct (H1 _ (Hra Hne')) as [l' Hl'].
    destruct (present LU (get (col LU) a) (get (col LU) b)) eqn:Hp; [|done].
    exfalso. apply Habs. by apply (present_has_entry LU _ _ l' Hl').
Qed.

(** The second pass writes the value zero only. *)
Lemma insert_rows_zero LU numadd :
  dims LU → I1 LU → I2 LU → I5 LU → Icol LU →
  ∀ n r (v : list V) ri cl v' ri' cl',
    0 ≤ r → r + Z.of_nat n ≤ num_rows LU →
    insert_rows n r LU numadd (v, ri, cl) = Some (v', ri', cl') →
    Forall (λ x, x = zero) v → Forall (λ x, x = zero) v'.
Proof.
  intros Hd H1 H2 H5 Hc. induction n as [|n IH];
    intros r v ri cl v' ri' cl' Hr Hn.
  { cbn [insert_rows]. by intros [= <- _ _]. }
  cbn [insert_rows].
  assert (Hrow : is_row LU r) by (unfold is_row; lia).
  rewrite (visit_row_spec LU (scan_insert LU) (insert_emit numadd r) Hd
             (scan_insert_ok LU Hd H1) r (v, ri, cl, 0) H1 H2 H5 Hc Hrow).
  destruct (fold_opt _ (row_cands LU r) (v, ri, cl, 0))
    as [[[[v1 ri1] cl1] ladd]|] eqn:Hf; [|done].
  cbn [mbind option_bind]. intros Hrest Hz.
  apply (IH (r + 1) v1 ri1 cl1 v' ri' cl'); [lia|lia|done|].
  refine (fold_opt_inv (λ st : list V * list Z * list Z * Z,
                          Forall (λ x, x = zero) st.1.1.1) _ _ _ _ _ Hf Hz).
  intros p [[[v0 ri0] cl0] l0] s'. unfold emit_pair, insert_emit.
  destruct (rd numadd r) as [off|]; [|done]. cbn [mbind option_bind].
  destruct (wr v0 (off + l0) zero) as [v2|] eqn:Hw; [|done].
  cbn [mbind option_bind].
  destruct (wr ri0 (off + l0) p.1) as [ri2|]; [|done]. cbn [mbind option_bind].
  destruct (wr cl0 (off + l0) p.2) as [cl2|]; [|done]. cbn [mbind option_bind].
  intros [= <-]. cbn [fst]. apply wr_inv in Hw as [_ ->].
  intros Hall. by apply Forall_insert.
Qed.

End CandidateMore.

Lemma Forall_eq_replicate {X} (x : X) (l : list X) :
  Forall (λ y, y = x) l → l = replicate (length l) x.
Proof. induction 1 as [|y l -> _ IH]; [done|]. simpl. by rewrite <- IH. Qed.

Section CandidateProperties.
Context {V : Type} `{Scalar V}.
Implicit Types A LU LU_new : magma_z_matrix V.

Variable magma_index_malloc_cpu : Z → Z.
Variable magma_zmalloc_cpu : Z → Z.

(** The list of candidates that the routine returns when its allocations
    succeed. *)
Lemma candidates_n_full LU LU_new :
  dims LU → I1 LU → I2 LU → I5 LU → Icol LU →
  ∃ info LU_new',
    magma_zmdynamicic_candidates_n magma_index_malloc_cpu magma_zmalloc_cpu
      LU LU_new = Some (info, LU_new') ∧
    (info = 0 →
       LU_new' =
       Matrix (num_rows LU) (num_cols LU)
         (Z.of_nat (length (all_cands LU (Z.to_nat (num_rows LU)))))
         (row LU_new)
         (all_cands LU (Z.to_nat (num_rows LU))).*1
         (all_cands LU (Z.to_nat (num_rows LU))).*2
         (llist LU_new)
         (replicate (length (all_cands LU (Z.to_nat (num_rows LU)))) zero)).
Proof.
  intros Hd H1 H2 H5 Hc. pose proof (d_rows _ Hd) as Hrows.
  unfold magma_zmdynamicic_candidates_n. cbv zeta.
  destruct (magma_index_malloc_cpu (num_rows LU + 1) =? 0) eqn:M1;
    cbn [negb]; [|eexists _, _; split; [done|]; intros E; rewrite E in M1; done].
  set (n := Z.to_nat (num_rows LU)).
  destruct (count_rows_spec LU Hd H1 H2 H5 Hc n 0 (replicate (S n) 0))
    as (numadd1 & Hcount & Hlen1 & Hrd1);
    [lia|lia|rewrite length_replicate; lia|].
  rewrite Hcount. cbn [mbind option_bind].
  rewrite length_replicate in Hlen1.
  destruct (prefix_sum_spec LU (S n) 0 numadd1 0)
    as (numadd2 & Hps & Hlen2 & Hin2 & _).
  { lia. }
  { lia. }
  { intros j Hj. rewrite Hrd1. destruct (decide (0 < j ≤ 0 + Z.of_nat n)).
    - rewrite rd_replicate by lia. simpl. f_equal.
      pose proof (offs_succ LU (j - 1) ltac:(lia)) as Hs.
      replace (j - 1 + 1) with j in Hs by lia. unfold cnt in *. lia.
    - rewrite rd_replicate by lia. assert (j = 0) as -> by lia. done. }
  { done. }
  rewrite Hps. cbn [mbind option_bind].
  replace (0 + Z.of_nat (S n) - 1) with (num_rows LU) by lia.
  set (total := offs LU (num_rows LU)).
  destruct (magma_zmalloc_cpu total =? 0) eqn:M2; cbn [negb];
    [|eexists _, _; split; [done|]; intros E; rewrite E in M2; done].
  destruct (magma_index_malloc_cpu total =? 0) eqn:M3; cbn [negb];
    [|eexists _, _; split; [done|]; intros E; rewrite E in M3; done].
  pose proof (offs_nonneg LU (num_rows LU)) as Htot. fold total in Htot.
  destruct (insert_rows_spec LU Hd H1 H2 H5 Hc numadd2 n 0
              (replicate (Z.to_nat total) zero) (replicate (Z.to_nat total) 0)
              (replicate (Z.to_nat total) 0))
    as (v' & ri' & cl' & Hins & Lv & Lri & Lcl & Tri & Tcl);
    [lia|lia| |rewrite length_replicate; fold total; lia
    |rewrite length_replicate; fold total; lia
    |rewrite length_replicate; fold total; lia|done|done|].
  { intros j Hj. apply Hin2. lia. }
  rewrite Hins. cbn [mbind option_bind].
  eexists _, _. split; [done|]. intros _.
  replace (0 + Z.of_nat n) with (num_rows LU) in Tri, Tcl by lia.
  fold total in Tri, Tcl.
  rewrite length_replicate in Lv. rewrite length_replicate in Lri, Lcl.
  rewrite take_ge in Tri by lia. rewrite take_ge in Tcl by lia.
  assert (Hlen : Z.of_nat (length (all_cands LU n)) = total)
    by apply all_cands_length.
  assert (Hv : v' = replicate (length (all_cands LU n)) zero).
  { replace (length (all_cands LU n)) with (length v') by lia.
    apply Forall_eq_replicate.
    apply (insert_rows_zero LU numadd2 Hd H1 H2 H5 Hc n 0
             (replicate (Z.to_nat total) zero) (replicate (Z.to_nat total) 0)
             (replicate (Z.to_nat total) 0) v' ri' cl'); [lia|lia|done|].
    apply Forall_forall. by intros x [-> _]%elem_of_replicate. }
  by rewrite Hlen, Tri, Tcl, Hv.
Qed.

(** The candidate discovery finds exactly the fill-in positions: [(r', c)]
    is among the candidates that the routine returns if and only if
    [c < r'], some other row [r] of the factor has entries in both columns
    [r'] and [c], and row [r'] of the factor has no entry in column [c]. *)
Theorem candidates_n_exact LU LU_new :
  dims LU → I1 LU → I2 LU → I5 LU → Icol LU →
  ∃ info LU_new',
    magma_zmdynamicic_candidates_n magma_index_malloc_cpu magma_zmalloc_cpu
      LU LU_new = Some (info, LU_new') ∧
    (info = 0 →
       ∀ r' c,
         (∃ k, 0 ≤ k < nnz LU_new' ∧
               rd (rowidx LU_new') k = Some r' ∧ rd (col LU_new') k = Some c) ↔
         (∃ r, is_row LU r ∧ r ≠ r' ∧ has_entry LU r r' ∧ has_entry LU r c ∧
               c < r' ∧ ¬ has_entry LU r' c)).
Proof.
  intros Hd H1 H2 H5 Hc.
  destruct (candidates_n_full LU LU_new Hd H1 H2 H5 Hc)
    as (info & LU_new' & Hrun & Hres).
  exists info, LU_new'. split; [done|]. intros Hinfo r' c.
  rewrite (Hres Hinfo). cbn [nnz rowidx col].
  rewrite <- (all_cands_spec LU r' c Hd H1 H2 H5 Hc).
  set (cands := all_cands LU (Z.to_nat (num_rows LU))). split.
  - intros (k & Hk & Hr & Hcl). unfold rd in Hr, Hcl.
    destruct (Z.leb_spec 0 k); [|lia]. rewrite list_lookup_fmap in Hr, Hcl.
    destruct (cands !! Z.to_nat k) as [[r0 c0]|] eqn:Hp; [|done].
    simpl in Hr, Hcl. injection Hr as ->. injection Hcl as ->.
    by eapply list_elem_of_lookup_2.
  - intros (n & Hn)%list_elem_of_lookup_1. exists (Z.of_nat n).
    pose proof (lookup_lt_Some _ _ _ Hn). split; [lia|]. unfold rd.
    destruct (Z.leb_spec 0 (Z.of_nat n)); [|lia].
    by rewrite !list_lookup_fmap, Nat2Z.id, Hn.
Qed.

(** What the routine leaves in [LU_new] when its allocations succeed: the
    dimensions of the factor, arrays [rowidx], [col] and [val] of [nnz]
    entries, and the value zero for every candidate; [row] and [list] of
    [LU_new] are not touched. *)
Theorem candidates_n_output LU LU_new :
  dims LU → I1 LU → I2 LU → I5 LU → Icol LU →
  ∃ info LU_new',
    magma_zmdynamicic_candidates_n magma_index_malloc_cpu magma_zmalloc_cpu
      LU LU_new = Some (info, LU_new') ∧
    (info = 0 →
       num_rows LU_new' = num_rows LU ∧ num_cols LU_new' = num_cols LU ∧
       0 ≤ nnz LU_new' ∧
       Z.of_nat (length (rowidx LU_new')) = nnz LU_new' ∧
       Z.of_nat (length (col LU_new')) = nnz LU_new' ∧
       val LU_new' = replicate (Z.to_nat (nnz LU_new')) zero ∧
       row LU_new' = row LU_new ∧ llist LU_new' = llist LU_new).
Proof.
  intros Hd H1 H2 H5 Hc.
  destruct (candidates_n_full LU LU_new Hd H1 H2 H5 Hc)
    as (info & LU_new' & Hrun & Hres).
  exists info, LU_new'. split; [done|]. intros Hinfo. rewrite (Hres Hinfo).
  cbn [num_rows num_cols nnz rowidx col val row llist].
  rewrite !length_fmap, Nat2Z.id. do 2 (split; [done|]). split; [lia|]. done.
Qed.

(** The residuals can follow the discovery: on the candidates that the
    discovery returns, the residual evaluation returns and leaves the
    residual of every candidate in its value. *)
Theorem candidates_n_then_residuals A LU LU_new :
  dims LU → I1 LU → I2 LU → I5 LU → Icol LU →
  csr_ok A → num_rows A = num_rows LU →
  ∃ info LU_new1,
    magma_zmdynamicic_candidates_n magma_index_malloc_cpu magma_zmalloc_cpu
      LU LU_new = Some (info, LU_new1) ∧
    (info = 0 →
       ∃ LU_new2,
         magma_zmdynamicic_residuals A LU LU_new1 = Some (0, LU_new2) ∧
         rowidx LU_new2 = rowidx LU_new1 ∧ col LU_new2 = col LU_new1 ∧
         ∀ e, 0 ≤ e < nnz LU_new1 →
           rd (val LU_new2) e
           = Some (residual_of A LU (get (rowidx LU_new1) e)
                     (get (col LU_new1) e))).
Proof.
  intros Hd H1 H2 H5 Hc HA Hn.
  destruct (candidates_n_full LU LU_new Hd H1 H2 H5 Hc)
    as (info & LU_new1 & Hrun & Hres).
  exists info, LU_new1. split; [done|]. intros Hinfo.
  specialize (Hres Hinfo).
  set (cands := all_cands LU (Z.to_nat (num_rows LU))) in *.
  assert (Hok : cand_ok LU_new1 LU).
  { rewrite Hres. constructor; cbn [nnz rowidx col val].
    - rewrite length_replicate. lia.
    - intros e He.
      destruct (lookup_lt_is_Some_2 cands (Z.to_nat e)) as [[r c] Hp]; [lia|].
      exists r, c. unfold rd. destruct (Z.leb_spec 0 e); [|lia].
      rewrite !list_lookup_fmap, Hp. do 2 (split; [done|]).
      apply list_elem_of_lookup_2 in Hp.
      apply (all_cands_spec LU r c Hd H1 H2 H5 Hc) in Hp
        as (r0 & Hr0 & Hne & (l & a & Hl & Ha & Hca) & (l2 & b & Hl2 & Hb & Hcb)
            & Hlt & _).
      destruct (slot_col_bounds LU r0 l a H2 H5 Hc Hr0 Hl Ha) as [_ Hra].
      destruct (slot_col_bounds LU r0 l2 b H2 H5 Hc Hr0 Hl2 Hb) as [[Hb0 _] _].
      assert (Hrow : is_row LU r) by (rewrite <- Hca; apply Hra; congruence).
      split; [done|]. unfold is_row in *. lia. }
  assert (Hnn : 0 ≤ nnz LU_new1) by (rewrite Hres; cbn [nnz]; lia).
  destruct (residuals_loop_spec A LU Hd H1 H2 H5 HA Hn
              (Z.to_nat (nnz LU_new1)) 0 LU_new1)
    as (LU_new2 & Hloop & _ & E2 & E3 & E4 & _); [lia|lia|done|].
  exists LU_new2. unfold magma_zmdynamicic_residuals. rewrite Hloop.
  cbn [mbind option_bind]. do 3 (split; [done|]).
  intros e He. apply E4. lia.
Qed.

End CandidateProperties.

(** ** The two variants of the discovery loops agree *)

Section CandidateVariants.
Context {V : Type} `{Scalar V}.
Implicit Types LU : magma_z_matrix V.

Lemma inner_cands_none LU a l :
  (∀ b, b ∈ l → ¬ get (col LU) b < get (col LU) a) → inner_cands LU a l = [].
Proof.
  induction l as [|b l IH]; [done|]. intros Hl. simpl. unfold is_cand.
  destruct (Z.ltb_spec (get (col LU) b) (get (col LU) a)) as [Hlt|_].
  { exfalso. apply (Hl b); [in_list|done]. }
  simpl. apply IH. intros x Hx. apply Hl. in_list.
Qed.

Lemma inner_cands_prefix LU a l0 rest :
  (∀ b, b ∈ l0 → get (col LU) b < get (col LU) a) →
  (∀ b, b ∈ rest → ¬ get (col LU) b < get (col LU) a) →
  inner_cands LU a (l0 ++ rest) = absent_cands LU a l0.
Proof.
  intros Hl0 Hrest. induction l0 as [|b l0 IH]; [by apply inner_cands_none|].
  simpl. unfold is_cand at 1.
  rewrite (proj2 (Z.ltb_lt _ _) (Hl0 b ltac:(in_list))). simpl.
  rewrite IH by (intros x Hx; apply Hl0; in_list).
  by destruct (present LU (get (col LU) a) (get (col LU) b)).
Qed.

Lemma outer_cands_app LU r whole l1 l2 :
  outer_cands LU r whole (l1 ++ l2)
  = outer_cands LU r whole l1 ++ outer_cands LU r whole l2.
Proof.
  induction l1 as [|a l1 IH]; [done|]. simpl. by rewrite IH, app_assoc.
Qed.

Lemma outer_pair_cands LU r whole d :
  StronglySorted Z.lt (colsof LU whole) →
  ∀ l1 pre, whole = pre ++ l1 ++ [d] →
    (∀ a, a ∈ l1 → get (col LU) a ≠ r) →
    outer_cands LU r whole l1 = pair_cands LU pre l1.
Proof.
  intros Hsort. induction l1 as [|a l1 IH]; intros pre Hw Hne; [done|].
  cbn [outer_cands pair_cands].
  destruct (Z.eqb_spec (get (col LU) a) r) as [Heq|_].
  { exfalso. apply (Hne a); [in_list|done]. }
  f_equal.
  - rewrite Hw. rewrite Hw in Hsort. unfold colsof in Hsort.
    rewrite fmap_app in Hsort. apply inner_cands_prefix.
    + intros b Hb. eapply (StronglySorted_app_1_elem_of Z.lt); [exact Hsort| |].
      * by apply list_elem_of_fmap_2.
      * simpl. in_list.
    + intros b Hb. apply StronglySorted_app_1_r in Hsort.
      change ((a :: l1) ++ [d]) with (a :: (l1 ++ [d])) in Hb, Hsort.
      apply elem_of_cons in Hb as [->|Hb]; [lia|].
      fold (colsof LU (a :: (l1 ++ [d]))) in Hsort.
      pose proof (sorted_head_lt LU a (l1 ++ [d]) b Hsort Hb). lia.
  - apply IH; [by rewrite Hw, <- app_assoc|]. intros x Hx. apply Hne. in_list.
Qed.

(** The loops of the first variant on a row, as a fold. *)
Lemma pair_row_spec {St} LU (emit : Z → Z → St → option St) r l' d st :
  dims LU → I1 LU → I2 LU → I5 LU → Icol LU → is_row LU r →
  row_chain LU r (l' ++ [d]) →
  pair_row LU emit r st = fold_opt (emit_pair emit) (pair_cands LU [] l') st.
Proof.
  intros Hd H1 H2 H5 Hc Hr Hl. pose proof Hl as (start & Hstart & Hch).
  pose proof (H2 r _ Hr Hl) as Hsort.
  destruct (H5 r _ Hr Hl) as (l1 & d1 & Heq & Hcd).
  apply app_inj_tail in Heq as [<- <-].
  unfold pair_row. rewrite Hstart. cbn [mbind option_bind].
  apply (pair_outer_spec LU emit Hd H1 H2 start (l' ++ [d]) d Hch l' []);
    [done|done| |].
  - intros a Ha.
    destruct (slot_col_bounds LU r (l' ++ [d]) a H2 H5 Hc Hr Hl ltac:(in_list))
      as [_ Hrow].
    apply Hrow. unfold colsof in Hsort. rewrite fmap_app in Hsort.
    assert (get (col LU) a < get (col LU) d); [|lia].
    eapply (StronglySorted_app_1_elem_of Z.lt); [exact Hsort| |].
    + by apply list_elem_of_fmap_2.
    + simpl. in_list.
  - pose proof (chain_length _ _ _ Hch) as Hlen. rewrite length_app in Hlen.
    unfold chain_fuel. simpl in Hlen. lia.
Qed.

(** On a row of a factor that satisfies the invariants, the loops of
    [magma_zmdynamicic_candidates] and those of
    [magma_zmdynamicic_candidates_n] emit the same candidates in the same
    order. *)
Theorem candidates_loops_agree {St} LU (emit : Z → Z → St → option St) r st :
  dims LU → I1 LU → I2 LU → I5 LU → Icol LU → is_row LU r →
  pair_row LU emit r st = visit_row LU (scan_insert LU) emit r st.
Proof.
  intros Hd H1 H2 H5 Hc Hr. destruct (H1 r Hr) as [l Hl].
  destruct (H5 r l Hr Hl) as (l' & d & -> & Hcd).
  rewrite (pair_row_spec LU emit r l' d st Hd H1 H2 H5 Hc Hr Hl).
  rewrite (visit_row_spec LU (scan_insert LU) emit Hd (scan_insert_ok LU Hd H1)
             r st H1 H2 H5 Hc Hr).
  f_equal. unfold row_cands. rewrite (row_slots_chain _ _ _ Hl).
  pose proof (H2 r _ Hr Hl) as Hsort.
  rewrite outer_cands_app. cbn [outer_cands]. rewrite Hcd, Z.eqb_refl.
  rewrite !app_nil_r. symmetry.
  apply (outer_pair_cands LU r (l' ++ [d]) d Hsort l' []); [done|].
  intros a Ha Heq. unfold colsof in Hsort. rewrite fmap_app in Hsort.
  assert (get (col LU) a < get (col LU) d); [|lia].
  eapply (StronglySorted_app_1_elem_of Z.lt); [exact Hsort| |].
  - by apply list_elem_of_fmap_2.
  - simpl. in_list.
Qed.

End CandidateVariants.

(** ** More on the sweep *)

Section SweepMore.
Context {V : Type} `{Scalar V}.
Implicit Types A LU : magma_z_matrix V.

(** The sweep on a well-formed factor, under a schedule. *)
Lemma sweep_sinv A sch LU :
  sinv LU → csr_ok A → num_rows A = num_rows LU → sched_ok sch LU →
  ∃ v,
    magma_zmdynamicic_sweep A sch LU = Some (0, set_val LU v) ∧
    length v = length (val LU) ∧
    sinv (set_val LU v) ∧
    ∀ s, rd (llist LU) s = Some (-1) → rd v s = rd (val LU) s.
Proof.
  intros Hs HA Hn Hok.
  destruct (sweep_spec A sch LU Hs HA Hn Hok) as (v & Hrun & Hlen & Hfr & _).
  exists v. do 2 (split; [done|]). split; [by apply sinv_set_val|done].
Qed.

(** Under every schedule of its parallel loop the sweep changes values
    only, and only those of the slots that are not marked free: a slot
    with [list[s] = -1] keeps its value, and the factor is as well formed
    after the sweep as before. *)
Theorem sweep_keeps_free A sch LU :
  dims LU → I1 LU → I2 LU → I4 LU → I5 LU → Icol LU → I6 LU →
  csr_ok A → num_rows A = num_rows LU → sched_ok sch LU →
  ∃ v,
    magma_zmdynamicic_sweep A sch LU = Some (0, set_val LU v) ∧
    length v = length (val LU) ∧
    (∀ s, rd (llist LU) s = Some (-1) → rd v s = rd (val LU) s) ∧
    dims (set_val LU v) ∧ I1 (set_val LU v) ∧ I2 (set_val LU v) ∧
    I4 (set_val LU v) ∧ I5 (set_val LU v) ∧ Icol (set_val LU v) ∧
    I6 (set_val LU v).
Proof.
  intros Hd H1 H2 H4 H5 Hc H6 HA Hn Hok.
  destruct (sweep_sinv A sch LU (SInv _ Hd H1 H2 H4 H5 Hc H6) HA Hn Hok)
    as (v & Hrun & Hlen & [Hd' H1' H2' H4' H5' Hc' H6'] & Hfr).
  exists v. by do 9 (split; [done|]).
Qed.

(** The insertion leaves the number of slots as it is. *)
Lemma insert_step_nnz rm_loc LU_new LU i ni LU' ni' :
  insert_step rm_loc LU_new LU i ni = Some (LU', ni') → nnz LU' = nnz LU.
Proof.
  intros Hstep. pose proof Hstep as Hs. unfold insert_step in Hs.
  destruct (rd rm_loc ni) as [loc|] eqn:Hloc; [|done].
  destruct (rd (rowidx LU_new) i) as [r|] eqn:Hr; [|done].
  destruct (rd (col LU_new) i) as [c|] eqn:Hc; [|done].
  cbn [mbind option_bind] in Hs.
  destruct (rd (row LU) r) as [old|] eqn:Hold; [|done]. clear Hs.
  destruct (insert_step_shape rm_loc LU_new LU i ni LU' ni' loc r c old
              Hloc Hr Hc Hold Hstep)
    as [[-> _]|(_ & [Hp|(j & jn & Hsp & _)])]; [done|..].
  - unfold prepend in Hp.
    destruct (wr (row LU) r loc) as [rw|]; [|done].
    cbn [mbind option_bind] in Hp.
    by apply write_entry_inv in Hp as (_ & _ & Hz & _).
  - unfold splice in Hsp.
    destruct (wr (llist LU) j loc) as [lw|]; [|done].
    cbn [mbind option_bind] in Hsp.
    by apply write_entry_inv in Hsp as (_ & _ & Hz & _).
Qed.

Lemma insert_loop_nnz num_rm rm_loc LU_new :
  ∀ fuel LU i ni LU' i' ni',
    insert_loop fuel num_rm rm_loc LU_new LU i ni = Some (LU', i', ni') →
    nnz LU' = nnz LU.
Proof.
  induction fuel as [|fuel IH]; intros LU i ni LU' i' ni'; [done|].
  cbn [insert_loop]. destruct (ni <? num_rm); [|by intros [= <- _ _]].
  destruct (nnz LU_new <=? i); [by intros [= <- _ _]|].
  destruct (insert_step rm_loc LU_new LU i ni) as [[LU1 ni1]|] eqn:Hstep;
    [|done].
  cbn [mbind option_bind]. intros Hloop%IH.
  by rewrite Hloop, (insert_step_nnz _ _ _ _ _ _ _ Hstep).
Qed.

Lemma insert_nnz sel tri num_rm rm_loc LU_new LU info LU_new' LU' :
  magma_zmdynamicic_insert sel tri num_rm rm_loc LU_new LU
    = Some (info, LU_new', LU') →
  nnz LU' = nnz LU.
Proof.
  unfold magma_zmdynamicic_insert, rank_and_insert.
  destruct (nnz LU_new <=? num_rm); [by intros [= _ _ <-]|].
  destruct (sel (val LU_new) num_rm (nnz LU_new - 1) 1) as [[info0 v] e].
  destruct (negb (info0 =? 0)); [by intros [= _ _ <-]|].
  destruct (insert_loop _ _ _ _ _ _ _) as [[[LU1 i1] ni1]|] eqn:Hloop; [|done].
  cbn [mbind option_bind]. intros [= _ _ <-].
  by eapply insert_loop_nnz.
Qed.

End SweepMore.

(** ** One round: discovery, residuals, removal, insertion and sweep *)

Section Round.
Context {V : Type} `{Scalar V}.
Implicit Types A LU LU_new : magma_z_matrix V.

Variable magma_zmorderstatistics : list V → Z → Z → Z → Z * list V * V.
Variable magma_index_malloc_cpu : Z → Z.
Variable magma_zmalloc_cpu : Z → Z.

(** The routines of the file in the order of a round of the factorization:
    on a well-formed factor each of them returns, the insertion takes the
    candidates of the discovery and the slots of the removal, and the
    factor is well formed again after the sweep, under every schedule of
    the parallel loop of the sweep. *)
Theorem round_keeps_invariants thrs tri A sch LU LU_new rm_loc :
  dims LU → I1 LU → I2 LU → I4 LU → I5 LU → Icol LU → I6 LU →
  csr_ok A → num_rows A = num_rows LU →
  nnz LU ≤ Z.of_nat (length rm_loc) →
  sched_ok sch LU →
  ∃ info1 LU_new1,
    magma_zmdynamicic_candidates_n magma_index_malloc_cpu magma_zmalloc_cpu
      LU LU_new = Some (info1, LU_new1) ∧
    (info1 = 0 →
     ∃ LU_new2 num_rm LU1 rm_loc1 info LU_new3 LU2 v,
       magma_zmdynamicic_residuals A LU LU_new1 = Some (0, LU_new2) ∧
       magma_zmdynamicilu_rm_thrs thrs LU rm_loc
         = Some (0, num_rm, LU1, rm_loc1) ∧
       magma_zmdynamicic_insert magma_zmorderstatistics tri num_rm rm_loc1
         LU_new2 LU1 = Some (info, LU_new3, LU2) ∧
       magma_zmdynamicic_sweep A sch LU2 = Some (0, set_val LU2 v) ∧
       dims (set_val LU2 v) ∧ I1 (set_val LU2 v) ∧ I2 (set_val LU2 v) ∧
       I3 (set_val LU2 v) ∧ I4 (set_val LU2 v) ∧ I5 (set_val LU2 v) ∧
       Icol (set_val LU2 v) ∧ I6 (set_val LU2 v)).
Proof.
  intros Hd H1 H2 H4 H5 Hc H6 HA Hn Hcap Hsch.
  destruct (candidates_n_full magma_index_malloc_cpu magma_zmalloc_cpu
              LU LU_new Hd H1 H2 H5 Hc) as (info1 & LU_new1 & Hrun & Hres).
  exists info1, LU_new1. split; [done|]. intros Hinfo.
  specialize (Hres Hinfo).
  set (cands := all_cands LU (Z.to_nat (num_rows LU))) in *.
  assert (Hpos : ∀ e, 0 ≤ e < nnz LU_new1 →
            ∃ r c, rd (rowidx LU_new1) e = Some r ∧
                   rd (col LU_new1) e = Some c ∧
                   is_row LU r ∧ 0 ≤ c < r).
  { rewrite Hres. cbn [nnz rowidx col]. intros e He.
    destruct (lookup_lt_is_Some_2 cands (Z.to_nat e)) as [[r c] Hp]; [lia|].
    exists r, c. unfold rd. destruct (Z.leb_spec 0 e); [|lia].
    rewrite !list_lookup_fmap, Hp. do 2 (split; [done|]).
    apply list_elem_of_lookup_2 in Hp.
    apply (all_cands_spec LU r c Hd H1 H2 H5 Hc) in Hp
      as (r0 & Hr0 & Hne & (l & a & Hl & Ha & Hca) & (l2 & b & Hl2 & Hb & Hcb)
          & Hlt & _).
    destruct (slot_col_bounds LU r0 l a H2 H5 Hc Hr0 Hl Ha) as [_ Hra].
    destruct (slot_col_bounds LU r0 l2 b H2 H5 Hc Hr0 Hl2 Hb) as [[Hb0 _] _].
    split; [rewrite <- Hca; apply Hra; congruence|lia]. }
  assert (Hok : cand_ok LU_new1 LU).
  { constructor.
    - rewrite Hres. cbn [nnz val]. rewrite length_replicate. lia.
    - intros e He. destruct (Hpos e He) as (r & c & Hr & Hcl & Hrow & Hcr).
      exists r, c. do 3 (split; [done|]). unfold is_row in *. lia. }
  assert (Hnn : 0 ≤ nnz LU_new1) by (rewrite Hres; cbn [nnz]; lia).
  destruct (residuals_loop_spec A LU Hd H1 H2 H5 HA Hn
              (Z.to_nat (nnz LU_new1)) 0 LU_new1)
    as (LU_new2 & Hloop & E1 & E2 & E3 & _); [lia|lia|done|].
  destruct (rm_thrs_sinv thrs LU rm_loc (SInv _ Hd H1 H2 H4 H5 Hc H6) Hcap)
    as (LU1 & rm1 & D & Hrm & HR & Htake & Hs1).
  assert (Hin : insert_inputs (Z.of_nat (length D)) rm1 LU_new2 LU1).
  { apply (rm_result_inputs thrs LU LU1 D rm1 LU_new2 Hd HR Htake).
    rewrite E1, E2, E3. intros i Hi.
    destruct (Hpos i Hi) as (r & c & Hr & Hcl & Hrow & _). by exists r, c. }
  destruct (insert_sinv magma_zmorderstatistics tri (Z.of_nat (length D)) rm1
              LU_new2 LU1 Hs1 Hin) as (info & LU_new3 & LU2 & Hins & Hs2 & Hrows2 & _).
  { rewrite E1, E2, E3. intros i r c Hi Hr Hcl.
    destruct (Hpos i Hi) as (r' & c' & Hr' & Hcl' & _ & Hcr). congruence. }
  assert (Hok2 : sched_ok sch LU2).
  { destruct Hsch as [Hnd Hall]. constructor; [done|]. intros e.
    by rewrite (insert_nnz _ _ _ _ _ _ _ _ _ Hins), (rr_nnz _ _ _ _ _ _ HR). }
  destruct (sweep_sinv A sch LU2 Hs2 HA) as (v & Hsw & _ & Hs3 & _);
    [by rewrite Hrows2, (rr_rows _ _ _ _ _ _ HR)|done|].
  exists LU_new2, (Z.of_nat (length D)), LU1, rm1, info, LU_new3, LU2, v.
  split.
  { unfold magma_zmdynamicic_residuals. by rewrite Hloop. }
  do 3 (split; [done|]). destruct Hs3 as [D3 I13 I23 I43 I53 Ic3 I63].
  do 3 (split; [done|]). split; [by apply I2_I3|done].
Qed.

End Round.

(** ** The further properties on the examples *)

Lemma ex_LU_I6 : I6 ex_LU.
Proof. apply I6_check_sound. reflexivity. Qed.

Lemma ex_LU4_I6 : I6 ex_LU4.
Proof. apply I6_check_sound. reflexivity. Qed.

(** The candidates of [ex_cand] are in rows of [ex_LU4] too. *)
Lemma ex_cand_rows4 i :
  0 ≤ i < nnz ex_cand →
  ∃ r c, rd (rowidx ex_cand) i = Some r ∧ rd (col ex_cand) i = Some c ∧
         is_row ex_LU4 r.
Proof.
  intros Hi. simpl in Hi.
  assert (i = 0 ∨ i = 1 ∨ i = 2) as [-> | [-> | ->]] by lia;
    eexists _, _; (split; [reflexivity|]); (split; [reflexivity|]);
    unfold is_row; simpl; lia.
Qed.

Lemma ex_cand_below i r c :
  0 ≤ i < nnz ex_cand →
  rd (rowidx ex_cand) i = Some r → rd (col ex_cand) i = Some c → 0 ≤ c < r.
Proof.
  intros Hi. simpl in Hi.
  assert (i = 0 ∨ i = 1 ∨ i = 2) as [-> | [-> | ->]] by lia;
    intros [= <-] [= <-]; lia.
Qed.

(** Three candidates that the factor [ex_LU] holds already: [(2,0)],
    [(2,2)] and [(1,1)]. *)
Definition ex_cand_present : magma_z_matrix Z :=
  Matrix 3 3 3 [] [2; 2; 1] [0; 2; 1] [] [1; 1; 1].

Lemma ex_cand_present_in i :
  0 ≤ i < nnz ex_cand_present →
  ∃ r c, rd (rowidx ex_cand_present) i = Some r ∧
         rd (col ex_cand_present) i = Some c ∧ has_entry ex_LU r c.
Proof.
  intros Hi. simpl in Hi.
  assert (i = 0 ∨ i = 1 ∨ i = 2) as [-> | [-> | ->]] by lia;
    eexists _, _; (split; [reflexivity|]); (split; [reflexivity|]).
  - exists [3; 4], 3. split; [by apply row_chain_of_sound|]. split; [in_list|done].
  - exists [3; 4], 4. split; [by apply row_chain_of_sound|]. split; [in_list|done].
  - exists [2], 2. split; [by apply row_chain_of_sound|]. split; [in_list|done].
Qed.

(** The identity matrix of size [4]. *)
Definition ex_A4 : magma_z_matrix Z :=
  Matrix 4 4 4 [0; 1; 2; 3; 4] [] [0; 1; 2; 3] [] [1; 1; 1; 1].

Lemma ex_A4_ok : csr_ok ex_A4.
Proof.
  constructor; [done|]. intros r Hr. simpl in Hr.
  assert (r = 0 ∨ r = 1 ∨ r = 2 ∨ r = 3) as [-> | [-> | [-> | ->]]] by lia;
    eexists _, _; (split; [reflexivity|]); (split; [reflexivity|]); simpl; lia.
Qed.

Lemma rm_thrs_keeps_invariants_witness :
  ∃ num_rm LU' rm_loc',
    magma_zmdynamicilu_rm_thrs 3 ex_LU4 (replicate 9 0)
      = Some (0, num_rm, LU', rm_loc') ∧
    dims LU' ∧ I1 LU' ∧ I2 LU' ∧ I3 LU' ∧ I4 LU' ∧ I5 LU' ∧
    (Icol ex_LU4 → Icol LU') ∧ (I6 ex_LU4 → I6 LU').
Proof.
  apply (rm_thrs_keeps_invariants 3 ex_LU4 (replicate 9 0));
    try apply ex_LU4_wf. simpl. lia.
Defined.

Lemma rm_thrs_keeps_entries_witness :
  ∃ num_rm LU' rm_loc',
    magma_zmdynamicilu_rm_thrs 3 ex_LU4 (replicate 9 0)
      = Some (0, num_rm, LU', rm_loc') ∧
    (∀ r l s, is_row ex_LU4 r → row_chain ex_LU4 r l → s ∈ l →
       below (val ex_LU4) 3 s = false →
       (∃ l', row_chain LU' r l' ∧ s ∈ l') ∧
       rd (val LU') s = rd (val ex_LU4) s ∧
       rd (col LU') s = rd (col ex_LU4) s ∧
       rd (rowidx LU') s = rd (rowidx ex_LU4) s) ∧
    (∀ r l l', is_row ex_LU4 r → row_chain ex_LU4 r l → row_chain LU' r l' →
       l' `sublist_of` l) ∧
    (∀ s, free_slot ex_LU4 s → free_slot LU' s).
Proof.
  apply (rm_thrs_keeps_entries 3 ex_LU4 (replicate 9 0));
    try apply ex_LU4_wf. simpl. lia.
Defined.

(** No magnitude is below the magnitude of the threshold [0]. *)
Lemma rm_thrs_nothing_below_witness :
  magma_zmdynamicilu_rm_thrs 0 ex_LU4 [] = Some (0, 0, ex_LU4, []).
Proof.
  apply (rm_thrs_nothing_below 0 ex_LU4 []); try apply ex_LU4_wf.
  intros r l d s _ _ _. unfold below. destruct (rd (val ex_LU4) s); [|done].
  unfold abs_lt. simpl. apply Z.ltb_ge. lia.
Defined.

Lemma rm_thrs_idempotent_witness :
  ∃ num_rm LU' rm_loc',
    magma_zmdynamicilu_rm_thrs 3 ex_LU4 (replicate 9 0)
      = Some (0, num_rm, LU', rm_loc') ∧
    magma_zmdynamicilu_rm_thrs 3 LU' [] = Some (0, 0, LU', []).
Proof.
  apply (rm_thrs_idempotent 3 ex_LU4 (replicate 9 0) []);
    try apply ex_LU4_wf. simpl. lia.
Defined.

Lemma rm_thrs_then_insert_witness :
  ∃ num_rm LU1 rm_loc1 info LU_new' LU2,
    magma_zmdynamicilu_rm_thrs 3 ex_LU4 (replicate 9 0)
      = Some (0, num_rm, LU1, rm_loc1) ∧
    magma_zmdynamicic_insert select_model 0 num_rm rm_loc1 ex_cand LU1
      = Some (info, LU_new', LU2) ∧
    dims LU2 ∧ I1 LU2 ∧ I2 LU2 ∧ I3 LU2 ∧
    (∀ r c, has_entry LU1 r c → has_entry LU2 r c).
Proof.
  apply (rm_thrs_then_insert select_model 3 0 ex_LU4 (replicate 9 0) ex_cand);
    try apply ex_LU4_wf.
  - simpl. lia.
  - apply ex_cand_rows4.
Defined.

Lemma insert_ignores_values_witness :
  snd <$> magma_zmdynamicic_insert select_model 0 2 ex_rm_loc ex_cand ex_LU
  = snd <$> magma_zmdynamicic_insert select_model 0 2 ex_rm_loc
              (set_val ex_cand [1; 2; 3]) ex_LU.
Proof.
  apply (insert_ignores_values select_model select_model 0 2 ex_rm_loc
           ex_cand (set_val ex_cand [1; 2; 3]) ex_LU); reflexivity.
Defined.

Lemma insert_present_unchanged_witness :
  ∃ info LU_new',
    magma_zmdynamicic_insert select_model 0 2 ex_rm_loc ex_cand_present ex_LU
    = Some (info, LU_new', ex_LU).
Proof.
  apply (insert_present_unchanged select_model 0 2 ex_rm_loc ex_cand_present
           ex_LU); try apply ex_LU_wf.
  - apply ex_inputs. reflexivity.
  - apply ex_cand_present_in.
Defined.

Lemma insert_uses_freed_slots_witness :
  ∃ info LU_new' LU' ni,
    magma_zmdynamicic_insert select_model 0 2 ex_rm_loc ex_cand ex_LU
      = Some (info, LU_new', LU') ∧
    0 ≤ ni ≤ 2 ∧
    (∀ k, 0 ≤ k < ni →
       ∃ loc i r c l,
         rd ex_rm_loc k = Some loc ∧ 0 ≤ i < nnz ex_cand ∧
         rd (rowidx ex_cand) i = Some r ∧ rd (col ex_cand) i = Some c ∧
         rd (val LU') loc = Some zero ∧ rd (rowidx LU') loc = Some r ∧
         get (col LU') loc = c ∧ row_chain LU' r l ∧ loc ∈ l) ∧
    (∀ k, ni ≤ k < 2 → ∃ s, rd ex_rm_loc k = Some s ∧ free_slot LU' s) ∧
    (∀ s, (∀ k, 0 ≤ k < ni → rd ex_rm_loc k ≠ Some s) →
       rd (val LU') s = rd (val ex_LU) s ∧
       rd (rowidx LU') s = rd (rowidx ex_LU) s ∧
       get (col LU') s = get (col ex_LU) s) ∧
    (∀ r c, has_entry ex_LU r c → has_entry LU' r c).
Proof.
  apply (insert_uses_freed_slots select_model 0 2 ex_rm_loc ex_cand ex_LU);
    try apply ex_LU_wf; try lia.
  apply ex_inputs. reflexivity.
Defined.

Lemma insert_keeps_invariants_witness :
  ∃ info LU_new' LU',
    magma_zmdynamicic_insert select_model 0 2 ex_rm_loc ex_cand ex_LU
      = Some (info, LU_new', LU') ∧
    dims LU' ∧ I1 LU' ∧ I2 LU' ∧ I3 LU' ∧ I4 LU' ∧ I5 LU' ∧ Icol LU' ∧ I6 LU'.
Proof.
  apply (insert_keeps_invariants select_model 0 2 ex_rm_loc ex_cand ex_LU);
    try apply ex_LU_wf.
  - apply ex_LU_I6.
  - apply ex_inputs. reflexivity.
  - apply ex_cand_below.
Defined.

Lemma candidates_n_exact_witness :
  ∃ info LU_new',
    magma_zmdynamicic_candidates_n alloc_ok alloc_ok ex_LU4 ex_LU4
      = Some (info, LU_new') ∧
    (info = 0 →
       ∀ r' c,
         (∃ k, 0 ≤ k < nnz LU_new' ∧
               rd (rowidx LU_new') k = Some r' ∧ rd (col LU_new') k = Some c) ↔
         (∃ r, is_row ex_LU4 r ∧ r ≠ r' ∧ has_entry ex_LU4 r r' ∧
               has_entry ex_LU4 r c ∧ c < r' ∧ ¬ has_entry ex_LU4 r' c)).
Proof.
  apply (candidates_n_exact alloc_ok alloc_ok ex_LU4 ex_LU4);
    apply ex_LU4_wf.
Defined.

Lemma candidates_n_output_witness :
  ∃ info LU_new',
    magma_zmdynamicic_candidates_n alloc_ok alloc_ok ex_LU4 ex_LU4
      = Some (info, LU_new') ∧
    (info = 0 →
       num_rows LU_new' = num_rows ex_LU4 ∧ num_cols LU_new' = num_cols ex_LU4 ∧
       0 ≤ nnz LU_new' ∧
       Z.of_nat (length (rowidx LU_new')) = nnz LU_new' ∧
       Z.of_nat (length (col LU_new')) = nnz LU_new' ∧
       val LU_new' = replicate (Z.to_nat (nnz LU_new')) zero ∧
       row LU_new' = row ex_LU4 ∧ llist LU_new' = llist ex_LU4).
Proof.
  apply (candidates_n_output alloc_ok alloc_ok ex_LU4 ex_LU4);
    apply ex_LU4_wf.
Defined.

Lemma candidates_n_then_residuals_witness :
  ∃ info LU_new1,
    magma_zmdynamicic_candidates_n alloc_ok alloc_ok ex_LU4 ex_LU4
      = Some (info, LU_new1) ∧
    (info = 0 →
       ∃ LU_new2,
         magma_zmdynamicic_residuals ex_A4 ex_LU4 LU_new1 = Some (0, LU_new2) ∧
         rowidx LU_new2 = rowidx LU_new1 ∧ col LU_new2 = col LU_new1 ∧
         ∀ e, 0 ≤ e < nnz LU_new1 →
           rd (val LU_new2) e
           = Some (residual_of ex_A4 ex_LU4 (get (rowidx LU_new1) e)
                     (get (col LU_new1) e))).
Proof.
  apply (candidates_n_then_residuals alloc_ok alloc_ok ex_A4 ex_LU4 ex_LU4);
    try apply ex_LU4_wf.
  - apply ex_A4_ok.
  - reflexivity.
Defined.

Lemma candidates_loops_agree_witness :
  pair_row ex_LU4 (λ r c st, Some (st ++ [(r, c)])) 3 []
  = visit_row ex_LU4 (scan_insert ex_LU4) (λ r c st, Some (st ++ [(r, c)])) 3 [].
Proof.
  apply (candidates_loops_agree ex_LU4 (λ r c st, Some (st ++ [(r, c)])) 3 []);
    try apply ex_LU4_wf.
  unfold is_row. simpl. lia.
Defined.

Lemma sweep_keeps_free_witness :
  ∃ v,
    magma_zmdynamicic_sweep ex_A2 ex_sched ex_L2 = Some (0, set_val ex_L2 v) ∧
    length v = length (val ex_L2) ∧
    (∀ s, rd (llist ex_L2) s = Some (-1) → rd v s = rd (val ex_L2) s) ∧
    dims (set_val ex_L2 v) ∧ I1 (set_val ex_L2 v) ∧ I2 (set_val ex_L2 v) ∧
    I4 (set_val ex_L2 v) ∧ I5 (set_val ex_L2 v) ∧ Icol (set_val ex_L2 v) ∧
    I6 (set_val ex_L2 v).
Proof.
  apply (sweep_keeps_free ex_A2 ex_sched ex_L2); try apply ex_L2_wf.
  - apply ex_L2_I6.
  - apply ex_A2_ok.
  - reflexivity.
  - by apply ex_sched_ok.
Defined.

(** A schedule of nine turns: the slots from the last to the first, each
    turn reading the slot [k] after [k] turns have ended. *)
Definition ex_sched9 : schedule :=
  Schedule (reverse (seqZ 0 9)) (λ _ _ k, Z.to_nat k).

Lemma ex_sched9_ok (LU : magma_z_matrix Z) : nnz LU = 9 → sched_ok ex_sched9 LU.
Proof.
  intros Hn. constructor; unfold ex_sched9; cbn [order].
  - rewrite reverse_Permutation. apply NoDup_seqZ.
  - intros e. rewrite elem_of_reverse, elem_of_seqZ, Hn. lia.
Qed.

Lemma round_keeps_invariants_witness :
  ∃ info1 LU_new1,
    magma_zmdynamicic_candidates_n alloc_ok alloc_ok ex_LU4 ex_LU4
      = Some (info1, LU_new1) ∧
    (info1 = 0 →
     ∃ LU_new2 num_rm LU1 rm_loc1 info LU_new3 LU2 v,
       magma_zmdynamicic_residuals ex_A4 ex_LU4 LU_new1 = Some (0, LU_new2) ∧
       magma_zmdynamicilu_rm_thrs 3 ex_LU4 (replicate 9 0)
         = Some (0, num_rm, LU1, rm_loc1) ∧
       magma_zmdynamicic_insert select_model 0 num_rm rm_loc1 LU_new2 LU1
         = Some (info, LU_new3, LU2) ∧
       magma_zmdynamicic_sweep ex_A4 ex_sched9 LU2 = Some (0, set_val LU2 v) ∧
       dims (set_val LU2 v) ∧ I1 (set_val LU2 v) ∧ I2 (set_val LU2 v) ∧
       I3 (set_val LU2 v) ∧ I4 (set_val LU2 v) ∧ I5 (set_val LU2 v) ∧
       Icol (set_val LU2 v) ∧ I6 (set_val LU2 v)).
Proof.
  apply (round_keeps_invariants select_model alloc_ok alloc_ok 3 0 ex_A4
           ex_sched9 ex_LU4 ex_LU4 (replicate 9 0)); try apply ex_LU4_wf.
  - apply ex_LU4_I6.
  - apply ex_A4_ok.
  - reflexivity.
  - simpl. lia.
  - by apply ex_sched9_ok.
Defined.

(** The round on the example: the candidates [(1,0)], [(2,0)], [(2,1)],
    the removal of the slots [4] and [6], and the insertion of the first
    two candidates in these slots. *)
Example round_example :
  ∃ LU1 rm_loc1 LU_new3,
    magma_zmdynamicilu_rm_thrs 3 ex_LU4 (replicate 9 0)
      = Some (0, 2, LU1, rm_loc1) ∧
    take 2 rm_loc1 = [4; 6] ∧
    magma_zmdynamicic_insert select_model 0 2 rm_loc1
      (Matrix 4 4 3 [1; 2; 3; 4; 0] [1; 2; 2] [0; 0; 1]
         [-1; 0; 0; 0; 5; 6; 7; 0; -1] [0; 0; 0]) LU1
    = Some (0, LU_new3,
            Matrix 4 4 9 [1; 4; 6; 5; 0] [0; 0; 1; 2; 1; 3; 2; 3; 0]
              [0; 0; 1; 2; 0; 1; 0; 3; 0] [-1; 0; 0; 0; 2; 7; 3; 0; -1]
              [0; 5; 5; 5; 0; 9; 0; 1; 0]).
Proof. eexists _, _, _. split; [reflexivity|]. split; reflexivity. Qed.

(** ** The second variant of the insertion: [magma_zmdynamicic_insert_om] *)

Section InsertOm.
Context {V : Type} `{Scalar V}.
Implicit Types LU LU_new : magma_z_matrix V.

Variable magma_zmorderstatistics : list V → Z → Z → Z → Z * list V * V.

(** The inner [while( j!=0 )] of the variant: the walk stops at a
    duplicate in [jn] or in [j]; the second test is evaluated when the
    first one fails. *)
Fixpoint insert_walk_om (fuel : nat) LU (loc new_row new_col j jn num_insert : Z)
  : option (magma_z_matrix V * Z) :=
  match fuel with
  | O => None
  | S fuel' =>
    if j =? 0 then Some (LU, num_insert) else
    cjn ← rd (col LU) jn;
    if cjn =? new_col then Some (LU, num_insert)
    else
      cj ← rd (col LU) j;
      if cj =? new_col then Some (LU, num_insert)
      else if new_col <? cjn then
        LU' ← splice LU loc j jn new_row new_col;
        Some (LU', num_insert + 1)
      else
        jn' ← rd (llist LU) jn;
        insert_walk_om fuel' LU loc new_row new_col jn jn' num_insert
  end.

(** The body of the outer loop: the slot is [rm_loc[ i ]], and there is no
    test of the column of the row start for equality. *)
Definition insert_step_om (rm_loc : list Z) LU_new LU (i num_insert : Z)
  : option (magma_z_matrix V * Z) :=
  loc ← rd rm_loc i;
  new_row ← rd (rowidx LU_new) i;
  new_col ← rd (col LU_new) i;
  old_rowstart ← rd (row LU) new_row;
  c0 ← rd (col LU) old_rowstart;
  if new_col <? c0 then
    LU' ← prepend LU loc old_rowstart new_row new_col;
    Some (LU', num_insert + 1)
  else
    jn ← rd (llist LU) old_rowstart;
    insert_walk_om (S (length (llist LU))) LU loc new_row new_col
      old_rowstart jn num_insert.

(** The outer [while( num_insert < num_rm )]: the test [i>=LU_new->nnz]
    only prints, and the loop goes on. *)
Fixpoint insert_loop_om (fuel : nat) (num_rm : Z) (rm_loc : list Z)
    LU_new LU (i num_insert : Z) : option (magma_z_matrix V * Z * Z) :=
  match fuel with
  | O => None
  | S fuel' =>
    if num_insert <? num_rm then
      '(LU', num_insert') ← insert_step_om rm_loc LU_new LU i num_insert;
      insert_loop_om fuel' num_rm rm_loc LU_new LU' (i + 1) num_insert'
    else Some (LU, i, num_insert)
  end.

(** The routine. The order statistics are called on all [LU_new->nnz]
    values. A turn of the loop reads [LU_new->rowidx[ i ]], so the loop
    has left the array after [length rowidx + 1] turns at the latest. *)
Definition magma_zmdynamicic_insert_om (tri num_rm : Z) (rm_loc : list Z)
    LU_new LU : option (Z * magma_z_matrix V * magma_z_matrix V) :=
  if nnz LU_new <=? num_rm then Some (0, LU_new, LU)
  else
    let '(info, v, element) :=
      magma_zmorderstatistics (val LU_new) (nnz LU_new) (nnz LU_new - 1) 1 in
    let LU_new' := set_val LU_new v in
    if negb (info =? 0) then Some (info, LU_new', LU)
    else
      '(LU', _, _) ← insert_loop_om (S (length (rowidx LU_new))) num_rm rm_loc
                       LU_new' LU 0 0;
      Some (info, LU_new', LU').

(** A walk that changes the factor has spliced the slot between two
    neighbours: the columns of the slots that the walk has passed differ
    from the column of the candidate, and the column behind is above it. *)
Lemma insert_walk_om_shape LU loc r c ni :
  ∀ fuel j jn LU' ni',
    rd (llist LU) j = Some jn →
    insert_walk_om fuel LU loc r c j jn ni = Some (LU', ni') →
    (LU' = LU ∧ ni' = ni) ∨
    ∃ j' jn', rd (llist LU) j' = Some jn' ∧
      get (col LU) j' ≠ c ∧ c < get (col LU) jn' ∧
      (∀ l, chain (llist LU) j l →
         ∃ l1 l2, l = l1 ++ j' :: l2 ∧
                  (∀ x, x ∈ l1 →
                     get (col LU) x ≠ c ∧ (x = j ∨ get (col LU) x < c))).
Proof.
  induction fuel as [|fuel IH]; intros j jn LU' ni' Hjn; [done|].
  cbn [insert_walk_om]. destruct (Z.eqb_spec j 0) as [Hj0|Hj0].
  { intros [= <- <-]. by left. }
  destruct (rd (col LU) jn) as [cjn|] eqn:Hcjn; [|done].
  cbn [mbind option_bind].
  destruct (Z.eqb_spec cjn c) as [Heq|Hne].
  { intros [= <- <-]. by left. }
  destruct (rd (col LU) j) as [cj|] eqn:Hcj; [|done]. cbn [mbind option_bind].
  destruct (Z.eqb_spec cj c) as [Heqj|Hnej].
  { intros [= <- <-]. by left. }
  destruct (Z.ltb_spec c cjn) as [Hc|Hc].
  - intros _. right. exists j, jn. split; [done|].
    rewrite (rd_get _ _ _ Hcj), (rd_get _ _ _ Hcjn). do 2 (split; [done|]).
    intros l Hl. inversion Hl as [|? s' l' _ Hs' Hl']; subst; [done|].
    exists [], l'. split; [done|]. by intros x ?%elem_of_nil.
  - destruct (rd (llist LU) jn) as [jn'|] eqn:Hjn'; [|done].
    cbn [mbind option_bind]. intros Hw.
    destruct (IH jn jn' LU' ni' Hjn' Hw)
      as [Hsame|(j' & jn2 & Hr & Hne' & Hhi & Hin)]; [by left|].
    right. exists j', jn2. do 3 (split; [done|]).
    intros l Hl. inversion Hl as [|? s' l' _ Hs' Hl']; subst; [done|].
    rewrite Hjn in Hs'. injection Hs' as <-.
    destruct (Hin l' Hl') as (l1 & l2 & -> & Hl1).
    exists (j :: l1), l2. split; [done|].
    intros x [->|Hx]%elem_of_cons.
    { rewrite (rd_get _ _ _ Hcj). split; [done|by left]. }
    destruct (Hl1 x Hx) as [Hxc [->|Hlt]]; (split; [done|]); right; [|done].
    rewrite (rd_get _ _ _ Hcjn). lia.
Qed.

(** A candidate that the factor holds already: the turn of the loop
    leaves the factor and [num_insert] as they are, if it returns. *)
Lemma insert_step_om_present rm_loc LU_new LU i ni r c LU' ni' :
  dims LU → I2 LU → is_row LU r →
  rd (rowidx LU_new) i = Some r → rd (col LU_new) i = Some c →
  has_entry LU r c →
  insert_step_om rm_loc LU_new LU i ni = Some (LU', ni') →
  LU' = LU ∧ ni' = ni.
Proof.
  intros Hd H2 Hrow Hr Hc (l & s & Hl & Hs & Hcs). unfold insert_step_om.
  destruct (rd rm_loc i) as [loc|]; [|done]. cbn [mbind option_bind].
  rewrite Hr, Hc. cbn [mbind option_bind].
  pose proof Hl as (old & Hold & Hch). rewrite Hold. cbn [mbind option_bind].
  destruct (rd (col LU) old) as [c0|] eqn:Hc0; [|done].
  cbn [mbind option_bind].
  pose proof (H2 r l Hrow Hl) as Hsort.
  assert (Hhead : ∃ rest, l = old :: rest).
  { destruct l as [|x rest]; [by apply elem_of_nil in Hs|].
    apply chain_head in Hch as ->. by exists rest. }
  destruct Hhead as [rest ->].
  destruct (Z.ltb_spec c c0) as [Hlt|Hge].
  { exfalso. rewrite <- (rd_get _ _ _ Hc0) in Hlt.
    apply elem_of_cons in Hs as [->|Hs]; [lia|].
    pose proof (sorted_head_lt LU old rest s Hsort Hs). lia. }
  destruct (rd (llist LU) old) as [jn|] eqn:Hjn; [|done].
  cbn [mbind option_bind]. intros Hw.
  destruct (insert_walk_om_shape LU loc r c ni _ old jn LU' ni' Hjn Hw)
    as [?|(j' & jn' & Hr' & Hne & Hhi & Hin)]; [done|].
  exfalso. destruct (Hin _ Hch) as (l1 & l2 & Heq & Hl1).
  assert (Hl1c : ∀ x, x ∈ l1 → get (col LU) x < c).
  { intros x Hx. destruct (Hl1 x Hx) as [Hxc [->|?]]; [|done].
    rewrite (rd_get _ _ _ Hc0) in Hxc. rewrite (rd_get _ _ _ Hc0). lia. }
  rewrite Heq in Hs, Hsort, Hch.
  apply elem_of_app in Hs as [Hs|Hs]; [apply Hl1c in Hs; lia|].
  apply elem_of_cons in Hs as [->|Hs]; [done|].
  pose proof (chain_suffix _ _ _ _ _ Hch) as Hcj.
  apply chain_cons_inv in Hcj as (_ & _ & s' & Hs' & Hc2).
  rewrite Hr' in Hs'. injection Hs' as <-.
  destruct l2 as [|x l2]; [by apply elem_of_nil in Hs|].
  apply chain_head in Hc2 as ->.
  unfold colsof in Hsort. rewrite fmap_app in Hsort.
  apply StronglySorted_app_1_r in Hsort. rewrite fmap_cons in Hsort.
  apply StronglySorted_inv in Hsort as [Hsort _].
  apply elem_of_cons in Hs as [->|Hs]; [lia|].
  fold (colsof LU (x :: l2)) in Hsort.
  pose proof (sorted_head_lt LU x l2 s Hsort Hs). lia.
Qed.

(** With candidates that the factor holds already the loop never ends on
    its own: every turn leaves [num_insert] as it is, and the turn with
    [i] at the end of [LU_new->rowidx] reads outside of the array. *)
Lemma insert_loop_om_present num_rm rm_loc LU_new LU ni :
  dims LU → I2 LU →
  (∀ i, 0 ≤ i < Z.of_nat (length (rowidx LU_new)) →
     ∃ r c, rd (rowidx LU_new) i = Some r ∧ rd (col LU_new) i = Some c ∧
            is_row LU r ∧ has_entry LU r c) →
  ni < num_rm →
  ∀ fuel i, 0 ≤ i →
    insert_loop_om fuel num_rm rm_loc LU_new LU i ni = None.
Proof.
  intros Hd H2 Hall Hni. induction fuel as [|fuel IH]; intros i Hi; [done|].
  cbn [insert_loop_om]. destruct (Z.ltb_spec ni num_rm); [|lia].
  destruct (insert_step_om rm_loc LU_new LU i ni) as [[LU' ni']|] eqn:Hstep;
    [|done].
  cbn [mbind option_bind].
  destruct (Z.lt_ge_cases i (Z.of_nat (length (rowidx LU_new)))) as [Hlt|Hge].
  - destruct (Hall i ltac:(lia)) as (r & c & Hr & Hc & Hrow & Hhas).
    destruct (insert_step_om_present rm_loc LU_new LU i ni r c LU' ni'
                Hd H2 Hrow Hr Hc Hhas Hstep) as [-> ->].
    apply IH. lia.
  - exfalso. revert Hstep. unfold insert_step_om.
    destruct (rd rm_loc i); [|done]. cbn [mbind option_bind].
    destruct (rd (rowidx LU_new) i) as [r|] eqn:Hr; [|done].
    apply rd_Some_range in Hr. lia.
Qed.

(** The extra test of the variant never fires behind a slot whose column
    differs from the column of the candidate. *)
Lemma insert_walk_om_agree LU loc r c ni :
  ∀ fuel j jn cj,
    rd (col LU) j = Some cj → cj ≠ c →
    insert_walk_om fuel LU loc r c j jn ni
    = insert_walk fuel LU loc r c j jn ni.
Proof.
  induction fuel as [|fuel IH]; intros j jn cj Hcj Hne; [done|].
  cbn [insert_walk_om insert_walk]. destruct (j =? 0); [done|].
  destruct (rd (col LU) jn) as [cjn|] eqn:Hcjn; [|done].
  cbn [mbind option_bind]. destruct (Z.eqb_spec cjn c) as [|Hnejn]; [done|].
  rewrite Hcj. cbn [mbind option_bind].
  destruct (Z.eqb_spec cj c); [done|]. destruct (c <? cjn); [done|].
  destruct (rd (llist LU) jn) as [jn'|]; [|done]. cbn [mbind option_bind].
  by apply (IH jn jn' cjn).
Qed.

(** A turn of the variant does what a turn of [magma_zmdynamicic_insert]
    does, when both take the slot from the same place of [rm_loc]. *)
Lemma insert_step_om_agree rm_loc LU_new LU i r l :
  dims LU → rd (rowidx LU_new) i = Some r → row_chain LU r l →
  insert_step_om rm_loc LU_new LU i i = insert_step rm_loc LU_new LU i i.
Proof.
  intros Hd Hr (old & Hold & Hch). unfold insert_step_om, insert_step.
  destruct (rd rm_loc i) as [loc|]; [|done]. cbn [mbind option_bind].
  rewrite Hr. cbn [mbind option_bind].
  destruct (rd (col LU_new) i) as [c|]; [|done]. cbn [mbind option_bind].
  rewrite Hold. cbn [mbind option_bind].
  destruct (rd (col LU) old) as [c0|] eqn:Hc0; [|done].
  cbn [mbind option_bind]. destruct (c <? c0); [done|].
  destruct (Z.eqb_spec c c0) as [->|Hne].
  2:{ destruct (rd (llist LU) old) as [jn|]; [|done]. cbn [mbind option_bind].
      apply (insert_walk_om_agree LU loc r c i _ old jn c0); [done|congruence]. }
  pose proof (d_col _ Hd) as Dc. pose proof (d_llist _ Hd) as Dl.
  pose proof (d_nnz _ Hd) as Dn.
  destruct Hch as [|s s' l' Hs Hs' Hl'].
  - destruct (rd_is_Some (llist LU) 0) as [jn Hjn]; [lia|]. by rewrite Hjn.
  - rewrite Hs'. cbn [mbind option_bind insert_walk_om].
    destruct (Z.eqb_spec s 0); [done|].
    assert (Hr' : 0 ≤ s' < Z.of_nat (length (llist LU))).
    { apply (chain_start_range _ _ l'); [lia|done]. }
    rewrite (get_rd (col LU) s') by lia. cbn [mbind option_bind].
    destruct (get (col LU) s' =? c0); [done|].
    rewrite Hc0. cbn [mbind option_bind]. by rewrite Z.eqb_refl.
Qed.

(** The cursor [i] never falls behind [num_insert]. *)
Lemma insert_loop_diff num_rm rm_loc LU_new LU0 :
  insert_inputs num_rm rm_loc LU_new LU0 →
  ∀ fuel LU i ni LU' i' ni',
    loop_inv num_rm rm_loc LU0 LU ni → 0 ≤ i →
    insert_loop fuel num_rm rm_loc LU_new LU i ni = Some (LU', i', ni') →
    i - ni ≤ i' - ni'.
Proof.
  intros Hin. induction fuel as [|fuel IH]; intros LU i ni LU' i' ni' Hinv Hi;
    [done|].
  cbn [insert_loop]. destruct (Z.ltb_spec ni num_rm) as [Hlt|Hge].
  2:{ intros [= <- <- <-]. lia. }
  destruct (Z.leb_spec (nnz LU_new) i) as [Hend|Hgt].
  { intros [= <- <- <-]. lia. }
  destruct (insert_step_inv num_rm rm_loc LU_new LU0 LU i ni Hin Hinv
              ltac:(lia) Hlt)
    as (LU1 & ni1 & loc & r & c & l0 & Hstep & _ & _ & _ & _ & _ & _ & Hcase
        & Hinv1).
  rewrite Hstep. cbn [mbind option_bind]. intros Hloop.
  apply IH in Hloop; [|done|lia].
  destruct Hcase as [(_ & -> & _)|(-> & _)]; lia.
Qed.

Lemma insert_loop_om_agree num_rm rm_loc LU_new LU0 LU' n :
  insert_inputs num_rm rm_loc LU_new LU0 → num_rm ≤ n →
  ∀ fuel LU i,
    loop_inv num_rm rm_loc LU0 LU i → 0 ≤ i →
    insert_loop fuel num_rm rm_loc LU_new LU i i = Some (LU', n, n) →
    ∀ fuel', (Z.to_nat (num_rm - i) < fuel')%nat →
      insert_loop_om fuel' num_rm rm_loc LU_new LU i i = Some (LU', n, n).
Proof.
  intros Hin Hn. induction fuel as [|fuel IH]; intros LU i Hinv Hi; [done|].
  cbn [insert_loop]. intros Hloop fuel' Hf.
  destruct fuel' as [|fuel']; [lia|]. cbn [insert_loop_om].
  destruct (Z.ltb_spec i num_rm) as [Hlt|Hge]; [|done].
  destruct (Z.leb_spec (nnz LU_new) i) as [Hend|Hgt].
  { injection Hloop as <- <-. lia. }
  destruct (insert_step_inv num_rm rm_loc LU_new LU0 LU i i Hin Hinv
              ltac:(lia) Hlt)
    as (LU1 & ni1 & loc & r & c & l0 & Hstep & _ & _ & Hr & _ & _ & Hl0 & Hcase
        & Hinv1).
  rewrite Hstep in Hloop. cbn [mbind option_bind] in Hloop.
  rewrite (insert_step_om_agree rm_loc LU_new LU i r l0
             (li_dims _ _ _ _ _ Hinv) Hr Hl0), Hstep.
  cbn [mbind option_bind].
  pose proof (insert_loop_diff num_rm rm_loc LU_new LU0 Hin fuel LU1 (i + 1)
                ni1 LU' n n Hinv1 ltac:(lia) Hloop) as Hdiff.
  assert (ni1 = i + 1) as ->
    by (destruct Hcase as [(_ & -> & _)|(-> & _)]; lia).
  apply (IH LU1 (i + 1)); [done|lia|done|lia].
Qed.

End InsertOm.

Section InsertOmProperties.
Context {V : Type} `{Scalar V}.
Implicit Types LU LU_new : magma_z_matrix V.

(** When the factor holds every candidate already and at least one slot
    is to be filled, [magma_zmdynamicic_insert_om] does not return: its
    loop has no exit at the end of the candidate list, no turn changes
    [num_insert], and the loop reads [LU_new->rowidx] behind its last
    entry. *)
Theorem insert_om_runs_past_end sel tri num_rm rm_loc LU_new LU :
  dims LU → I2 LU →
  (∀ i, 0 ≤ i < Z.of_nat (length (rowidx LU_new)) →
     ∃ r c, rd (rowidx LU_new) i = Some r ∧ rd (col LU_new) i = Some c ∧
            is_row LU r ∧ has_entry LU r c) →
  0 < num_rm < nnz LU_new →
  (sel (val LU_new) (nnz LU_new) (nnz LU_new - 1) 1).1.1 = 0 →
  magma_zmdynamicic_insert_om sel tri num_rm rm_loc LU_new LU = None ∧
  ∀ fuel v, insert_loop_om fuel num_rm rm_loc (set_val LU_new v) LU 0 0 = None.
Proof.
  intros Hd H2 Hall Hnum Hsel.
  assert (Hloop : ∀ fuel v,
            insert_loop_om fuel num_rm rm_loc (set_val LU_new v) LU 0 0 = None).
  { intros fuel v.
    apply (insert_loop_om_present num_rm rm_loc (set_val LU_new v) LU 0 Hd H2);
      [exact Hall|lia|lia]. }
  split; [|done]. unfold magma_zmdynamicic_insert_om.
  destruct (Z.leb_spec (nnz LU_new) num_rm); [lia|].
  destruct (sel (val LU_new) (nnz LU_new) (nnz LU_new - 1) 1) as [[info v] e].
  cbn [fst snd] in Hsel. subst info. cbn [negb Z.eqb].
  change (length (rowidx LU_new)) with (length (rowidx (set_val LU_new v))).
  by rewrite Hloop.
Qed.

(** When [magma_zmdynamicic_insert] fills a freed slot at each of its
    first [num_rm] turns, [magma_zmdynamicic_insert_om] returns the same
    factor. *)
Theorem insert_om_agrees sel1 sel2 tri num_rm rm_loc LU_new LU LU' :
  dims LU → I1 LU → I2 LU → insert_inputs num_rm rm_loc LU_new LU →
  0 ≤ num_rm < nnz LU_new →
  (sel1 (val LU_new) num_rm (nnz LU_new - 1) 1).1.1 = 0 →
  (sel2 (val LU_new) (nnz LU_new) (nnz LU_new - 1) 1).1.1 = 0 →
  insert_loop (S (Z.to_nat (nnz LU_new))) num_rm rm_loc LU_new LU 0 0
    = Some (LU', num_rm, num_rm) →
  snd <$> magma_zmdynamicic_insert sel1 tri num_rm rm_loc LU_new LU = Some LU' ∧
  snd <$> magma_zmdynamicic_insert_om sel2 tri num_rm rm_loc LU_new LU
  = Some LU'.
Proof.
  intros Hd H1 H2 Hin Hnum Hs1 Hs2 Hloop.
  assert (Hlen : nnz LU_new ≤ Z.of_nat (length (rowidx LU_new))).
  { destruct (ii_cand _ _ _ _ Hin (nnz LU_new - 1)) as (r & c & Hr & _);
      [lia|]. apply rd_Some_range in Hr. lia. }
  split.
  - unfold magma_zmdynamicic_insert, rank_and_insert.
    destruct (Z.leb_spec (nnz LU_new) num_rm); [lia|].
    destruct (sel1 (val LU_new) num_rm (nnz LU_new - 1) 1) as [[info v1] e].
    cbn [fst snd] in Hs1. subst info. cbn [negb Z.eqb]. cbv beta iota zeta.
    rewrite (insert_loop_positions _ num_rm rm_loc (set_val LU_new v1) LU_new)
      by done.
    by rewrite Hloop.
  - unfold magma_zmdynamicic_insert_om.
    destruct (Z.leb_spec (nnz LU_new) num_rm); [lia|].
    destruct (sel2 (val LU_new) (nnz LU_new) (nnz LU_new - 1) 1)
      as [[info v2] e].
    cbn [fst snd] in Hs2. subst info. cbn [negb Z.eqb].
    rewrite (insert_loop_om_agree num_rm rm_loc (set_val LU_new v2) LU LU'
               num_rm (insert_inputs_set_val _ _ _ _ v2 Hin) ltac:(lia)
               (S (Z.to_nat (nnz LU_new))) LU 0
               (loop_inv_init _ _ _ _ Hd H1 H2 (insert_inputs_set_val _ _ _ _ v2 Hin))
               ltac:(lia)).
    + done.
    + by rewrite (insert_loop_positions _ num_rm rm_loc (set_val LU_new v2)
                    LU_new) by done.
    + simpl. lia.
Qed.

End InsertOmProperties.

(** ** The first candidates are in the factor after the insertion *)

Section InsertCovers.
Context {V : Type} `{Scalar V}.
Implicit Types LU LU_new : magma_z_matrix V.

Lemma insert_loop_covers num_rm rm_loc LU_new LU0 :
  insert_inputs num_rm rm_loc LU_new LU0 →
  (∀ i r c, 0 ≤ i < nnz LU_new →
     rd (rowidx LU_new) i = Some r → rd (col LU_new) i = Some c → 0 ≤ c < r) →
  ∀ fuel LU i ni,
    loop_inv num_rm rm_loc LU0 LU ni → sinv LU → 0 ≤ i →
    (∀ k, 0 ≤ k < i →
       ∃ r c, rd (rowidx LU_new) k = Some r ∧ rd (col LU_new) k = Some c ∧
              has_entry LU r c) →
    (Z.to_nat (nnz LU_new - i) < fuel)%nat →
    ∃ LU' i' ni',
      insert_loop fuel num_rm rm_loc LU_new LU i ni = Some (LU', i', ni') ∧
      (num_rm ≤ ni' ∨ nnz LU_new ≤ i') ∧ i - ni ≤ i' - ni' ∧
      ∀ k, 0 ≤ k < i' →
        ∃ r c, rd (rowidx LU_new) k = Some r ∧ rd (col LU_new) k = Some c ∧
               has_entry LU' r c.
Proof.
  intros Hin Hbelow fuel.
  induction fuel as [|fuel IH]; intros LU i ni Hinv Hs Hi Hcov Hf; [lia|].
  cbn [insert_loop]. destruct (Z.ltb_spec ni num_rm) as [Hlt|Hge].
  2:{ eexists _, _, _. split; [done|]. split; [by left|]. split; [lia|done]. }
  destruct (Z.leb_spec (nnz LU_new) i) as [Hend|Hgt].
  { eexists _, _, _. split; [done|]. split; [by right|]. split; [lia|done]. }
  destruct (insert_step_inv num_rm rm_loc LU_new LU0 LU i ni Hin Hinv
              ltac:(lia) Hlt)
    as (LU1 & ni1 & loc & r & c & l0 & Hstep & _ & Hfree & Hr & Hc & Hrow & Hl0
        & Hcase & Hinv1).
  destruct (insert_step_sinv num_rm rm_loc LU_new LU0 LU i ni Hin Hinv Hs
              ltac:(lia) Hlt) as (LU1' & ni1' & Hstep' & _ & Hs1).
  { intros r' c'. apply Hbelow. lia. }
  rewrite Hstep in Hstep'. injection Hstep' as <- <-.
  rewrite Hstep. cbn [mbind option_bind].
  assert (Hmono : ∀ r0 c0, has_entry LU r0 c0 → has_entry LU1 r0 c0).
  { destruct Hcase as [(-> & _)|(_ & Hg & _)]; [done|].
    intros r0 c0. by apply (graft_has_entry LU LU1 loc r c). }
  assert (Hnow : has_entry LU1 r c).
  { destruct Hcase as [(-> & _ & [(s & Hsl & Hsc)|Hall])|(_ & Hg & _)].
    - by exists l0, s.
    - exfalso. destruct (si_I5 _ Hs r l0 Hrow Hl0) as (l1 & d & -> & Hcd).
      rewrite Forall_forall in Hall.
      assert (get (col LU) d < c) by (apply Hall; in_list).
      pose proof (Hbelow i r c ltac:(lia) Hr Hc). lia.
    - by apply (graft_here LU LU1 loc r c). }
  destruct (IH LU1 (i + 1) ni1 Hinv1 Hs1 ltac:(lia))
    as (LU' & i' & ni' & Hloop & Hend & Hdiff & Hcov').
  { intros k Hk. destruct (Z.eq_dec k i) as [->|Hne].
    - by exists r, c.
    - destruct (Hcov k ltac:(lia)) as (rk & ck & Hrk & Hck & Hhas).
      exists rk, ck. do 2 (split; [done|]). by apply Hmono. }
  { lia. }
  exists LU', i', ni'. split; [done|]. split; [done|]. split; [|done].
  destruct Hcase as [(_ & -> & _)|(-> & _)]; lia.
Qed.

(** When the round is not skipped and the order statistics succeed, each
    of the first [num_rm] candidates is an entry of the factor after the
    insertion: it was one already, or it has been inserted. *)
Theorem insert_covers_candidates sel tri num_rm rm_loc LU_new LU :
  dims LU → I1 LU → I2 LU → I4 LU → I5 LU → Icol LU → I6 LU →
  insert_inputs num_rm rm_loc LU_new LU →
  (∀ i r c, 0 ≤ i < nnz LU_new →
     rd (rowidx LU_new) i = Some r → rd (col LU_new) i = Some c → 0 ≤ c < r) →
  num_rm < nnz LU_new →
  (sel (val LU_new) num_rm (nnz LU_new - 1) 1).1.1 = 0 →
  ∃ LU_new' LU',
    magma_zmdynamicic_insert sel tri num_rm rm_loc LU_new LU
      = Some (0, LU_new', LU') ∧
    ∀ k, 0 ≤ k < num_rm →
      ∃ r c, rd (rowidx LU_new) k = Some r ∧ rd (col LU_new) k = Some c ∧
             has_entry LU' r c.
Proof.
  intros Hd H1 H2 H4 H5 Hc H6 Hin Hbelow Hnum Hsel.
  unfold magma_zmdynamicic_insert, rank_and_insert.
  destruct (Z.leb_spec (nnz LU_new) num_rm); [lia|].
  destruct (sel (val LU_new) num_rm (nnz LU_new - 1) 1) as [[info v] e].
  cbn [fst snd] in Hsel. subst info. cbn [negb Z.eqb]. cbv beta iota zeta.
  destruct (insert_loop_covers num_rm rm_loc (set_val LU_new v) LU
              (insert_inputs_set_val _ _ _ _ v Hin) Hbelow
              (S (Z.to_nat (nnz LU_new))) LU 0 0
              (loop_inv_init _ _ _ _ Hd H1 H2 Hin)
              (SInv _ Hd H1 H2 H4 H5 Hc H6))
    as (LU' & i' & ni' & Hloop & Hend & Hdiff & Hcov);
    [lia|intros k Hk; lia|simpl; lia|].
  rewrite Hloop. cbn [mbind option_bind]. exists (set_val LU_new v), LU'.
  split; [done|]. intros k Hk. apply Hcov.
  change (nnz (set_val LU_new v)) with (nnz LU_new) in Hend. lia.
Qed.

End InsertCovers.

(** ** The freed slots that the insertion uses *)

Lemma remove_dups_snoc_length {X} `{EqDecision X} (l : list X) (x : X) :
  length (remove_dups (l ++ [x]))
  = if decide (x ∈ l) then length (remove_dups l)
    else S (length (remove_dups l)).
Proof.
  induction l as [|a l IH].
  { simpl. destruct (decide_rel elem_of x []) as [Hx|_]; [|done].
    by apply elem_of_nil in Hx. }
  cbn [app remove_dups].
  destruct (decide_rel elem_of a (l ++ [x])) as [Ha|Ha];
    destruct (decide_rel elem_of a l) as [Hal|Hal];
    destruct (decide (x ∈ a :: l)) as [Hx|Hx];
    destruct (decide (x ∈ l)) as [Hxl|Hxl];
    cbn [length]; rewrite ?IH;
    try (destruct (decide (x ∈ l)); [|done]); try done;
    exfalso; revert Ha Hx; rewrite ?elem_of_app, ?elem_of_cons, ?elem_of_nil;
    try tauto.
  all: try (intros [?|[->|[]]] ?; tauto).
  all: try (intros ? ?; intuition congruence).
Qed.

Section InsertCount.
Context {V : Type} `{Scalar V}.
Implicit Types LU LU_new : magma_z_matrix V.

(** The position of the candidate [i], and the positions of the first
    [n] candidates. *)
Definition cand_pos LU_new (i : Z) : Z * Z :=
  (get (rowidx LU_new) i, get (col LU_new) i).

Definition cand_upto LU_new (n : nat) : list (Z * Z) :=
  (λ i : nat, cand_pos LU_new (Z.of_nat i)) <$> seq 0 n.

(** The positions of the first [n] candidates that the factor [LU] does
    not hold, each position once. *)
Definition new_upto LU LU_new (n : nat) : list (Z * Z) :=
  remove_dups (filter (λ p, present LU p.1 p.2 = false) (cand_upto LU_new n)).

Definition new_positions LU LU_new : list (Z * Z) :=
  new_upto LU LU_new (Z.to_nat (nnz LU_new)).

Lemma cand_upto_S LU_new n :
  cand_upto LU_new (S n)
  = cand_upto LU_new n ++ [cand_pos LU_new (Z.of_nat n)].
Proof. unfold cand_upto. by rewrite seq_S, fmap_app. Qed.

Lemma new_upto_old LU LU_new n :
  present LU (cand_pos LU_new (Z.of_nat n)).1 (cand_pos LU_new (Z.of_nat n)).2
    = true ∨
  cand_pos LU_new (Z.of_nat n) ∈ cand_upto LU_new n →
  length (new_upto LU LU_new (S n)) = length (new_upto LU LU_new n).
Proof.
  intros Hold. unfold new_upto. rewrite cand_upto_S, filter_app.
  set (p := cand_pos LU_new (Z.of_nat n)) in *.
  destruct (present LU p.1 p.2) eqn:Hp.
  - rewrite filter_cons_False, filter_nil, app_nil_r by congruence. done.
  - destruct Hold as [?|Hin]; [done|].
    rewrite filter_cons_True, filter_nil by done.
    rewrite remove_dups_snoc_length.
    destruct (decide _) as [_|Hn]; [done|].
    exfalso. apply Hn. by apply list_elem_of_filter.
Qed.

Lemma new_upto_new LU LU_new n :
  present LU (cand_pos LU_new (Z.of_nat n)).1 (cand_pos LU_new (Z.of_nat n)).2
    = false →
  cand_pos LU_new (Z.of_nat n) ∉ cand_upto LU_new n →
  length (new_upto LU LU_new (S n)) = S (length (new_upto LU LU_new n)).
Proof.
  intros Hp Hnew. unfold new_upto. rewrite cand_upto_S, filter_app.
  rewrite filter_cons_True, filter_nil by done.
  rewrite remove_dups_snoc_length.
  destruct (decide _) as [Hin|_]; [|done].
  exfalso. by apply list_elem_of_filter in Hin as [_ Hin].
Qed.

Lemma new_upto_step LU LU_new n :
  (length (new_upto LU LU_new n) ≤ length (new_upto LU LU_new (S n)))%nat.
Proof.
  destruct (present LU (cand_pos LU_new (Z.of_nat n)).1
              (cand_pos LU_new (Z.of_nat n)).2) eqn:Hp.
  { rewrite new_upto_old by auto. lia. }
  destruct (decide (cand_pos LU_new (Z.of_nat n) ∈ cand_upto LU_new n)).
  - rewrite new_upto_old by auto. lia.
  - rewrite new_upto_new by done. lia.
Qed.

Lemma new_upto_mono LU LU_new n m :
  (n ≤ m)%nat →
  (length (new_upto LU LU_new n) ≤ length (new_upto LU LU_new m))%nat.
Proof.
  induction 1 as [|m _ IH]; [done|].
  pose proof (new_upto_step LU LU_new m). lia.
Qed.

(** The entries of the factor after a slot is linked: those from before
    and the candidate. *)
Lemma graft_entries LU LU' loc r c r0 c0 :
  graft_ok LU LU' loc r c → free_slot LU loc → I1 LU → I4 LU' →
  is_row LU r → is_row LU r0 →
  has_entry LU' r0 c0 → has_entry LU r0 c0 ∨ (r0 = r ∧ c0 = c).
Proof.
  intros Hg Hfree H1 H4' Hr Hr0 (l' & s & Hl' & Hs & Hcs).
  destruct (H1 r0 Hr0) as [l Hl].
  destruct (go_chain _ _ _ _ _ Hg r0 l Hl) as (l2 & Hl2 & _ & Hsub & _).
  rewrite (row_chain_det _ _ _ _ Hl' Hl2) in Hs.
  assert (Hrows : ∀ x, is_row LU x → is_row LU' x).
  { intros x. unfold is_row. by rewrite (go_rows _ _ _ _ _ Hg). }
  destruct (Hsub s Hs) as [->|Hin].
  - right. split; [|by rewrite <- Hcs, (go_col_loc _ _ _ _ _ Hg)].
    destruct (go_here _ _ _ _ _ Hg) as (lr & Hlr & Hinr).
    pose proof (H4' r0 l2 (Hrows _ Hr0) Hl2) as A0.
    pose proof (H4' r lr (Hrows _ Hr) Hlr) as A1.
    rewrite Forall_forall in A0, A1.
    destruct (A0 loc Hs) as [<- _]. by destruct (A1 loc Hinr) as [<- _].
  - left. exists l, s. split; [done|]. split; [done|].
    rewrite <- Hcs. symmetry. apply (go_col _ _ _ _ _ Hg).
    intros ->. by apply (free_slot_not_in LU loc r0 l).
Qed.

(** The loop uses a freed slot for a candidate exactly when its position
    is neither in the factor nor among the candidates before it. *)
Lemma insert_loop_count num_rm rm_loc LU_new LU0 :
  I1 LU0 → insert_inputs num_rm rm_loc LU_new LU0 →
  (∀ i r c, 0 ≤ i < nnz LU_new →
     rd (rowidx LU_new) i = Some r → rd (col LU_new) i = Some c → 0 ≤ c < r) →
  ∀ fuel LU i ni,
    loop_inv num_rm rm_loc LU0 LU ni → sinv LU →
    0 ≤ i ≤ nnz LU_new → ni ≤ num_rm →
    (∀ p, p ∈ cand_upto LU_new (Z.to_nat i) → has_entry LU p.1 p.2) →
    (∀ r c, is_row LU0 r → has_entry LU r c →
       has_entry LU0 r c ∨ (r, c) ∈ cand_upto LU_new (Z.to_nat i)) →
    ni = Z.of_nat (length (new_upto LU0 LU_new (Z.to_nat i))) →
    (Z.to_nat (nnz LU_new - i) < fuel)%nat →
    ∃ LU' i' ni',
      insert_loop fuel num_rm rm_loc LU_new LU i ni = Some (LU', i', ni') ∧
      i ≤ i' ≤ nnz LU_new ∧ (num_rm ≤ ni' ∨ i' = nnz LU_new) ∧
      ni' ≤ num_rm ∧
      ni' = Z.of_nat (length (new_upto LU0 LU_new (Z.to_nat i'))) ∧
      (∀ p, p ∈ cand_upto LU_new (Z.to_nat i') → has_entry LU' p.1 p.2) ∧
      (∀ r c, is_row LU0 r → has_entry LU' r c →
         has_entry LU0 r c ∨ (r, c) ∈ cand_upto LU_new (Z.to_nat i')) ∧
      sinv LU'.
Proof.
  intros H10 Hin Hbelow fuel.
  induction fuel as [|fuel IH];
    intros LU i ni Hinv Hs Hi Hle Hcov Hsound Hcount Hf; [lia|].
  cbn [insert_loop]. destruct (Z.ltb_spec ni num_rm) as [Hlt|Hge].
  2:{ exists LU, i, ni. split; [done|]. split; [lia|]. split; [left; lia|].
      by do 4 (split; [done|]). }
  destruct (Z.leb_spec (nnz LU_new) i) as [Hend|Hgt].
  { exists LU, i, ni. split; [done|]. split; [lia|]. split; [right; lia|].
    by do 4 (split; [done|]). }
  destruct (insert_step_inv num_rm rm_loc LU_new LU0 LU i ni Hin Hinv
              ltac:(lia) Hlt)
    as (LU1 & ni1 & loc & r & c & l0 & Hstep & _ & Hfree & Hr & Hc & Hrow & Hl0
        & Hcase & Hinv1).
  destruct (insert_step_sinv num_rm rm_loc LU_new LU0 LU i ni Hin Hinv Hs
              ltac:(lia) Hlt) as (LU1' & ni1' & Hstep' & _ & Hs1).
  { intros r' c'. apply Hbelow. lia. }
  rewrite Hstep in Hstep'. injection Hstep' as <- <-.
  rewrite Hstep. cbn [mbind option_bind].
  assert (Hpos : cand_pos LU_new (Z.of_nat (Z.to_nat i)) = (r, c)).
  { unfold cand_pos. rewrite Z2Nat.id by lia.
    by rewrite (rd_get _ _ _ Hr), (rd_get _ _ _ Hc). }
  assert (Hnext : Z.to_nat (i + 1) = S (Z.to_nat i)) by lia.
  assert (Hrow0 : is_row LU0 r).
  { unfold is_row in *. by rewrite <- (li_rows _ _ _ _ _ Hinv). }
  destruct (H10 r Hrow0) as [lr0 Hlr0].
  pose proof (Hbelow i r c ltac:(lia) Hr Hc) as Hcr.
  assert (Hdec : has_entry LU r c ∧ LU1 = LU ∧ ni1 = ni ∨
                 ¬ has_entry LU r c ∧ ni1 = ni + 1 ∧
                 graft_ok LU LU1 loc r c).
  { destruct Hcase as [(-> & -> & [(s & Hsl & Hsc)|Hall])|(-> & Hg & Hno)].
    - left. split; [by exists l0, s|done].
    - exfalso. destruct (si_I5 _ Hs r l0 Hrow Hl0) as (l1 & d & -> & Hcd).
      rewrite Forall_forall in Hall.
      assert (get (col LU) d < c) by (apply Hall; in_list). lia.
    - right. split; [|done]. intros (l & s & Hl & Hsl & Hsc).
      rewrite (row_chain_det _ _ _ _ Hl Hl0) in Hsl.
      apply (Hno (StronglySorted_Sorted (si_I2 _ Hs r l0 Hrow Hl0)) s Hsl Hsc). }
  destruct Hdec as [(Hhas & -> & ->)|(Habs & -> & Hg)].
  - (* the position is in the factor: no slot is used *)
    destruct (IH LU (i + 1) ni Hinv1 Hs1)
      as (LU' & i' & ni' & Hloop & Hi' & Hrest); try done; try lia.
    4:{ exists LU', i', ni'. split; [done|]. split; [lia|done]. }
    + rewrite Hnext, cand_upto_S, Hpos. intros p [Hp|Hp]%elem_of_app;
        [by apply Hcov|]. apply list_elem_of_singleton in Hp as ->. done.
    + rewrite Hnext, cand_upto_S. intros r0 c0 Hr0 Hh.
      destruct (Hsound r0 c0 Hr0 Hh); [by left|right; in_list].
    + rewrite Hnext, new_upto_old; [done|]. rewrite Hpos. cbn [fst snd].
      destruct (Hsound r c Hrow0 Hhas) as [H0|Hc0]; [|by right].
      left. by apply (present_has_entry LU0 r c lr0).
  - (* the position is new: the slot [loc] is used *)
    assert (Hnot0 : present LU0 r c = false).
    { destruct (present LU0 r c) eqn:Hp; [|done]. exfalso. apply Habs.
      apply (li_mono _ _ _ _ _ Hinv). by apply (present_has_entry LU0 r c lr0). }
    assert (Hnotc : (r, c) ∉ cand_upto LU_new (Z.to_nat i)).
    { intros Hp. by apply Habs, (Hcov (r, c)). }
    destruct (IH LU1 (i + 1) (ni + 1) Hinv1 Hs1)
      as (LU' & i' & ni' & Hloop & Hi' & Hrest); try done; try lia.
    4:{ exists LU', i', ni'. split; [done|]. split; [lia|done]. }
    + rewrite Hnext, cand_upto_S, Hpos. intros p [Hp|Hp]%elem_of_app.
      * by apply (graft_has_entry LU LU1 loc r c), Hcov.
      * apply list_elem_of_singleton in Hp as ->.
        by apply (graft_here LU LU1 loc r c).
    + rewrite Hnext, cand_upto_S, Hpos. intros r0 c0 Hr0 Hh.
      assert (Hr0' : is_row LU r0).
      { unfold is_row in *. by rewrite (li_rows _ _ _ _ _ Hinv). }
      destruct (graft_entries LU LU1 loc r c r0 c0 Hg Hfree (si_I1 _ Hs)
                  (si_I4 _ Hs1) Hrow Hr0' Hh) as [Hh0|[-> ->]].
      * destruct (Hsound r0 c0 Hr0 Hh0); [by left|right; in_list].
      * right. in_list.
    + rewrite Hnext, new_upto_new; [lia| |]; by rewrite Hpos.
Qed.

End InsertCount.

Section InsertCountClaim.
Context {V : Type} `{Scalar V}.
Implicit Types LU LU_new : magma_z_matrix V.

(** C6. A duplicate candidate does not use a freed slot. When the round
    is not skipped and the order statistics succeed, the insertion of
    candidates below the diagonal returns with [num_insert] equal to the
    number of the positions of candidates that the factor did not hold,
    each position counted once however often the candidates repeat it,
    or to [num_rm] when there are more of them. The slots
    [rm_loc[0]], ..., [rm_loc[num_insert-1]] hold candidates in their
    rows and the slots from [rm_loc[num_insert]] on are still free. Every
    candidate that the loop has treated is an entry of the factor, the
    factor has no entry besides those from before and these candidates,
    and no row holds a column twice: a position that two candidates
    name is inserted once, with one slot. *)
Theorem insert_duplicate_candidate sel tri num_rm rm_loc LU_new LU :
  dims LU → I1 LU → I2 LU → I4 LU → I5 LU → Icol LU → I6 LU →
  insert_inputs num_rm rm_loc LU_new LU →
  (∀ i r c, 0 ≤ i < nnz LU_new →
     rd (rowidx LU_new) i = Some r → rd (col LU_new) i = Some c → 0 ≤ c < r) →
  0 ≤ num_rm < nnz LU_new →
  (sel (val LU_new) num_rm (nnz LU_new - 1) 1).1.1 = 0 →
  ∃ LU_new' LU' i' ni',
    magma_zmdynamicic_insert sel tri num_rm rm_loc LU_new LU
      = Some (0, LU_new', LU') ∧
    insert_loop (S (Z.to_nat (nnz LU_new))) num_rm rm_loc LU_new' LU 0 0
      = Some (LU', i', ni') ∧
    ni' = Z.min num_rm (Z.of_nat (length (new_positions LU LU_new))) ∧
    (∀ k, 0 ≤ k < ni' →
       ∃ loc i r c l,
         rd rm_loc k = Some loc ∧ 0 ≤ i < nnz LU_new ∧
         rd (rowidx LU_new) i = Some r ∧ rd (col LU_new) i = Some c ∧
         rd (rowidx LU') loc = Some r ∧ get (col LU') loc = c ∧
         row_chain LU' r l ∧ loc ∈ l) ∧
    (∀ k, ni' ≤ k < num_rm → ∃ loc, rd rm_loc k = Some loc ∧ free_slot LU' loc) ∧
    (∀ p, p ∈ cand_upto LU_new (Z.to_nat i') → has_entry LU' p.1 p.2) ∧
    (∀ r c, is_row LU r → has_entry LU' r c →
       has_entry LU r c ∨ (r, c) ∈ cand_upto LU_new (Z.to_nat i')) ∧
    I3 LU'.
Proof.
  intros Hd H1 H2 H4 H5 Hc H6 Hin Hbelow Hnum Hsel.
  unfold magma_zmdynamicic_insert, rank_and_insert.
  destruct (Z.leb_spec (nnz LU_new) num_rm); [lia|].
  destruct (sel (val LU_new) num_rm (nnz LU_new - 1) 1) as [[info v] e].
  cbn [fst snd] in Hsel. subst info. cbn [negb Z.eqb]. cbv beta iota zeta.
  pose proof (insert_inputs_set_val _ _ _ _ v Hin) as Hin'.
  pose proof (loop_inv_init _ _ _ _ Hd H1 H2 Hin) as Hinv.
  destruct (insert_loop_count num_rm rm_loc (set_val LU_new v) LU H1 Hin' Hbelow
              (S (Z.to_nat (nnz LU_new))) LU 0 0 Hinv
              (SInv _ Hd H1 H2 H4 H5 Hc H6))
    as (LU' & i' & ni' & Hloop & Hi' & Hend & Hle & Hcount & Hcov & Hsound & Hs');
    [simpl; lia|lia|by intros p ?%elem_of_nil|by left|done|simpl; lia|].
  destruct (insert_loop_frame num_rm rm_loc (set_val LU_new v) LU Hin'
              (S (Z.to_nat (nnz LU_new))) LU 0 0 Hinv
              (ins_frame_init rm_loc (set_val LU_new v) LU))
    as (LU2 & i2 & ni2 & Hloop2 & Hinv2 & [_ Hnew] & _); [lia|lia|simpl; lia|].
  rewrite Hloop in Hloop2. injection Hloop2 as <- <- <-.
  rewrite Hloop. cbn [mbind option_bind].
  exists (set_val LU_new v), LU', i', ni'. do 2 (split; [done|]).
  change (nnz (set_val LU_new v)) with (nnz LU_new) in *.
  change (new_upto LU (set_val LU_new v)) with (new_upto LU LU_new) in Hcount.
  change (cand_upto (set_val LU_new v)) with (cand_upto LU_new) in *.
  split.
  { unfold new_positions. destruct Hend as [Hfull| ->]; [|lia].
    pose proof (new_upto_mono LU LU_new (Z.to_nat i') (Z.to_nat (nnz LU_new))
                  ltac:(lia)). lia. }
  split.
  { intros k Hk.
    destruct (Hnew k Hk) as (loc & i & r & c & l & E1 & E2 & E3 & E4 & _ & E6
                             & E7 & E8 & E9).
    by exists loc, i, r, c, l. }
  split; [apply (li_free _ _ _ _ _ Hinv2)|].
  do 2 (split; [done|]). apply I2_I3, Hs'.
Qed.

End InsertCountClaim.

(** ** The entry of [A] that the sweep and the residuals read *)

Section EntryOfA.
Context {V : Type} `{Scalar V}.
Implicit Types A : magma_z_matrix V.

Lemma A_scan_absent A c n : ∀ i acc,
  length (val A) = length (col A) → 0 ≤ i →
  i + Z.of_nat n ≤ Z.of_nat (length (col A)) →
  (∀ k, i ≤ k < i + Z.of_nat n → get (col A) k ≠ c) →
  A_scan A c n i acc = Some acc.
Proof.
  induction n as [|n IH]; intros i acc Hlen Hi Hn Habs; [done|].
  cbn [A_scan]. rewrite (get_rd (col A) i) by lia. cbn [mbind option_bind].
  destruct (Z.eqb_spec (get (col A) i) c) as [Heq|_].
  { exfalso. apply (Habs i); [lia|done]. }
  apply IH; [done|lia|lia|]. intros k Hk. apply Habs. lia.
Qed.

Lemma A_scan_last A c n : ∀ i acc k v,
  length (val A) = length (col A) → 0 ≤ i →
  i + Z.of_nat n ≤ Z.of_nat (length (col A)) →
  i ≤ k < i + Z.of_nat n → get (col A) k = c → rd (val A) k = Some v →
  (∀ k', k < k' < i + Z.of_nat n → get (col A) k' ≠ c) →
  A_scan A c n i acc = Some v.
Proof.
  induction n as [|n IH]; intros i acc k v Hlen Hi Hn Hk Hck Hv Hlast; [lia|].
  cbn [A_scan]. rewrite (get_rd (col A) i) by lia. cbn [mbind option_bind].
  destruct (Z.eq_dec k i) as [->|Hne].
  - rewrite Hck, Z.eqb_refl, Hv. cbn [mbind option_bind].
    apply A_scan_absent; [done|lia|lia|]. intros k' Hk'. apply Hlast. lia.
  - destruct (get (col A) i =? c).
    + destruct (rd_is_Some (val A) i) as [vi Hvi]; [lia|]. rewrite Hvi.
      cbn [mbind option_bind].
      apply (IH (i + 1) vi k v); [done|lia|lia|lia|done|done|].
      intros k' Hk'. apply Hlast. lia.
    + apply (IH (i + 1) acc k v); [done|lia|lia|lia|done|done|].
      intros k' Hk'. apply Hlast. lia.
Qed.

(** The scan of row [r] of [A] for the column [c] gives zero when the row
    has no entry in this column, and the value of the last entry with
    this column otherwise. *)
Theorem A_entry_lookup A r c :
  csr_ok A → 0 ≤ r < num_rows A →
  ∃ lo hi,
    rd (row A) r = Some lo ∧ rd (row A) (r + 1) = Some hi ∧
    ((∀ k, lo ≤ k < hi → get (col A) k ≠ c) → A_entry A r c = Some zero) ∧
    (∀ k v, lo ≤ k < hi → get (col A) k = c → rd (val A) k = Some v →
       (∀ k', k < k' < hi → get (col A) k' ≠ c) → A_entry A r c = Some v).
Proof.
  intros [Hlen Hrow] Hr. destruct (Hrow r Hr) as (lo & hi & Hlo & Hhi & Hl & Hh).
  exists lo, hi. do 2 (split; [done|]). unfold A_entry. rewrite Hlo, Hhi.
  cbn [mbind option_bind]. split.
  - intros Habs. apply A_scan_absent; [done|lia|lia|].
    intros k Hk. apply Habs. lia.
  - intros k v Hk Hck Hv Hlast.
    apply (A_scan_last A c _ lo zero k v); [done|lia|lia|lia|done|done|].
    intros k' Hk'. apply Hlast. lia.
Qed.

End EntryOfA.

Lemma ex_cand_present_rows i :
  0 ≤ i < Z.of_nat (length (rowidx ex_cand_present)) →
  ∃ r c, rd (rowidx ex_cand_present) i = Some r ∧
         rd (col ex_cand_present) i = Some c ∧
         is_row ex_LU r ∧ has_entry ex_LU r c.
Proof.
  intros Hi. simpl in Hi.
  destruct (ex_cand_present_in i Hi) as (r & c & Hr & Hc & Hhas).
  exists r, c. do 2 (split; [done|]). split; [|done].
  assert (i = 0 ∨ i = 1 ∨ i = 2) as [-> | [-> | ->]] by lia;
    injection Hr as <-; unfold is_row; simpl; lia.
Qed.

Lemma insert_om_runs_past_end_witness :
  magma_zmdynamicic_insert_om select_model 0 2 ex_rm_loc ex_cand_present ex_LU
    = None ∧
  ∀ fuel v,
    insert_loop_om fuel 2 ex_rm_loc (set_val ex_cand_present v) ex_LU 0 0
    = None.
Proof.
  apply (insert_om_runs_past_end select_model 0 2 ex_rm_loc ex_cand_present
           ex_LU); try apply ex_LU_wf.
  - apply ex_cand_present_rows.
  - simpl. lia.
  - reflexivity.
Defined.

(** With one slot to fill, both variants put the candidate [(2,1)] in the
    slot [5], between the slots [3] and [4] of row [2]. *)
Lemma insert_om_agrees_witness :
  snd <$> magma_zmdynamicic_insert select_model 0 1 ex_rm_loc ex_cand ex_LU
  = Some (Matrix 3 3 7 [1; 2; 3; 0] [0; 0; 1; 2; 2; 2; 0]
            [0; 0; 1; 0; 2; 1; 0] [-1; 0; 0; 5; 0; 4; -1]
            [0; 2; 3; 1; 5; 0; 0]) ∧
  snd <$> magma_zmdynamicic_insert_om select_model 0 1 ex_rm_loc ex_cand ex_LU
  = Some (Matrix 3 3 7 [1; 2; 3; 0] [0; 0; 1; 2; 2; 2; 0]
            [0; 0; 1; 0; 2; 1; 0] [-1; 0; 0; 5; 0; 4; -1]
            [0; 2; 3; 1; 5; 0; 0]).
Proof.
  apply (insert_om_agrees select_model select_model 0 1 ex_rm_loc ex_cand
           ex_LU); try apply ex_LU_wf; try reflexivity.
  - constructor.
    + intros i Hi. destruct (ii_cand _ _ _ _ (ex_inputs ex_cand eq_refl) i Hi)
        as (r & c & Hr). by exists r, c.
    + intros k Hk. apply (ii_free _ _ _ _ (ex_inputs ex_cand eq_refl)). lia.
    + intros k1 k2 s Hk1 Hk2.
      apply (ii_distinct _ _ _ _ (ex_inputs ex_cand eq_refl)); lia.
  - simpl. lia.
Defined.

Lemma insert_covers_candidates_witness :
  ∃ LU_new' LU',
    magma_zmdynamicic_insert select_model 0 2 ex_rm_loc ex_cand ex_LU
      = Some (0, LU_new', LU') ∧
    ∀ k, 0 ≤ k < 2 →
      ∃ r c, rd (rowidx ex_cand) k = Some r ∧ rd (col ex_cand) k = Some c ∧
             has_entry LU' r c.
Proof.
  apply (insert_covers_candidates select_model 0 2 ex_rm_loc ex_cand ex_LU);
    try apply ex_LU_wf; try apply ex_LU_I6; try apply ex_cand_below;
    try (simpl; lia); try reflexivity.
  apply ex_inputs. reflexivity.
Defined.

(** In row [2] of [ex_A] the column [1] is at index [4], with the value
    [-4]. *)
Lemma A_entry_lookup_witness :
  ∃ lo hi,
    rd (row ex_A) 2 = Some lo ∧ rd (row ex_A) (2 + 1) = Some hi ∧
    ((∀ k, lo ≤ k < hi → get (col ex_A) k ≠ 1) →
     A_entry ex_A 2 1 = Some zero) ∧
    (∀ k v, lo ≤ k < hi → get (col ex_A) k = 1 → rd (val ex_A) k = Some v →
       (∀ k', k < k' < hi → get (col ex_A) k' ≠ 1) →
       A_entry ex_A 2 1 = Some v).
Proof.
  apply (A_entry_lookup ex_A 2 1); [apply ex_A_ok|simpl; lia].
Defined.

(** The candidates [(2,1)], [(2,1)], [(1,0)] with two freed slots: two
    positions are new, and both slots are used. *)
Lemma insert_duplicate_candidate_witness :
  ∃ LU_new' LU' i' ni',
    magma_zmdynamicic_insert select_model 0 2 ex_rm_loc ex_cand ex_LU
      = Some (0, LU_new', LU') ∧
    insert_loop (S (Z.to_nat (nnz ex_cand))) 2 ex_rm_loc LU_new' ex_LU 0 0
      = Some (LU', i', ni') ∧
    ni' = Z.min 2 (Z.of_nat (length (new_positions ex_LU ex_cand))) ∧
    (∀ k, 0 ≤ k < ni' →
       ∃ loc i r c l,
         rd ex_rm_loc k = Some loc ∧ 0 ≤ i < nnz ex_cand ∧
         rd (rowidx ex_cand) i = Some r ∧ rd (col ex_cand) i = Some c ∧
         rd (rowidx LU') loc = Some r ∧ get (col LU') loc = c ∧
         row_chain LU' r l ∧ loc ∈ l) ∧
    (∀ k, ni' ≤ k < 2 → ∃ loc, rd ex_rm_loc k = Some loc ∧ free_slot LU' loc) ∧
    (∀ p, p ∈ cand_upto ex_cand (Z.to_nat i') → has_entry LU' p.1 p.2) ∧
    (∀ r c, is_row ex_LU r → has_entry LU' r c →
       has_entry ex_LU r c ∨ (r, c) ∈ cand_upto ex_cand (Z.to_nat i')) ∧
    I3 LU'.
Proof.
  apply (insert_duplicate_candidate select_model 0 2 ex_rm_loc ex_cand ex_LU);
    try apply ex_LU_wf; try apply ex_LU_I6; try apply ex_cand_below;
    try (simpl; lia); try reflexivity.
  apply ex_inputs. reflexivity.
Defined.

(** The second candidate at [(2,1)] uses no slot: the slot [5] holds
    [(2,1)] and the slot [6] is left for [(1,0)]. With three candidates at
    [(2,1)] one position is new, [num_insert] ends at [1] and the slot
    [6] stays free. *)
Example insert_duplicate_example :
  new_positions ex_LU ex_cand = [(2, 1); (1, 0)] ∧
  insert_loop 4 2 ex_rm_loc ex_cand ex_LU 0 0
  = Some (Matrix 3 3 7 [1; 6; 3; 0] [0; 0; 1; 2; 2; 2; 1]
            [0; 0; 1; 0; 2; 1; 0] [-1; 0; 0; 5; 0; 4; 2]
            [0; 2; 3; 1; 5; 0; 0], 3, 2) ∧
  new_positions ex_LU ex_cand3 = [(2, 1)] ∧
  insert_loop 4 2 ex_rm_loc ex_cand3 ex_LU 0 0
  = Some (Matrix 3 3 7 [1; 2; 3; 0] [0; 0; 1; 2; 2; 2; 0]
            [0; 0; 1; 0; 2; 1; 0] [-1; 0; 0; 5; 0; 4; -1]
            [0; 2; 3; 1; 5; 0; 0], 3, 1).
Proof. repeat split; reflexivity. Qed.

(** ** The sweep with one thread *)

Section SweepInOrder.
Context {V : Type} `{Scalar V}.
Implicit Types A LU : magma_z_matrix V.

Lemma in_order_ok LU : sched_ok (in_order (nnz LU)) LU.
Proof.
  constructor; cbn [in_order order].
  - apply NoDup_seqZ.
  - intros e. rewrite elem_of_seqZ. lia.
Qed.

(** The values that the turn of the slot [e] reads in the run with one
    thread: those that the sweep writes for the slots before [e], and
    those from before the sweep for [e] and the slots after it. *)
Definition reads_in_order LU (v : list V) (e : Z) : operand → Z → V :=
  λ _ k, if bool_decide (0 ≤ k < e) then val_at v k else valof LU k.

(** With one thread the sweep treats the slots in index order, and every
    live slot gets the value of [sweep_value] on the new values of the
    slots before it and the old values of the others. *)
Theorem sweep_in_order A LU :
  dims LU → I1 LU → I2 LU → I4 LU → I5 LU → Icol LU → I6 LU →
  csr_ok A → num_rows A = num_rows LU →
  ∃ v,
    magma_zmdynamicic_sweep A (in_order (nnz LU)) LU = Some (0, set_val LU v) ∧
    ∀ e, 0 ≤ e < nnz LU → get (llist LU) e ≠ -1 →
      rd v e = Some (sweep_value A LU (reads_in_order LU v e) e).
Proof.
  intros Hd H1 H2 H4 H5 Hc H6 HA Hn.
  destruct (sweep_spec A (in_order (nnz LU)) LU (SInv _ Hd H1 H2 H4 H5 Hc H6)
              HA Hn (in_order_ok LU)) as (v & Hrun & _ & _ & Hlive).
  exists v. split; [done|]. intros e He Hl.
  rewrite (Hlive (Z.to_nat e) e); [|cbn [in_order order]|done].
  2:{ apply lookup_seqZ. lia. }
  f_equal. apply sweep_value_reads. intros o k.
  unfold reads, reads_in_order. cbn [in_order seen order].
  rewrite Nat.min_r by lia.
  rewrite (bool_decide_ext (k ∈ take (Z.to_nat e) (seqZ 0 (nnz LU)))
             (0 ≤ k < e)); [done|].
  rewrite elem_of_take. split.
  - intros (i & [-> Hi]%lookup_seqZ & Hie). lia.
  - intros Hk. exists (Z.to_nat k). split; [apply lookup_seqZ|]; lia.
Qed.

End SweepInOrder.

Lemma sweep_in_order_witness :
  ∃ v,
    magma_zmdynamicic_sweep ex_A2 (in_order (nnz ex_L2)) ex_L2
      = Some (0, set_val ex_L2 v) ∧
    ∀ e, 0 ≤ e < nnz ex_L2 → get (llist ex_L2) e ≠ -1 →
      rd v e = Some (sweep_value ex_A2 ex_L2 (reads_in_order ex_L2 v e) e).
Proof.
  apply (sweep_in_order ex_A2 ex_L2); try apply ex_L2_wf.
  - apply ex_L2_I6.
  - apply ex_A2_ok.
  - reflexivity.
Defined.
